(* ===== verification/_CoqProject ===== *)
-Q . S2P
Prelude.v
Gnet.v
Util.v
CutStorage.v
Walker.v
ConeVisitor.v
CutsFinder.v
TruthTable.v
Npn.v
Params.v
Dot.v
Scenario.v
Tracker.v
Reports.v
