(* ===== verification/Prelude.v ===== *)
(** * Cut enumeration, cone extraction and NPN statistics: a Rocq model

    This development models the optimizer core of the Utopia gate-level
    library ([src/src/gate/optimizer]): K-feasible cut enumeration with
    subsumption pruning, the visitor/walker traversal framework, the cut
    and cone utilities, the cone extractor, the NPN statistics collector
    and its reports, the plain parameters collector, the tracker visitor,
    the DOT printer and the synthesis scenario optimizer.  The code is modelled as written (shallow embedding): each
    C++ function is a Rocq function, mutable state is passed explicitly,
    undefined behaviour (dereferencing an [end()] iterator, reading an
    index before [begin()]) is the value [Undef] of the result type
    [Result], and every loop whose termination is not structural runs on
    fuel, with a theorem that the fuel chosen suffices.

    ** Parts of the program and how they interact

    - The gate network [GNet] (header [gate/model/gnet.h], not under
      [src/]) is the read-only input.  File [Gnet.v] models it from the
      spec: a gate has a function symbol ([GateSymbol]) and an ordered
      input list; the successor list [links] is derived from the inputs.
      The semantic notion of a cut ([covered]: every path from a source
      to the root meets the cut) lives there too, with the example nets
      the witnesses run on.
    - [Util.v] models [util.cpp]: [getNext], the breadth-first searches
      [isCut], [getConeSet] (both overloads) and [getHeights], and
      [findDominators] with [intersect].  The searches share the loop
      combinator [bfs_loop] ([while (!bfs.empty())] over a queue kept as
      a list).
    - [CutStorage.v] models [cut_storage.h]: a cut is a [gset], a set of
      cuts is the list of its elements in iteration order, the storage a
      [gmap]; the hash [HashFunction] on 64-bit words; [isSubsetOf]
      ([util.cpp]) and the subsumption step (scan, erase, emplace) of
      [CutsFindVisitor::onNodeBeginNew].
    - [Walker.v] models the visitor protocol ([visitor.h],
      [cut_visitor.h]: [VisitorFlags], records [Visitor] and
      [CutVisitor]) and [walker.cpp] / [cut_walker.cpp]: the walks over an
      explicit order, the two-phase cone walks ([walk_cone] for
      [walk(bfs, accessed, forward)] with [checkVisited], [walk_all] for
      [walkAll] with [checkAllVisited], and the entry points
      [walk_start_cut], [walk_start], [walk_cut_end], [walk_used]), and
      [CutWalker::callVisitor].  A visitor's state is passed explicitly;
      [traced] wraps a visitor to record the nodes it is called on.
    - [ConeVisitor.v] models [cone_visitor.cpp] and [extractCone]: the
      visitor copies the cone into a new net (built by [addGate], fresh
      ids from a base) while [walk_cut_end] visits it from the cut up to
      the root.
    - [CutsFinder.v] models the cut enumerator [CutsFindVisitor]
      ([cuts_finder_visitor.cpp]): the bounded union of one combination
      ([fix_cut]), the radix counter over the Cartesian product ([carry],
      the [incrementAll] shortcut [incr_all]), the enumeration loops of
      the legacy and the new algorithm, the handlers [onNodeBeginOld] /
      [onNodeBeginNew] with the recursive population of empty input cut
      sets, and [findCuts], the topological walk with this visitor.
    - [TruthTable.v] models, from the spec, [TruthTable::build] and the
      NPN canonization of kitty (neither under [src/]): a table of [k]
      inputs is a word of [2^k] bits in [Z]; [build] simulates an
      extracted cone gate by gate; [npn_class] saturates the table under
      the generators of the NPN group (output negation, one input
      negated, two adjacent inputs swapped) breadth-first and keeps the
      least table of the orbit.
    - [Npn.v] models [npn/npn_collector.cpp]: the records [NPNStats],
      [GateStats] and the collector's two tables, [addNPNStat],
      [fillNPNStats] (cone extraction, [build], [truthTableToNPN]),
      [process] as its collection ([process_collect]: [findCuts] and
      the loop over the storage, [process_storage]) followed by its
      averaging loop ([process_averages]) with
      [calculateAverageAndDeviation] on IEEE doubles (Rocq's primitive
      floats; an [int] that was never written is [None], and reading it
      is [Undef]), and [getEssentialCones] with its inner loop body
      [add_cone].
      The canonizer is reached through the type class [NPNCanonizer 6]
      with the laws [NPNCanonizerLaws] (the spec's contract), which
      [npn_class] satisfies; the collector's theorems hold for every
      canonizer, or every lawful one.
    - [Params.v] models [plain_parameters_collector.cpp]: the six
      passes of [collect] over [gates()] (an explicit order), and
      [findLongestPath] with its map of distances.
    - [Dot.v] models [gate/printer/dot.cpp]: the table [funcNames] built
      by its resize-and-assign lambda, [Dot::print] and
      [Dot::printColor], a stream being the list of the lines written
      (every write ends with [std::endl]).
    - [Scenario.v] models [synthesis_scenario_optimizer.cpp]: the
      optimizer's state, [readSynthesisScenarios] with [std::getline] on
      the file's contents, [collectParameters] (the collector of
      [Params.v]), the evaluation through the Python predictor (an
      oracle returning a [PyOutcome]) and
      [evaluateAndSelectBestScenarios], whose [std::sort] is the
      interface [StdSort] with the standard's guarantees
      ([StdSortLaws]), implemented by an insertion sort.
    - [Tracker.v] models [tracker_visitor.cpp]: [TrackerVisitor] as a
      [CutVisitor] over the wrapped visitor's state, its [int counter]
      and the files it writes with [Dot::print]; paths follow
      [std::filesystem::path::operator/] on POSIX ([path_join]).  Generic
      forward and backward simulations of the walks ([walk_nodes_fwd],
      [walk_cone_fwd], [walk_nodes_bwd]) carry the wrapper's calls to
      whole walks.
    - [Reports.v] models the text reports [printGateStatistics],
      [printHistogramData] ([npn_collector.cpp]) and [printParameters]
      ([plain_parameters_collector.cpp]): a stream is the string
      written, and reading a never-assigned [int] is [Undef] (the
      [double]s of the histogram are always assigned: [-1] by default or
      computed).

    ** What the theorems show (groups; the manifest lists each one)

    - Cut sets: the subsumption step keeps a cut set an antichain; folded
      over any candidates it computes exactly the inclusion-minimal ones,
      whatever their order (refinement of the spec's "minimal cuts").
    - Enumerator: after [findCuts] every stored cut is a real cut of its
      gate ([covered]), non-empty, NOT-free, of at most K leaves unless
      trivial, the trivial cut is kept and each set is an antichain;
      [fix_cut] is the bounded union; both enumeration loops terminate
      within [enum_fuel]; without a cap the legacy loop visits the whole
      Cartesian product and stores every bounded union; the spec's
      scenarios are reproduced.
    - Utilities: [isCut] decides [covered] and returns a witness source on
      failure; [getConeSet] computes reachability cones; [findDominators]
      computes exactly the single-node cuts of every node; [getHeights]
      terminates with its [int] results in range.
    - Walks: the cone walk calls the visitor on distinct nodes of the
      cone in the order of the spec's ordering contract and terminates
      within an explicit potential; [walkAll] waits only for nodes outside
      [used].  The extracted cone is a closed, acyclic net.
    - Findings, proved as theorems: the soft cap lets a node keep M+1
      cuts; an input that is NOT of NOT makes the enumerator dereference
      an empty set; an empty input cut set makes the loop fail (reading
      or incrementing the empty set's end iterator); a backward
      [Walker::walk] over an explicit vector skips its first two nodes
      (and is undefined on short vectors).  Shown on examples: K = 1
      still yields non-trivial cuts for single-input gates; the cut hash
      depends on the iteration order; [walk(start, used)] does not wait
      for the nodes of [used]; a cut node reading another cut node is
      not made a cone input, so an irredundant cut is reported as
      smaller; [maxHeight] counts every arrival at a cut node, not its
      BFS distance.
    - NPN: two six-input tables get the same key from [truthTableToNPN]
      exactly when they are NPN-equivalent, and the key of a key is
      itself.
    - Collector: lawful canonization makes two records share a key
      exactly when their cone tables are NPN-equivalent; every record
      comes from a good cut of exactly [cutSize] leaves whose cone keeps
      the whole cut, and every such cut is recorded; the two tables count
      the same records (all of this of the collection of [process]);
      [getEssentialCones] keeps the most frequent classes, and every cone
      it returns is extracted over a record of its class;
      [calculateAverageAndDeviation] is defined exactly on non-empty
      lists of records whose heights were written.  Findings: heights
      and [GateStats::gateId] are never written, so [process] is
      undefined as soon as one cut is recorded (its averaging loop reads
      the heights); on an example, the key canonizes the raw [2^k]-bit
      table as a six-variable function, so the AND and the OR of two
      inputs (NPN-equivalent) get different keys.
    - Parameters: over a topological order [findLongestPath] returns the
      length of the longest path; over any order it returns the length of
      some path, so never more, and over another order it may return
      less.
    - DOT: [funcNames] holds every symbol's name at the symbol's value;
      [print] writes every edge and every gate without links;
      [printColor] is defined on the gates of the net and writes one
      line per gate and one per link.
    - Scenarios: reading terminates, processes the file line by line and
      keeps names free of [':'] and newlines; for every lawful [std::sort] the [min(k, n)] scenarios
      written are the best ones; the written file read back gives the
      written scenarios with a space in front of their steps (the
      writer prints [name: steps]); a NaN quality makes the sort
      undefined.
    - Tracker: a walk with the tracker computes on the wrapped state what
      the walk with the wrapped visitor computes, and is defined when
      that is and the counter has room; it writes only snapshots named
      by its counter.  Reports: after the collection of [process] the
      gate report is undefined as soon as one cut is recorded, and when
      [process] finishes the histogram is its header alone.

    ** Bounds and fuel

    Gate ids are [nat] (the C++ [unsigned]: the ids of a net are far
    below [2^32]); the fields of [PlainParameters] are [Z] (counts of
    gates, far below [2^31]); the hash is computed on
    64-bit words ([size_t]) with its wrap-around written out; heights are
    [Z] with [INT_MAX] explicit.  The enumeration loop gets [enum_fuel]:
    (number of distinct leaves + 1) times (size of the Cartesian product
    + 1), which the termination theorems show is never exhausted; the
    recursive population of input cut sets gets one unit per gate.  The
    searches of [util.cpp] keep no visited set, so their fuel is the
    weight [qweight] of the queue ([(D+1)^rank] per node for a fan bound
    [D] and a rank decreasing along the search): every iteration lowers
    it.  The cone walks take [walk_potential]: the queue weight plus, per
    node still to visit, the weight of the neighbours it may push.
    The NPN orbit is saturated with [2^(2^k+1) - 1] rounds of fuel (a
    depth [2^k + 1] of doubling), more than the [2^(2^k)] tables that
    bound the orbit; a round whose frontier is empty stops the search, so
    the rounds run are those the orbit needs, and six-input keys of small
    orbits evaluate in seconds.

    ** Not modelled

    The formatting of a [double] by [std::ostream] (a parameter of the
    histogram report), CSV output, the parsers
    ([readGraphML], [readVerilog]), the Python interpreter (its set-up
    and the module [synthesis_predictor], an oracle here), whether a
    file can be opened (an oracle), [rmRecursive] (its visitor
    [LinksRemoveCounter] is not under [src/]) and the height collection
    of the NPN collector (unreachable: [collectHeight] is never set; the
    averaging of the heights is modelled and shown undefined).
    [util.h] and [walker.h] hold declarations, modelled with the
    functions they declare.  kitty's canonization is modelled by its
    contract, not its algorithm.  The iteration order of an
    [unordered_set] or [unordered_map] is left abstract (a list, new
    elements appended; [elements] or [map_to_list] for a [gset] or a
    [gmap]), and theorems that depend on it are stated for every order
    or for an exhibited one.  Sizes cast to [int]
    ([static_cast<int>(results.size())]) are assumed below [2^31].

    This file holds what the components share: the result type with its
    monad instances, the development's tactics, the hint database
    [gate] and generic lemmas on lists and results. *)

From stdpp Require Export base gmap list sets.
From Stdlib Require Export ZArith Lia.

Declare Scope gate_scope.
Delimit Scope gate_scope with gate.
Open Scope gate_scope.

Create HintDb gate discriminated.
Create Rewrite HintDb gate_rw.

(** ** Results of code that may have undefined behaviour or run out of fuel *)

Inductive Result (A : Type) : Type :=
| Ok (a : A)
| Undef
| OutOfFuel.
Arguments Ok {A} a.
Arguments Undef {A}.
Arguments OutOfFuel {A}.

#[export] Instance result_ret : MRet Result := λ A a, Ok a.
#[export] Instance result_bind : MBind Result :=
  λ A B f m, match m with Ok a => f a | Undef => Undef | OutOfFuel => OutOfFuel end.

(** [of_option] turns a failed lookup (a dangling id or an [end()]
    iterator) into undefined behaviour. *)
Definition of_option {A} (o : option A) : Result A :=
  match o with Some a => Ok a | None => Undef end.

Notation "'ok?' m" := (∃ a, m = Ok a) (at level 20) : gate_scope.

Lemma bind_Ok {A B} (m : Result A) (f : A → Result B) b :
  (m ≫= f) = Ok b ↔ ∃ a, m = Ok a ∧ f a = Ok b.
Proof.
  destruct m as [a'| |]; simpl; split.
  - eauto.
  - by intros (a & [= ->] & ?).
  - discriminate.
  - by intros (a & ? & ?).
  - discriminate.
  - by intros (a & ? & ?).
Qed.

Lemma bind_ret {A B} (a : A) (f : A → Result B) : (Ok a ≫= f) = f a.
Proof. reflexivity. Qed.

Lemma of_option_Ok {A} (o : option A) a : of_option o = Ok a ↔ o = Some a.
Proof. destruct o; simpl; split; congruence. Qed.

#[export] Hint Rewrite @bind_ret : gate_rw.

(** A range-for loop whose body may fail. *)
Fixpoint foldM {A B} (f : A → B → Result A) (a : A) (l : list B) : Result A :=
  match l with
  | [] => Ok a
  | b :: l' => a' ← f a b; foldM f a' l'
  end.

(** An invariant of the accumulator that every successful body keeps
    holds after the loop. *)
Lemma foldM_inv {A B} (P : A → Prop) (f : A → B → Result A) a l a' :
  (∀ a b a', P a → b ∈ l → f a b = Ok a' → P a') →
  P a → foldM f a l = Ok a' → P a'.
Proof.
  revert a. induction l as [|b l IH]; intros a Hf Ha H; simpl in H; [by injection H as <-|].
  destruct (f a b) as [a1| |] eqn:E; simpl in H; try done.
  apply (IH a1); [|by eapply Hf; [|left|]|done].
  intros x y x' Hx Hy. apply Hf; [done|by right].
Qed.

(** A property established by the body at one element [b0] of the list
    and kept by every later body holds after the loop. *)
Lemma foldM_eventually {A B} (P Q : A → Prop) (f : A → B → Result A) a l a' b0 :
  b0 ∈ l →
  (∀ a b a', P a → b ∈ l → f a b = Ok a' → P a') →
  (∀ a a', P a → f a b0 = Ok a' → Q a') →
  (∀ a b a', P a → Q a → b ∈ l → f a b = Ok a' → Q a') →
  P a → foldM f a l = Ok a' → Q a'.
Proof.
  revert a. induction l as [|b l IH]; intros a Hb0 HP Hreach HQ Ha H; [set_solver|].
  simpl in H. destruct (f a b) as [a1| |] eqn:E; simpl in H; try done.
  assert (HP1 : P a1) by (eapply HP; [done|left|done]).
  apply elem_of_cons in Hb0 as [->|Hin].
  - refine (proj2 (foldM_inv (λ x, P x ∧ Q x) f a1 l a' _ _ H)); [|split; eauto].
    intros x y x' [Hx HQx] Hy Hf. split; [eapply HP|eapply HQ]; eauto; by right.
  - apply (IH a1); auto; intros; [eapply HP|eapply HQ]; eauto; by right.
Qed.

(** A loop whose body succeeds exactly on the elements satisfying [Q],
    whatever the accumulator, succeeds exactly when all do. *)
Lemma foldM_Ok_iff {A B} (Q : B → Prop) (f : A → B → Result A) a l :
  (∀ a b, (∃ a', f a b = Ok a') ↔ Q b) → (∃ a', foldM f a l = Ok a') ↔ Forall Q l.
Proof.
  intros Hf. revert a. induction l as [|b l IH]; intros a; simpl; [split; eauto|].
  rewrite Forall_cons, <- (Hf a b).
  destruct (f a b) as [a1| |]; simpl; rewrite ?IH; [naive_solver|split; [by intros [? ?]|naive_solver]..].
Qed.

(** A successful [mapM] relates each element to its image. *)
Lemma mapM_Ok {A B} (f : A → Result B) l bs :
  mapM f l = Ok bs → Forall2 (λ a b, f a = Ok b) l bs.
Proof.
  revert bs. induction l as [|a l IH]; intros bs H; simpl in H; [by injection H as <-|].
  destruct (f a) as [b| |] eqn:E; simpl in H; try done.
  destruct (mapM f l) as [bs'| |] eqn:E'; simpl in H; try done.
  injection H as <-. constructor; [done|]. by apply IH.
Qed.

(** A [mapM] whose body succeeds on every element succeeds, with one
    image per element. *)
Lemma mapM_total {A B} (f : A → Result B) l :
  (∀ a, a ∈ l → ∃ b, f a = Ok b) → ∃ bs, mapM f l = Ok bs ∧ Forall2 (λ a b, f a = Ok b) l bs.
Proof.
  induction l as [|a l IH]; intros Hf; simpl; [by eexists|].
  destruct (Hf a (list_elem_of_here _ _)) as [b Hb]. rewrite Hb. simpl.
  destruct IH as (bs & -> & Hbs); [intros; apply Hf; by right|]. eexists. split; [done|by constructor].
Qed.

Lemma mapM_fuel {A B} (f : A → Result B) l : (∀ y, f y ≠ OutOfFuel) → mapM f l ≠ OutOfFuel.
Proof.
  intros Hf. induction l as [|y l IH]; simpl; [done|].
  destruct (f y) as [b| |] eqn:E; simpl; [|done|by destruct (Hf y)].
  by destruct (mapM f l).
Qed.

(** A [mapM] whose body never runs out of fuel is undefined as soon as
    the body is undefined on one element. *)
Lemma mapM_Undef {A B} (f : A → Result B) l x :
  (∀ y, f y ≠ OutOfFuel) → x ∈ l → f x = Undef → mapM f l = Undef.
Proof.
  intros Hf Hx Hu. induction l as [|y l IH]; [by apply elem_of_nil in Hx|]. simpl.
  apply elem_of_cons in Hx as [->|Hx]; [by rewrite Hu|].
  destruct (f y) as [b| |] eqn:E; simpl; [|done|by destruct (Hf y)].
  by rewrite IH.
Qed.

(** The set of the elements of a list, built by map insertions (the
    fold of singleton unions of [list_to_set] is quadratic). *)
Definition set_of_list `{Countable A} (l : list A) : gset A :=
  dom (list_to_map ((λ y, (y, ())) <$> l) : gmap A unit).

Lemma elem_of_set_of_list `{Countable A} (l : list A) y : y ∈ set_of_list l ↔ y ∈ l.
Proof.
  unfold set_of_list. rewrite dom_list_to_map, elem_of_list_to_set, <- list_fmap_compose.
  by rewrite list_fmap_id.
Qed.

(** ** Tactics *)

(** Split every [m ≫= f = Ok b] hypothesis into its two steps. *)
Ltac inv_ok :=
  repeat match goal with
  | H : (_ ≫= _) = Ok _ |- _ =>
      apply bind_Ok in H as (? & ? & ?)
  | H : of_option _ = Ok _ |- _ => apply of_option_Ok in H
  | H : Ok _ = Ok _ |- _ => injection H as H; subst
  end.

(** Case on a [bool_decide] or [decide] in the goal and simplify. *)
Ltac decide_all :=
  repeat (case_bool_decide || case_decide); simplify_eq/=.

(** Prove a decidable proposition about concrete data by evaluation. *)
Ltac vm_decide := apply (bool_decide_eq_true_1 _); vm_compute; reflexivity.

(** ** Generic lemmas on lists *)

Section ListFacts.
Context {A : Type}.

Lemma lookup_zip_Some (l1 : list A) {B} (l2 : list B) i a b :
  l1 !! i = Some a → l2 !! i = Some b → zip l1 l2 !! i = Some (a, b).
Proof.
  revert l2 i. induction l1 as [|x l1 IH]; intros [|y l2] [|i] H1 H2;
    simplify_eq/=; eauto.
Qed.

(** Product of the lengths of a list of lists. *)
Definition prod_lengths (ls : list (list A)) : nat :=
  foldr (λ l acc, length l * acc) 1 ls.

Lemma prod_lengths_pos (ls : list (list A)) :
  Forall (λ l, l ≠ []) ls → 0 < prod_lengths ls.
Proof.
  induction 1 as [|l ls Hl _ IH]; simpl; [lia|].
  destruct l; [done|]. simpl. lia.
Qed.
Lemma Forall2_elem_l {B} (P : A → B → Prop) l1 l2 a :
  Forall2 P l1 l2 → a ∈ l1 → ∃ b, b ∈ l2 ∧ P a b.
Proof.
  induction 1 as [|x y l1 l2 Hxy _ IH]; [set_solver|].
  intros [->|Ha]%elem_of_cons; [exists y; split; [left|]; done|].
  destruct (IH Ha) as (b & Hb & HP). exists b. split; [by right|done].
Qed.

Lemma Forall2_elem_r {B} (P : A → B → Prop) l1 l2 b :
  Forall2 P l1 l2 → b ∈ l2 → ∃ a, a ∈ l1 ∧ P a b.
Proof.
  induction 1 as [|x y l1 l2 Hxy _ IH]; [set_solver|].
  intros [->|Hb]%elem_of_cons; [exists x; split; [left|]; done|].
  destruct (IH Hb) as (a & Ha & HP). exists a. split; [by right|done].
Qed.
End ListFacts.

(** ** Generic lemmas on finite sets *)

Lemma size_remove `{Countable A} (X : gset A) x : x ∈ X → size X = S (size (X ∖ {[x]})).
Proof.
  intros Hx. rewrite (union_difference_singleton_L x X Hx) at 1.
  rewrite size_union by set_solver. rewrite size_singleton. lia.
Qed.

(** The potential argument of the walks: removing one element from the
    counted set pays for [D] new queue units. *)
Lemma potential_drop (qw qw' n n' K : nat) :
  n = S n' → qw' < qw + K → qw' + n' * K < qw + n * K.
Proof. intros -> H. simpl. lia. Qed.

(** ** Sums over finite maps *)

Definition map_sum `{Countable K} {A} (f : A → nat) (m : gmap K A) : nat :=
  sum_list_with (λ p, f p.2) (map_to_list m).

Lemma map_sum_empty `{Countable K} {A} (f : A → nat) : map_sum f (∅ : gmap K A) = 0.
Proof. unfold map_sum. by rewrite map_to_list_empty. Qed.

(** Overwriting an entry replaces its share of the sum. *)
Lemma map_sum_insert `{Countable K} {A} (f : A → nat) (m : gmap K A) i x :
  map_sum f (<[i:=x]> m) + default 0 (f <$> m !! i) = f x + map_sum f m.
Proof.
  unfold map_sum. destruct (m !! i) as [y|] eqn:Hi; simpl.
  - rewrite <- insert_delete_eq, (map_to_list_insert (delete i m)) by apply lookup_delete_eq.
    rewrite <- (map_to_list_delete m i y Hi). simpl. lia.
  - rewrite map_to_list_insert by done. simpl. lia.
Qed.

#[export] Hint Resolve prod_lengths_pos : gate.
