(* ===== verification/Gnet.v ===== *)
(** * The gate network (interface of [gate/model/gnet.h])

    The network is not part of [src/]; it is modelled from the spec's
    "Graph dependency" interface.  A gate has a function symbol and an
    ordered list of input gate ids; [Gate::get] is a lookup in the net,
    and the successor list [links] is derived from the inputs of the other
    gates, one entry per input that reads the gate.  The semantic notion of a cut ([covered]) and acyclicity (a
    rank that decreases along input edges) are stated here because the
    enumerator, the walker and the cone extractor all rely on them. *)

From S2P Require Import Prelude.

(** ** Gate function symbols, in the order of the C++ enumeration *)

Inductive GateSymbol :=
| IN | OUT | ZERO | ONE | NOP | NOT | AND | OR | XOR | NAND | NOR | XNOR
| MAJ | LATCH | DFF | DFFrs | XXX.

#[export] Instance GateSymbol_eq_dec : EqDecision GateSymbol.
Proof. solve_decision. Defined.

Abbreviation GateId := nat.

Record Gate := mkGate { func : GateSymbol; inputs : list GateId }.

Notation "⟨ f ; ins ⟩" := (mkGate f ins) (at level 0, format "⟨ f ;  ins ⟩") : gate_scope.

(** The net: gate ids to gates (write [gmap GateId Gate] directly, as
    stdpp's lemmas want it). *)
Abbreviation GNet := (gmap GateId Gate).

Section Net.
Context (net : GNet).

(** [Gate::get(id)]: a dangling id is undefined behaviour. *)
Definition gate_get (v : GateId) : Result Gate := of_option (net !! v).

(** Total views used by predicates; they agree with [gate_get] on the
    ids of the net. *)
Definition func_of (v : GateId) : option GateSymbol := func <$> net !! v.
Definition inputs_of (v : GateId) : list GateId := default [] (inputs <$> net !! v).

Definition is_not (v : GateId) : bool := bool_decide (func_of v = Some NOT).

(** [Gate::isValue]: the constants. *)
Definition isValue (g : Gate) : bool :=
  match func g with ZERO | ONE => true | _ => false end.

(** [Gate::isSource]: a gate without inputs (spec, glossary). *)
Definition isSource (g : Gate) : bool := bool_decide (inputs g = []).

(** [Gate::links]: one link per input of a gate that reads [v] (a gate
    reading [v] twice, as [AND(v, v)], has two links to it), in id
    order. *)
Definition links (v : GateId) : list GateId :=
  elements (dom net) ≫= λ w, (λ _, w) <$> filter (λ u, u = v) (inputs_of w).

(** The semantic cut: every path from a source up to [v] meets [C]. *)
Inductive covered (C : gset GateId) : GateId → Prop :=
| cov_leaf v : v ∈ C → covered C v
| cov_gate v :
    inputs_of v ≠ [] → (∀ u, u ∈ inputs_of v → covered C u) → covered C v.

(** Acyclicity: a rank that strictly decreases along every input edge. *)
Definition acyclic_by (rank : GateId → nat) : Prop :=
  ∀ v u, u ∈ inputs_of v → rank u < rank v.

(** Every input of a gate of the net is a gate of the net. *)
Definition closed_net : Prop :=
  map_Forall (λ _ g, Forall (λ u, is_Some (net !! u)) (inputs g)) net.

#[export] Instance closed_net_dec : Decision closed_net.
Proof. unfold closed_net. apply _. Defined.

Lemma closed_net_input v g u :
  closed_net → net !! v = Some g → u ∈ inputs g → is_Some (net !! u).
Proof. intros Hc Hv Hu. specialize (Hc v g Hv). by eapply Forall_forall in Hc. Qed.

(** A NOT gate has exactly one input. *)
Definition wf_not : Prop :=
  map_Forall (λ _ g, func g = NOT → length (inputs g) = 1) net.

#[export] Instance wf_not_dec : Decision wf_not.
Proof. unfold wf_not. apply _. Defined.

Lemma wf_not_single u :
  wf_not → is_not u = true → ∃ w, inputs_of u = [w].
Proof.
  unfold wf_not, is_not, func_of, inputs_of. intros Hwf Hu%bool_decide_eq_true.
  destruct (net !! u) as [g|] eqn:E; simpl in *; [|done]. injection Hu as Hf.
  specialize (Hwf u g E Hf). destruct (inputs g) as [|w [|]]; simpl in *; try lia. by exists w.
Qed.

Lemma covered_mono C D v : C ⊆ D → covered C v → covered D v.
Proof.
  intros HCD. induction 1 as [v Hv|v Hne _ IH].
  - apply cov_leaf. set_solver.
  - by apply cov_gate.
Qed.

(** One unfolding of [covered]. *)
Lemma covered_inv C v :
  covered C v ↔ v ∈ C ∨ (inputs_of v ≠ [] ∧ ∀ u, u ∈ inputs_of v → covered C u).
Proof.
  split; [by inversion 1; auto|].
  intros [Hv|[Hne Hin]]; [by apply cov_leaf|by apply cov_gate].
Qed.

Lemma elem_of_links v w : w ∈ links v ↔ is_Some (net !! w) ∧ v ∈ inputs_of w.
Proof.
  unfold links. rewrite list_elem_of_bind. setoid_rewrite list_elem_of_fmap.
  setoid_rewrite list_elem_of_filter. setoid_rewrite elem_of_elements. setoid_rewrite elem_of_dom.
  naive_solver.
Qed.
End Net.

#[export] Hint Constructors covered : gate.
#[export] Hint Resolve covered_mono : gate.

(** ** Example nets, shared by the components' witnesses *)

(** Two-level AND tree: inputs 1..4, [5 = AND(1,2)], [6 = AND(3,4)],
    [7 = AND(5,6)]. *)
Definition net_tree : GNet :=
  list_to_map [(1, ⟨IN; []⟩); (2, ⟨IN; []⟩); (3, ⟨IN; []⟩); (4, ⟨IN; []⟩);
               (5, ⟨AND; [1; 2]⟩); (6, ⟨AND; [3; 4]⟩); (7, ⟨AND; [5; 6]⟩)].

(** NOT transparency: [3 = NOT(1)], [4 = AND(3, 2)]. *)
Definition net_not : GNet :=
  list_to_map [(1, ⟨IN; []⟩); (2, ⟨IN; []⟩); (3, ⟨NOT; [1]⟩); (4, ⟨AND; [3; 2]⟩)].

(** Diamond: [2 = NOP(1)], [3 = NOP(1)], [4 = AND(2, 3)]. *)
Definition net_diamond : GNet :=
  list_to_map [(1, ⟨IN; []⟩); (2, ⟨NOP; [1]⟩); (3, ⟨NOP; [1]⟩); (4, ⟨AND; [2; 3]⟩)].

(** A primary output: [2 = OUT(1)]. *)
Definition net_out : GNet := list_to_map [(1, ⟨IN; []⟩); (2, ⟨OUT; [1]⟩)].

(** A double inversion: [2 = NOT(1)], [3 = NOT(2)], [4 = AND(3, 1)]. *)
Definition net_notnot : GNet :=
  list_to_map [(1, ⟨IN; []⟩); (2, ⟨NOT; [1]⟩); (3, ⟨NOT; [2]⟩); (4, ⟨AND; [3; 1]⟩)].

(** A gate that reads its input twice has two links to it. *)
Example links_twice : links (list_to_map [(1, ⟨IN; []⟩); (2, ⟨AND; [1; 1]⟩)]) 1 = [2; 2].
Proof. vm_compute. reflexivity. Qed.
