(* ===== verification/Util.v ===== *)
(** * Graph utilities of [util.cpp]

    [getNext], the breadth-first searches [isCut], [getConeSet] (with and
    without a bounding cut) and [getHeights], and the dominator analysis
    [findDominators] with its helper [intersect].  Every BFS of
    [util.cpp] is a [while (!bfs.empty())] loop over a [std::queue]
    (front = head of the list, [push] = append); they share the combinator
    [bfs_loop], whose body handles the popped element and either stops
    the loop or returns the elements to push.  None of these searches
    keeps a visited set except [getHeights], so the queue may hold the
    same node many times: the fuel bound is the weight [qweight] of the
    queue, in which a node of rank [r] weighs [(D+1)^r] for a fan bound
    [D]; each iteration lowers it, so [qweight q + 1] units suffice. *)

From S2P Require Import Prelude Gnet.

(** ** The BFS combinator *)

Inductive BfsStep (E A R : Type) :=
| Done (r : R)
| Push (l : list E) (acc : A).
Arguments Done {E A R} r.
Arguments Push {E A R} l acc.

(** [while (!bfs.empty()) { cur = bfs.front(); ...; bfs.pop(); }] with
    the pushes of the body appended to the queue. *)
Fixpoint bfs_loop {E A R} (body : E → A → Result (BfsStep E A R)) (finish : A → R)
    (fuel : nat) (bfs : list E) (acc : A) : Result R :=
  match fuel with
  | 0 => OutOfFuel
  | S fuel' =>
      match bfs with
      | [] => Ok (finish acc)
      | cur :: rest =>
          st ← body cur acc;
          match st with
          | Done r => Ok r
          | Push l acc' => bfs_loop body finish fuel' (rest ++ l) acc'
          end
      end
  end.

(** ** Neighbours *)

Section Next.
Context (net : GNet).

(** [getNext(node, forward)]: the successors ([links]) when [forward],
    the inputs otherwise; [Gate::get(node)] on a dangling id is
    undefined. *)
Definition getNext (node : GateId) (forward : bool) : Result (list GateId) :=
  g ← gate_get net node;
  Ok (if forward then links net node else inputs g).

(** The same neighbours as a total function, for specifications. *)
Definition next_of (forward : bool) (v : GateId) : list GateId :=
  if forward then links net v else inputs_of net v.

(** [w] is reachable from [v] along [step] edges through nodes outside
    [stop] ([w] itself may be in [stop]). *)
Inductive reach (step : GateId → list GateId) (stop : gset GateId) : GateId → GateId → Prop :=
| reach_refl v : reach step stop v v
| reach_step v u w : v ∉ stop → u ∈ step v → reach step stop u w → reach step stop v w.

(** A rank decreasing along the [forward] edges of the net and a bound on
    the number of neighbours: the data of the fuel bound. *)
Definition ranked (r : GateId → nat) (forward : bool) : Prop :=
  set_Forall (λ v, Forall (λ u, r u < r v) (next_of forward v)) (dom net).

Definition fan_bound (D : nat) (forward : bool) : Prop :=
  set_Forall (λ v, length (next_of forward v) ≤ D) (dom net).

#[export] Instance ranked_dec r forward : Decision (ranked r forward).
Proof. unfold ranked. apply _. Defined.

#[export] Instance fan_bound_dec D forward : Decision (fan_bound D forward).
Proof. unfold fan_bound. apply _. Defined.

Lemma getNext_Ok v forward l :
  getNext v forward = Ok l ↔ is_Some (net !! v) ∧ l = next_of forward v.
Proof.
  unfold getNext, gate_get, next_of, inputs_of.
  destruct (net !! v) as [g|]; simpl; [|split; [discriminate|by intros [[]]]].
  split; [intros [= <-]|intros [_ ->]]; destruct forward; eauto.
Qed.

Lemma ranked_next r forward v l u :
  ranked r forward → getNext v forward = Ok l → u ∈ l → r u < r v.
Proof.
  intros Hr [Hv ->]%getNext_Ok Hu.
  apply elem_of_dom in Hv. specialize (Hr v Hv). by eapply Forall_forall in Hr.
Qed.

Lemma fan_bound_next D forward v l :
  fan_bound D forward → getNext v forward = Ok l → length l ≤ D.
Proof. intros HD [Hv ->]%getNext_Ok. apply elem_of_dom in Hv. by apply HD. Qed.

Lemma reach_trans step stop v u w :
  reach step stop v u → reach step stop u w → reach step stop v w.
Proof. induction 1; eauto using reach. Qed.
End Next.

#[export] Hint Constructors reach : gate.

(** ** The weight of a queue and the fuel bound *)

Section Weight.
Context {E : Type} (r : E → nat) (D : nat).

Definition qweight (q : list E) : nat := sum_list_with (λ v, S D ^ r v) q.

Lemma qweight_app q1 q2 : qweight (q1 ++ q2) = qweight q1 + qweight q2.
Proof. apply sum_list_with_app. Qed.

Lemma qweight_cons v q : qweight (v :: q) = S D ^ r v + qweight q.
Proof. reflexivity. Qed.

Lemma qweight_bound x l :
  Forall (λ y, r y < r x) l → qweight l ≤ length l * S D ^ (r x - 1).
Proof.
  induction 1 as [|y l Hy _ IH]; simpl; [lia|].
  pose proof (Nat.pow_le_mono_r (S D) (r y) (r x - 1) ltac:(lia) ltac:(lia)).
  unfold qweight in *. simpl. lia.
Qed.

Lemma qweight_le_max R l :
  Forall (λ y, r y ≤ R) l → qweight l ≤ length l * S D ^ R.
Proof.
  induction 1 as [|y l Hy _ IH]; simpl; [lia|].
  pose proof (Nat.pow_le_mono_r (S D) (r y) R ltac:(lia) Hy).
  unfold qweight in *. simpl. lia.
Qed.

Lemma qweight_pos x q : 0 < qweight (x :: q).
Proof. rewrite qweight_cons. pose proof (Nat.pow_nonzero (S D) (r x)). lia. Qed.

(** Replacing the head of the queue by at most [D] nodes of smaller rank
    lowers the weight. *)
Lemma qweight_step x l q :
  Forall (λ y, r y < r x) l → length l ≤ D →
  qweight (q ++ l) < qweight (x :: q).
Proof.
  intros Hl HD. rewrite qweight_app, qweight_cons.
  pose proof (qweight_bound x l Hl) as Hb.
  destruct l as [|y l]; [unfold qweight at 2; simpl; pose proof (Nat.pow_nonzero (S D) (r x)); lia|].
  inversion Hl as [|? ? Hy _]; subst.
  assert (Hp : S D ^ r x = S D * S D ^ (r x - 1)) by (rewrite <- Nat.pow_succ_r'; f_equal; lia).
  pose proof (Nat.mul_le_mono_r (length (y :: l)) D (S D ^ (r x - 1)) HD).
  pose proof (Nat.pow_nonzero (S D) (r x - 1)). lia.
Qed.

Section Loop.
Context {A R : Type} (body : E → A → Result (BfsStep E A R)) (finish : A → R).
Hypothesis Hbody : ∀ cur acc l acc', body cur acc = Ok (Push l acc') →
  Forall (λ y, r y < r cur) l ∧ length l ≤ D.
Hypothesis Hbody_fuel : ∀ cur acc, body cur acc ≠ OutOfFuel.

(** The BFS loop never runs out of [qweight q + 1] units of fuel. *)
Lemma bfs_loop_fuel fuel q acc :
  qweight q < fuel → bfs_loop body finish fuel q acc ≠ OutOfFuel.
Proof.
  revert q acc. induction fuel as [|fuel IH]; intros q acc Hf; [lia|].
  destruct q as [|cur rest]; simpl; [done|].
  destruct (body cur acc) as [[res|l acc']| |] eqn:Eb; simpl; try done;
    [|by destruct (Hbody_fuel cur acc)].
  apply IH. destruct (Hbody _ _ _ _ Eb) as [Hl HD].
  pose proof (qweight_step cur l rest Hl HD). lia.
Qed.

(** Correctness by an invariant [I] of the queue and the accumulator:
    if every step from a state satisfying [I] either stops with a result
    satisfying [P] or pushes at most [D] lower-ranked elements and
    re-establishes [I], the loop returns a result satisfying [P]. *)
Lemma bfs_loop_correct (I : list E → A → Prop) (P : R → Prop) fuel q acc :
  (∀ a, I [] a → P (finish a)) →
  (∀ x q a, I (x :: q) a →
     (∃ res, body x a = Ok (Done res) ∧ P res) ∨
     (∃ l a', body x a = Ok (Push l a') ∧ I (q ++ l) a')) →
  I q acc → qweight q < fuel →
  ∃ res, bfs_loop body finish fuel q acc = Ok res ∧ P res.
Proof.
  intros Hfin Hstep. revert q acc. induction fuel as [|fuel IH]; intros q acc HI Hf; [lia|].
  destruct q as [|x q]; cbn [bfs_loop]; [eauto|].
  destruct (Hstep x q acc HI) as [(res & -> & HP)|(l & a' & Hb & HI')]; [eauto|].
  rewrite Hb. cbn [mbind result_bind]. apply IH; [done|].
  destruct (Hbody _ _ _ _ Hb) as [Hl HD]. pose proof (qweight_step x l q Hl HD). lia.
Qed.

(** With more fuel than needed the result does not change. *)
Lemma bfs_loop_mono fuel fuel' q acc res :
  fuel ≤ fuel' → bfs_loop body finish fuel q acc = Ok res →
  bfs_loop body finish fuel' q acc = Ok res.
Proof.
  revert fuel' q acc. induction fuel as [|fuel IH]; intros [|fuel'] q acc Hle H;
    simpl in *; try done; try lia.
  destruct q as [|cur rest]; [done|].
  destruct (body cur acc) as [[res'|l acc']| |]; simpl in *; try done.
  apply IH; [lia|done].
Qed.
End Loop.
End Weight.


(** ** [isCut], [getConeSet] *)

Section Searches.
Context (net : GNet).

(** The body of [isCut]: a popped node of the cut is dropped, a source
    outside the cut fails the check, any other node pushes its inputs.
    The accumulator is the out-parameter [failed]. *)
Definition isCut_body (cut : gset GateId) (cur : GateId) (failed : GateId) :
    Result (BfsStep GateId GateId (bool * GateId)) :=
  g ← gate_get net cur;
  if bool_decide (cur ∈ cut) then Ok (Push [] failed)
  else if isSource g then Ok (Done (false, cur))
  else Ok (Push (inputs g) failed).

(** [isCut(gate, cut, failed)]: the result and the final [failed]. *)
Definition isCut (fuel : nat) (gate : GateId) (cut : gset GateId) (failed : GateId) :
    Result (bool * GateId) :=
  bfs_loop (isCut_body cut) (λ f, (true, f)) fuel [gate] failed.

(** The body of [getConeSet(start, cut, coneNodes, forward)]: the popped
    node joins the cone and, unless it is in the cut, pushes its
    neighbours. *)
Definition coneSet_cut_body (cut : gset GateId) (forward : bool) (cur : GateId)
    (cone : gset GateId) : Result (BfsStep GateId (gset GateId) (gset GateId)) :=
  if bool_decide (cur ∈ cut) then Ok (Push [] ({[cur]} ∪ cone))
  else next ← getNext net cur forward; Ok (Push next ({[cur]} ∪ cone)).

Definition getConeSet_cut (fuel : nat) (start : GateId) (cut : gset GateId)
    (coneNodes : gset GateId) (forward : bool) : Result (gset GateId) :=
  bfs_loop (coneSet_cut_body cut forward) id fuel [start] coneNodes.

(** [getConeSet(start, cone, forward)]: the same search without a cut. *)
Definition coneSet_body (forward : bool) (cur : GateId) (cone : gset GateId) :
    Result (BfsStep GateId (gset GateId) (gset GateId)) :=
  next ← getNext net cur forward; Ok (Push next ({[cur]} ∪ cone)).

Definition getConeSet (fuel : nat) (start : GateId) (cone : gset GateId) (forward : bool) :
    Result (gset GateId) :=
  bfs_loop (coneSet_body forward) id fuel [start] cone.

(** *** Facts *)

Lemma next_of_closed forward v u :
  closed_net net → is_Some (net !! v) → u ∈ next_of net forward v → is_Some (net !! u).
Proof.
  intros Hc [g Hg] Hu. destruct forward; simpl in Hu.
  - by apply elem_of_links in Hu as [? _].
  - unfold inputs_of in Hu. rewrite Hg in Hu. by eapply closed_net_input.
Qed.

Lemma reach_inv step stop v w :
  reach step stop v w ↔ w = v ∨ ((v ∉ stop) ∧ (∃ u, u ∈ step v ∧ reach step stop u w)).
Proof.
  split; [inversion 1; eauto|].
  intros [->|(Hv & u & Hu & Hr)]; [constructor|by econstructor].
Qed.

Lemma isCut_body_shape cut cur f l f' :
  isCut_body cut cur f = Ok (Push l f') → f' = f ∧ l = (if bool_decide (cur ∈ cut) then [] else inputs_of net cur).
Proof.
  unfold isCut_body, gate_get, inputs_of.
  destruct (net !! cur) as [g|]; simpl; [|done].
  case_bool_decide; [by intros [= <- <-]|]. destruct (isSource g); [done|by intros [= <- <-]].
Qed.

Section Ranked.
Context (r : GateId → nat) (D : nat).

Lemma isCut_body_ranked cut cur f l f' :
  ranked net r false → fan_bound net D false →
  isCut_body cut cur f = Ok (Push l f') → Forall (λ y, r y < r cur) l ∧ length l ≤ D.
Proof.
  intros Hr HD Hb. pose proof Hb as [_ ->]%isCut_body_shape.
  unfold isCut_body in Hb. destruct (gate_get net cur) as [g| |] eqn:Eg; [|done|done].
  assert (Hn : getNext net cur false = Ok (inputs_of net cur)).
  { apply getNext_Ok. unfold gate_get in Eg. apply of_option_Ok in Eg.
    split; [by eexists|done]. }
  case_bool_decide; [split; [constructor|simpl; lia]|].
  split; [apply Forall_forall; intros y Hy; by eapply ranked_next|by eapply fan_bound_next].
Qed.
(** The BFS of [isCut] over any queue of gates of the net: with
    [qweight + 1] units of fuel it answers [true] exactly when every
    queued node is covered by the cut, and on [false] it returns a source
    outside the cut reachable from the queue through non-cut nodes. *)
Lemma isCut_loop_spec cut fuel q failed :
  closed_net net → ranked net r false → fan_bound net D false →
  Forall (λ v, is_Some (net !! v)) q → qweight r D q < fuel →
  ∃ b f, bfs_loop (isCut_body cut) (λ f, (true, f)) fuel q failed = Ok (b, f) ∧
    (b = true ↔ Forall (covered net cut) q) ∧
    (b = false → (f ∉ cut) ∧ is_Some (net !! f) ∧ inputs_of net f = [] ∧
                 (∃ v, v ∈ q ∧ reach (inputs_of net) cut v f)).
Proof.
  intros Hc Hr HD. revert q failed.
  induction fuel as [|fuel IH]; intros q failed Hq Hf; [lia|].
  destruct q as [|cur rest]; cbn [bfs_loop].
  { exists true, failed. split; [done|]. split; [split; constructor|done]. }
  apply Forall_cons in Hq as [[g Hg] Hrest].
  assert (Hin : inputs_of net cur = inputs g) by (unfold inputs_of; by rewrite Hg).
  assert (Eb : isCut_body cut cur failed =
    if bool_decide (cur ∈ cut) then Ok (Push [] failed)
    else if isSource g then Ok (Done (false, cur)) else Ok (Push (inputs g) failed)).
  { unfold isCut_body, gate_get. by rewrite Hg. }
  rewrite Eb. case_bool_decide as Hcut; cbn [mbind result_bind].
  - destruct (IH (rest ++ []) failed) as (b & f & Hl & Hb & Hfl).
    { by rewrite app_nil_r. }
    { pose proof (qweight_step r D cur [] rest ltac:(constructor) ltac:(simpl; lia)). lia. }
    exists b, f. rewrite app_nil_r in *. split; [done|]. split.
    + rewrite Hb, Forall_cons. split; [intros ?; split; [by apply cov_leaf|done]|by intros [_ ?]].
    + intros ->. destruct (Hfl eq_refl) as (? & ? & ? & v & Hv & Hre).
      repeat split; try done. exists v. split; [by right|done].
  - unfold isSource. case_bool_decide as Hs; cbn [mbind result_bind].
    + exists false, cur. split; [done|]. split.
      * split; [done|]. intros [Hcov _]%Forall_cons.
        apply covered_inv in Hcov as [?|[? _]]; [done|by rewrite Hin in *].
      * intros _. repeat split; [done|by eexists|by rewrite Hin|].
        exists cur. split; [left|constructor].
    + assert (Hl : Forall (λ y, r y < r cur) (inputs g) ∧ length (inputs g) ≤ D).
      { rewrite <- Hin. apply (isCut_body_ranked cut cur failed _ failed Hr HD).
        rewrite Eb, Hin. unfold isSource in *. by rewrite ?bool_decide_eq_false_2 by done. }
      destruct (IH (rest ++ inputs g) failed) as (b & f & Hlp & Hb & Hfl).
      { apply Forall_app. split; [done|]. apply Forall_forall. intros u Hu.
        eapply (next_of_closed false cur u Hc); [by eexists|simpl; by rewrite Hin]. }
      { pose proof (qweight_step r D cur (inputs g) rest (proj1 Hl) (proj2 Hl)). lia. }
      exists b, f. split; [done|]. split.
      * rewrite Hb, Forall_app, Forall_cons, (covered_inv _ _ cur), Hin, !Forall_forall.
        naive_solver.
      * intros ->. destruct (Hfl eq_refl) as (? & ? & ? & v & Hv & Hre).
        repeat split; try done. apply elem_of_app in Hv as [Hv|Hv].
        { exists v. split; [by right|done]. }
        exists cur. split; [left|]. eapply reach_step; [done| |done]. by rewrite Hin.
Qed.

Lemma coneSet_cut_body_eq cut forward cur cone :
  is_Some (net !! cur) →
  coneSet_cut_body cut forward cur cone =
  Ok (Push (if bool_decide (cur ∈ cut) then [] else next_of net forward cur) ({[cur]} ∪ cone)).
Proof.
  intros Hcur. unfold coneSet_cut_body. case_bool_decide; [done|].
  by rewrite (proj2 (getNext_Ok net cur forward _) (conj Hcur eq_refl)).
Qed.

(** One BFS step of the cone search moves [cur] from the queue into the
    cone and its neighbours (unless it is a cut node) into the queue,
    which keeps "in the cone or reachable from the queue" unchanged. *)
Lemma queue_reach_step step cut cur rest (cone : gset GateId) w :
  (w ∈ {[cur]} ∪ cone ∨
     ∃ v, v ∈ rest ++ (if bool_decide (cur ∈ cut) then [] else step cur) ∧ reach step cut v w) ↔
  (w ∈ cone ∨ ∃ v, v ∈ cur :: rest ∧ reach step cut v w).
Proof.
  setoid_rewrite elem_of_app. setoid_rewrite elem_of_cons. rewrite elem_of_union, elem_of_singleton.
  split.
  - intros [[->|?]|(v & [Hv|Hv] & Hr)].
    + right. exists cur. split; [by left|constructor].
    + by left.
    + right. exists v. split; [by right|done].
    + case_bool_decide; [set_solver|]. right. exists cur. split; [by left|]. by econstructor.
  - intros [?|(v & [->|Hv] & Hr)]; eauto.
    apply reach_inv in Hr as [->|(Hc & u & Hu & Hr)]; [by left; left|].
    right. exists u. rewrite bool_decide_eq_false_2 by done. eauto.
Qed.

(** The cone search over any queue of gates of the net: with
    [qweight + 1] units of fuel it returns the initial cone together with
    every node reachable from the queue through non-cut nodes. *)
Lemma coneSet_cut_loop_spec cut forward fuel q cone :
  closed_net net → ranked net r forward → fan_bound net D forward →
  Forall (λ v, is_Some (net !! v)) q → qweight r D q < fuel →
  ∃ cone', bfs_loop (coneSet_cut_body cut forward) id fuel q cone = Ok cone' ∧
    ∀ w, w ∈ cone' ↔ w ∈ cone ∨ ∃ v, v ∈ q ∧ reach (next_of net forward) cut v w.
Proof.
  intros Hc Hr HD. revert q cone.
  induction fuel as [|fuel IH]; intros q cone Hq Hf; [lia|].
  destruct q as [|cur rest]; cbn [bfs_loop].
  { exists cone. split; [done|]. intros w. set_solver. }
  apply Forall_cons in Hq as [Hcur Hrest].
  rewrite coneSet_cut_body_eq by done. cbn [mbind result_bind].
  set (l := if bool_decide (cur ∈ cut) then [] else next_of net forward cur).
  assert (Hl : Forall (λ y, r y < r cur) l ∧ length l ≤ D).
  { subst l. case_bool_decide; [split; [constructor|simpl; lia]|].
    pose proof (proj2 (getNext_Ok net cur forward _) (conj Hcur eq_refl)).
    split; [apply Forall_forall; intros y Hy; by eapply ranked_next|by eapply fan_bound_next]. }
  destruct (IH (rest ++ l) ({[cur]} ∪ cone)) as (cone' & Hlp & Hcone).
  { apply Forall_app. split; [done|]. apply Forall_forall. intros u Hu. subst l.
    case_bool_decide; [set_solver|]. by eapply next_of_closed. }
  { pose proof (qweight_step r D cur l rest (proj1 Hl) (proj2 Hl)). lia. }
  exists cone'. split; [done|]. intros w. rewrite Hcone. apply queue_reach_step.
Qed.
End Ranked.

Lemma bfs_loop_ext {E A R} (b1 b2 : E → A → Result (BfsStep E A R)) finish fuel q acc :
  (∀ x a, b1 x a = b2 x a) → bfs_loop b1 finish fuel q acc = bfs_loop b2 finish fuel q acc.
Proof.
  intros Hb. revert q acc. induction fuel as [|fuel IH]; intros q acc; [done|].
  destruct q as [|cur rest]; cbn [bfs_loop]; [done|]. rewrite Hb.
  destruct (b2 cur acc) as [[]| |]; cbn [mbind result_bind]; auto.
Qed.

(** The overload without a cut is the overload with the empty cut. *)
Lemma getConeSet_as_cut fuel start cone forward :
  getConeSet fuel start cone forward = getConeSet_cut fuel start ∅ cone forward.
Proof.
  apply bfs_loop_ext. intros x a. unfold coneSet_body, coneSet_cut_body.
  by rewrite bool_decide_eq_false_2 by set_solver.
Qed.
End Searches.


(** ** [findDominators] and [intersect] *)

Abbreviation Dominators := (gmap GateId (gset GateId)).

(** [dominators[k]] of an [unordered_map]: a missing key is inserted
    with an empty set. *)
Definition index (m : Dominators) (k : GateId) : gset GateId * Dominators :=
  match m !! k with Some s => (s, m) | None => (∅, <[k:=∅]> m) end.

(** [std::min_element] with the comparison [dominators[a].size() <
    dominators[b].size()]: the first input of least dominator count. *)
Fixpoint min_by_size (m : Dominators) (best : GateId) (l : list GateId) : GateId * Dominators :=
  match l with
  | [] => (best, m)
  | a :: l' =>
      let '(sa, m1) := index m a in
      let '(sb, m2) := index m1 best in
      if bool_decide (size sa < size sb) then min_by_size m2 a l' else min_by_size m2 best l'
  end.

(** The loop of [intersect]: stop once [last] is empty, skip the minimal
    input, keep the elements of [last] found in the input's set. *)
Fixpoint intersect_loop (m : Dominators) (minv : GateId) (last : gset GateId)
    (l : list GateId) : gset GateId * Dominators :=
  match l with
  | [] => (last, m)
  | sg :: l' =>
      if bool_decide (last = ∅) then (last, m)
      else if bool_decide (sg = minv) then intersect_loop m minv last l'
      else let '(set, m1) := index m sg in
           intersect_loop m1 minv (filter (λ e, e ∈ set) last) l'
  end.

(** [intersect(dominators, inputs)]; [*minIt] on an empty input list is
    undefined. *)
Definition intersect (m : Dominators) (ins : list GateId) : Result (gset GateId * Dominators) :=
  match ins with
  | [] => Undef
  | a :: rest =>
      let '(minv, m1) := min_by_size m a rest in
      let '(last, m2) := index m1 minv in
      Ok (intersect_loop m2 minv last ins)
  end.

Section Dominators.
Context (net : GNet).

(** The loop of [findDominators(topoOrder)]. *)
Fixpoint findDominators_loop (m : Dominators) (topo : list GateId) : Result Dominators :=
  match topo with
  | [] => Ok m
  | cur :: topo' =>
      g ← gate_get net cur;
      match inputs g with
      | [] => findDominators_loop (<[cur:={[cur]}]> m) topo'
      | _ => '(newDom, m1) ← intersect m (inputs g);
             findDominators_loop (<[cur:={[cur]} ∪ newDom]> m1) topo'
      end
  end.

Definition findDominators (topo : list GateId) : Result Dominators :=
  findDominators_loop ∅ topo.

(** A topological order: every node is a gate of the net whose inputs
    all come earlier. *)
Fixpoint topo_sorted_from (seen : gset GateId) (l : list GateId) : bool :=
  match l with
  | [] => true
  | v :: l' =>
      bool_decide (is_Some (net !! v)) && bool_decide (Forall (λ u, u ∈ seen) (inputs_of net v)) &&
      topo_sorted_from ({[v]} ∪ seen) l'
  end.

Definition topo_sorted (l : list GateId) : bool := topo_sorted_from ∅ l.
End Dominators.

Section DominatorFacts.

Definition dset (m : Dominators) (u : GateId) : gset GateId := default ∅ (m !! u).

Lemma index_in m k : k ∈ dom m → index m k = (dset m k, m).
Proof. unfold index, dset. intros [s Hs]%elem_of_dom. by rewrite Hs. Qed.

Lemma min_by_size_in m best l :
  Forall (λ u, u ∈ dom m) (best :: l) →
  ∃ mv, min_by_size m best l = (mv, m) ∧ mv ∈ best :: l.
Proof.
  revert best. induction l as [|a l IH]; intros best Hl; simpl; [exists best; split; [done|left]|].
  apply Forall_cons in Hl as [Hb [Ha Hl]%Forall_cons].
  rewrite (index_in m a Ha), (index_in m best Hb).
  case_bool_decide.
  - destruct (IH a) as (mv & -> & Hmv); [by constructor|]. exists mv. set_solver.
  - destruct (IH best) as (mv & -> & Hmv); [by constructor|]. exists mv. set_solver.
Qed.

Lemma intersect_loop_spec m minv last l :
  Forall (λ u, u ∈ dom m) l →
  intersect_loop m minv last l =
    (filter (λ d, Forall (λ u, u ≠ minv → d ∈ dset m u) l) last, m).
Proof.
  revert last. induction l as [|sg l IH]; intros last Hl; simpl.
  { f_equal. apply set_eq. intros d. rewrite elem_of_filter. split; [|by intros []]. auto. }
  apply Forall_cons in Hl as [Hsg Hl].
  case_bool_decide as He; [f_equal; set_solver|].
  case_bool_decide as Hm.
  - rewrite IH by done. f_equal. apply set_eq. intros d. rewrite !elem_of_filter, Forall_cons.
    naive_solver.
  - rewrite (index_in m sg Hsg), IH by done. f_equal. apply set_eq. intros d.
    rewrite !elem_of_filter, Forall_cons. naive_solver.
Qed.

(** On inputs that all have dominator sets, [intersect] computes their
    intersection and leaves the map unchanged. *)
Lemma intersect_spec m ins :
  ins ≠ [] → Forall (λ u, u ∈ dom m) ins →
  ∃ res, intersect m ins = Ok (res, m) ∧ ∀ d, d ∈ res ↔ ∀ u, u ∈ ins → d ∈ dset m u.
Proof.
  destruct ins as [|a rest]; [done|]. intros _ Hins. unfold intersect.
  destruct (min_by_size_in m a rest Hins) as (mv & -> & Hmv).
  rewrite (index_in m mv) by (by eapply Forall_forall in Hins).
  rewrite intersect_loop_spec by done. eexists. split; [done|].
  intros d. rewrite elem_of_filter, Forall_forall. split.
  - intros [Hu Hmd] u Hu'. destruct (decide (u = mv)) as [->|]; auto.
  - intros Hd. split; [auto|]. apply Hd, Hmv.
Qed.

Section Net.
Context (net : GNet).

(** The dominator sets of the nodes [seen] processed so far are their
    single-node cuts. *)
Definition dom_inv (m : Dominators) (seen : gset GateId) : Prop :=
  dom m = seen ∧ ∀ v, v ∈ seen → ∀ d, d ∈ dset m v ↔ covered net {[d]} v.

Lemma dset_insert m k s v : dset (<[k:=s]> m) v = if bool_decide (v = k) then s else dset m v.
Proof. unfold dset. case_bool_decide; [subst; by rewrite lookup_insert_eq|by rewrite lookup_insert_ne]. Qed.

Lemma dom_inv_insert m seen cur g s :
  dom_inv m seen → net !! cur = Some g →
  (∀ d, d ∈ s ↔ d = cur ∨ (inputs g ≠ [] ∧ ∀ u, u ∈ inputs g → covered net {[d]} u)) →
  dom_inv (<[cur:=s]> m) ({[cur]} ∪ seen).
Proof.
  intros [Hdom Hm] Hg Hs. split; [by rewrite dom_insert_L, Hdom|].
  intros v Hv d. rewrite dset_insert. case_bool_decide as Hvc.
  - subst v. rewrite Hs, covered_inv, elem_of_singleton.
    unfold inputs_of. rewrite Hg. simpl. naive_solver.
  - apply Hm. set_solver.
Qed.

Lemma findDominators_loop_spec m seen topo :
  dom_inv m seen → topo_sorted_from net seen topo = true →
  ∃ m', findDominators_loop net m topo = Ok m' ∧ dom_inv m' (seen ∪ list_to_set topo).
Proof.
  revert m seen. induction topo as [|cur topo IH]; intros m seen Hinv Hts; simpl.
  { exists m. split; [done|]. by rewrite union_empty_r_L. }
  apply andb_true_iff in Hts as [[Hcur Hins]%andb_true_iff Hts].
  apply bool_decide_eq_true in Hcur as [g Hg], Hins.
  unfold gate_get. rewrite Hg. cbn [of_option mbind result_bind].
  assert (Hin : inputs_of net cur = inputs g) by (unfold inputs_of; by rewrite Hg).
  rewrite Hin in Hins.
  replace (seen ∪ ({[cur]} ∪ list_to_set topo)) with (({[cur]} ∪ seen) ∪ list_to_set topo) by set_solver.
  destruct (inputs g) as [|a rest] eqn:Eg.
  - apply IH; [|done]. eapply dom_inv_insert; [done|done|]. rewrite Eg. set_solver.
  - destruct (intersect_spec m (a :: rest)) as (res & -> & Hres); [done| |].
    { eapply Forall_impl; [done|]. intros u Hu. by rewrite (proj1 Hinv). }
    cbn [mbind result_bind]. apply IH; [|done]. eapply dom_inv_insert; [done|done|].
    intros d. rewrite Eg, elem_of_union, elem_of_singleton, Hres.
    split; [intros [->|Hd]; [by left|right; split; [done|]]|intros [->|[_ Hd]]; [by left|right]].
    + intros u Hu. apply (proj2 Hinv u); [by eapply Forall_forall in Hins|]. by apply Hd.
    + intros u Hu. apply (proj2 Hinv u); [by eapply Forall_forall in Hins|]. by apply Hd.
Qed.
End Net.
End DominatorFacts.

(** ** [getHeights] *)

(** [std::numeric_limits<int>::max()] *)
Definition INT_MAX : Z := 2147483647.

Section Heights.
Context (net : GNet).

(** The state of [getHeights]: [maxHeight], [minHeight], [visited]. *)
Abbreviation HState := (Z * Z * gset GateId)%type.

(** The body: a cut node updates both heights; a visited node is
    skipped; any other node is marked and pushes its inputs one level
    higher. *)
Definition heights_body (cut : gset GateId) (e : GateId * Z) (st : HState) :
    Result (BfsStep (GateId * Z) HState (Z * Z)) :=
  let '(cur, h) := e in
  let '(mx, mn, vis) := st in
  if bool_decide (cur ∈ cut) then Ok (Push [] (Z.max mx h, Z.min mn h, vis))
  else if bool_decide (cur ∈ vis) then Ok (Push [] st)
  else next ← getNext net cur false;
       Ok (Push ((λ n, (n, (h + 1)%Z)) <$> next) (mx, mn, {[cur]} ∪ vis)).

(** [getHeights(start, maxHeight, minHeight, cut)]: the final
    [(maxHeight, minHeight)]. *)
Definition getHeights (fuel : nat) (start : GateId) (cut : gset GateId) : Result (Z * Z) :=
  bfs_loop (heights_body cut) (λ '(mx, mn, _), (mx, mn)) fuel [(start, 0%Z)] ((-1)%Z, INT_MAX, ∅).

Section Bounds.
Context (r : GateId → nat) (D : nat) (start : GateId).

(** Queue entries have a height no larger than the rank they descended. *)
Definition hq_ok (q : list (GateId * Z)) : Prop :=
  Forall (λ '(v, h), (0 ≤ h)%Z ∧ (h + Z.of_nat (r v) ≤ Z.of_nat (r start))%Z) q.

(** No cut node seen yet, or both heights between 0 and the rank of
    [start]. *)
Definition hst_ok (mx mn : Z) : Prop :=
  (mx = -1 ∧ mn = INT_MAX)%Z ∨ (0 ≤ mn ≤ mx ∧ mx ≤ Z.of_nat (r start))%Z.

Lemma heights_body_ok cut e mx mn vis l st' :
  ranked net r false → (Z.of_nat (r start) < INT_MAX)%Z →
  hq_ok [e] → hst_ok mx mn →
  heights_body cut e (mx, mn, vis) = Ok (Push l st') →
  hq_ok l ∧ (let '(mx', mn', _) := st' in hst_ok mx' mn').
Proof.
  destruct e as [cur h]. intros Hr Hmax He Hst. unfold hq_ok in He.
  apply Forall_singleton in He as [Hh Hhr]. simpl.
  case_bool_decide; [intros [= <- <-]; split; [constructor|]|].
  { unfold hst_ok in *. lia. }
  case_bool_decide; [intros [= <- <-]; split; [constructor|done]|].
  destruct (getNext net cur false) as [next| |] eqn:En; simpl; try done.
  intros [= <- <-]. split; [|done].
  apply Forall_fmap, Forall_forall. intros u Hu. simpl.
  pose proof (ranked_next net r false cur next u Hr En Hu). lia.
Qed.

Lemma heights_body_eq cut cur h mx mn vis :
  is_Some (net !! cur) →
  heights_body cut (cur, h) (mx, mn, vis) =
  Ok (if bool_decide (cur ∈ cut) then Push [] (Z.max mx h, Z.min mn h, vis)
      else if bool_decide (cur ∈ vis) then Push [] (mx, mn, vis)
      else Push ((λ n, (n, (h + 1)%Z)) <$> inputs_of net cur) (mx, mn, {[cur]} ∪ vis)).
Proof.
  intros Hcur. simpl. case_bool_decide; [done|]. case_bool_decide; [done|].
  by rewrite (proj2 (getNext_Ok net cur false _) (conj Hcur eq_refl)).
Qed.

Lemma heights_body_ranked cut e st l st' :
  ranked net r false → fan_bound net D false →
  heights_body cut e st = Ok (Push l st') →
  Forall (λ y, r y.1 < r e.1) l ∧ length l ≤ D.
Proof.
  destruct e as [cur h], st as [[mx mn] vis]. intros Hr HD. simpl.
  case_bool_decide; [intros [= <- _]; split; [constructor|simpl; lia]|].
  case_bool_decide; [intros [= <- _]; split; [constructor|simpl; lia]|].
  destruct (getNext net cur false) as [next| |] eqn:En; simpl; try done.
  intros [= <- _]. rewrite length_fmap. split; [|by eapply fan_bound_next].
  apply Forall_fmap, Forall_forall. intros u Hu. simpl. by eapply ranked_next.
Qed.

(** The heights are [-1] and [INT_MAX] when no cut node is met, and
    otherwise [0 ≤ minHeight ≤ maxHeight ≤ r start]: with the rank of
    [start] below [INT_MAX] no [int] height overflows. *)
Lemma getHeights_loop_ok cut fuel q mx mn vis :
  closed_net net → ranked net r false → fan_bound net D false →
  (Z.of_nat (r start) < INT_MAX)%Z →
  Forall (λ e, is_Some (net !! e.1)) q → hq_ok q → hst_ok mx mn →
  qweight (λ e, r e.1) D q < fuel →
  ∃ res, bfs_loop (heights_body cut) (λ '(mx, mn, _), (mx, mn)) fuel q (mx, mn, vis) = Ok res ∧
    hst_ok res.1 res.2.
Proof.
  intros Hc Hr HD Hmax Hq Hhq Hst Hf.
  apply (bfs_loop_correct (λ e, r e.1) D _ _ (λ _ _ _ _ Hb, heights_body_ranked cut _ _ _ _ Hr HD Hb)
    (λ q '(mx, mn, _), Forall (λ e, is_Some (net !! e.1)) q ∧ hq_ok q ∧ hst_ok mx mn)
    (λ res, hst_ok res.1 res.2)); [| |done|done].
  { intros [[mx' mn'] vis']. simpl. tauto. }
  intros [cur h] q' [[mx' mn'] vis'] (Hq' & Hhq' & Hst'). right.
  apply Forall_cons in Hq' as [Hcur Hq']. apply Forall_cons in Hhq' as [He Hhq'].
  destruct (heights_body cut (cur, h) (mx', mn', vis')) as [[|l [[mx'' mn''] vis'']]| |] eqn:Eb;
    rewrite heights_body_eq in Eb by done;
    [by repeat case_bool_decide| |done|done].
  exists l, (mx'', mn'', vis''). split; [done|].
  pose proof (heights_body_ok cut (cur, h) mx' mn' vis' l (mx'', mn'', vis'') Hr Hmax
    ltac:(by constructor) Hst') as Hok.
  rewrite heights_body_eq in Hok by done. destruct (Hok Eb) as [Hl Hst''].
  split; [|split; [by apply Forall_app|done]].
  apply Forall_app. split; [done|].
  repeat case_bool_decide; simplify_eq; try constructor.
  apply Forall_fmap, Forall_forall. intros u Hu. simpl. by eapply (next_of_closed net false cur).
Qed.
End Bounds.
End Heights.

(** ** Properties *)

(** C4. [isCut] decides the semantic cut: on a closed net with a rank
    decreasing along inputs and fan-in at most [D], with more than
    [(D+1)^(rank gate)] units of fuel it returns, without undefined
    behaviour, [true] exactly when every path from a source up to [gate]
    meets [cut]; on [false] the out-parameter [failed] is a source
    outside the cut reachable from [gate] through non-cut nodes. *)
Theorem isCut_correct net r D fuel gate cut failed :
  closed_net net → ranked net r false → fan_bound net D false →
  is_Some (net !! gate) → S D ^ r gate < fuel →
  ∃ b f, isCut net fuel gate cut failed = Ok (b, f) ∧
    (b = true ↔ covered net cut gate) ∧
    (b = false → (f ∉ cut) ∧ inputs_of net f = [] ∧ reach (inputs_of net) cut gate f).
Proof.
  intros Hc Hr HD Hg Hf.
  destruct (isCut_loop_spec net r D cut fuel [gate] failed Hc Hr HD) as (b & f & Hl & Hb & Hfl);
    [by constructor|unfold qweight; simpl; lia|].
  exists b, f. split; [done|]. split; [rewrite Hb; apply Forall_singleton|].
  intros Hb'. destruct (Hfl Hb') as (? & _ & ? & v & ->%list_elem_of_singleton & ?). done.
Qed.

(** C7. Both overloads of [getConeSet] compute reachability cones: with
    enough fuel the cone returned is the initial set together with every
    node reachable from [start] along [getNext(·, forward)] edges through
    non-cut nodes (cut nodes included, not expanded); the overload
    without a cut returns the whole reachable set. *)
Theorem getConeSet_correct net r D fuel start cut cone forward :
  closed_net net → ranked net r forward → fan_bound net D forward →
  is_Some (net !! start) → S D ^ r start < fuel →
  (∃ cone', getConeSet_cut net fuel start cut cone forward = Ok cone' ∧
     ∀ w, w ∈ cone' ↔ w ∈ cone ∨ reach (next_of net forward) cut start w) ∧
  (∃ cone', getConeSet net fuel start cone forward = Ok cone' ∧
     ∀ w, w ∈ cone' ↔ w ∈ cone ∨ reach (next_of net forward) ∅ start w).
Proof.
  intros Hc Hr HD Hs Hf. rewrite getConeSet_as_cut.
  split; [generalize cut|generalize (∅ : gset GateId)]; intros stop;
  (destruct (coneSet_cut_loop_spec net r D stop forward fuel [start] cone Hc Hr HD) as (c & Hl & Hcone);
    [by constructor|unfold qweight; simpl; lia|]);
  exists c; split; try done; intros w; rewrite Hcone; set_solver.
Qed.

(** C6. [findDominators] over a topological order computes, for every
    node [v] of the order, exactly the nodes [d] such that every path
    from a source up to [v] passes through [d] (the single-node cuts
    [{d}] of [v]), and has no entry for any other node. *)
Theorem findDominators_correct net topo :
  topo_sorted net topo = true →
  ∃ m, findDominators net topo = Ok m ∧ dom m = list_to_set topo ∧
    ∀ v, v ∈ topo → ∀ d, d ∈ dset m v ↔ covered net {[d]} v.
Proof.
  intros Hts. destruct (findDominators_loop_spec net ∅ ∅ topo) as (m & Hm & Hdom & Hinv); [|done|].
  { split; [by rewrite dom_empty_L|set_solver]. }
  exists m. split; [done|]. rewrite union_empty_l_L in Hdom, Hinv. split; [done|].
  intros v Hv. apply Hinv. by apply elem_of_list_to_set.
Qed.

Lemma heights_cut_queue net cut fuel q mx mn vis :
  Forall (λ e, e.1 ∈ cut) q → length q < fuel →
  bfs_loop (heights_body net cut) (λ '(mx, mn, _), (mx, mn)) fuel q (mx, mn, vis) =
  Ok (foldl Z.max mx (snd <$> q), foldl Z.min mn (snd <$> q)).
Proof.
  revert fuel mx mn. induction q as [|[cur h] q IH]; intros [|fuel] mx mn Hq Hf; simpl in Hf; try lia;
    [done|].
  apply Forall_cons in Hq as [Hc Hq]. cbn [bfs_loop heights_body].
  rewrite bool_decide_eq_true_2 by done. cbn [mbind result_bind]. rewrite app_nil_r.
  apply IH; [done|lia].
Qed.

Lemma foldl_max_const (l : list GateId) (a c : Z) :
  l ≠ [] → (a ≤ c)%Z → foldl Z.max a ((λ _, c) <$> l) = c.
Proof.
  intros Hl Ha. destruct l as [|x l]; [done|]. simpl. clear Hl.
  replace (Z.max a c) with c by lia. induction l; simpl; [done|]. by rewrite Z.max_id.
Qed.

Lemma foldl_min_const (l : list GateId) (a c : Z) :
  l ≠ [] → (c ≤ a)%Z → foldl Z.min a ((λ _, c) <$> l) = c.
Proof.
  intros Hl Ha. destruct l as [|x l]; [done|]. simpl. clear Hl.
  replace (Z.min a c) with c by lia. induction l; simpl; [done|]. by rewrite Z.min_id.
Qed.

(** C24. [getHeights] terminates without undefined behaviour and its
    [int] results stay in range: they are [-1] and [INT_MAX] when no cut
    node is reached and otherwise satisfy [0 ≤ minHeight ≤ maxHeight ≤
    rank(start)], so no height overflows when the rank of [start] is below
    [INT_MAX]. *)
Theorem getHeights_bounds net r D fuel start cut :
  closed_net net → ranked net r false → fan_bound net D false →
  (Z.of_nat (r start) < INT_MAX)%Z → is_Some (net !! start) → S D ^ r start < fuel →
  ∃ mx mn, getHeights net fuel start cut = Ok (mx, mn) ∧
    ((mx = -1 ∧ mn = INT_MAX) ∨ (0 ≤ mn ≤ mx ∧ mx ≤ Z.of_nat (r start)))%Z.
Proof.
  intros Hc Hr HD Hmax Hs Hf.
  destruct (getHeights_loop_ok net r D start cut fuel [(start, 0%Z)] (-1)%Z INT_MAX ∅ Hc Hr HD Hmax)
    as ([mx mn] & Hl & Hok); [by constructor|by repeat constructor; lia|by left|unfold qweight; simpl; lia|].
  by exists mx, mn.
Qed.

(** The spec's height boundary: when [start] is not in the cut and
    every one of its inputs is, [getHeights] returns [minHeight =
    maxHeight = 1]. *)
Theorem getHeights_direct net fuel start cut g :
  net !! start = Some g → start ∉ cut → inputs g ≠ [] →
  Forall (λ u, u ∈ cut) (inputs g) → S (length (inputs g)) < fuel →
  getHeights net fuel start cut = Ok (1%Z, 1%Z).
Proof.
  intros Hg Hs Hne Hin Hf. destruct fuel as [|fuel]; [lia|]. unfold getHeights. cbn [bfs_loop].
  rewrite heights_body_eq by (by eexists).
  rewrite !bool_decide_eq_false_2 by set_solver. cbn [mbind result_bind app].
  unfold inputs_of. rewrite Hg. simpl.
  rewrite heights_cut_queue; [|by apply Forall_fmap|rewrite length_fmap; lia].
  rewrite <- list_fmap_compose. unfold compose. simpl.
  rewrite foldl_max_const, foldl_min_const; [done|done|unfold INT_MAX; lia|done|lia].
Qed.

(** A cut node reached by two paths: [2 = NOP(1)], [3 = AND(1, 2)]. *)
Definition net_heights : GNet :=
  list_to_map [(1, ⟨IN; []⟩); (2, ⟨NOP; [1]⟩); (3, ⟨AND; [1; 2]⟩)].

(** [maxHeight] is not the largest BFS distance of a cut node: a cut
    node is counted at every arrival, so in [net_heights] the only cut
    node [1] is a direct input of [3] (distance 1) yet [getHeights]
    reports [maxHeight = 2] (the path through [2]). *)
Theorem getHeights_counts_every_arrival :
  1 ∈ inputs_of net_heights 3 ∧ getHeights net_heights 10 3 {[1]} = Ok (2%Z, 1%Z).
Proof. split; [vm_decide|vm_compute; reflexivity]. Qed.

(** ** Witnesses *)

Lemma isCut_correct_witness :
  isCut net_tree 2188 7 {[5; 6]} 0 = Ok (true, 0) ∧ covered net_tree {[5; 6]} 7 ∧
  ¬ covered net_tree {[5]} 7.
Proof.
  destruct (isCut_correct net_tree (λ v, v) 2 2188 7 {[5; 6]} 0) as (b & f & H1 & Hb & _);
    [vm_decide|vm_decide|vm_decide|vm_decide|apply Nat.ltb_lt; reflexivity|].
  destruct (isCut_correct net_tree (λ v, v) 2 2188 7 {[5]} 0) as (b' & f' & H1' & Hb' & _);
    [vm_decide|vm_decide|vm_decide|vm_decide|apply Nat.ltb_lt; reflexivity|].
  vm_compute in H1, H1'. injection H1 as <- <-. injection H1' as <- <-.
  split; [vm_compute; reflexivity|]. split; [by apply Hb|]. intros Hc. by apply Hb' in Hc.
Defined.

Lemma getConeSet_correct_witness :
  reach (next_of net_tree false) {[5]} 7 3 ∧ ¬ reach (next_of net_tree false) {[5]} 7 1.
Proof.
  destruct (getConeSet_correct net_tree (λ v, v) 2 2188 7 {[5]} ∅ false) as [(c & Hc & Hw) _];
    [vm_decide|vm_decide|vm_decide|vm_decide|apply Nat.ltb_lt; reflexivity|].
  assert (Hc' : getConeSet_cut net_tree 2188 7 {[5]} ∅ false = Ok {[3; 4; 5; 6; 7]})
    by (vm_compute; reflexivity).
  rewrite Hc' in Hc. injection Hc as <-. split.
  - destruct (proj1 (Hw 3)) as [H|H]; [set_solver|set_solver|done].
  - intros Hr. assert (H1 : 1 ∈ ({[3; 4; 5; 6; 7]} : gset GateId)) by (apply Hw; by right).
    set_solver.
Defined.

Lemma findDominators_correct_witness :
  topo_sorted net_diamond [1; 2; 3; 4] = true ∧
  covered net_diamond {[1]} 4 ∧ ¬ covered net_diamond {[2]} 4.
Proof.
  assert (Hts : topo_sorted net_diamond [1; 2; 3; 4] = true) by (vm_compute; reflexivity).
  destruct (findDominators_correct net_diamond [1; 2; 3; 4] Hts) as (m & Hm & _ & Hd).
  vm_compute in Hm. injection Hm as <-. split; [done|]. split.
  - apply (Hd 4); [set_solver|]. vm_decide.
  - intros Hc. apply (Hd 4) in Hc; [|set_solver]. revert Hc. vm_compute. set_solver.
Defined.

Lemma getHeights_bounds_witness :
  getHeights net_tree 2188 7 {[1; 2; 3; 4]} = Ok (2%Z, 2%Z) ∧
  ∃ mx mn, getHeights net_tree 2188 7 {[1; 2; 3; 4]} = Ok (mx, mn) ∧
    ((mx = -1 ∧ mn = INT_MAX) ∨ (0 ≤ mn ≤ mx ∧ mx ≤ Z.of_nat 7))%Z.
Proof.
  split; [vm_compute; reflexivity|].
  apply (getHeights_bounds net_tree (λ v, v) 2);
    [vm_decide|vm_decide|vm_decide|unfold INT_MAX; lia|vm_decide|apply Nat.ltb_lt; reflexivity].
Defined.

Lemma getHeights_direct_witness :
  getHeights net_tree 5 5 {[1; 2]} = Ok (1%Z, 1%Z).
Proof.
  apply (getHeights_direct net_tree 5 5 {[1; 2]} ⟨AND; [1; 2]⟩);
    [vm_compute; reflexivity|vm_decide|done|vm_decide|simpl; lia].
Defined.
