(* ===== verification/CutStorage.v ===== *)
(** * Cuts, sets of cuts and the cut storage ([cut_storage.h], [util.cpp])

    A cut ([CutStorage::Cut], an [unordered_set<GateId>]) is a [gset];
    a set of cuts ([CutStorage::Cuts]) is the list of its elements in
    iteration order, without duplicates; the storage is a [gmap] from
    gate ids to sets of cuts, read with the defaulting [operator[]].

    The file also models [CutStorage::HashFunction] on 64-bit words,
    [isSubsetOf], and the subsumption step that
    [CutsFindVisitor::onNodeBeginNew] applies to every candidate cut
    (the scan of the existing cuts, the erasure of the strict supersets
    and the emplacement).  Its theorems: the step keeps a set of cuts an
    antichain, and folding it over candidates computes exactly the
    inclusion-minimal candidates. *)

From S2P Require Import Prelude Gnet.

Abbreviation Cut := (gset GateId).
Abbreviation Cuts := (list Cut).
Abbreviation CutStorage := (gmap GateId Cuts).

(** [cutStorage->cuts[v]] read without insertion: a missing entry is the
    empty set of cuts. *)
Definition cuts_of (st : CutStorage) (v : GateId) : Cuts := default [] (st !! v).

(** ** [CutStorage::HashFunction] *)

Module Hash.
Local Open Scope Z_scope.
(** [size_t] arithmetic. *)
Definition word64 (z : Z) : Z := z mod 2 ^ 64.

(** [for (int i : cut)]: the unsigned id converted to [int]. *)
Definition to_int32 (n : nat) : Z :=
  let z := Z.of_nat n mod 2 ^ 32 in if z <? 2 ^ 31 then z else z - 2 ^ 32.

(** [std::hash<int>] of libstdc++: the value converted to [size_t]. *)
Definition hash_int (i : Z) : Z := word64 i.

(** [answer ^= hasher(i) + 0x9e3779b9 + (answer << 6) + (answer >> 2)] *)
Definition hash_step (answer : Z) (id : nat) : Z :=
  Z.lxor answer
    (word64 (hash_int (to_int32 id) + 0x9e3779b9
             + word64 (Z.shiftl answer 6) + Z.shiftr answer 2)).

(** The hash of a cut whose elements are iterated in the order [order]. *)
Definition HashFunction (order : list GateId) : Z := fold_left hash_step order 0.
End Hash.

(** ** [isSubsetOf] (util.cpp) *)

Definition isSubsetOf (smaller bigger : Cut) : bool :=
  forallb (λ g, bool_decide (g ∈ bigger)) (elements smaller).

(** [cuts->emplace(c)]: no effect when an equal cut is present; a new
    cut is placed last in the iteration order.  This is the container's
    behaviour when equal cuts hash equally, as [unordered_set] requires.
    [HashFunction] depends on the order in which a cut's own
    [unordered_set] iterates, and the model iterates every cut in one
    order ([elements]), under which the requirement holds; in the code
    two equal cuts built by different insertions may iterate, hence
    hash, differently (a violated requirement of the container). *)
Definition cuts_emplace (c : Cut) (cs : Cuts) : Cuts :=
  if bool_decide (c ∈ cs) then cs else cs ++ [c].

(** The scan of [onNodeBeginNew] over the cuts already stored for the
    node: returns [biggerCut] and the cuts to remove ([toRemove]).  A
    stored cut larger than [collected] is marked for removal when it
    contains [collected]; a stored cut not larger that is contained in
    [collected] sets [biggerCut] and stops the scan. *)
Fixpoint scan_cuts (collected : Cut) (cs : Cuts) : bool * Cuts :=
  match cs with
  | [] => (false, [])
  | added :: cs' =>
      if size collected <? size added then
        let '(bigger, toRemove) := scan_cuts collected cs' in
        (bigger, if isSubsetOf collected added then added :: toRemove else toRemove)
      else if isSubsetOf added collected then (true, [])
      else scan_cuts collected cs'
  end.

(** [cuts->erase(it)] for every iterator of [toRemove]. *)
Definition erase_all (toRemove cs : Cuts) : Cuts :=
  filter (λ b, b ∉ toRemove) cs.

(** One subsumption step: [None] when the candidate is dominated
    ([biggerCut]); otherwise the new set of cuts. *)
Definition add_cut (collected : Cut) (cs : Cuts) : option Cuts :=
  let '(bigger, toRemove) := scan_cuts collected cs in
  if bigger then None else Some (cuts_emplace collected (erase_all toRemove cs)).

(** ** Antichains and minimal elements *)

Definition antichain (cs : Cuts) : Prop :=
  NoDup cs ∧ ∀ a b, a ∈ cs → b ∈ cs → a ⊆ b → a = b.

#[export] Instance antichain_dec (cs : Cuts) : Decision (antichain cs).
Proof.
  destruct (decide (NoDup cs ∧ Forall (λ a, Forall (λ b, a ⊆ b → a = b) cs) cs)) as [H|H];
    [left|right]; unfold antichain; rewrite !Forall_forall in *; setoid_rewrite Forall_forall in H;
    naive_solver.
Defined.

(** [c] is an inclusion-minimal member of the family [F]. *)
Definition minimal_in (F : Cuts) (c : Cut) : Prop :=
  c ∈ F ∧ ∀ d, d ∈ F → d ⊆ c → d = c.

(** The loop body's effect on the node's cuts for one non-empty
    candidate: a dominated candidate leaves the set unchanged. *)
Definition subsume (cs : Cuts) (collected : Cut) : Cuts :=
  default cs (add_cut collected cs).

(** ** Lemmas *)

Lemma strict_subset_size (c a : Cut) : c ⊂ a ↔ c ⊆ a ∧ size c < size a.
Proof.
  split.
  - intros Hs. split; [set_solver|]. by apply subset_size.
  - intros [Hsub Hlt]. split; [done|]. intros Has.
    pose proof (subseteq_size a c Has). lia.
Qed.

Lemma subseteq_antisymm_L (a b : Cut) : a ⊆ b → b ⊆ a → a = b.
Proof. intros. set_solver. Qed.

#[export] Hint Resolve subseteq_size subseteq_antisymm_L : gate.

Lemma isSubsetOf_spec a b : isSubsetOf a b = true ↔ a ⊆ b.
Proof.
  unfold isSubsetOf. rewrite forallb_forall. split.
  - intros H x Hx. apply elem_of_elements, list_elem_of_In, H in Hx.
    by apply bool_decide_eq_true in Hx.
  - intros H x Hx. apply bool_decide_eq_true, H.
    by apply elem_of_elements, list_elem_of_In.
Qed.

Lemma isSubsetOf_false a b : isSubsetOf a b = false ↔ ¬ a ⊆ b.
Proof. rewrite <- isSubsetOf_spec. destruct (isSubsetOf a b); intuition congruence. Qed.

Lemma elem_of_cuts_emplace c cs b : b ∈ cuts_emplace c cs ↔ b = c ∨ b ∈ cs.
Proof.
  unfold cuts_emplace. case_bool_decide; [naive_solver|].
  rewrite elem_of_app, list_elem_of_singleton. naive_solver.
Qed.

Lemma NoDup_cuts_emplace c cs : NoDup cs → NoDup (cuts_emplace c cs).
Proof.
  intros Hnd. unfold cuts_emplace. case_bool_decide; [done|].
  apply NoDup_app. split_and!; [done| |apply NoDup_singleton].
  intros x Hx ->%list_elem_of_singleton. done.
Qed.

Lemma elem_of_erase_all tr cs b : b ∈ erase_all tr cs ↔ b ∈ cs ∧ b ∉ tr.
Proof. unfold erase_all. rewrite list_elem_of_filter. naive_solver. Qed.

(** The scan decides domination and finds exactly the strict supersets. *)
Lemma scan_cuts_spec c cs :
  ((scan_cuts c cs).1 = true ↔ ∃ a, a ∈ cs ∧ a ⊆ c) ∧
  ((scan_cuts c cs).1 = false → ∀ b, b ∈ (scan_cuts c cs).2 ↔ b ∈ cs ∧ c ⊂ b).
Proof.
  induction cs as [|a cs [IH1 IH2]]; simpl.
  - split; [split; [done|]; intros (? & ? & _); set_solver|].
    intros _ b. split; [set_solver|]. intros [Hb _]. set_solver.
  - destruct (Nat.ltb_spec (size c) (size a)) as [Hlt|Hge].
    + destruct (scan_cuts c cs) as [bg tr]; simpl in *.
      split.
      * rewrite IH1. setoid_rewrite elem_of_cons. split; [naive_solver|].
        intros (a' & [->|Ha'] & Hsub); [|eauto].
        pose proof (subseteq_size _ _ Hsub). lia.
      * intros Hbg b. specialize (IH2 Hbg b).
        destruct (isSubsetOf c a) eqn:Hs;
          [apply isSubsetOf_spec in Hs|apply isSubsetOf_false in Hs];
          rewrite ?elem_of_cons, IH2, ?strict_subset_size; naive_solver.
    + destruct (isSubsetOf a c) eqn:Hs;
        [apply isSubsetOf_spec in Hs|apply isSubsetOf_false in Hs]; simpl.
      * split; [split; [intros _; exists a; split; [left|]; done|done]|done].
      * split.
        -- rewrite IH1. setoid_rewrite elem_of_cons. naive_solver.
        -- intros Hbg b. rewrite IH2 by done. rewrite elem_of_cons, !strict_subset_size.
           naive_solver lia.
Qed.

Lemma add_cut_None c cs : add_cut c cs = None ↔ ∃ a, a ∈ cs ∧ a ⊆ c.
Proof.
  pose proof (scan_cuts_spec c cs) as [H1 _]. unfold add_cut.
  destruct (scan_cuts c cs) as [[|] tr]; simpl in *; [naive_solver|].
  split; [done|]. intros Hex. apply H1 in Hex. done.
Qed.

Lemma add_cut_Some c cs cs' :
  add_cut c cs = Some cs' →
  (∀ a, a ∈ cs → ¬ a ⊆ c) ∧ (∀ b, b ∈ cs' ↔ b = c ∨ (b ∈ cs ∧ ¬ c ⊂ b)) ∧
  (NoDup cs → NoDup cs').
Proof.
  pose proof (scan_cuts_spec c cs) as [H1 H2]. unfold add_cut.
  destruct (scan_cuts c cs) as [[|] tr]; simpl in *; [done|].
  intros [= <-]. split_and!.
  - intros a Ha Hsub. assert (false = true) by (apply H1; eauto). done.
  - intros b. rewrite elem_of_cuts_emplace, elem_of_erase_all, H2 by done. naive_solver.
  - intros Hnd. apply NoDup_cuts_emplace, NoDup_filter, Hnd.
Qed.

(** Every member of a family lies above a minimal member. *)
Lemma minimal_below (F : Cuts) y : y ∈ F → ∃ m, minimal_in F m ∧ m ⊆ y.
Proof.
  remember (size y) as n eqn:Hn. revert y Hn.
  induction n as [n IH] using lt_wf_ind. intros y -> Hy.
  destruct (decide (Forall (λ d, d ⊆ y → d = y) F)) as [Hmin|Hnot].
  - exists y. split; [split; [done|]|done]. intros d Hd. by eapply Forall_forall in Hmin.
  - apply not_Forall_Exists, Exists_exists in Hnot as (d & Hd & Hd'); [|apply _].
    assert (d ⊆ y ∧ d ≠ y) as [Hdy Hne] by (destruct (decide (d ⊆ y)); naive_solver).
    assert (size d < size y) as Hlt.
    { apply subset_size. split; [done|]. intros Hyd. apply Hne. set_solver. }
    destruct (IH (size d) ltac:(lia) d eq_refl Hd) as (m & Hm & Hmd).
    exists m. split; [done|]. set_solver.
Qed.

Lemma minimal_in_ext F G c : (∀ x, x ∈ F ↔ x ∈ G) → minimal_in F c ↔ minimal_in G c.
Proof. intros HFG. unfold minimal_in. setoid_rewrite HFG. done. Qed.

(** One subsumption step keeps "the cuts are the minimal members". *)
Lemma subsume_minimal S F x :
  (∀ c, c ∈ S ↔ minimal_in F c) →
  ∀ c, c ∈ subsume S x ↔ minimal_in (x :: F) c.
Proof.
  intros HS c. unfold subsume, minimal_in in *.
  destruct (add_cut x S) as [S'|] eqn:Hadd; simpl.
  - apply add_cut_Some in Hadd as (Hnd & HS' & _). rewrite HS', HS.
    setoid_rewrite elem_of_cons. split.
    + intros [->|[[HcF Hcmin] Hns]]; split; auto.
      * intros d [->|Hd] Hdx; [done|].
        destruct (minimal_below F d Hd) as (m & Hm & Hmd).
        destruct (Hnd m); [by apply HS|set_solver].
      * intros d [->|Hd] Hdc; [|auto].
        exfalso. apply (Hnd c); [apply HS; by split|].
        destruct (decide (c ⊆ x)) as [|Hcx]; [done|].
        exfalso. apply Hns. by split.
    + intros [[->|HcF] Hmin]; [by left|]. right. split; [split; auto|].
      intros [Hxc Hcx]. apply Hcx. by rewrite (Hmin x (or_introl eq_refl) Hxc).
  - apply add_cut_None in Hadd as (a & HaS & Hax). rewrite HS.
    setoid_rewrite elem_of_cons. apply HS in HaS as [HaF Hamin]. split.
    + intros [HcF Hcmin]. split; [by right|]. intros d [->|Hd] Hdc; [|auto].
      assert (a = c) as -> by (apply Hcmin; set_solver). set_solver.
    + intros [[->|HcF] Hmin].
      * assert (a = x) as <- by (apply Hmin; auto). split; auto.
      * split; [done|]. auto.
Qed.

Lemma NoDup_subsume S x : NoDup S → NoDup (subsume S x).
Proof.
  unfold subsume. destruct (add_cut x S) eqn:Hadd; simpl; [|done].
  apply add_cut_Some in Hadd as (_ & _ & ?). auto.
Qed.

(** ** Theorems *)

(** C2. The subsumption step of [onNodeBeginNew] preserves the
    anti-chain invariant: if the stored cuts of a node are pairwise
    incomparable under inclusion and without duplicates, they still are
    after a candidate is accepted (stale supersets erased, the candidate
    emplaced). *)
Theorem add_cut_antichain c cs cs' :
  antichain cs → add_cut c cs = Some cs' → antichain cs'.
Proof.
  intros [Hnd Hac] Hadd. apply add_cut_Some in Hadd as (Hdom & Hmem & Hnd').
  split; [auto|]. intros a b Ha Hb Hab.
  apply Hmem in Ha as [->|[Ha Hna]]; apply Hmem in Hb as [->|[Hb Hnb]]; [done| | |auto].
  - destruct (decide (b ⊆ c)) as [Hbc|Hbc]; [by destruct (Hdom b)|].
    exfalso. apply Hnb. by split.
  - by destruct (Hdom a).
Qed.

Lemma antichain_minimal S : antichain S → ∀ c, c ∈ S ↔ minimal_in S c.
Proof. intros [_ Hac] c. unfold minimal_in. split; [|naive_solver]. intros Hc. split; [done|]. eauto. Qed.

Lemma fold_subsume_minimal L S F :
  NoDup S → (∀ c, c ∈ S ↔ minimal_in F c) →
  NoDup (fold_left subsume L S) ∧ ∀ c, c ∈ fold_left subsume L S ↔ minimal_in (L ++ F) c.
Proof.
  revert S F. induction L as [|x L IH]; intros S F Hnd HS; simpl; [done|].
  destruct (IH (subsume S x) (x :: F)) as [Hnd' Hmem];
    [by apply NoDup_subsume|by apply subsume_minimal|].
  split; [done|]. intros c. rewrite Hmem. apply minimal_in_ext.
  intros y. set_solver.
Qed.

(** C3. Refinement of the spec's contract "the cut set is the
    anti-chain of minimal cuts": folding the subsumption step over any
    sequence of candidates, from an anti-chain, yields a duplicate-free
    list whose members are exactly the inclusion-minimal members of the
    initial cuts and the candidates, whatever the order of the
    candidates. *)
Theorem fold_subsume_spec S0 L :
  antichain S0 →
  NoDup (fold_left subsume L S0) ∧
  ∀ c, c ∈ fold_left subsume L S0 ↔ minimal_in (L ++ S0) c.
Proof. intros HS0. apply fold_subsume_minimal; [apply HS0|by apply antichain_minimal]. Qed.

Lemma minimal_in_antichain F (S : Cuts) :
  NoDup S → (∀ c, c ∈ S ↔ minimal_in F c) → antichain S.
Proof.
  intros Hnd HS. split; [done|]. intros a b Ha Hb Hab.
  apply HS in Ha as [HaF _]. apply HS in Hb as [_ Hbmin]. auto.
Qed.

(** [CutStorage::HashFunction] depends on the iteration order of
    the cut: the same two-element cut hashes differently when its
    elements are visited in the two orders, so the hash is not the
    order-independent mix the spec describes, and two equal cuts whose
    sets iterate differently may land in different buckets. *)
Theorem HashFunction_order_dependent :
  Hash.HashFunction [1; 2] ≠ Hash.HashFunction [2; 1].
Proof. vm_compute. discriminate. Qed.

Lemma add_cut_antichain_witness :
  antichain [{[5]}; {[1; 2; 3]}] ∧
  add_cut {[1; 2]} [{[5]}; {[1; 2; 3]}] = Some [{[5]}; {[1; 2]}] ∧
  antichain [{[5]}; {[1; 2]}].
Proof.
  assert (antichain [{[5]}; {[1; 2; 3]}]) as H0
    by (apply (bool_decide_eq_true (antichain _)); vm_compute; reflexivity).
  assert (add_cut {[1; 2]} [{[5]}; {[1; 2; 3]}] = Some [{[5]}; {[1; 2]}]) as H1
    by (vm_compute; reflexivity).
  split_and!; [exact H0|exact H1|exact (add_cut_antichain _ _ _ H0 H1)].
Defined.

Lemma fold_subsume_spec_witness :
  antichain [{[5]}] ∧
  fold_left subsume [{[1; 2]}; {[1]}; {[2; 3]}] [{[5]}] = [{[5]}; {[1]}; {[2; 3]}] ∧
  NoDup (fold_left subsume [{[1; 2]}; {[1]}; {[2; 3]}] [{[5]}]) ∧
  (∀ c, c ∈ fold_left subsume [{[1; 2]}; {[1]}; {[2; 3]}] [{[5]}] ↔
        minimal_in ([{[1; 2]}; {[1]}; {[2; 3]}] ++ [{[5]}]) c).
Proof.
  assert (antichain [{[5]}]) as H0 by (apply (bool_decide_eq_true (antichain _)); vm_compute; reflexivity).
  split; [exact H0|]. split; [vm_compute; reflexivity|].
  exact (fold_subsume_spec _ _ H0).
Defined.
