(* ===== verification/Walker.v ===== *)
(** * Visitors and walkers ([visitor.h], [cut_visitor.h], [walker.cpp], [cut_walker.cpp])

    A visitor is a record of callbacks that thread the visitor's own
    state [St] (the C++ object's fields) and return a [VisitorFlags];
    a callback may have undefined behaviour, so it returns a [Result].
    [Walker::callVisitor] runs [onNodeBegin] then, on [CONTINUE],
    [onNodeEnd]; [CutWalker::callVisitor] runs [onCut] on every cut of
    the node in between.  The walks over an explicit order
    ([Walker::walk(bool)] over the topological order and
    [Walker::walk(const std::vector<GateId>&, bool)]) stop on
    [FINISH_ALL_NODES]. *)

From S2P Require Import Prelude Gnet Util CutStorage.

(** [enum VisitorFlags] *)
Inductive VisitorFlags := CONTINUE | SKIP | FINISH_ALL_NODES | FINISH_FURTHER_NODES.

#[export] Instance VisitorFlags_eq_dec : EqDecision VisitorFlags.
Proof. solve_decision. Defined.

(** [class Visitor]: the two callbacks over the visitor's state. *)
Record Visitor (St : Type) := {
  onNodeBegin : GateId → St → Result (VisitorFlags * St);
  onNodeEnd : GateId → St → Result (VisitorFlags * St);
}.
Arguments onNodeBegin {St} _ _ _.
Arguments onNodeEnd {St} _ _ _.

(** [class CutVisitor : public Visitor]: adds [onCut]. *)
Record CutVisitor (St : Type) := {
  cv_visitor : Visitor St;
  onCut : GateId → Cut → St → Result (VisitorFlags * St);
}.
Arguments cv_visitor {St} _.
Arguments onCut {St} _ _ _ _.

Section Walk.
Context {St : Type}.

(** [Walker::callVisitor] *)
Definition callVisitor (vis : Visitor St) (node : GateId) (s : St) : Result (VisitorFlags * St) :=
  '(flag, s') ← onNodeBegin vis node s;
  if bool_decide (flag ≠ CONTINUE) then Ok (flag, s') else onNodeEnd vis node s'.

(** The loop over the cuts of [CutWalker::callVisitor]: [CONTINUE] and
    [FINISH_FURTHER_NODES] go on, [FINISH_ALL_NODES] and [SKIP] are
    returned at once; [None] means the loop ran to its end. *)
Fixpoint onCuts (cvis : CutVisitor St) (node : GateId) (cs : Cuts) (s : St) :
    Result (option VisitorFlags * St) :=
  match cs with
  | [] => Ok (None, s)
  | cut :: cs' =>
      '(flag, s') ← onCut cvis node cut s;
      match flag with
      | CONTINUE | FINISH_FURTHER_NODES => onCuts cvis node cs' s'
      | FINISH_ALL_NODES | SKIP => Ok (Some flag, s')
      end
  end.

(** [CutWalker::callVisitor]; [cutStorage->cuts[node]] is read with the
    defaulting lookup. *)
Definition cutCallVisitor (cvis : CutVisitor St) (storage : option CutStorage)
    (node : GateId) (s : St) : Result (VisitorFlags * St) :=
  '(flag, s1) ← onNodeBegin (cv_visitor cvis) node s;
  if bool_decide (flag ≠ CONTINUE) then Ok (flag, s1) else
  match storage with
  | None => onNodeEnd (cv_visitor cvis) node s1
  | Some st =>
      '(res, s2) ← onCuts cvis node (cuts_of st node) s1;
      match res with
      | Some flag' => Ok (flag', s2)
      | None => onNodeEnd (cv_visitor cvis) node s2
      end
  end.

(** The loop of [Walker::walk(bool)] and of the forward
    [Walker::walk(const std::vector<GateId>&, bool)]: only
    [FINISH_ALL_NODES] stops it.  [call] is the walker's
    [callVisitor] (the plain one or [CutWalker]'s override). *)
Fixpoint walk_nodes (call : GateId → St → Result (VisitorFlags * St))
    (nodes : list GateId) (s : St) : Result St :=
  match nodes with
  | [] => Ok s
  | node :: nodes' =>
      '(flag, s') ← call node s;
      match flag with
      | FINISH_ALL_NODES => Ok s'
      | _ => walk_nodes call nodes' s'
      end
  end.

(** [Walker::walk(bool forward)] over the net's topological order
    [topo] (the result of [utils::graph::topologicalSort]), reversed
    when [forward] is false. *)
Definition walk_topo (call : GateId → St → Result (VisitorFlags * St))
    (topo : list GateId) (forward : bool) (s : St) : Result St :=
  walk_nodes call (if forward then topo else reverse topo) s.

(** The backward loop of [Walker::walk(const std::vector<GateId>&,
    bool)]: [begin = std::prev(nodes.end())], [end = std::prev(
    nodes.begin(), -1)] (that is [begin() + 1]), [--it]; a position
    before the vector's start is undefined. *)
Fixpoint walk_back (call : GateId → St → Result (VisitorFlags * St)) (fuel : nat)
    (nodes : list GateId) (it stop : Z) (s : St) : Result St :=
  match fuel with
  | 0 => OutOfFuel
  | S fuel' =>
      if bool_decide (it = stop) then Ok s else
      node ← of_option (if bool_decide (it < 0)%Z then None else nodes !! Z.to_nat it);
      '(flag, s') ← call node s;
      match flag with
      | FINISH_ALL_NODES => Ok s'
      | _ => walk_back call fuel' nodes (it - 1)%Z stop s'
      end
  end.

(** [Walker::walk(const std::vector<GateId> &nodes, bool forward)] *)
Definition walk_vector (call : GateId → St → Result (VisitorFlags * St))
    (nodes : list GateId) (forward : bool) (s : St) : Result St :=
  if forward then walk_nodes call nodes s
  else walk_back call (S (length nodes)) nodes (Z.of_nat (length nodes) - 1) 1 s.
End Walk.

(** ** The two-phase cone walks *)

Section ConeWalk.
Context {St : Type} (net : GNet) (call : GateId → St → Result (VisitorFlags * St)).

(** [Walker::checkVisited]: no neighbour against the walk direction
    (inputs when [forward], successors otherwise) is still [accessed]. *)
Definition checkVisited (accessed : gset GateId) (node : GateId) (forward : bool) : Result bool :=
  g ← gate_get net node;
  Ok (forallb (λ u, bool_decide (u ∉ accessed)) (if forward then inputs g else links net node)).

(** [Walker::checkAllVisited]: every such neighbour is visited or in
    [used]. *)
Definition checkAllVisited (visited used : gset GateId) (node : GateId) (forward : bool) :
    Result bool :=
  g ← gate_get net node;
  Ok (forallb (λ u, bool_decide (u ∈ visited ∨ u ∈ used)) (if forward then inputs g else links net node)).

(** [Walker::walk(std::queue<GateId> &bfs, std::unordered_set<GateId>
    &accessed, bool forward)].  A [continue] leaves the front of the
    queue in place: the next iteration finds it no longer [accessed] and
    pops it. *)
Fixpoint walk_cone (forward : bool) (fuel : nat) (bfs : list GateId) (accessed : gset GateId)
    (s : St) : Result St :=
  match fuel with
  | 0 => OutOfFuel
  | S fuel' =>
      match bfs with
      | [] => Ok s
      | cur :: rest =>
          if bool_decide (cur ∈ accessed) then
            ready ← checkVisited accessed cur forward;
            if (ready : bool) then
              next ← getNext net cur forward;
              '(flag, s') ← call cur s;
              match flag with
              | FINISH_ALL_NODES => Ok s'
              | FINISH_FURTHER_NODES => walk_cone forward fuel' bfs (accessed ∖ {[cur]}) s'
              | CONTINUE => walk_cone forward fuel' (rest ++ next) (accessed ∖ {[cur]}) s'
              | SKIP => walk_cone forward fuel' (bfs ++ next) (accessed ∖ {[cur]}) s'
              end
            else
              prev ← getNext net cur (negb forward);
              walk_cone forward fuel' (rest ++ filter (λ u, u ∈ accessed) prev) accessed s
          else walk_cone forward fuel' rest accessed s
      end
  end.

(** [Walker::walkAll(bfs, used, forward)] with its local [visited]. *)
Fixpoint walk_all (forward : bool) (fuel : nat) (bfs : list GateId) (used visited : gset GateId)
    (s : St) : Result St :=
  match fuel with
  | 0 => OutOfFuel
  | S fuel' =>
      match bfs with
      | [] => Ok s
      | cur :: rest =>
          if bool_decide (cur ∉ visited) then
            ready ← checkAllVisited visited used cur forward;
            if (ready : bool) then
              next ← getNext net cur forward;
              '(flag, s') ← call cur s;
              match flag with
              | FINISH_ALL_NODES => Ok s'
              | FINISH_FURTHER_NODES => walk_all forward fuel' bfs used ({[cur]} ∪ visited) s'
              | CONTINUE => walk_all forward fuel' (rest ++ next) used ({[cur]} ∪ visited) s'
              | SKIP => walk_all forward fuel' (bfs ++ next) used ({[cur]} ∪ visited) s'
              end
            else
              prev ← getNext net cur (negb forward);
              walk_all forward fuel' (rest ++ filter (λ u, u ∉ visited) prev) used visited s
          else walk_all forward fuel' rest used visited s
      end
  end.

(** [Walker::walk(GateId start, const Cut &cut, bool forwardCone)]: the
    cone of [start] bounded by [cut], then the cone walk from [start].
    The same fuel bounds both phases. *)
Definition walk_start_cut (start : GateId) (cut : gset GateId) (forwardCone : bool) (fuel : nat)
    (s : St) : Result St :=
  accessed ← getConeSet_cut net fuel start cut ∅ forwardCone;
  walk_cone forwardCone fuel [start] accessed s.

(** [Walker::walk(GateId start, bool forward)] *)
Definition walk_start (start : GateId) (forward : bool) (fuel : nat) (s : St) : Result St :=
  accessed ← getConeSet net fuel start ∅ forward;
  walk_cone forward fuel [start] accessed s.

(** [Walker::walk(const Cut &start, GateId end, bool forward)]: the cone
    of [end] bounded by the cut, walked from the cut nodes (in the
    iteration order [elements start] of the set) in the other
    direction. *)
Definition walk_cut_end (start : gset GateId) (end_ : GateId) (forward : bool) (fuel : nat)
    (s : St) : Result St :=
  accessed ← getConeSet_cut net fuel end_ start ∅ forward;
  walk_cone (negb forward) fuel (elements start) accessed s.

(** [template walk(L start, const GateIdSet &used)] *)
Definition walk_used (start : list GateId) (used : gset GateId) (fuel : nat) (s : St) : Result St :=
  walk_all true fuel start used ∅ s.
End ConeWalk.

(** A visitor wrapper that appends every visited node to a trace. *)
Definition traced {St} (call : GateId → St → Result (VisitorFlags * St))
    (n : GateId) (st : St * list GateId) : Result (VisitorFlags * (St * list GateId)) :=
  '(flag, s') ← call n st.1; Ok (flag, (s', st.2 ++ [n])).

(** ** Lemmas *)

Section WalkFacts.
Context {St : Type} (call : GateId → St → Result (VisitorFlags * St)).

(** A property of the visitor's state that every call preserves holds
    after any walk over an explicit order. *)
Lemma walk_nodes_inv (P : St → Prop) nodes s s' :
  (∀ n s flag s', P s → call n s = Ok (flag, s') → P s') →
  P s → walk_nodes call nodes s = Ok s' → P s'.
Proof.
  intros Hcall. revert s. induction nodes as [|n nodes IH]; intros s Hs Hw; simpl in Hw.
  - by injection Hw as <-.
  - apply bind_Ok in Hw as ([flag s1] & Hc & Hw).
    pose proof (Hcall _ _ _ _ Hs Hc) as Hs1. destruct flag; [eauto|eauto|by injection Hw as <-|eauto].
Qed.

Lemma walk_back_prefix nodes j fuel s :
  (1 ≤ j < length nodes)%nat → (j ≤ fuel)%nat →
  walk_back call fuel nodes (Z.of_nat j) 1 s =
  walk_nodes call (reverse (take (j - 1) (drop 2 nodes))) s.
Proof.
  revert fuel s. induction j as [|j IH]; intros fuel s Hj Hf; [lia|].
  destruct fuel as [|fuel]; [lia|]. simpl.
  destruct (decide (j = 0)) as [->|Hj0]; [by rewrite bool_decide_eq_true_2|].
  repeat (rewrite bool_decide_eq_false_2 by lia). rewrite Nat2Z.id.
  destruct (lookup_lt_is_Some_2 nodes (S j)) as [x Hx]; [lia|]. rewrite Hx. simpl.
  replace (j - 0)%nat with (S (j - 1)) by lia.
  rewrite (take_S_r _ _ x); [|rewrite lookup_drop; rewrite <- Hx; f_equal; lia].
  rewrite reverse_snoc. simpl.
  replace (Z.of_nat (S j) - 1)%Z with (Z.of_nat j) by lia.
  destruct (call x s) as [[flag s']| |]; simpl; [|done..].
  destruct flag; try apply IH; lia || done.
Qed.
End WalkFacts.

(** ** The cone walk: invariants, ordering and termination *)

Section WalkInv.
Context {St : Type} (net : GNet) (call : GateId → St → Result (VisitorFlags * St)) (P : St → Prop).
Hypothesis Hcall : ∀ n s flag s', P s → call n s = Ok (flag, s') → P s'.

(** A property of the visitor's state that every call preserves holds
    after any cone walk. *)
Lemma walk_cone_inv forward fuel q acc s s' :
  P s → walk_cone net call forward fuel q acc s = Ok s' → P s'.
Proof.
  revert q acc s. induction fuel as [|fuel IH]; intros q acc s Hs Hw; [done|].
  destruct q as [|cur rest]; cbn [walk_cone] in Hw; [by injection Hw as <-|].
  case_bool_decide; [|eauto].
  destruct (checkVisited net acc cur forward) as [[]| |]; cbn [mbind result_bind] in Hw; try done.
  2: { destruct (getNext net cur (negb forward)); cbn [mbind result_bind] in Hw; eauto; done. }
  destruct (getNext net cur forward); cbn [mbind result_bind] in Hw; try done.
  destruct (call cur s) as [[flag s1]| |] eqn:Ec; cbn [mbind result_bind] in Hw; try done.
  pose proof (Hcall _ _ _ _ Hs Ec). destruct flag; eauto. by injection Hw as <-.
Qed.

Lemma walk_cut_end_inv start end_ forward fuel s s' :
  P s → walk_cut_end net call start end_ forward fuel s = Ok s' → P s'.
Proof.
  unfold walk_cut_end. intros Hs Hw.
  destruct (getConeSet_cut net fuel end_ start ∅ forward); cbn [mbind result_bind] in Hw; try done.
  by eapply walk_cone_inv.
Qed.
End WalkInv.

Lemma callVisitor_inv {St} (vis : Visitor St) (P : St → Prop) :
  (∀ n s flag s', P s → onNodeBegin vis n s = Ok (flag, s') → P s') →
  (∀ n s flag s', P s → onNodeEnd vis n s = Ok (flag, s') → P s') →
  ∀ n s flag s', P s → callVisitor vis n s = Ok (flag, s') → P s'.
Proof.
  intros Hb He n s flag s' Hs Hc. unfold callVisitor in Hc.
  destruct (onNodeBegin vis n s) as [[f1 s1]| |] eqn:E1; cbn [mbind result_bind] in Hc; try done.
  pose proof (Hb _ _ _ _ Hs E1). case_bool_decide; [by injection Hc as _ <-|eauto].
Qed.

Lemma traced_eq {St} (call : GateId → St → Result (VisitorFlags * St)) n s tr :
  traced call n (s, tr) = ('(flag, s') ← call n s; Ok (flag, (s', tr ++ [n]))).
Proof. reflexivity. Qed.

Section ConeWalkFacts.
Context (net : GNet).

Lemma checkVisited_true acc cur forward :
  checkVisited net acc cur forward = Ok true →
  is_Some (net !! cur) ∧ ∀ u, u ∈ next_of net (negb forward) cur → u ∉ acc.
Proof.
  unfold checkVisited, gate_get, next_of, inputs_of.
  destruct (net !! cur) as [g|]; simpl; [|done]. intros [= Hf]. split; [by eexists|].
  intros u Hu. rewrite forallb_forall in Hf.
  destruct forward; simpl in Hu; apply list_elem_of_In, Hf, bool_decide_eq_true in Hu; done.
Qed.

(** A trace of a cone walk over the initial set [acc0]: no node twice,
    only [acc0] nodes, and every [acc0] neighbour of a node against the
    walk direction comes earlier. *)
Definition trace_ok (acc0 : gset GateId) (forward : bool) (tr : list GateId) : Prop :=
  NoDup tr ∧ (∀ v, v ∈ tr → v ∈ acc0) ∧
  ∀ i v, tr !! i = Some v → ∀ u, u ∈ next_of net (negb forward) v → u ∈ acc0 → u ∈ take i tr.

Definition cone_inv (acc0 : gset GateId) (forward : bool) (acc : gset GateId) (tr : list GateId) : Prop :=
  acc = acc0 ∖ list_to_set tr ∧ trace_ok acc0 forward tr.

Lemma cone_inv_visit acc0 forward acc tr cur :
  cone_inv acc0 forward acc tr → cur ∈ acc →
  (∀ u, u ∈ next_of net (negb forward) cur → u ∉ acc) →
  cone_inv acc0 forward (acc ∖ {[cur]}) (tr ++ [cur]).
Proof.
  intros (-> & Hnd & Hsub & Hord) Hcur Hready.
  apply elem_of_difference in Hcur as [Hc0 Hctr]. rewrite elem_of_list_to_set in Hctr.
  split; [rewrite list_to_set_app_L; set_solver|]. split; [|split].
  - apply NoDup_app. split; [done|]. split; [set_solver|apply NoDup_singleton].
  - intros v Hv. apply elem_of_app in Hv as [Hv|Hv]; [auto|].
    by apply list_elem_of_singleton in Hv as ->.
  - intros i v Hi u Hu Hu0. apply lookup_app_Some in Hi as [Hi|[Hle Hi]].
    + pose proof (lookup_lt_Some _ _ _ Hi). rewrite take_app_le by lia. eauto.
    + apply list_lookup_singleton_Some in Hi as [Hi <-].
      rewrite take_app_ge by lia. apply elem_of_app. left.
      destruct (decide (u ∈ tr)) as [|Hn]; [done|].
      exfalso. apply (Hready u Hu). apply elem_of_difference. by rewrite elem_of_list_to_set.
Qed.

(** Partial correctness of the cone walk for any visitor. *)
Lemma walk_cone_trace {St} (call : GateId → St → Result (VisitorFlags * St))
    acc0 forward fuel q acc s tr s' tr' :
  cone_inv acc0 forward acc tr →
  walk_cone net (traced call) forward fuel q acc (s, tr) = Ok (s', tr') →
  trace_ok acc0 forward tr'.
Proof.
  revert q acc s tr. induction fuel as [|fuel IH]; intros q acc s tr Hinv Hw; [done|].
  destruct q as [|cur rest]; cbn [walk_cone] in Hw; [injection Hw as <- <-; apply Hinv|].
  case_bool_decide as Hcur; [|eauto].
  destruct (checkVisited net acc cur forward) as [[]| |] eqn:Ec; cbn [mbind result_bind] in Hw;
    try done.
  2: { destruct (getNext net cur (negb forward)); cbn [mbind result_bind] in Hw; eauto; done. }
  destruct (getNext net cur forward) as [next| |]; cbn [mbind result_bind] in Hw; try done.
  rewrite traced_eq in Hw.
  destruct (call cur s) as [[flag s1]| |]; cbn [mbind result_bind] in Hw; try done.
  apply checkVisited_true in Ec as [_ Hready].
  pose proof (cone_inv_visit acc0 forward acc tr cur Hinv Hcur Hready) as Hinv'.
  destruct flag; [eauto|eauto| |eauto]. injection Hw as <- <-. apply Hinv'.
Qed.

Lemma checkVisited_defined acc cur forward : checkVisited net acc cur forward ≠ OutOfFuel.
Proof. unfold checkVisited, gate_get. by destruct (net !! cur). Qed.

Lemma checkAllVisited_defined vis used cur forward : checkAllVisited net vis used cur forward ≠ OutOfFuel.
Proof. unfold checkAllVisited, gate_get. by destruct (net !! cur). Qed.

Lemma getNext_defined cur forward : getNext net cur forward ≠ OutOfFuel.
Proof. unfold getNext, gate_get. by destruct (net !! cur). Qed.

Section Termination.
Context (r : GateId → nat) (D D' R : nat) (forward : bool).
Hypothesis Hc : closed_net net.
Hypothesis Hr : ranked net r (negb forward).
Hypothesis HD : fan_bound net D (negb forward).
Hypothesis HD' : fan_bound net D' forward.
Hypothesis HR : set_Forall (λ v, r v ≤ R) (dom net).

(** The queue weight against the walk direction plus a charge per node
    still to visit that pays for the neighbours it pushes. *)
Definition walk_potential (q : list GateId) (n : nat) : nat :=
  qweight r D q + n * (D' * S D ^ R + 1).

Lemma next_weight cur next :
  getNext net cur forward = Ok next → qweight r D next ≤ D' * S D ^ R.
Proof.
  intros Hn. pose proof (fan_bound_next net D' forward cur next HD' Hn) as Hlen.
  apply getNext_Ok in Hn as [Hcur ->].
  etransitivity; [apply (qweight_le_max r D R)|by apply Nat.mul_le_mono_r].
  apply Forall_forall. intros u Hu. apply HR, elem_of_dom. by eapply next_of_closed.
Qed.

Lemma prev_step cur rest prev (P : GateId → Prop) `{∀ u, Decision (P u)} :
  getNext net cur (negb forward) = Ok prev →
  qweight r D (rest ++ filter P prev) < qweight r D (cur :: rest).
Proof.
  intros Hp. apply qweight_step.
  - apply Forall_forall. intros u Hu. apply list_elem_of_filter in Hu as [_ Hu].
    by eapply ranked_next.
  - etransitivity; [apply length_filter|by eapply fan_bound_next].
Qed.

(** The cone walk never runs out of [walk_potential + 1] units of fuel. *)
Lemma walk_cone_fuel {St} (call : GateId → St → Result (VisitorFlags * St)) fuel q acc s :
  (∀ n s, call n s ≠ OutOfFuel) →
  walk_potential q (size acc) < fuel → walk_cone net call forward fuel q acc s ≠ OutOfFuel.
Proof.
  intros Hcall. unfold walk_potential. revert q acc s.
  induction fuel as [|fuel IH]; intros q acc s Hf; [lia|].
  destruct q as [|cur rest]; cbn [walk_cone]; [done|].
  pose proof (Nat.pow_nonzero (S D) (r cur) ltac:(lia)). rewrite qweight_cons in *.
  case_bool_decide as Hcur; [|apply IH; lia].
  pose proof (checkVisited_defined acc cur forward).
  destruct (checkVisited net acc cur forward) as [[]| |]; cbn [mbind result_bind]; try done.
  2: { pose proof (getNext_defined cur (negb forward)).
       destruct (getNext net cur (negb forward)) as [prev| |] eqn:Ep; cbn [mbind result_bind]; try done.
       apply IH. pose proof (prev_step cur rest prev (λ u, u ∈ acc) Ep).
       rewrite qweight_cons in *. lia. }
  pose proof (getNext_defined cur forward).
  destruct (getNext net cur forward) as [next| |] eqn:En; cbn [mbind result_bind]; try done.
  pose proof (Hcall cur s).
  destruct (call cur s) as [[flag s1]| |]; cbn [mbind result_bind]; try done.
  pose proof (next_weight cur next En) as Hw. pose proof (size_remove acc cur Hcur) as Hs.
  destruct flag; try done; apply IH; rewrite ?qweight_app, ?qweight_cons;
    match goal with
    | |- ?a + _ * _ < _ =>
        pose proof (potential_drop (S D ^ r cur + qweight r D rest) a _ _ (D' * S D ^ R + 1) Hs
          ltac:(lia))
    end; lia.
Qed.

(** [walkAll] never runs out of fuel either; its charge is per gate of
    the net not yet visited. *)
Lemma walk_all_fuel {St} (call : GateId → St → Result (VisitorFlags * St)) fuel q used vis s :
  (∀ n s, call n s ≠ OutOfFuel) →
  walk_potential q (size (dom net ∖ vis)) < fuel →
  walk_all net call forward fuel q used vis s ≠ OutOfFuel.
Proof.
  intros Hcall. unfold walk_potential. revert q vis s.
  induction fuel as [|fuel IH]; intros q vis s Hf; [lia|].
  destruct q as [|cur rest]; cbn [walk_all]; [done|].
  pose proof (Nat.pow_nonzero (S D) (r cur) ltac:(lia)). rewrite qweight_cons in *.
  case_bool_decide as Hcur; [|apply IH; lia].
  pose proof (checkAllVisited_defined vis used cur forward).
  destruct (checkAllVisited net vis used cur forward) as [[]| |] eqn:Ec; cbn [mbind result_bind];
    try done.
  2: { pose proof (getNext_defined cur (negb forward)).
       destruct (getNext net cur (negb forward)) as [prev| |] eqn:Ep; cbn [mbind result_bind]; try done.
       apply IH. pose proof (prev_step cur rest prev (λ u, u ∉ vis) Ep).
       rewrite qweight_cons in *. lia. }
  pose proof (getNext_defined cur forward).
  destruct (getNext net cur forward) as [next| |] eqn:En; cbn [mbind result_bind]; try done.
  pose proof (Hcall cur s).
  destruct (call cur s) as [[flag s1]| |]; cbn [mbind result_bind]; try done.
  pose proof (next_weight cur next En) as Hw.
  assert (Hs : size (dom net ∖ vis) = S (size (dom net ∖ ({[cur]} ∪ vis)))).
  { apply getNext_Ok in En as [Hd _]. apply elem_of_dom in Hd.
    rewrite (size_remove (dom net ∖ vis) cur) by set_solver. do 2 f_equal. set_solver. }
  destruct flag; try done; apply IH; rewrite ?qweight_app, ?qweight_cons;
    match goal with
    | |- ?a + _ * _ < _ =>
        pose proof (potential_drop (S D ^ r cur + qweight r D rest) a _ _ (D' * S D ^ R + 1) Hs
          ltac:(lia))
    end; lia.
Qed.
End Termination.

Lemma checkAllVisited_true vis used cur forward :
  checkAllVisited net vis used cur forward = Ok true →
  ∀ u, u ∈ next_of net (negb forward) cur → u ∈ vis ∨ u ∈ used.
Proof.
  unfold checkAllVisited, gate_get, next_of, inputs_of.
  destruct (net !! cur) as [g|]; simpl; [|done]. intros [= Hf].
  intros u Hu. rewrite forallb_forall in Hf.
  destruct forward; simpl in Hu; apply list_elem_of_In, Hf, bool_decide_eq_true in Hu; done.
Qed.

(** A trace of [walkAll]: no node twice, and every neighbour of a node
    against the walk direction is in [used] or visited earlier. *)
Definition all_trace_ok (used : gset GateId) (forward : bool) (tr : list GateId) : Prop :=
  NoDup tr ∧
  ∀ i v, tr !! i = Some v → ∀ u, u ∈ next_of net (negb forward) v → u ∈ used ∨ u ∈ take i tr.

Lemma all_trace_visit used forward tr cur :
  all_trace_ok used forward tr → cur ∉ list_to_set (C := gset GateId) tr →
  (∀ u, u ∈ next_of net (negb forward) cur → u ∈ list_to_set (C := gset GateId) tr ∨ u ∈ used) →
  all_trace_ok used forward (tr ++ [cur]).
Proof.
  intros [Hnd Hord] Hcur Hready. rewrite elem_of_list_to_set in Hcur. split.
  - apply NoDup_app. split; [done|]. split; [set_solver|apply NoDup_singleton].
  - intros i v Hi u Hu. apply lookup_app_Some in Hi as [Hi|[Hle Hi]].
    + pose proof (lookup_lt_Some _ _ _ Hi). rewrite take_app_le by lia. eauto.
    + apply list_lookup_singleton_Some in Hi as [Hi <-].
      rewrite take_app_ge by lia. destruct (Hready u Hu) as [Hv|]; [|by left].
      right. apply elem_of_app. left. by apply elem_of_list_to_set in Hv.
Qed.

(** Partial correctness of [walkAll] for any visitor. *)
Lemma walk_all_trace {St} (call : GateId → St → Result (VisitorFlags * St))
    used forward fuel q s tr s' tr' :
  all_trace_ok used forward tr →
  walk_all net (traced call) forward fuel q used (list_to_set tr) (s, tr) = Ok (s', tr') →
  all_trace_ok used forward tr'.
Proof.
  revert q s tr. induction fuel as [|fuel IH]; intros q s tr Hinv Hw; [done|].
  destruct q as [|cur rest]; cbn [walk_all] in Hw; [by injection Hw as <- <-|].
  case_bool_decide as Hcur; [|eauto].
  destruct (checkAllVisited net (list_to_set tr) used cur forward) as [[]| |] eqn:Ec;
    cbn [mbind result_bind] in Hw; try done.
  2: { destruct (getNext net cur (negb forward)); cbn [mbind result_bind] in Hw; eauto; done. }
  destruct (getNext net cur forward) as [next| |]; cbn [mbind result_bind] in Hw; try done.
  rewrite traced_eq in Hw.
  destruct (call cur s) as [[flag s1]| |]; cbn [mbind result_bind] in Hw; try done.
  pose proof (all_trace_visit used forward tr cur Hinv Hcur (checkAllVisited_true _ _ _ _ Ec)) as Hinv'.
  replace ({[cur]} ∪ list_to_set tr) with (list_to_set (C := gset GateId) (tr ++ [cur])) in Hw
    by (rewrite list_to_set_app_L; set_solver).
  destruct flag; [eauto|eauto| |eauto]. by injection Hw as <- <-.
Qed.
End ConeWalkFacts.

(** C21. [Walker::walk(const std::vector<GateId> &nodes, bool forward)]
    with [forward = false] does not walk the reversed vector: its end
    sentinel [std::prev(nodes.begin(), -1)] is [begin() + 1], so for a
    vector of at least two nodes it visits the nodes from the last one
    down to the third and never the first two. *)
Theorem walk_vector_backward_skips {St} (call : GateId → St → Result (VisitorFlags * St))
    nodes s :
  (2 ≤ length nodes)%nat →
  walk_vector call nodes false s = walk_nodes call (reverse (drop 2 nodes)) s.
Proof.
  intros Hlen. unfold walk_vector.
  replace (Z.of_nat (length nodes) - 1)%Z with (Z.of_nat (length nodes - 1)) by lia.
  rewrite walk_back_prefix by lia. rewrite take_ge; [done|]. rewrite length_drop. lia.
Qed.

(** A visitor that records the nodes it is called on. *)
Definition record_call (n : GateId) (trace : list GateId) : Result (VisitorFlags * list GateId) :=
  Ok (CONTINUE, trace ++ [n]).

(** Witness: walking [[1; 2; 3]] backward visits only [3]. *)
Lemma walk_vector_backward_skips_witness :
  (2 ≤ length [1; 2; 3])%nat ∧
  walk_vector record_call [1; 2; 3] false [] = Ok [3] ∧
  walk_vector record_call [1; 2; 3] true [] = Ok [1; 2; 3].
Proof.
  split; [simpl; lia|]. split; [|reflexivity].
  rewrite (walk_vector_backward_skips record_call [1; 2; 3] [] ltac:(simpl; lia)).
  reflexivity.
Defined.

(** On a vector of one node the backward walk visits it and then
    reads before the start of the vector (undefined behaviour); on an
    empty vector its first read is already out of range. *)
Theorem walk_vector_backward_short {St} (call : GateId → St → Result (VisitorFlags * St))
    nodes s :
  (length nodes ≤ 1)%nat →
  (∀ n s, ∃ s', call n s = Ok (CONTINUE, s')) →
  walk_vector call nodes false s = Undef.
Proof.
  intros Hlen Hcall. unfold walk_vector.
  destruct nodes as [|x [|y nodes]]; simpl in *; [reflexivity| |lia].
  destruct (Hcall x s) as [s' Hx]. rewrite Hx. simpl. reflexivity.
Qed.

Lemma walk_vector_backward_short_witness :
  (length [7] ≤ 1)%nat ∧ walk_vector record_call [7] false [] = Undef.
Proof.
  split; [simpl; lia|].
  apply walk_vector_backward_short; [simpl; lia|]. intros n t. by eexists.
Defined.

(** ** Properties of the cone walks *)

(** C5. The ordering contract of the cone walk [Walker::walk(bfs,
    accessed, forward)]: whatever the visitor answers, the nodes it is
    called on are distinct nodes of the initial [accessed] set, and each
    is called only after every [accessed] neighbour against the walk
    direction (its inputs in a forward walk) has been. *)
Theorem walk_cone_ordered {St} net (call : GateId → St → Result (VisitorFlags * St))
    forward fuel q acc s s' tr :
  walk_cone net (traced call) forward fuel q acc (s, []) = Ok (s', tr) →
  trace_ok net acc forward tr.
Proof.
  intros Hw. eapply (walk_cone_trace net call acc forward fuel q acc s []); [|exact Hw].
  split; [set_solver|]. split; [constructor|]. split; [set_solver|]. intros i v Hi; by rewrite lookup_nil in Hi.
Qed.

(** C14. The cone walk terminates: on a closed net with a rank
    decreasing against the walk direction, fan-in [D] against and
    fan-out [D'] along it and ranks at most [R], a visitor that never
    diverges makes it return within [walk_potential] units of fuel. *)
Theorem walk_cone_terminates {St} net r D D' R forward
    (call : GateId → St → Result (VisitorFlags * St)) fuel q acc s :
  closed_net net → ranked net r (negb forward) → fan_bound net D (negb forward) →
  fan_bound net D' forward → set_Forall (λ v, r v ≤ R) (dom net) →
  (∀ n s, call n s ≠ OutOfFuel) →
  walk_potential r D D' R q (size acc) < fuel →
  walk_cone net call forward fuel q acc s ≠ OutOfFuel.
Proof. intros Hc Hr HD HD' HR Hcall Hf. by eapply walk_cone_fuel. Qed.

(** C20. [Walker::walkAll] calls the visitor on distinct nodes, each only
    after every neighbour against the walk direction that is not in
    [used] has been called: the nodes of [used] are never waited for. *)
Theorem walk_all_ordered {St} net (call : GateId → St → Result (VisitorFlags * St))
    forward fuel q used s s' tr :
  walk_all net (traced call) forward fuel q used ∅ (s, []) = Ok (s', tr) →
  all_trace_ok net used forward tr.
Proof.
  intros Hw. eapply (walk_all_trace net call used forward fuel q s []); [|exact Hw].
  split; [constructor|]. intros i v Hi; by rewrite lookup_nil in Hi.
Qed.

(** The visitor that always continues. *)
Definition cont_call (n : GateId) (s : unit) : Result (VisitorFlags * unit) := Ok (CONTINUE, s).

(** [walk(start, used)] does not trace the nodes of [used] in order
    (the header says [used] is the set of all nodes to be traced): on the
    AND tree, walking from input [1] with [used] = all gates visits
    [5 = AND(1, 2)] before its input [2] and never visits [2], while with
    an empty [used] it visits the whole tree in topological order. *)
Theorem walk_used_inverted :
  walk_used net_tree (traced cont_call) [1] {[1; 2; 3; 4; 5; 6; 7]} 100 (tt, []) = Ok (tt, [1; 5; 7]) ∧
  walk_used net_tree (traced cont_call) [1] ∅ 100 (tt, []) = Ok (tt, [1; 2; 5; 3; 4; 6; 7]).
Proof. split; vm_compute; reflexivity. Qed.

Lemma walk_cone_ordered_witness :
  walk_cone net_tree (traced cont_call) true 100 [5; 6] {[5; 6; 7]} (tt, []) = Ok (tt, [5; 6; 7]) ∧
  trace_ok net_tree {[5; 6; 7]} true [5; 6; 7].
Proof.
  assert (Hw : walk_cone net_tree (traced cont_call) true 100 [5; 6] {[5; 6; 7]} (tt, []) =
               Ok (tt, [5; 6; 7])) by (vm_compute; reflexivity).
  split; [exact Hw|]. exact (walk_cone_ordered net_tree cont_call true 100 [5; 6] _ tt tt _ Hw).
Defined.

(** A rank of [net_tree]: inputs 0, the two inner gates 1, the root 2. *)
Definition tree_rank (v : GateId) : nat := if v <=? 4 then 0 else if v <=? 6 then 1 else 2.

Lemma walk_cone_terminates_witness :
  walk_cone net_tree cont_call true 200 [5; 6] {[5; 6; 7]} tt ≠ OutOfFuel.
Proof.
  apply (walk_cone_terminates net_tree tree_rank 2 1 2);
    [vm_decide|vm_decide|vm_decide|vm_decide|vm_decide|done|vm_compute; lia].
Defined.

Lemma walk_all_ordered_witness :
  walk_all net_tree (traced cont_call) true 100 [1] ∅ ∅ (tt, []) = Ok (tt, [1; 2; 5; 3; 4; 6; 7]) ∧
  all_trace_ok net_tree ∅ true [1; 2; 5; 3; 4; 6; 7].
Proof.
  assert (Hw : walk_all net_tree (traced cont_call) true 100 [1] ∅ ∅ (tt, []) =
               Ok (tt, [1; 2; 5; 3; 4; 6; 7])) by (vm_compute; reflexivity).
  split; [exact Hw|]. exact (walk_all_ordered net_tree cont_call true 100 [1] ∅ tt tt _ Hw).
Defined.
