(* ===== verification/ConeVisitor.v ===== *)
(** * The cone extractor ([cone_visitor.cpp], [extractCone] of [util.cpp])

    [ConeVisitor] copies the nodes of a cone into a new net while the
    walker visits them from the cut up to the root: a cut node none of
    whose inputs has been copied becomes a primary input (or a copy of a
    constant), any other node becomes a gate with the same function over
    the copies of its already-copied inputs, and at the root an [OUT] is
    added and the walk finishes.  The new net is built through
    [GNet::addGate] (not under [src/]), modelled from the spec as an
    allocator of fresh ids starting at [base]: gate ids are global in the
    C++ library, so the first id of the new net is a parameter. *)

From S2P Require Import Prelude Gnet Util Walker.

(** ** The new net under construction *)

Record Builder := mkBuilder { bnet : GNet; fresh : GateId }.

(** [GNet::addGate(func, inputs)]: a fresh id. *)
Definition addGate (f : GateSymbol) (ins : list GateId) (b : Builder) : GateId * Builder :=
  (fresh b, mkBuilder (<[fresh b := ⟨f; ins⟩]> (bnet b)) (S (fresh b))).

(** [GNet::addOut(id)]: an [OUT] gate reading [id]. *)
Definition addOut (id : GateId) (b : Builder) : GateId * Builder := addGate OUT [id] b.

(** ** [ConeVisitor] *)

(** The fields [newGates] (old node to new node), [resultCutOldGates]
    and [net]. *)
Record ConeState := mkCone {
  newGates : gmap GateId GateId;
  resultCutOldGates : gset GateId;
  cnet : Builder;
}.

Section Cone.
Context (net : GNet) (cut : gset GateId) (cutFor : GateId).

(** [ConeVisitor::onNodeBegin] *)
Definition cone_onNodeBegin (node : GateId) (st : ConeState) : Result (VisitorFlags * ConeState) :=
  cur ← gate_get net node;
  let signals := omap (λ u, newGates st !! u) (inputs cur) in
  let '(ng, rc, b) :=
    if bool_decide (node ∈ cut) && bool_decide (signals = []) then
      let f := if isValue cur then func cur else IN in
      let '(id, b') := addGate f [] (cnet st) in
      (<[node:=id]> (newGates st), {[node]} ∪ resultCutOldGates st, b')
    else
      let '(id, b') := addGate (func cur) signals (cnet st) in
      (<[node:=id]> (newGates st), resultCutOldGates st, b') in
  if bool_decide (node = cutFor) then
    g ← gate_get net node;
    if bool_decide (func g ≠ OUT) then
      id ← of_option (ng !! node);
      Ok (FINISH_ALL_NODES, mkCone ng rc (addOut id b).2)
    else Ok (FINISH_ALL_NODES, mkCone ng rc b)
  else Ok (CONTINUE, mkCone ng rc b).

(** [ConeVisitor::onNodeEnd] *)
Definition cone_onNodeEnd (node : GateId) (st : ConeState) : Result (VisitorFlags * ConeState) :=
  Ok (CONTINUE, st).

Definition cone_visitor : Visitor ConeState :=
  {| onNodeBegin := cone_onNodeBegin; onNodeEnd := cone_onNodeEnd |}.

(** [ConeVisitor coneVisitor(cut, root); walker.walk(cut, root, false)]
    on a fresh visitor whose new net allocates from [base]. *)
Definition cone_run (fuel base : nat) : Result ConeState :=
  walk_cut_end net (callVisitor cone_visitor) cut cutFor false fuel
    (mkCone ∅ ∅ (mkBuilder ∅ base)).
End Cone.

(** [BoundGNet]: the new net and the new ids of the cut, in order. *)
Record BoundGNet := mkBound { bg_net : GNet; inputBindings : list GateId }.

(** [extractCone(net, root, cut, order)]; [cutConeMap.find(gate)->second]
    on a node never copied dereferences [end()]. *)
Definition extractCone (fuel base : nat) (net : GNet) (root : GateId) (cut : gset GateId)
    (order : list GateId) : Result BoundGNet :=
  st ← cone_run net cut root fuel base;
  binds ← mapM (λ g, of_option (newGates st !! g)) order;
  Ok (mkBound (bnet (cnet st)) binds).

(** [extractCone(net, root, order)]: the cut is the set of [order]. *)
Definition extractCone_order (fuel base : nat) (net : GNet) (root : GateId) (order : list GateId) :
    Result BoundGNet :=
  extractCone fuel base net root (list_to_set order) order.

(** ** Well-formedness of the extracted cone *)

(** Every gate of the new net has an id in [[base, fresh)] and reads only
    gates of the new net with smaller ids. *)
Definition builder_ok (base : nat) (b : Builder) : Prop :=
  base ≤ fresh b ∧
  map_Forall (λ id g, base ≤ id < fresh b ∧
                      Forall (λ u, base ≤ u < id ∧ is_Some (bnet b !! u)) (inputs g)) (bnet b).

Definition cone_ok (base : nat) (cut : gset GateId) (st : ConeState) : Prop :=
  builder_ok base (cnet st) ∧
  map_Forall (λ _ id, is_Some (bnet (cnet st) !! id)) (newGates st) ∧
  resultCutOldGates st ⊆ cut.

Lemma addGate_ok base f ins b :
  builder_ok base b → Forall (λ u, is_Some (bnet b !! u)) ins →
  builder_ok base (addGate f ins b).2 ∧
  is_Some (bnet (addGate f ins b).2 !! (addGate f ins b).1) ∧
  ∀ u, is_Some (bnet b !! u) → is_Some (bnet (addGate f ins b).2 !! u).
Proof.
  intros [Hbase Hb] Hins. unfold builder_ok, addGate. simpl.
  assert (Hlt : ∀ u, is_Some (bnet b !! u) → base ≤ u < fresh b).
  { intros u [g Hg]. by destruct (Hb u g Hg) as [? _]. }
  split; [split; [lia|]|split; [by rewrite lookup_insert_eq|]].
  - apply map_Forall_insert_2.
    + split; [lia|]. eapply Forall_impl; [done|]. intros u Hu. simpl.
      pose proof (Hlt u Hu). split; [lia|].
      rewrite lookup_insert_ne by lia. done.
    + intros id g Hg. destruct (Hb id g Hg) as [Hid Hin]. split; [lia|].
      eapply Forall_impl; [done|]. intros u [Hu1 Hu2]. split; [done|].
      rewrite lookup_insert_ne by lia. done.
  - intros u Hu. pose proof (Hlt u Hu). rewrite lookup_insert_ne by lia. done.
Qed.

Lemma signals_ok (ng : gmap GateId GateId) (b : Builder) ins :
  map_Forall (λ _ id, is_Some (bnet b !! id)) ng →
  Forall (λ u, is_Some (bnet b !! u)) (omap (λ u, ng !! u) ins).
Proof.
  intros Hng. apply Forall_forall. intros u Hu.
  apply list_elem_of_omap in Hu as (v & _ & Hv). by apply (Hng v u).
Qed.

Lemma cone_onNodeBegin_ok net cut cutFor base node st flag st' :
  cone_ok base cut st → cone_onNodeBegin net cut cutFor node st = Ok (flag, st') →
  cone_ok base cut st'.
Proof.
  intros (Hb & Hng & Hrc) Hc. unfold cone_onNodeBegin in Hc.
  destruct (gate_get net node) as [cur| |]; cbn [mbind result_bind] in Hc; try done.
  set (signals := omap (λ u, newGates st !! u) (inputs cur)) in Hc.
  pose proof (signals_ok (newGates st) (cnet st) (inputs cur) Hng) as Hsig.
  assert (Hstep : ∀ f ins rc, Forall (λ u, is_Some (bnet (cnet st) !! u)) ins → rc ⊆ cut →
    cone_ok base cut (mkCone (<[node:=(addGate f ins (cnet st)).1]> (newGates st)) rc
                             (addGate f ins (cnet st)).2)).
  { intros f ins rc Hins Hrc'. destruct (addGate_ok base f ins (cnet st) Hb Hins) as (Hb' & Hid & Hmono).
    split; [done|]. split; [|done]. apply map_Forall_insert_2; [done|].
    intros v id Hv. apply Hmono. by apply (Hng v). }
  assert (Hmid : cone_ok base cut
    (let '(ng, rc, b) :=
       if bool_decide (node ∈ cut) && bool_decide (signals = []) then
         let '(id, b') := addGate (if isValue cur then func cur else IN) [] (cnet st) in
         (<[node:=id]> (newGates st), {[node]} ∪ resultCutOldGates st, b')
       else let '(id, b') := addGate (func cur) signals (cnet st) in
         (<[node:=id]> (newGates st), resultCutOldGates st, b') in mkCone ng rc b)).
  { destruct (bool_decide (node ∈ cut)) eqn:Hcut; simpl.
    - destruct (bool_decide (signals = [])); simpl; apply Hstep; try done.
      apply bool_decide_eq_true in Hcut. set_solver.
    - by apply Hstep. }
  revert Hc Hmid.
  destruct (if bool_decide (node ∈ cut) && bool_decide (signals = []) then _ else _)
    as [[ng rc] b] eqn:E. intros Hc Hmid. simpl in Hmid.
  case_bool_decide; [|by injection Hc as _ <-].
  case_bool_decide; [|by injection Hc as _ <-].
  destruct (ng !! node) as [id|] eqn:Eid; cbn [of_option mbind result_bind] in Hc; [|done].
  injection Hc as _ <-. destruct Hmid as (Hb2 & Hng2 & Hrc2).
  destruct (addGate_ok base OUT [id] b Hb2) as (Hb3 & _ & Hmono); [by repeat constructor; apply (Hng2 node)|].
  split; [done|]. split; [|done]. intros v i Hv. apply Hmono. by apply (Hng2 v).
Qed.

Lemma cone_run_ok net cut root fuel base st :
  cone_run net cut root fuel base = Ok st → cone_ok base cut st.
Proof.
  apply (walk_cut_end_inv net _ (cone_ok base cut)).
  - apply callVisitor_inv; [apply cone_onNodeBegin_ok|by intros n s0 flag s' Hs [= _ <-]].
  - split; [split; [done|apply map_Forall_empty]|]. split; [apply map_Forall_empty|set_solver].
Qed.

Lemma mapM_of_option_Ok (m : gmap GateId GateId) (order binds : list GateId) :
  mapM (λ g, of_option (m !! g)) order = Ok binds →
  Forall (λ i, ∃ g, g ∈ order ∧ m !! g = Some i) binds.
Proof.
  revert binds. induction order as [|g order IH]; intros binds H; simpl in H.
  { injection H as <-. constructor. }
  destruct (m !! g) as [i|] eqn:Eg; simpl in H; [|done].
  destruct (mapM _ order) as [binds'| |]; simpl in H; try done. injection H as <-.
  constructor; [exists g; split; [left|done]|].
  eapply Forall_impl; [by apply IH|]. intros j (h & Hh & Hj). exists h. split; [by right|done].
Qed.

(** ** Properties *)

(** C11. [extractCone] returns a well-formed net: closed, acyclic (every
    gate reads gates of smaller id), allocated from [base] upwards, with
    every input binding a gate of the new net. *)
Theorem extractCone_wf fuel base net root cut order bg :
  extractCone fuel base net root cut order = Ok bg →
  closed_net (bg_net bg) ∧ ranked (bg_net bg) (λ v, v) false ∧
  map_Forall (λ id _, base ≤ id) (bg_net bg) ∧
  Forall (λ i, is_Some (bg_net bg !! i)) (inputBindings bg).
Proof.
  unfold extractCone. intros H.
  destruct (cone_run net cut root fuel base) as [st| |] eqn:Hst; simpl in H; try done.
  destruct (mapM _ order) as [binds| |] eqn:Hb; simpl in H; try done. injection H as <-. simpl.
  destruct (cone_run_ok _ _ _ _ _ _ Hst) as ([_ Hbld] & Hng & _).
  split; [|split; [|split]].
  - intros id g Hg. eapply Forall_impl; [apply (Hbld id g Hg)|]. by intros u [_ ?].
  - intros v Hv. apply elem_of_dom in Hv as [g Hg]. unfold next_of, inputs_of. rewrite Hg. simpl.
    eapply Forall_impl; [apply (Hbld v g Hg)|]. intros u [? _]. lia.
  - intros id g Hg. by destruct (Hbld id g Hg) as [[? _] _].
  - eapply Forall_impl; [by apply mapM_of_option_Ok in Hb|]. intros i (g & _ & Hg). by apply (Hng g).
Qed.

(** The spec's cone-extraction scenario: on the two-level AND tree
    with [cut = {a, b}] and [root = t] the extracted cone has four gates,
    two inputs, the AND over them and the [OUT], and the bindings follow
    the order [[a; b]]. *)
Theorem extractCone_tree_scenario :
  extractCone 100 100 net_tree 7 {[5; 6]} [5; 6] =
  Ok (mkBound (list_to_map [(100, ⟨IN; []⟩); (101, ⟨IN; []⟩); (102, ⟨AND; [101; 100]⟩);
                            (103, ⟨OUT; [102]⟩)]) [101; 100]).
Proof. vm_compute. reflexivity. Qed.

(** A cut one of whose nodes reads another: [5 = AND(1, 2)], [7 = AND(5, 1)]. *)
Definition net_cut_internal : GNet :=
  list_to_map [(1, ⟨IN; []⟩); (2, ⟨IN; []⟩); (5, ⟨AND; [1; 2]⟩); (7, ⟨AND; [5; 1]⟩)].

(** A cut node with an input already copied is not made an input of
    the cone: for the irredundant cut [{1, 5}] of [7] (no proper subset is
    a cut) the extractor copies [5] as [AND] over the copy of [1] alone,
    dropping its input [2], and reports the effective cut [{1}], which is
    not a cut of [7]; the spec says only redundant cut nodes disappear. *)
Theorem cone_cut_internal_input :
  covered net_cut_internal {[1; 5]} 7 ∧ ¬ covered net_cut_internal {[1]} 7 ∧
  ¬ covered net_cut_internal {[5]} 7 ∧
  ∃ st, cone_run net_cut_internal {[1; 5]} 7 100 100 = Ok st ∧
    resultCutOldGates st = {[1]} ∧ bnet (cnet st) !! 101 = Some ⟨AND; [100]⟩.
Proof.
  assert (H7 : inputs_of net_cut_internal 7 = [5; 1]) by reflexivity.
  assert (H5 : inputs_of net_cut_internal 5 = [1; 2]) by reflexivity.
  assert (H2 : inputs_of net_cut_internal 2 = []) by reflexivity.
  assert (H1 : inputs_of net_cut_internal 1 = []) by reflexivity.
  split; [|split; [|split]].
  - apply cov_gate; [by rewrite H7|]. rewrite H7. intros u Hu. apply cov_leaf. set_solver.
  - rewrite covered_inv, H7. intros [?|[_ Hc5]]; [set_solver|].
    specialize (Hc5 5 ltac:(set_solver)). rewrite covered_inv, H5 in Hc5.
    destruct Hc5 as [?|[_ Hc2]]; [set_solver|]. specialize (Hc2 2 ltac:(set_solver)).
    rewrite covered_inv, H2 in Hc2. destruct Hc2 as [?|[? _]]; set_solver.
  - rewrite covered_inv, H7. intros [?|[_ Hc1]]; [set_solver|].
    specialize (Hc1 1 ltac:(set_solver)). rewrite covered_inv, H1 in Hc1.
    destruct Hc1 as [?|[? _]]; set_solver.
  - eexists. split; [vm_compute; reflexivity|]. split; vm_compute; reflexivity.
Qed.

(** ** Witnesses *)

Lemma extractCone_wf_witness :
  closed_net (list_to_map [(100, ⟨IN; []⟩); (101, ⟨IN; []⟩); (102, ⟨AND; [101; 100]⟩);
                           (103, ⟨OUT; [102]⟩)]).
Proof.
  assert (H : extractCone 100 100 net_tree 7 {[5; 6]} [5; 6] =
    Ok (mkBound (list_to_map [(100, ⟨IN; []⟩); (101, ⟨IN; []⟩); (102, ⟨AND; [101; 100]⟩);
                              (103, ⟨OUT; [102]⟩)]) [101; 100])) by (vm_compute; reflexivity).
  exact (proj1 (extractCone_wf 100 100 net_tree 7 {[5; 6]} [5; 6] _ H)).
Defined.
