(* ===== verification/CutsFinder.v ===== *)
(** * The cut enumerator [CutsFindVisitor] ([cuts_finder_visitor.cpp])

    For a gate [v], [onNodeBegin] seeds [v]'s cut set with the trivial
    cut [{v}], looks up the cut sets of the effective inputs (a NOT input
    is replaced by the NOT's own input), and enumerates the Cartesian
    product of those cut sets with a radix counter of iterators [ptrs]:
    each combination's union ([fix_cut], emptied when it exceeds
    [cutSize]) is a candidate.  The legacy algorithm ([old]) emplaces
    every candidate; the new one applies the subsumption step
    [add_cut] and, when it accepts a one-element cut, advances all
    iterators at once ([incrementAll]).  Both stop early once the node
    has more than [maxCutNum] cuts (0 means no limit).  The new
    algorithm first populates, recursively, any input whose cut set is
    still empty.

    Iterators are indices into the list that models the [unordered_set]
    of cuts; dereferencing or incrementing the end iterator is [Undef].  The loop body is
    [step_old] / [step_new], iterated by [loop] on fuel. *)

From S2P Require Import Prelude Gnet CutStorage Walker.

(** [CutsFindVisitor]'s configuration. *)
Record CutsFindConfig := {
  cutSize : nat;
  maxCutNum : nat;
}.

(** [CutsFindVisitor::ALL_CUTS] *)
Definition ALL_CUTS : nat := 0.

(** ** The bounded union of one combination ("Fix cut")

    [for (auto &it: ptrs) { collected.insert(...); if (collected.size() >
    cutSize) { collected = Cut(); break; } }]: the iterators are
    dereferenced lazily, so an end iterator after the break is never
    read. *)
Fixpoint fix_cut (cutSize : nat) (collected : Cut) (slots : list (Cuts * nat)) : Result Cut :=
  match slots with
  | [] => Ok collected
  | (cs, p) :: slots' =>
      c ← of_option (cs !! p);
      let collected' := collected ∪ c in
      if cutSize <? size collected' then Ok ∅ else fix_cut cutSize collected' slots'
  end.

(** ** The radix counter

    [while (i < n && ++ptrs[i] == inputCuts[i]->end()) { ptrs[i] =
    begin; ++i; }] run from digit [i]: [incr] runs it from digit 0 and
    returns the new digits and the number of digits that wrapped;
    [carry] starts at digit [i] and returns the index where it stopped.
    An iterator is at [end()] only on an empty set (whose [begin] is its
    [end]), and [++] on it is undefined. *)
Fixpoint incr (lens ptrs : list nat) : Result (list nat * nat) :=
  match lens, ptrs with
  | l :: lens', p :: ptrs' =>
      if l <=? p then Undef
      else if S p =? l then '(ps, k) ← incr lens' ptrs'; Ok (0 :: ps, S k)
      else Ok (S p :: ptrs', 0)
  | _, _ => Ok (ptrs, 0)
  end.

Definition carry (lens ptrs : list nat) (i : nat) : Result (list nat * nat) :=
  '(ps, k) ← incr (drop i lens) (drop i ptrs); Ok (take i ptrs ++ ps, i + k).

(** [incrementAll]: every iterator advances by one, wrapping to [begin];
    [newCombination] is set when one of them did not wrap. *)
Fixpoint incr_all (lens ptrs : list nat) : Result (list nat * bool) :=
  match lens, ptrs with
  | l :: lens', p :: ptrs' =>
      if l <=? p then Undef else
      '(ps, newComb) ← incr_all lens' ptrs';
      Ok (if S p =? l then (0 :: ps, newComb) else (S p :: ps, true))
  | _, _ => Ok (ptrs, false)
  end.

(** [maxCutNum != ALL_CUTS && cuts->size() > maxCutNum] *)
Definition cap_hit (maxCutNum : nat) (cs : Cuts) : bool :=
  bool_decide (maxCutNum ≠ ALL_CUTS ∧ maxCutNum < length cs).

(** ** One iteration of the [while (true)] loop *)

Inductive Step :=
| Stop (cs : Cuts)
| Next (cs : Cuts) (ptrs : list nat) (i : nat).

Section Loop.
Context (cfg : CutsFindConfig) (inputCuts : list Cuts).

Definition lens : list nat := length <$> inputCuts.

(** The radix advance shared by both algorithms: [break] when the
    counter overflows, and [if (i != prevInd) i = 0]. *)
Definition advance (cs : Cuts) (ptrs : list nat) (i : nat) : Result Step :=
  '(ptrs', i') ← carry lens ptrs i;
  Ok (if length inputCuts <=? i' then Stop cs else Next cs ptrs' (if i' =? i then i' else 0)).

(** Loop body of [onNodeBeginOld]. *)
Definition step_old (cs : Cuts) (ptrs : list nat) (i : nat) : Result Step :=
  collected ← fix_cut (cutSize cfg) ∅ (zip inputCuts ptrs);
  if bool_decide (collected = ∅) then advance cs ptrs i
  else
    let cs' := cuts_emplace collected cs in
    if cap_hit (maxCutNum cfg) cs' then Ok (Stop cs') else advance cs' ptrs i.

(** Loop body of [onNodeBeginNew]. *)
Definition step_new (cs : Cuts) (ptrs : list nat) (i : nat) : Result Step :=
  collected ← fix_cut (cutSize cfg) ∅ (zip inputCuts ptrs);
  let '(cs', accepted) :=
    if bool_decide (collected = ∅) then (cs, false)
    else match add_cut collected cs with
         | Some cs' => (cs', true)
         | None => (cs, false)
         end in
  if accepted && cap_hit (maxCutNum cfg) cs' then Ok (Stop cs')
  else if accepted && (size collected =? 1) then
    '(ptrs', newComb) ← incr_all lens ptrs;
    Ok (if (newComb : bool) then Next cs' ptrs' 0 else Stop cs')
  else advance cs' ptrs i.
End Loop.

Fixpoint loop (step : Cuts → list nat → nat → Result Step) (fuel : nat)
    (cs : Cuts) (ptrs : list nat) (i : nat) : Result Cuts :=
  match fuel with
  | 0 => OutOfFuel
  | S fuel' =>
      s ← step cs ptrs i;
      match s with
      | Stop cs' => Ok cs'
      | Next cs' ptrs' i' => loop step fuel' cs' ptrs' i'
      end
  end.

(** The leaves that occur in the input cut sets. *)
Definition leaf_universe (inputCuts : list Cuts) : Cut :=
  ⋃ (concat inputCuts).

(** Fuel of the enumeration loop: every accepted one-element cut is a
    new leaf, and between two of them the radix counter runs at most
    once through the product. *)
Definition enum_fuel (inputCuts : list Cuts) : nat :=
  (size (leaf_universe inputCuts) + 1) * (prod_lengths inputCuts + 1).

(** ** The per-node handlers *)

Module CutsFindVisitor.
Section Handlers.
Context (cfg : CutsFindConfig) (net : GNet).

(** [if (gateInput->func() == NOT) gateIdInput =
  gateInput->inputs().begin()->node();] *)
Definition effective_input (u : GateId) : Result GateId :=
gu ← gate_get net u;
if bool_decide (func gu = NOT) then of_option (head (inputs gu)) else Ok u.

(** Seeding with the trivial cut: [cuts->emplace({v})]. *)
Definition seed (v : GateId) (st : CutStorage) : CutStorage :=
<[v := cuts_emplace {[v]} (cuts_of st v)]> st.

Definition onNodeBeginOld (v : GateId) (st : CutStorage) : Result CutStorage :=
g ← gate_get net v;
if bool_decide (func g = NOT) then Ok st else
let st1 := seed v st in
ids ← mapM effective_input (inputs g);
let inputCuts := cuts_of st1 <$> ids in
cs ← loop (step_old cfg inputCuts) (enum_fuel inputCuts)
        (cuts_of st1 v) (replicate (length ids) 0) 0;
Ok (<[v := cs]> st1).

(** The input loop of [onNodeBeginNew]: substitute NOT inputs and
  populate, through [rec], every input whose cut set is empty. *)
Fixpoint prepare_inputs (rec : GateId → CutStorage → Result CutStorage)
  (ins : list GateId) (st : CutStorage) : Result (CutStorage * list GateId) :=
match ins with
| [] => Ok (st, [])
| u :: ins' =>
    id ← effective_input u;
    st' ← (if bool_decide (cuts_of st id = []) then rec id st else Ok st);
    '(st'', ids) ← prepare_inputs rec ins' st';
    Ok (st'', id :: ids)
end.

(** [onNodeBeginNew]; [fuel] bounds the depth of the recursive
  population of inputs. *)
Fixpoint onNodeBeginNew (fuel : nat) (v : GateId) (st : CutStorage) : Result CutStorage :=
match fuel with
| 0 => OutOfFuel
| S fuel' =>
    g ← gate_get net v;
    if bool_decide (func g = NOT) then Ok st else
    let st1 := seed v st in
    '(st2, ids) ← prepare_inputs (onNodeBeginNew fuel') (inputs g) st1;
    let inputCuts := cuts_of st2 <$> ids in
    cs ← loop (step_new cfg inputCuts) (enum_fuel inputCuts)
            (cuts_of st2 v) (replicate (length ids) 0) 0;
    Ok (<[v := cs]> st2)
end.

(** [CutsFindVisitor::onNodeBegin]: dispatch on [old]. *)
Definition onNodeBegin (old : bool) (v : GateId) (st : CutStorage) : Result CutStorage :=
if old then onNodeBeginOld v st else onNodeBeginNew (S (size net)) v st.

(** [onNodeEnd] only returns [CONTINUE]. *)
Definition visitor (old : bool) : Visitor CutStorage := {|
Walker.onNodeBegin v st := st' ← onNodeBegin old v st; Ok (CONTINUE, st');
Walker.onNodeEnd _ st := Ok (CONTINUE, st);
|}.
End Handlers.
End CutsFindVisitor.
Import CutsFindVisitor.

(** [findCuts] ([optimizer.h], not under [src/]; from the spec): a fresh
    storage filled by a forward [Walker] over the topological order
    [topo] with a [CutsFindVisitor]. *)
Definition findCuts (cfg : CutsFindConfig) (net : GNet) (old : bool) (topo : list GateId)
    : Result CutStorage :=
  walk_topo (callVisitor (visitor cfg net old)) topo true ∅.

(** ** The bounded union *)

(** The cut a combination contributes: the union when it has at most
    [cutSize] leaves, the empty cut otherwise. *)
Definition bounded_union (cutSize : nat) (u : Cut) : Cut :=
  if bool_decide (size u ≤ cutSize) then u else ∅.

(** The cuts a combination of iterators points at. *)
Definition derefs (slots : list (Cuts * nat)) (chosen : list Cut) : Prop :=
  Forall2 (λ sp c, sp.1 !! sp.2 = Some c) slots chosen.

Lemma size_union_l (a b : Cut) : size a ≤ size (a ∪ b).
Proof. apply subseteq_size. set_solver. Qed.

#[export] Hint Resolve size_union_l : gate.

Lemma collect_Ok K acc slots U :
  size acc ≤ K → fix_cut K acc slots = Ok U →
  U = ∅ ∨ (size U ≤ K ∧ ∃ chosen, derefs slots chosen ∧ U = acc ∪ ⋃ chosen).
Proof.
  revert acc. induction slots as [|[cs p] slots IH]; intros acc Hacc Hc; simpl in *.
  - injection Hc as <-. right. split; [done|]. exists []. split; [constructor|]. set_solver.
  - apply bind_Ok in Hc as (c & Hcs%of_option_Ok & Hc).
    destruct (Nat.ltb_spec K (size (acc ∪ c))) as [Hlt|Hle]; [inv_ok; by left|].
    destruct (IH _ Hle Hc) as [|(? & chosen & Hd & ->)]; [by left|].
    right. split; [done|]. exists (c :: chosen). split; [by constructor|]. set_solver.
Qed.

Lemma collect_acc K acc slots chosen :
  size acc ≤ K → derefs slots chosen →
  fix_cut K acc slots = Ok (bounded_union K (acc ∪ ⋃ chosen)).
Proof.
  intros Hacc Hd. revert acc Hacc.
  induction Hd as [|[cs p] c slots chosen Hc Hd IH]; intros acc Hacc; simpl in *.
  - unfold bounded_union. rewrite (right_id_L ∅ (∪)). by rewrite bool_decide_eq_true_2.
  - rewrite Hc. simpl. destruct (Nat.ltb_spec K (size (acc ∪ c))) as [Hlt|Hle].
    + unfold bounded_union. rewrite bool_decide_eq_false_2; [done|].
      pose proof (subseteq_size (acc ∪ c) (acc ∪ (c ∪ ⋃ chosen)) ltac:(set_solver)). lia.
    + rewrite IH by done. f_equal. f_equal. set_solver.
Qed.

(** C15. The lazy "Fix cut" loop computes the bounded union: when every
    iterator of the combination points at a cut, [fix_cut] returns the
    union of the chosen cuts if it has at most [cutSize] leaves, and the
    empty cut (rejection) otherwise. *)
Theorem collect_spec K slots chosen :
  derefs slots chosen → fix_cut K ∅ slots = Ok (bounded_union K (⋃ chosen)).
Proof.
  intros Hd. rewrite (collect_acc K ∅ slots chosen); [|rewrite size_empty; lia|done].
  by rewrite (left_id_L ∅ (∪)).
Qed.

(** ** Shape of one loop iteration *)

Definition step_cuts (s : Step) : Cuts :=
  match s with Stop cs => cs | Next cs _ _ => cs end.

Definition step_len (n : nat) (s : Step) : Prop :=
  match s with Stop _ => True | Next _ ptrs _ => length ptrs = n end.

Lemma length_incr lens ptrs ps k : incr lens ptrs = Ok (ps, k) → length ps = length ptrs.
Proof.
  revert ptrs ps k. induction lens as [|l lens IH]; intros [|p ptrs] ps k; simpl; try by intros [= <- _].
  destruct (l <=? p); [done|]. case_match; [|by intros [= <- _]].
  destruct (incr lens ptrs) as [[ps' k']| |] eqn:E; simpl; try done.
  intros [= <- _]. simpl. by rewrite (IH _ _ _ E).
Qed.

Lemma length_carry lens ptrs i ps k : carry lens ptrs i = Ok (ps, k) → length ps = length ptrs.
Proof.
  unfold carry. destruct (incr _ _) as [[ps' k']| |] eqn:E; simpl; try done.
  intros [= <- _]. rewrite length_app, length_take, (length_incr _ _ _ _ E), length_drop. lia.
Qed.

Lemma length_incr_all lens ptrs ps b : incr_all lens ptrs = Ok (ps, b) → length ps = length ptrs.
Proof.
  revert ptrs ps b. induction lens as [|l lens IH]; intros [|p ptrs] ps b; simpl; try by intros [= <- _].
  destruct (l <=? p); [done|].
  destruct (incr_all lens ptrs) as [[ps' b']| |] eqn:E; simpl; try done.
  specialize (IH _ _ _ E). case_match; intros [= <- _]; simpl; lia.
Qed.

Lemma advance_len inputCuts cs ptrs i s :
  advance inputCuts cs ptrs i = Ok s → step_cuts s = cs ∧ step_len (length ptrs) s.
Proof.
  unfold advance. destruct (carry _ _ _) as [[ps k]| |] eqn:E; simpl; try done.
  intros [= <-]. apply length_carry in E. by case_match.
Qed.

(** Every iteration of the new loop either keeps the node's cuts or
    applies the subsumption step to the non-empty union it collected. *)
Lemma step_new_shape cfg inputCuts cs ptrs i s :
  step_new cfg inputCuts cs ptrs i = Ok s →
  ∃ U, fix_cut (cutSize cfg) ∅ (zip inputCuts ptrs) = Ok U ∧
       step_cuts s = (if bool_decide (U = ∅) then cs else subsume cs U) ∧
       step_len (length ptrs) s.
Proof.
  unfold step_new. intros Hs. apply bind_Ok in Hs as (U & HU & Hs). exists U. split; [done|].
  unfold subsume. case_bool_decide as HU0; simpl in Hs; [by apply advance_len in Hs|].
  destruct (add_cut U cs) as [cs'|]; simpl in Hs; [|by apply advance_len in Hs].
  destruct (cap_hit _ cs'); [by injection Hs as <-|].
  destruct (size U =? 1); simpl in Hs; [|by apply advance_len in Hs].
  destruct (incr_all _ _) as [[ptrs' []]| |] eqn:E; simpl in Hs; try done;
    injection Hs as <-; simpl; [by rewrite (length_incr_all _ _ _ _ E)|done].
Qed.

Lemma step_old_shape cfg inputCuts cs ptrs i s :
  step_old cfg inputCuts cs ptrs i = Ok s →
  ∃ U, fix_cut (cutSize cfg) ∅ (zip inputCuts ptrs) = Ok U ∧
       step_cuts s = (if bool_decide (U = ∅) then cs else cuts_emplace U cs) ∧
       step_len (length ptrs) s.
Proof.
  unfold step_old. intros Hs. apply bind_Ok in Hs as (U & HU & Hs). exists U. split; [done|].
  case_bool_decide; [by apply advance_len in Hs|].
  destruct (cap_hit _ _); [by injection Hs as <-|by apply advance_len in Hs].
Qed.

(** A loop invariant: a property of the cuts and of the iterators that
    every iteration preserves holds of the loop's result. *)
Lemma loop_inv (P : Cuts → Prop) (n : nat) step :
  (∀ cs ptrs i s, P cs → length ptrs = n → step cs ptrs i = Ok s →
     P (step_cuts s) ∧ step_len n s) →
  ∀ fuel cs ptrs i cs', P cs → length ptrs = n → loop step fuel cs ptrs i = Ok cs' → P cs'.
Proof.
  intros Hstep fuel. induction fuel as [|fuel IH]; intros cs ptrs i cs' HP Hn Hl; [done|].
  simpl in Hl. apply bind_Ok in Hl as (s & Hs & Hl).
  destruct (Hstep _ _ _ _ HP Hn Hs) as [HP' Hn']. destruct s; simpl in *; [by inv_ok|eauto].
Qed.

(** ** The storage invariant *)

Section Invariant.
Context (cfg : CutsFindConfig) (net : GNet).

Hypothesis Hwf : wf_not net.

(** A cut of [v] worth storing: non-empty, a real cut of [v], and
    free of NOT gates. *)
Definition good_cut (v : GateId) (c : Cut) : Prop :=
  c ≠ ∅ ∧ covered net c v ∧ ∀ x, x ∈ c → is_not net x = false.

(** The cut set of [v] after the new algorithm: an anti-chain that
    holds the trivial cut, whose cuts are good and, but for the trivial
    one, have at most [cutSize] leaves. *)
Definition cut_set_ok (v : GateId) (cs : Cuts) : Prop :=
  antichain cs ∧ {[v]} ∈ cs ∧
  ∀ c, c ∈ cs → good_cut v c ∧ (c = {[v]} ∨ size c ≤ cutSize cfg).

Definition storage_ok (st : CutStorage) : Prop :=
  ∀ v cs, st !! v = Some cs → is_not net v = false ∧ cut_set_ok v cs.

(** The effective input [id] of the input [u]: [u] itself, or the
    input of the NOT gate [u]. *)
Definition eff_rel (u id : GateId) : Prop :=
  (is_not net u = false ∧ id = u) ∨ (is_not net u = true ∧ head (inputs_of net u) = Some id).

Lemma effective_input_rel u id : effective_input net u = Ok id → eff_rel u id.
Proof.
  unfold effective_input, gate_get, eff_rel, is_not, inputs_of, func_of.
  intros H. apply bind_Ok in H as (g & Hg%of_option_Ok & H). rewrite Hg. simpl.
  case_bool_decide as Hn; simpl in H.
  - right. rewrite Hn, bool_decide_eq_true_2 by done. split; [done|]. by apply of_option_Ok.
  - injection H as <-. left. split; [|done]. apply bool_decide_eq_false_2. congruence.
Qed.

Lemma good_trivial v : is_not net v = false → good_cut v {[v]}.
Proof. intros Hv. split_and!; [set_solver|apply cov_leaf; set_solver|]. intros x ->%elem_of_singleton. done. Qed.

Lemma storage_ok_good st id c :
  storage_ok st → c ∈ cuts_of st id → good_cut id c.
Proof.
  unfold cuts_of. intros Hst Hc. destruct (st !! id) as [cs|] eqn:E; simpl in Hc; [|set_solver].
  destruct (Hst _ _ E) as (_ & _ & _ & Hall). by apply Hall.
Qed.

Lemma seed_ok st v :
  storage_ok st → is_not net v = false → storage_ok (seed v st).
Proof.
  intros Hst Hv w cs Hw. unfold seed in Hw. destruct (decide (w = v)) as [->|Hne].
  - rewrite lookup_insert_eq in Hw. injection Hw as <-. split; [done|].
    unfold cuts_of. destruct (st !! v) as [cs|] eqn:E; simpl.
    + destruct (Hst _ _ E) as [_ Hok]. unfold cuts_emplace.
      by rewrite bool_decide_eq_true_2 by apply Hok.
    + unfold cuts_emplace. rewrite bool_decide_eq_false_2 by set_solver. simpl.
      split_and!; [split; [apply NoDup_singleton|set_solver]|set_solver|].
      intros c ->%list_elem_of_singleton. split; [by apply good_trivial|by left].
  - rewrite lookup_insert_ne in Hw by done. by apply Hst.
Qed.

Lemma storage_ok_insert st v cs :
  storage_ok st → is_not net v = false → cut_set_ok v cs → storage_ok (<[v := cs]> st).
Proof.
  intros Hst Hv Hcs w cs' Hw. destruct (decide (w = v)) as [->|Hne].
  - rewrite lookup_insert_eq in Hw. by injection Hw as <-.
  - rewrite lookup_insert_ne in Hw by done. by apply Hst.
Qed.

(** The chosen cuts of a combination belong to the inputs' cut sets. *)
Lemma derefs_elem st ids ptrs chosen :
  length ptrs = length ids → derefs (zip (cuts_of st <$> ids) ptrs) chosen →
  Forall2 (λ id c, c ∈ cuts_of st id) ids chosen.
Proof.
  revert ptrs chosen. induction ids as [|id ids IH]; intros [|p ptrs] chosen Hlen Hd;
    simpl in *; try done; inversion Hd; subst; [constructor|].
  constructor; [by eapply list_elem_of_lookup_2|]. apply (IH ptrs); [lia|done].
Qed.

(** The union of one good cut per effective input is a cut of every
    input (a NOT input is covered through its single input). *)
Lemma union_covers_inputs ins ids chosen :
  Forall2 eff_rel ins ids → Forall2 (λ id c, covered net c id) ids chosen →
  ∀ u, u ∈ ins → covered net (⋃ chosen) u.
Proof.
  intros Hrel. revert chosen.
  induction Hrel as [|u id ins ids Hui Hrel IH]; intros chosen Hcov w Hw;
    [set_solver|].
  inversion Hcov as [|? c ? chosen' Hc Hcov']; subst.
  apply elem_of_cons in Hw as [->|Hw]; [|eapply covered_mono, IH; [|done..]; set_solver].
  assert (covered net (⋃ (c :: chosen')) id) as Hid by (eapply covered_mono; [|done]; set_solver).
  destruct Hui as [[_ ->]|[Hn Hhd]]; [done|].
  destruct (wf_not_single _ _ Hwf Hn) as [x Hx]. rewrite Hx in Hhd. injection Hhd as ->.
  apply cov_gate; [by rewrite Hx|]. rewrite Hx. by intros ? ->%list_elem_of_singleton.
Qed.

Lemma subsume_ok v cs U :
  cut_set_ok v cs → good_cut v U → size U ≤ cutSize cfg → cut_set_ok v (subsume cs U).
Proof.
  intros (Hac & Hv & Hall) HU HK. unfold subsume.
  destruct (add_cut U cs) as [cs'|] eqn:Hadd; simpl; [|done].
  pose proof (add_cut_antichain _ _ _ Hac Hadd) as Hac'.
  apply add_cut_Some in Hadd as (_ & Hmem & _). split_and!; [done| |].
  - apply Hmem. right. split; [done|]. intros [HUv HvU].
    destruct HU as [HU0 _]. destruct (set_choose_L U HU0) as [x Hx]. set_solver.
  - intros c [->|[Hc _]]%Hmem; [by split; [|right]|auto].
Qed.

(** One iteration of the new loop keeps the node's cut set valid. *)
Lemma step_new_ok st v ids cs ptrs i s :
  storage_ok st → is_not net v = false → Forall2 eff_rel (inputs_of net v) ids →
  cut_set_ok v cs → length ptrs = length ids →
  step_new cfg (cuts_of st <$> ids) cs ptrs i = Ok s →
  cut_set_ok v (step_cuts s) ∧ step_len (length ids) s.
Proof.
  intros Hst Hv Hrel Hcs Hlen Hs.
  destruct (step_new_shape _ _ _ _ _ _ Hs) as (U & HU & -> & Hslen).
  rewrite Hlen in Hslen. split; [|done]. case_bool_decide as HU0; [done|].
  destruct (collect_Ok _ _ _ _ ltac:(rewrite size_empty; lia) HU)
    as [|(HK & chosen & Hd & ->)]; [done|].
  rewrite (left_id_L ∅ (∪)) in HK, HU0 |- *.
  apply subsume_ok; [done| |done].
  assert (Forall2 (λ id c, c ∈ cuts_of st id) ids chosen) as Hmem.
  { eapply derefs_elem; [exact Hlen|done]. }
  split_and!; [done| |].
  - apply cov_gate.
    + intros Hnil. rewrite Hnil in Hrel. inversion Hrel; subst.
      inversion Hmem; subst. apply HU0. set_solver.
    + apply (union_covers_inputs _ ids); [done|].
      eapply Forall2_impl; [done|]. intros id c Hc.
      eapply covered_mono; [|apply (storage_ok_good st id c Hst Hc)]. done.
  - intros x Hx. apply elem_of_union_list in Hx as (c & Hc & Hxc).
    destruct (Forall2_elem_r _ _ _ _ Hmem Hc) as (id & _ & Hid).
    apply (storage_ok_good st id c Hst Hid). done.
Qed.

Lemma prepare_inputs_ok rec ins st st' ids :
  (∀ id st st', storage_ok st → rec id st = Ok st' →
     storage_ok st' ∧ ∀ w, is_Some (st !! w) → is_Some (st' !! w)) →
  storage_ok st → prepare_inputs net rec ins st = Ok (st', ids) →
  (storage_ok st' ∧ ∀ w, is_Some (st !! w) → is_Some (st' !! w)) ∧ Forall2 eff_rel ins ids.
Proof.
  intros Hrec. revert st st' ids.
  induction ins as [|u ins IH]; intros st st' ids Hst Hp; simpl in Hp.
  - injection Hp as <- <-. split; [done|constructor].
  - apply bind_Ok in Hp as (id & Hid & Hp). apply bind_Ok in Hp as (st1 & Hst1 & Hp).
    apply bind_Ok in Hp as ([st2 ids'] & Hp & [= <- <-]).
    assert (storage_ok st1 ∧ ∀ w, is_Some (st !! w) → is_Some (st1 !! w)) as [Hok1 Hm1].
    { case_bool_decide; [by eapply Hrec|by injection Hst1 as <-]. }
    destruct (IH _ _ _ Hok1 Hp) as [[Hok2 Hm2] Hrel].
    split; [split; auto|]. constructor; [by apply effective_input_rel|done].
Qed.

Lemma gate_get_not v g :
  gate_get net v = Ok g → func g ≠ NOT → is_not net v = false ∧ inputs_of net v = inputs g.
Proof.
  unfold gate_get, is_not, func_of, inputs_of. intros Hg%of_option_Ok Hf.
  rewrite Hg. simpl. split; [|done]. apply bool_decide_eq_false_2. congruence.
Qed.

(** The invariant of the new algorithm: from a valid storage, a
    successful [onNodeBeginNew] (with its recursive population of
    inputs) yields a valid storage and removes no entry. *)
Lemma onNodeBeginNew_ok fuel v st st' :
  storage_ok st → onNodeBeginNew cfg net fuel v st = Ok st' →
  storage_ok st' ∧ ∀ w, is_Some (st !! w) → is_Some (st' !! w).
Proof.
  revert v st st'. induction fuel as [|fuel IH]; intros v st st' Hst Hrun; [done|].
  simpl in Hrun. apply bind_Ok in Hrun as (g & Hg & Hrun).
  case_bool_decide as Hf; [by injection Hrun as <-|].
  destruct (gate_get_not _ _ Hg Hf) as [Hv Hins].
  apply bind_Ok in Hrun as ([st2 ids] & Hp & Hrun).
  apply bind_Ok in Hrun as (cs & Hloop & [= <-]).
  pose proof (seed_ok _ _ Hst Hv) as Hst1.
  apply prepare_inputs_ok in Hp as [[Hst2 Hm2] Hrel]; [|exact IH|exact Hst1].
  rewrite <- Hins in Hrel.
  assert (is_Some (st2 !! v)) as [cs0 Hcs0].
  { apply Hm2. unfold seed. rewrite lookup_insert_eq. by eexists. }
  assert (cut_set_ok v cs) as Hcs.
  { eapply (loop_inv (cut_set_ok v) (length ids)); [| |by rewrite length_replicate|exact Hloop].
    - intros cs1 ptrs1 i1 s1 HP Hn Hs.
      exact (step_new_ok st2 v ids cs1 ptrs1 i1 s1 Hst2 Hv Hrel HP Hn Hs).
    - unfold cuts_of. rewrite Hcs0. apply (Hst2 v cs0 Hcs0). }
  split; [by apply storage_ok_insert|].
  intros w Hw. destruct (decide (w = v)) as [->|Hne]; [rewrite lookup_insert_eq; by eexists|].
  rewrite lookup_insert_ne by done. apply Hm2. unfold seed.
  rewrite lookup_insert_ne by done. done.
Qed.
End Invariant.

(** ** Theorems on the enumerator *)

(** One step of the walk of [findCuts] with the new algorithm keeps the
    storage invariant. *)
Lemma visitor_step_ok cfg net n s flag s' :
  wf_not net → storage_ok cfg net s →
  callVisitor (visitor cfg net false) n s = Ok (flag, s') → storage_ok cfg net s'.
Proof.
  intros Hwf Hs Hc. unfold callVisitor in Hc.
  apply bind_Ok in Hc as ([f s1] & Hb & Hc). apply bind_Ok in Hb as (s2 & Hrun' & [= <- <-]).
  cbn in Hc. injection Hc as <-. subst.
  exact (proj1 (onNodeBeginNew_ok cfg net Hwf _ _ _ _ Hs Hrun')).
Qed.

(** C1. Cut enumeration with the new algorithm is correct: on a net
    whose NOT gates have one input, every successful [findCuts] (a
    forward walk of [CutsFindVisitor::onNodeBeginNew] over any order)
    leaves a storage in which the cut set of every gate is an anti-chain
    under inclusion that contains the trivial cut [{v}], and every cut is
    non-empty, is a real cut of its gate (every path from a source to
    the gate meets it), contains no NOT gate and, unless trivial, has at
    most [cutSize] leaves. *)
Theorem findCuts_ok cfg net topo st :
  wf_not net → findCuts cfg net false topo = Ok st → storage_ok cfg net st.
Proof.
  intros Hwf Hrun. unfold findCuts, walk_topo in Hrun.
  eapply (walk_nodes_inv _ (storage_ok cfg net)); [|intros ?? H; by rewrite lookup_empty in H|exact Hrun].
  intros n s flag s'. by apply visitor_step_ok.
Qed.

(** ** The radix counter: ranks and termination *)

(** The little-endian mixed-radix value of the iterators. *)
Fixpoint rank (lens ptrs : list nat) : nat :=
  match lens, ptrs with
  | l :: lens', p :: ptrs' => p + l * rank lens' ptrs'
  | _, _ => 0
  end.

(** Every iterator points at an element of its set. *)
Definition valid_ptrs (lens ptrs : list nat) : Prop := Forall2 (λ l p, p < l) lens ptrs.

Lemma rank_lt lens ptrs : valid_ptrs lens ptrs → rank lens ptrs < foldr Nat.mul 1 lens.
Proof. unfold valid_ptrs. induction 1 as [|l p lens ptrs Hp _ IH]; simpl; nia. Qed.

(** [incr] adds one to the rank, or overflows exactly at the product. *)
Lemma incr_spec lens ptrs :
  valid_ptrs lens ptrs →
  ∃ ps k, incr lens ptrs = Ok (ps, k) ∧
  ((k < length lens ∧ valid_ptrs lens ps ∧ rank lens ps = S (rank lens ptrs)) ∨
   (k = length lens ∧ S (rank lens ptrs) = foldr Nat.mul 1 lens)).
Proof.
  unfold valid_ptrs. induction 1 as [|l p lens ptrs Hp Hv IH]; [simpl; eexists _, _; split; [reflexivity|by right]|].
  destruct l as [|l']; [lia|]. cbn [incr]. rewrite (proj2 (Nat.leb_gt _ _)) by lia.
  destruct (Nat.eqb_spec (S p) (S l')) as [[= ->]|Hne].
  - destruct IH as (ps & k & -> & IH). simpl. eexists _, _. split; [done|].
    destruct IH as [(Hk & Hv' & Hr)|(Hk & Hr)]; [left|right]; simpl.
    + split_and!; [lia|constructor; [lia|done]|]. rewrite Hr. lia.
    + split; [lia|]. rewrite <- Hr. lia.
  - eexists _, _. split; [done|]. left. simpl. split_and!; [lia|constructor; [lia|done]|lia].
Qed.

Lemma valid_ptrs_length lens ptrs : valid_ptrs lens ptrs → length ptrs = length lens.
Proof. intros H. symmetry. by eapply Forall2_length. Qed.

(** [incrementAll] keeps every iterator on an element. *)
Lemma incr_all_valid lens ptrs :
  valid_ptrs lens ptrs → ∃ ps b, incr_all lens ptrs = Ok (ps, b) ∧ valid_ptrs lens ps.
Proof.
  unfold valid_ptrs. induction 1 as [|l p lens ptrs Hp Hv IH]; [eexists _, _; split; [reflexivity|constructor]|].
  destruct l as [|l']; [lia|]. cbn [incr_all]. rewrite (proj2 (Nat.leb_gt _ _)) by lia.
  destruct IH as (ps & b & -> & IH). simpl.
  destruct (Nat.eqb_spec p l'); (eexists _, _; split; [reflexivity|]); constructor; auto with lia.
Qed.

(** From digit 0, the advance of the radix counter either stops (the
    counter overflowed: the rank was the last one) or moves to the next
    rank, with the digit index back at 0. *)
Lemma advance_spec inputCuts cs ptrs :
  valid_ptrs (lens inputCuts) ptrs →
  ∃ s, advance inputCuts cs ptrs 0 = Ok s ∧
  match s with
  | Stop cs' => cs' = cs ∧ S (rank (lens inputCuts) ptrs) = foldr Nat.mul 1 (lens inputCuts)
  | Next cs' ptrs' i' =>
      cs' = cs ∧ i' = 0 ∧ valid_ptrs (lens inputCuts) ptrs' ∧
      rank (lens inputCuts) ptrs' = S (rank (lens inputCuts) ptrs)
  end.
Proof.
  intros Hv. unfold advance, carry. rewrite !drop_0, take_0.
  destruct (incr_spec _ _ Hv) as (ps & k & -> & Hs). simpl. eexists. split; [done|].
  unfold lens in *. rewrite length_fmap in Hs.
  destruct (Nat.leb_spec (length inputCuts) k) as [Hle|Hlt].
  - destruct Hs as [[Hk _]|[_ Hr]]; [lia|by split].
  - destruct Hs as [[_ [Hv' Hr]]|[Hk _]]; [|lia].
    split_and!; [done|destruct (Nat.eqb_spec k 0); lia|done|done].
Qed.

Lemma prod_lengths_lens inputCuts : foldr Nat.mul 1 (lens inputCuts) = prod_lengths inputCuts.
Proof.
  unfold lens, prod_lengths. induction inputCuts as [|cs ics IH]; [done|].
  rewrite fmap_cons. cbn [foldr]. by rewrite IH.
Qed.

(** With every iterator on an element, a combination never reads an end
    iterator. *)
Lemma collect_valid K acc inputCuts ptrs :
  valid_ptrs (lens inputCuts) ptrs → ∃ U, fix_cut K acc (zip inputCuts ptrs) = Ok U.
Proof.
  unfold lens, valid_ptrs. revert acc ptrs.
  induction inputCuts as [|cs ics IH]; intros acc ptrs Hv; [by exists acc|].
  inversion Hv as [|? p ? ptrs' Hp Hv']; subst. simpl.
  destruct (lookup_lt_is_Some_2 cs p Hp) as [c Hc]. rewrite Hc. simpl.
  destruct (K <? size (acc ∪ c)); [by eexists|]. by apply IH.
Qed.

Lemma valid_ptrs_begin inputCuts :
  Forall (λ cs, cs ≠ []) inputCuts → valid_ptrs (lens inputCuts) (replicate (length inputCuts) 0).
Proof.
  unfold lens, valid_ptrs. induction 1 as [|cs ics Hcs _ IH]; simpl; constructor; [|done].
  destruct cs; [done|simpl; lia].
Qed.

(** A loop whose every iteration from a state of the invariant [I] stops
    or moves to a state of [I] with a smaller measure returns a result
    within any fuel above the measure. *)
Lemma loop_terminates (I : Cuts → list nat → Prop) (μ : Cuts → list nat → nat) step :
  (∀ cs ptrs, I cs ptrs → ∃ s, step cs ptrs 0 = Ok s ∧
     match s with
     | Stop _ => True
     | Next cs' ptrs' i' => i' = 0 ∧ I cs' ptrs' ∧ μ cs' ptrs' < μ cs ptrs
     end) →
  ∀ fuel cs ptrs, I cs ptrs → μ cs ptrs < fuel → ∃ cs', loop step fuel cs ptrs 0 = Ok cs'.
Proof.
  intros Hstep fuel. induction fuel as [|fuel IH]; intros cs ptrs HI Hμ; [lia|].
  destruct (Hstep cs ptrs HI) as (s & Hs & Hnext). simpl. rewrite Hs. simpl.
  destruct s as [cs'|cs' ptrs' i']; [by eexists|].
  destruct Hnext as (-> & HI' & Hlt). apply IH; [done|lia].
Qed.

(** The single-leaf cuts of [cs] whose leaf lies in [U]. *)
Definition singles (U : Cut) (cs : Cuts) : nat := size (filter (λ x, {[x]} ∈ cs) U).

Lemma singles_mono U cs cs' :
  (∀ x, {[x]} ∈ cs → {[x]} ∈ cs') → singles U cs ≤ singles U cs'.
Proof. intros H. apply subseteq_size. intros x. rewrite !elem_of_filter. naive_solver. Qed.

Lemma singles_lt U cs cs' x :
  (∀ y, {[y]} ∈ cs → {[y]} ∈ cs') → x ∈ U → {[x]} ∉ cs → {[x]} ∈ cs' →
  singles U cs < singles U cs'.
Proof.
  intros H Hx Hn Hn'. apply subset_size. split.
  - intros y. rewrite !elem_of_filter. naive_solver.
  - intros Hsub. assert (x ∈ filter (λ x, {[x]} ∈ cs) U) as Hf by (apply Hsub, elem_of_filter; done).
    apply elem_of_filter in Hf as []. done.
Qed.

Lemma singles_le_size U cs : singles U cs ≤ size U.
Proof. apply subseteq_size. intros x. rewrite elem_of_filter. naive_solver. Qed.

(** The subsumption step never drops a single-leaf cut. *)
Lemma subsume_keeps_singles cs U x :
  U ≠ ∅ → {[x]} ∈ cs → {[x]} ∈ subsume cs U.
Proof.
  intros HU Hx. unfold subsume. destruct (add_cut U cs) as [cs'|] eqn:Hadd; simpl; [|done].
  apply add_cut_Some in Hadd as (_ & Hmem & _). apply Hmem. right. split; [done|].
  intros [HUx HxU]. destruct (set_choose_L U HU) as [y Hy]. set_solver.
Qed.

Lemma derefs_universe inputCuts ptrs chosen :
  derefs (zip inputCuts ptrs) chosen → ⋃ chosen ⊆ leaf_universe inputCuts.
Proof.
  unfold leaf_universe. revert ptrs chosen.
  induction inputCuts as [|cs ics IH]; intros [|p ptrs] chosen Hd;
    [simpl in Hd; inversion Hd; set_solver..|].
  inversion Hd as [|? c ? chosen' Hc Hd']; subst. simpl in Hc.
  assert (c ⊆ ⋃ cs) as Hsub.
  { intros y Hy. apply elem_of_union_list. exists c. split; [|done]. by eapply list_elem_of_lookup_2. }
  specialize (IH ptrs chosen' Hd'). simpl. rewrite union_list_app.
  intros y Hy. apply elem_of_union in Hy as [Hy|Hy]; [apply elem_of_union_l; by apply Hsub|].
  apply elem_of_union_r. by apply IH.
Qed.

(** Progress of one iteration of the new loop, from digit 0 with every
    iterator on an element: it stops, or it moves to the next rank
    keeping every single-leaf cut, or (the [incrementAll] case) it
    accepts a new single-leaf cut whose leaf occurs in the inputs. *)
Lemma step_new_progress cfg inputCuts cs ptrs :
  valid_ptrs (lens inputCuts) ptrs →
  ∃ s, step_new cfg inputCuts cs ptrs 0 = Ok s ∧
  match s with
  | Stop _ => True
  | Next cs' ptrs' i' =>
      i' = 0 ∧ valid_ptrs (lens inputCuts) ptrs' ∧ (∀ x, {[x]} ∈ cs → {[x]} ∈ cs') ∧
      (rank (lens inputCuts) ptrs' = S (rank (lens inputCuts) ptrs) ∨
       ∃ x, x ∈ leaf_universe inputCuts ∧ ({[x]} ∉ cs) ∧ {[x]} ∈ cs')
  end.
Proof.
  intros Hv. destruct (collect_valid (cutSize cfg) ∅ _ _ Hv) as [U HU].
  pose proof (advance_spec inputCuts) as Hadv.
  unfold step_new. rewrite HU. simpl.
  case_bool_decide as HU0; simpl.
  - destruct (Hadv cs ptrs Hv) as (s & -> & Hs). eexists. split; [done|].
    destruct s; [done|]. destruct Hs as (-> & -> & ? & ?). naive_solver.
  - destruct (add_cut U cs) as [cs'|] eqn:Hadd; simpl.
    + assert (∀ x, {[x]} ∈ cs → {[x]} ∈ cs') as Hkeep.
      { intros x Hx. pose proof (subsume_keeps_singles cs U x HU0 Hx) as H.
        unfold subsume in H. by rewrite Hadd in H. }
      destruct (cap_hit _ cs'); simpl; [by eexists|].
      destruct (Nat.eqb_spec (size U) 1) as [H1|H1]; simpl.
      * destruct (incr_all_valid _ _ Hv) as (ptrs' & b & -> & Hv'). simpl.
        destruct b; eexists; (split; [done|]); [|done].
        split_and!; [done|done|done|]. right.
        destruct (size_1_elem_of U H1) as [x Hx]. apply leibniz_equiv in Hx. subst U.
        exists x. apply add_cut_Some in Hadd as (Hdom & Hmem & _). split_and!.
        -- destruct (collect_Ok _ _ _ _ ltac:(rewrite size_empty; lia) HU)
             as [Hc|(_ & chosen & Hd & Heq)]; [set_solver|].
           apply (derefs_universe _ _ _ Hd). set_solver.
        -- intros Hx. by apply (Hdom {[x]}).
        -- apply Hmem. by left.
      * destruct (Hadv cs' ptrs Hv) as (s & -> & Hs). eexists. split; [done|].
        destruct s; [done|]. destruct Hs as (-> & -> & ? & ?). naive_solver.
    + destruct (Hadv cs ptrs Hv) as (s & -> & Hs). eexists. split; [done|].
      destruct s; [done|]. destruct Hs as (-> & -> & ? & ?). naive_solver.
Qed.

(** C12. Termination of the new enumeration loop of
    [onNodeBeginNew]: when every input cut set is non-empty, the loop
    started at the first combination returns the node's cut set within
    the fuel [enum_fuel] (never out of fuel and never reading an end
    iterator), although the [incrementAll] shortcut can move the
    counter backwards; the measure counts the single-leaf cuts still to
    be found and the ranks still to be visited. *)
Theorem enum_new_terminates cfg inputCuts cs :
  Forall (λ cs, cs ≠ []) inputCuts →
  ∃ cs', loop (step_new cfg inputCuts) (enum_fuel inputCuts) cs
           (replicate (length inputCuts) 0) 0 = Ok cs'.
Proof.
  intros Hne. set (U := leaf_universe inputCuts). set (P := prod_lengths inputCuts).
  apply (loop_terminates (λ _ ptrs, valid_ptrs (lens inputCuts) ptrs)
           (λ cs ptrs, (size U - singles U cs) * (P + 1) + (P - rank (lens inputCuts) ptrs))).
  - intros cs0 ptrs Hv. destruct (step_new_progress cfg inputCuts cs0 ptrs Hv) as (s & Hs & Hprog).
    exists s. split; [done|]. destruct s as [|cs' ptrs' i']; [done|].
    destruct Hprog as (-> & Hv' & Hkeep & Hmove). split_and!; [done|done|].
    pose proof (rank_lt _ _ Hv) as Hr. pose proof (rank_lt _ _ Hv') as Hr'.
    rewrite prod_lengths_lens in Hr, Hr'. fold P in Hr, Hr'.
    pose proof (singles_mono U _ _ Hkeep) as Hm. pose proof (singles_le_size U cs') as Hs'.
    destruct Hmove as [Hrank|(x & Hx & Hn & Hn')].
    + rewrite Hrank. nia.
    + pose proof (singles_lt U _ _ _ Hkeep Hx Hn Hn') as Hlt. nia.
  - by apply valid_ptrs_begin.
  - unfold enum_fuel. fold U P. pose proof (singles_le_size U cs). nia.
Qed.

(** C13. Termination of the legacy enumeration loop of
    [onNodeBeginOld]: with non-empty input cut sets it visits the
    combinations in increasing rank and returns within [enum_fuel]. *)
Theorem enum_old_terminates cfg inputCuts cs :
  Forall (λ cs, cs ≠ []) inputCuts →
  ∃ cs', loop (step_old cfg inputCuts) (enum_fuel inputCuts) cs
           (replicate (length inputCuts) 0) 0 = Ok cs'.
Proof.
  intros Hne. set (P := prod_lengths inputCuts).
  apply (loop_terminates (λ _ ptrs, valid_ptrs (lens inputCuts) ptrs)
           (λ _ ptrs, P - rank (lens inputCuts) ptrs)).
  - intros cs0 ptrs Hv. destruct (collect_valid (cutSize cfg) ∅ _ _ Hv) as [U HU].
    pose proof (advance_spec inputCuts) as Hadv.
    unfold step_old. rewrite HU. simpl.
    pose proof (rank_lt _ _ Hv) as Hr. rewrite prod_lengths_lens in Hr. fold P in Hr.
    assert (∀ c, ∃ s, advance inputCuts c ptrs 0 = Ok s ∧
              match s with Stop _ => True
              | Next _ ptrs' i' => i' = 0 ∧ valid_ptrs (lens inputCuts) ptrs' ∧
                                   P - rank (lens inputCuts) ptrs' < P - rank (lens inputCuts) ptrs end)
      as Hadv'.
    { intros c. destruct (Hadv c ptrs Hv) as (s & -> & Hs). eexists. split; [done|].
      destruct s; [done|]. destruct Hs as (_ & -> & ? & ->). split_and!; [done|done|lia]. }
    case_bool_decide; [apply Hadv'|]. destruct (cap_hit _ _); [by eexists|apply Hadv'].
  - by apply valid_ptrs_begin.
  - unfold enum_fuel. fold P. nia.
Qed.

(** ** Completeness of the legacy loop *)

(** A loop invariant on the whole state, with the one of the state it
    stops in. *)
Lemma loop_inv_state (I : Cuts → list nat → nat → Prop) (Q : Cuts → Prop) step :
  (∀ cs ptrs i s, I cs ptrs i → step cs ptrs i = Ok s →
     match s with Stop cs' => Q cs' | Next cs' ptrs' i' => I cs' ptrs' i' end) →
  ∀ fuel cs ptrs i cs', I cs ptrs i → loop step fuel cs ptrs i = Ok cs' → Q cs'.
Proof.
  intros Hstep fuel. induction fuel as [|fuel IH]; intros cs ptrs i cs' HI Hl; [done|].
  simpl in Hl. apply bind_Ok in Hl as (s & Hs & Hl). specialize (Hstep _ _ _ _ HI Hs).
  destruct s; [by inv_ok|eauto].
Qed.

(** The rank is a numbering of the combinations: two combinations of
    the same rank are equal. *)
Lemma rank_inj lens p q :
  valid_ptrs lens p → valid_ptrs lens q → rank lens p = rank lens q → p = q.
Proof.
  intros Hp. revert q. induction Hp as [|l a lens p Ha Hp IH]; intros q Hq Hr;
    inversion Hq as [|? b ? q' Hb Hq']; subst; [done|].
  simpl in Hr. destruct (Nat.div_mod_unique l (rank lens p) (rank lens q') a b) as [Hr' ->]; [lia..|].
  by rewrite (IH q' Hq' Hr').
Qed.

(** The unions of the combinations of rank below [r] are stored. *)
Definition old_done (K : nat) (inputCuts : list Cuts) (r : nat) (cs : Cuts) : Prop :=
  ∀ p U, valid_ptrs (lens inputCuts) p → rank (lens inputCuts) p < r →
    fix_cut K ∅ (zip inputCuts p) = Ok U → U ≠ ∅ → U ∈ cs.

Lemma old_done_step K inputCuts q c Uq :
  valid_ptrs (lens inputCuts) q → fix_cut K ∅ (zip inputCuts q) = Ok Uq →
  old_done K inputCuts (rank (lens inputCuts) q) c →
  old_done K inputCuts (S (rank (lens inputCuts) q)) (if bool_decide (Uq = ∅) then c else cuts_emplace Uq c).
Proof.
  intros Hq HUq Hold p U Hp Hr HU HU0.
  destruct (decide (rank (lens inputCuts) p < rank (lens inputCuts) q)) as [Hlt|Hge].
  - specialize (Hold p U Hp Hlt HU HU0). case_bool_decide; [done|]. apply elem_of_cuts_emplace. by right.
  - assert (p = q) as -> by (apply rank_inj with (lens inputCuts); [done|done|lia]).
    rewrite HUq in HU. injection HU as <-. rewrite bool_decide_eq_false_2 by done.
    apply elem_of_cuts_emplace. by left.
Qed.

Lemma valid_ptrs_nonempty inputCuts p : valid_ptrs (lens inputCuts) p → Forall (λ cs, cs ≠ []) inputCuts.
Proof.
  unfold lens, valid_ptrs. revert p. induction inputCuts as [|cs ics IH]; intros p Hp; [constructor|].
  inversion Hp as [|? a ? p' Ha Hp']; subst. constructor; [|eauto]. destruct cs; [simpl in Ha; lia|done].
Qed.

(** C23. Completeness of the legacy enumeration: without a cap, the
    loop of [onNodeBeginOld] started at the first combination visits the
    whole Cartesian product of the input cut sets and stores the union
    of every combination that has at most [cutSize] leaves. *)
Theorem enum_old_complete cfg inputCuts fuel cs cs' p U :
  maxCutNum cfg = ALL_CUTS →
  loop (step_old cfg inputCuts) fuel cs (replicate (length inputCuts) 0) 0 = Ok cs' →
  valid_ptrs (lens inputCuts) p → fix_cut (cutSize cfg) ∅ (zip inputCuts p) = Ok U → U ≠ ∅ → U ∈ cs'.
Proof.
  intros Hcap Hloop Hp HU HU0. set (K := cutSize cfg) in *. set (L := lens inputCuts) in *.
  refine (loop_inv_state (λ c q i, i = 0 ∧ valid_ptrs L q ∧ old_done K inputCuts (rank L q) c)
    (old_done K inputCuts (foldr Nat.mul 1 L)) _ _ fuel cs _ 0 cs' _ Hloop p U Hp (rank_lt _ _ Hp) HU HU0).
  - intros c q i s (-> & Hq & Hold) Hs. destruct (collect_valid K ∅ _ _ Hq) as [Uq HUq].
    pose proof (old_done_step K inputCuts q c Uq Hq HUq Hold) as Hold'.
    assert (Hadv : advance inputCuts (if bool_decide (Uq = ∅) then c else cuts_emplace Uq c) q 0 = Ok s).
    { unfold step_old in Hs. fold K in Hs. rewrite HUq in Hs. simpl in Hs.
      case_bool_decide; [done|]. unfold cap_hit in Hs. rewrite Hcap, bool_decide_eq_false_2 in Hs by tauto.
      done. }
    destruct (advance_spec inputCuts (if bool_decide (Uq = ∅) then c else cuts_emplace Uq c) q Hq)
      as (s' & Hs' & Hm). rewrite Hadv in Hs'. injection Hs' as <-.
    destruct s as [c'|c' q' i']; destruct Hm as (-> & Hm); [fold L in Hm; by rewrite <- Hm|].
    destruct Hm as (-> & Hq' & Hr). split_and!; [done|done|]. fold L in Hr. by rewrite Hr.
  - split_and!; [done|apply valid_ptrs_begin; exact (valid_ptrs_nonempty _ p Hp)|].
    assert (Hz : ∀ ls n, rank ls (replicate n 0) = 0).
    { intros ls; induction ls as [|l ls IH]; intros [|n]; simpl; rewrite ?IH; nia. }
    intros q V _ Hr. rewrite Hz in Hr. lia.
Qed.

(** ** Bounds on the number of cuts *)

Lemma length_subsume cs U : length (subsume cs U) ≤ S (length cs).
Proof.
  unfold subsume. destruct (add_cut U cs) as [cs'|] eqn:Hadd; simpl; [|lia].
  unfold add_cut in Hadd. destruct (scan_cuts U cs) as [[] tr]; [done|].
  injection Hadd as <-. unfold cuts_emplace, erase_all.
  pose proof (length_filter (λ b, b ∉ tr) cs).
  case_bool_decide; [lia|rewrite length_app; simpl; lia].
Qed.

(** A loop invariant for the states the loop moves to ([P]) and a
    weaker one for the state it stops in ([Q]). *)
Lemma loop_inv2 (P Q : Cuts → Prop) step :
  (∀ cs ptrs i s, P cs → step cs ptrs i = Ok s →
     match s with Stop cs' => Q cs' | Next cs' _ _ => P cs' end) →
  ∀ fuel cs ptrs i cs', P cs → loop step fuel cs ptrs i = Ok cs' → Q cs'.
Proof.
  intros Hstep fuel. induction fuel as [|fuel IH]; intros cs ptrs i cs' HP Hl; [done|].
  simpl in Hl. apply bind_Ok in Hl as (s & Hs & Hl). specialize (Hstep _ _ _ _ HP Hs).
  destruct s; [by inv_ok|eauto].
Qed.

(** C16. The soft cap [maxCutNum] of the new loop is exceeded by one:
    with [maxCutNum = M ≠ 0], a loop started with at most [M] cuts ends
    with at most [M + 1] cuts ([cuts->size() > maxCutNum] is tested
    after the emplacement, so the cut that crosses the cap is kept). *)
Theorem enum_new_cap cfg inputCuts fuel cs ptrs i cs' :
  maxCutNum cfg ≠ ALL_CUTS → length cs ≤ maxCutNum cfg →
  loop (step_new cfg inputCuts) fuel cs ptrs i = Ok cs' → length cs' ≤ S (maxCutNum cfg).
Proof.
  intros HM Hcs Hl.
  refine (loop_inv2 (λ cs, length cs ≤ maxCutNum cfg) (λ cs, length cs ≤ S (maxCutNum cfg))
            _ _ fuel cs ptrs i cs' Hcs Hl).
  intros c ptrs' i' s Hc Hs. unfold step_new in Hs.
  apply bind_Ok in Hs as (U & _ & Hs).
  assert (length (subsume c U) ≤ S (maxCutNum cfg)) as Hlen by (pose proof (length_subsume c U); lia).
  assert (Hadv : ∀ c0, length c0 ≤ maxCutNum cfg → advance inputCuts c0 ptrs' i' = Ok s →
    match s with Stop cs' => length cs' ≤ S (maxCutNum cfg) | Next cs' _ _ => length cs' ≤ maxCutNum cfg end).
  { intros c0 H0 Ha. apply advance_len in Ha as [Hc' _]. destruct s; simpl in *; subst; lia. }
  case_bool_decide; simpl in Hs; [by apply Hadv in Hs|].
  destruct (add_cut U c) as [c'|] eqn:Hadd; simpl in Hs; [|by apply Hadv in Hs].
  assert (subsume c U = c') as Hsub by (unfold subsume; by rewrite Hadd).
  rewrite Hsub in Hlen. destruct (cap_hit (maxCutNum cfg) c') eqn:Hcap; simpl in Hs; [by injection Hs as <-|].
  unfold cap_hit in Hcap. apply bool_decide_eq_false in Hcap.
  assert (length c' ≤ maxCutNum cfg) by (unfold ALL_CUTS in *; lia).
  destruct (size U =? 1); simpl in Hs; [|by apply Hadv in Hs].
  destruct (incr_all _ _) as [[? []]| |]; simpl in Hs; try done; injection Hs as <-; simpl; lia.
Qed.

(** ** An empty input cut set *)

(** A combination that reads an empty cut set is undefined, so a
    successful [fix_cut] over it broke off earlier with the empty cut. *)
Lemma collect_empty_slot K acc inputCuts ptrs j U :
  inputCuts !! j = Some [] → length ptrs = length inputCuts →
  fix_cut K acc (zip inputCuts ptrs) = Ok U → U = ∅.
Proof.
  revert acc ptrs j. induction inputCuts as [|cs ics IH]; intros acc [|p ptrs] j Hj Hlen Hc;
    simpl in *; try done.
  destruct j as [|j]; simpl in Hj.
  - injection Hj as ->. done.
  - apply bind_Ok in Hc as (c & _ & Hc).
    destruct (K <? size (acc ∪ c)); [by injection Hc as <-|]. eapply IH; [exact Hj| |exact Hc]; lia.
Qed.

(** The carry never passes a digit whose set is empty. *)
Lemma incr_stops lens ptrs j ps k :
  lens !! j = Some 0 → incr lens ptrs = Ok (ps, k) → k ≤ j.
Proof.
  revert ptrs j ps k. induction lens as [|l lens IH]; intros [|p ptrs] j ps k Hj; simpl in *;
    [done|done|intros [= _ <-]; lia|].
  destruct j as [|j]; simpl in Hj; [by injection Hj as ->|].
  destruct (l <=? p); [done|]. case_match; [|intros [= _ <-]; lia].
  destruct (incr lens ptrs) as [[ps' k']| |] eqn:E; simpl; try done.
  intros [= _ <-]. specialize (IH _ _ _ _ Hj E). lia.
Qed.

(** C22. Error path of the enumeration loop: when one input cut set is
    empty (the input was never enumerated), the new loop started at digit
    0 never returns the node's cut set: every combination either reads
    the empty set's end iterator (undefined behaviour) or is rejected
    before it, and the radix counter can never carry past that digit
    without incrementing its end iterator (undefined as well). *)
Theorem enum_new_empty_input cfg inputCuts j fuel cs ptrs cs' :
  inputCuts !! j = Some [] → length ptrs = length inputCuts →
  loop (step_new cfg inputCuts) fuel cs ptrs 0 ≠ Ok cs'.
Proof.
  intros Hj. revert cs ptrs. induction fuel as [|fuel IH]; intros cs ptrs Hlen Hl; [done|].
  simpl in Hl. apply bind_Ok in Hl as (s & Hs & Hl).
  unfold step_new in Hs. apply bind_Ok in Hs as (U & HU & Hs).
  rewrite (collect_empty_slot _ _ _ _ _ _ Hj Hlen HU), bool_decide_eq_true_2 in Hs by done.
  simpl in Hs. unfold advance, carry in Hs. rewrite !drop_0, take_0 in Hs.
  assert (lens inputCuts !! j = Some 0) as Hj0 by (unfold lens; by rewrite list_lookup_fmap, Hj).
  pose proof (lookup_lt_Some _ _ _ Hj) as Hjl.
  destruct (incr _ _) as [[ps k]| |] eqn:E; simpl in Hs; try done. injection Hs as <-.
  pose proof (incr_stops _ _ _ _ _ Hj0 E) as Hk. pose proof (length_incr _ _ _ _ E) as Hlc.
  rewrite (proj2 (Nat.leb_gt _ _)) in Hl by lia.
  destruct (Nat.eqb_spec k 0) as [->|]; eapply IH; [|exact Hl| |exact Hl]; simpl; lia.
Qed.

(** The preparation of the inputs adds no entry for [w] when the
    recursive call adds none, and substitutes each input by its
    effective input. *)
Lemma prepare_inputs_no_entry net rec w ins st st' ids :
  (∀ id st st', st !! w = None → rec id st = Ok st' → st' !! w = None) →
  st !! w = None → prepare_inputs net rec ins st = Ok (st', ids) →
  st' !! w = None ∧ Forall2 (λ u id, effective_input net u = Ok id) ins ids.
Proof.
  intros Hrec. revert st st' ids.
  induction ins as [|u ins IH]; intros st st' ids Hs Hp; simpl in Hp.
  - injection Hp as <- <-. split; [done|constructor].
  - apply bind_Ok in Hp as (id & Hid & Hp). apply bind_Ok in Hp as (st3 & Hst3 & Hp).
    apply bind_Ok in Hp as ([st4 ids'] & Hp & [= <- <-]).
    assert (st3 !! w = None) as Hs3.
    { case_bool_decide; [by eapply Hrec|by injection Hst3 as <-]. }
    destruct (IH _ _ _ Hs3 Hp) as [? ?]. split; [done|by constructor].
Qed.

(** A NOT gate never receives a cut set: [onNodeBeginNew] returns at
    once on a NOT gate, and only seeds and stores the gate it handles. *)
Lemma onNodeBeginNew_no_not cfg net fuel v st st' w :
  is_not net w = true → st !! w = None →
  onNodeBeginNew cfg net fuel v st = Ok st' → st' !! w = None.
Proof.
  intros Hw. revert v st st'. induction fuel as [|fuel IH]; intros v st st' Hst Hrun; [done|].
  simpl in Hrun. apply bind_Ok in Hrun as (g & Hg & Hrun).
  case_bool_decide as Hf; [by injection Hrun as <-|].
  destruct (gate_get_not _ _ _ Hg Hf) as [Hv _].
  assert (v ≠ w) as Hne by (intros ->; congruence).
  apply bind_Ok in Hrun as ([st2 ids] & Hp & Hrun). apply bind_Ok in Hrun as (cs & _ & [= <-]).
  rewrite lookup_insert_ne by done.
  eapply prepare_inputs_no_entry; [exact IH| |exact Hp].
  unfold seed. by rewrite lookup_insert_ne.
Qed.

(** C17. A gate that reads a NOT gate whose own input is a NOT gate
    makes [onNodeBeginNew] fail: the effective input it substitutes is
    the inner NOT, which never has a cut set, so the enumeration of the
    gate reads an empty set of cuts (undefined behaviour) and never
    produces the gate's cuts, whatever the fuel. *)
Theorem onNodeBeginNew_double_not cfg net fuel v st st' u w :
  is_not net v = false → u ∈ inputs_of net v →
  is_not net u = true → head (inputs_of net u) = Some w → is_not net w = true →
  st !! w = None → onNodeBeginNew cfg net fuel v st ≠ Ok st'.
Proof.
  intros Hv Hu Hnu Hhd Hnw Hst Hrun. destruct fuel as [|fuel]; [done|].
  simpl in Hrun. apply bind_Ok in Hrun as (g & Hg & Hrun).
  case_bool_decide as Hf.
  - unfold gate_get in Hg. apply of_option_Ok in Hg. unfold is_not, func_of in Hv.
    rewrite Hg in Hv. simpl in Hv. rewrite Hf in Hv. by rewrite bool_decide_eq_true_2 in Hv.
  - destruct (gate_get_not _ _ _ Hg Hf) as [_ Hins]. rewrite Hins in Hu.
    apply bind_Ok in Hrun as ([st2 ids] & Hp & Hrun). apply bind_Ok in Hrun as (cs & Hloop & _).
    assert (v ≠ w) as Hne.
    { intros ->. unfold is_not in Hv, Hnw. congruence. }
    destruct (prepare_inputs_no_entry net _ w _ _ _ _
                (λ id st st' Hs Hr, onNodeBeginNew_no_not cfg net fuel id st st' w Hnw Hs Hr)
                ltac:(unfold seed; by rewrite lookup_insert_ne) Hp) as [Hw2 Hrel].
    apply list_elem_of_lookup in Hu as [j Hj].
    destruct (Forall2_lookup_l _ _ _ _ _ Hrel Hj) as (id & Hid & Heff).
    assert (id = w) as ->.
    { unfold effective_input, gate_get in Heff. apply bind_Ok in Heff as (gu & Hgu%of_option_Ok & Heff).
      unfold is_not, func_of, inputs_of in Hnu, Hhd. rewrite Hgu in Hnu, Hhd. simpl in *.
      apply bool_decide_eq_true in Hnu. injection Hnu as Hnu.
      rewrite bool_decide_eq_true_2 in Heff by done. rewrite Hhd in Heff. by injection Heff. }
    eapply (enum_new_empty_input cfg (cuts_of st2 <$> ids) j); [| |exact Hloop].
    + rewrite list_lookup_fmap, Hid. simpl. unfold cuts_of. by rewrite Hw2.
    + by rewrite length_replicate, length_fmap.
Qed.

(** ** Scenarios of the spec and witnesses *)

Definition cfg_k2 : CutsFindConfig := {| cutSize := 2; maxCutNum := ALL_CUTS |}.

(** The enumerator reproduces the spec's end-to-end cut scenarios
    (K = 2): on the two-level AND tree the root has the cuts [{t}] and
    [{a, b}] and [a] has [{a}] and [{i1, i2}]; through a NOT input the
    gate gets [{b}] and [{i1, i2}] (the NOT is transparent); on the
    diamond the root keeps [{y}], [{x, z}] and [{i1}]. *)
Theorem findCuts_spec_scenarios :
  (∃ st, findCuts cfg_k2 net_tree false [1; 2; 3; 4; 5; 6; 7] = Ok st ∧
         cuts_of st 7 = [{[7]}; {[5; 6]}] ∧ cuts_of st 5 = [{[5]}; {[1; 2]}]) ∧
  (∃ st, findCuts cfg_k2 net_not false [1; 2; 3; 4] = Ok st ∧
         cuts_of st 4 = [{[4]}; {[1; 2]}] ∧ st !! 3 = None) ∧
  (∃ st, findCuts cfg_k2 net_diamond false [1; 2; 3; 4] = Ok st ∧
         cuts_of st 4 = [{[4]}; {[2; 3]}; {[1]}]).
Proof. split_and!; eexists; (split; [vm_compute; reflexivity|]); vm_compute; auto. Qed.

(** K = 1 does not yield only trivial cuts, as the spec's boundary
    case says: a gate with a single effective input (here a primary
    output [OUT(i1)]) also gets the one-leaf cut [{i1}] of its input. *)
Theorem findCuts_k1_nontrivial :
  ∃ st, findCuts {| cutSize := 1; maxCutNum := ALL_CUTS |} net_out false [1; 2] = Ok st ∧
        cuts_of st 2 = [{[2]}; {[1]}].
Proof. eexists. split; [vm_compute; reflexivity|]. vm_compute. reflexivity. Qed.

Lemma findCuts_ok_witness :
  wf_not net_not ∧
  ∃ st, findCuts cfg_k2 net_not false [1; 2; 3; 4] = Ok st ∧ storage_ok cfg_k2 net_not st.
Proof.
  assert (wf_not net_not) as Hwf by (apply (bool_decide_eq_true (wf_not net_not)); vm_compute; reflexivity).
  split; [exact Hwf|]. eexists. split; [vm_compute; reflexivity|].
  apply (findCuts_ok cfg_k2 net_not [1; 2; 3; 4]); [exact Hwf|vm_compute; reflexivity].
Defined.

Lemma collect_spec_witness :
  derefs [([{[1]}; {[2; 3]}], 1); ([{[4]}], 0)] [{[2; 3]}; {[4]}] ∧
  fix_cut 3 ∅ [([{[1]}; {[2; 3]}], 1); ([{[4]}], 0)] = Ok {[2; 3; 4]}.
Proof.
  assert (derefs [([{[1]}; {[2; 3]}], 1); ([{[4]}], 0)] [{[2; 3]}; {[4]}]) as Hd
    by (repeat constructor).
  split; [exact Hd|]. rewrite (collect_spec 3 _ _ Hd). vm_compute. reflexivity.
Defined.

(** With [maxCutNum = 1] the cut set of [AND(i1, i2)] reaches 2 cuts. *)
Definition cfg_k2_m1 : CutsFindConfig := {| cutSize := 2; maxCutNum := 1 |}.

Lemma enum_new_cap_witness :
  maxCutNum cfg_k2_m1 ≠ ALL_CUTS ∧ length ([{[5]}] : Cuts) ≤ maxCutNum cfg_k2_m1 ∧
  loop (step_new cfg_k2_m1 [[{[1]}]; [{[2]}]]) (enum_fuel [[{[1]}]; [{[2]}]])
    [{[5]}] [0; 0] 0 = Ok [{[5]}; {[1; 2]}] ∧
  length ([{[5]}; {[1; 2]}] : Cuts) ≤ S (maxCutNum cfg_k2_m1).
Proof.
  assert (loop (step_new cfg_k2_m1 [[{[1]}]; [{[2]}]]) (enum_fuel [[{[1]}]; [{[2]}]])
            [{[5]}] [0; 0] 0 = Ok [{[5]}; {[1; 2]}]) as Hl by (vm_compute; reflexivity).
  assert (maxCutNum cfg_k2_m1 ≠ ALL_CUTS) as HM by (unfold ALL_CUTS; simpl; lia).
  assert (length ([{[5]}] : Cuts) ≤ maxCutNum cfg_k2_m1) as H1 by (simpl; lia).
  split_and!; [exact HM|exact H1|exact Hl|].
  exact (enum_new_cap _ _ _ _ _ _ _ HM H1 Hl).
Defined.

Lemma enum_new_empty_input_witness :
  ([[{[1]}]; []] : list Cuts) !! 1 = Some [] ∧ length [0; 0] = length ([[{[1]}]; []] : list Cuts) ∧
  loop (step_new cfg_k2 [[{[1]}]; []]) 5 [{[3]}] [0; 0] 0 ≠ Ok [{[3]}] ∧
  loop (step_new cfg_k2 [[{[1]}]; []]) 5 [{[3]}] [0; 0] 0 = Undef.
Proof.
  split_and!; [reflexivity|reflexivity| |vm_compute; reflexivity].
  apply (enum_new_empty_input cfg_k2 [[{[1]}]; []] 1); reflexivity.
Defined.

Lemma onNodeBeginNew_double_not_witness :
  is_not net_notnot 4 = false ∧ 3 ∈ inputs_of net_notnot 4 ∧ is_not net_notnot 3 = true ∧
  head (inputs_of net_notnot 3) = Some 2 ∧ is_not net_notnot 2 = true ∧
  (∅ : CutStorage) !! 2 = None ∧
  onNodeBeginNew cfg_k2 net_notnot 5 4 ∅ ≠ Ok ∅ ∧
  findCuts cfg_k2 net_notnot false [1; 2; 3; 4] = Undef ∧
  findCuts cfg_k2 net_notnot true [1; 2; 3; 4] = Undef.
Proof.
  split_and!; try (vm_compute; reflexivity).
  - vm_compute. left.
  - apply (onNodeBeginNew_double_not cfg_k2 net_notnot 5 4 ∅ ∅ 3 2); vm_compute; try reflexivity. left.
Defined.

Lemma enum_new_terminates_witness :
  Forall (λ cs : Cuts, cs ≠ []) [[{[1]}; {[1; 2]}]; [{[2]}; {[3]}]] ∧
  ∃ cs', loop (step_new cfg_k2 [[{[1]}; {[1; 2]}]; [{[2]}; {[3]}]])
           (enum_fuel [[{[1]}; {[1; 2]}]; [{[2]}; {[3]}]]) [{[4]}] [0; 0] 0 = Ok cs'.
Proof.
  assert (Forall (λ cs : Cuts, cs ≠ []) [[{[1]}; {[1; 2]}]; [{[2]}; {[3]}]]) as H
    by (repeat constructor; discriminate).
  split; [exact H|]. exact (enum_new_terminates cfg_k2 _ [{[4]}] H).
Defined.

Lemma enum_old_terminates_witness :
  Forall (λ cs : Cuts, cs ≠ []) [[{[1]}; {[1; 2]}]; [{[2]}; {[3]}]] ∧
  ∃ cs', loop (step_old cfg_k2 [[{[1]}; {[1; 2]}]; [{[2]}; {[3]}]])
           (enum_fuel [[{[1]}; {[1; 2]}]; [{[2]}; {[3]}]]) [{[4]}] [0; 0] 0 = Ok cs'.
Proof.
  assert (Forall (λ cs : Cuts, cs ≠ []) [[{[1]}; {[1; 2]}]; [{[2]}; {[3]}]]) as H
    by (repeat constructor; discriminate).
  split; [exact H|]. exact (enum_old_terminates cfg_k2 _ [{[4]}] H).
Defined.

(** The legacy loop on two inputs with the cut sets [{1}, {2}] and
    [{3}]. *)
Definition inputs_ex : list Cuts := [[{[1]}; {[2]}]; [{[3]}]].

Definition old_cuts_ex : Cuts :=
  Eval vm_compute in
  match loop (step_old cfg_k2 inputs_ex) (enum_fuel inputs_ex) [] (replicate 2 0) 0 with
  | Ok c => c | _ => [] end.

Lemma enum_old_complete_witness :
  loop (step_old cfg_k2 inputs_ex) (enum_fuel inputs_ex) [] (replicate 2 0) 0 = Ok old_cuts_ex ∧
  {[2; 3]} ∈ old_cuts_ex.
Proof.
  assert (Hl : loop (step_old cfg_k2 inputs_ex) (enum_fuel inputs_ex) [] (replicate 2 0) 0 = Ok old_cuts_ex)
    by (vm_compute; reflexivity).
  split; [exact Hl|].
  refine (enum_old_complete cfg_k2 inputs_ex (enum_fuel inputs_ex) [] old_cuts_ex [1; 0] {[2; 3]}
    eq_refl Hl _ _ _); [|vm_compute; reflexivity|set_solver].
  constructor; [simpl; lia|]. constructor; [simpl; lia|constructor].
Defined.
