(* ===== verification/TruthTable.v ===== *)
(** * Truth tables and NPN canonization ([TruthTable::build], kitty's
    [exact_npn_canonization], used by [npn/npn_collector.cpp])

    Neither is under [src/]; both are modelled from the spec.  A truth
    table of a [k]-input cone is a word of [2^k] bits: bit [j] is the
    output on the row [j], whose input [i] is bit [i] of [j].  [build]
    simulates a cone in id order (a topological order of an extracted
    cone) with input [i] driven by the cofactor pattern [var_tt k i].
    The NPN group is generated by three kinds of involutions of tables:
    negating the output, negating one input ([flip_row]) and swapping
    two adjacent inputs ([swap_row]).  [orbit] saturates a table under
    them and [npn_class] is the least table of the orbit, a stable
    representative as the spec requires ("exhaustive orbit
    minimization").  Rows are indexed by [Z] so that the row maps are
    the bit operations [Z.lxor] and [Z.testbit]. *)

From stdpp Require Import sorting.
From S2P Require Import Prelude Gnet ConeVisitor.

(** ** Truth tables as words *)

(** The word of [n] bits whose bit [j] is [p (j0 + j)], least
    significant bit first. *)
Fixpoint tt_from_at (n : nat) (j0 : Z) (p : Z → bool) : Z :=
  match n with
  | 0 => 0%Z
  | S n' => (if p j0 then Z.succ_double else Z.double) (tt_from_at n' (Z.succ j0) p)
  end.

(** The word of [n] bits whose bit [j] is [p j]. *)
Definition tt_from (n : nat) (p : Z → bool) : Z := tt_from_at n 0 p.

(** All [2^k] rows. *)
Definition tt_mask (k : nat) : Z := tt_from (2 ^ k) (λ _, true).

(** The cofactor pattern of input [i]: bit [j] is bit [i] of [j]. *)
Definition var_tt (k i : nat) : Z := tt_from (2 ^ k) (λ j, Z.testbit j (Z.of_nat i)).

(** The table of a gate function over the tables of its inputs. *)
Definition gate_tt (k : nat) (f : GateSymbol) (args : list Z) : Result Z :=
  let m := tt_mask k in
  match f, args with
  | ZERO, [] => Ok 0%Z
  | ONE, [] => Ok m
  | NOP, [a] | OUT, [a] => Ok a
  | NOT, [a] => Ok (Z.lxor m a)
  | AND, _ => Ok (foldl Z.land m args)
  | OR, _ => Ok (foldl Z.lor 0%Z args)
  | XOR, _ => Ok (foldl Z.lxor 0%Z args)
  | NAND, _ => Ok (Z.lxor m (foldl Z.land m args))
  | NOR, _ => Ok (Z.lxor m (foldl Z.lor 0%Z args))
  | XNOR, _ => Ok (Z.lxor m (foldl Z.lxor 0%Z args))
  | MAJ, [a; b; c] => Ok (Z.lor (Z.lor (Z.land a b) (Z.land a c)) (Z.land b c))
  | _, _ => Undef
  end.

(** One gate of the simulation: a bound input takes its pattern, any
    other gate combines the values of its inputs. *)
Definition tt_step (net : GNet) (k : nat) (env : gmap GateId Z) (vals : Result (gmap GateId Z))
    (id : GateId) : Result (gmap GateId Z) :=
  vs ← vals;
  match env !! id with
  | Some t => Ok (<[id:=t]> vs)
  | None =>
      g ← gate_get net id;
      args ← mapM (λ u, of_option (vs !! u)) (inputs g);
      t ← gate_tt k (func g) args;
      Ok (<[id:=t]> vs)
  end.

(** [TruthTable::build(boundGNet)]: at most six inputs; the value of the
    single [OUT] gate. *)
Definition build (bg : BoundGNet) : Result Z :=
  let k := length (inputBindings bg) in
  if bool_decide (6 < k) then Undef else
  let env := list_to_map (zip (inputBindings bg) (var_tt k <$> seq 0 k)) in
  let ids := merge_sort (≤) (elements (dom (bg_net bg))) in
  vals ← foldl (tt_step (bg_net bg) k env) (Ok ∅) ids;
  match filter (λ id, func_of (bg_net bg) id = Some OUT) ids with
  | [o] => of_option (vals !! o)
  | _ => Undef
  end.

(** ** NPN canonization *)

(** Row maps: negate input [i]; swap inputs [i] and [i + 1]. *)
Definition flip_row (i : nat) (j : Z) : Z := Z.lxor j (2 ^ Z.of_nat i).

Definition swap_row (i : nat) (j : Z) : Z :=
  if Bool.eqb (Z.testbit j (Z.of_nat i)) (Z.testbit j (Z.of_nat (S i))) then j
  else flip_row (S i) (flip_row i j).

(** The table [t] with its rows renamed by [σ]. *)
Definition remap (k : nat) (σ : Z → Z) (t : Z) : Z := tt_from (2 ^ k) (λ j, Z.testbit t (σ j)).

(** The generators of the NPN group on [k]-input tables. *)
Definition npn_gens (k : nat) : list (Z → Z) :=
  (λ t, Z.lxor (tt_mask k) t) ::
  ((λ i, remap k (flip_row i)) <$> seq 0 k) ++
  ((λ i, remap k (swap_row i)) <$> seq 0 (k - 1)).

(** The images of a set of tables under the generators. *)
Definition npn_images (k : nat) (F : gset Z) : gset Z :=
  set_of_list (elements F ≫= λ x, (λ g, g x) <$> npn_gens k).

(** One round of the breadth-first saturation: the tables reached so
    far and the frontier of the last round; the new frontier is the
    images of the frontier not reached before. *)
Definition orbit_step (k : nat) (XF : gset Z * gset Z) : gset Z * gset Z :=
  let N := npn_images k XF.2 ∖ XF.1 in (XF.1 ∪ N, N).

(** Saturation with [2^d - 1] rounds of fuel: a round, then twice the
    rounds of depth [d - 1]; an empty frontier stops at once, so the
    rounds run are the rounds saturation needs. *)
Fixpoint orbit_sat (k d : nat) (XF : gset Z * gset Z) : gset Z * gset Z :=
  match d with
  | 0 => XF
  | S d' => if bool_decide (XF.2 = ∅) then XF else orbit_sat k d' (orbit_sat k d' (orbit_step k XF))
  end.

(** The number of [k]-input tables bounds the number of rounds. *)
Definition tt_count (k : nat) : nat := 2 ^ 2 ^ k.

(** The orbit of [t]: [2^(2^k+1) - 1 ≥ tt_count k] rounds suffice, and a
    frontier that is not empty after them is a lack of fuel. *)
Definition orbit (k : nat) (t : Z) : Result (gset Z) :=
  let XF := orbit_sat k (S (2 ^ k)) ({[t]}, {[t]}) in
  if bool_decide (XF.2 = ∅) then Ok XF.1 else OutOfFuel.

(** The least element of [X] (and [d]). *)
Definition min_of (X : gset Z) (d : Z) : Z := foldr Z.min d (elements X).

(** The NPN class key of a [k]-input table. *)
Definition npn_class (k : nat) (t : Z) : Result Z :=
  X ← orbit k t; Ok (min_of X t).

(** ** Facts on tables *)

(** A [k]-input table: a word of [2^k] bits. *)
Definition tt_wf (k : nat) (t : Z) : Prop := (0 ≤ t < 2 ^ Z.of_nat (2 ^ k))%Z.

#[export] Instance tt_wf_dec k t : Decision (tt_wf k t).
Proof. unfold tt_wf. apply _. Defined.

(** Tables reachable from [t] through the generators. *)
Inductive npn_reach (k : nat) (t : Z) : Z → Prop :=
| nr_refl : npn_reach k t t
| nr_step x g : npn_reach k t x → g ∈ npn_gens k → npn_reach k t (g x).

Section Bits.
Local Open Scope Z_scope.

Lemma range_bits K a :
  0 ≤ K → 0 ≤ a → (a < 2 ^ K ↔ ∀ n, K ≤ n → Z.testbit a n = false).
Proof.
  intros HK Ha. split.
  - intros Hlt n Hn. rewrite <- (Z.mod_small a (2 ^ K)) by lia. apply Z.mod_pow2_bits_high. lia.
  - intros Hb. assert (Heq : a = a mod 2 ^ K).
    { apply Z.bits_inj'. intros n Hn. rewrite Z.testbit_mod_pow2 by lia.
      destruct (Z.ltb_spec n K); simpl; [done|by apply Hb]. }
    rewrite Heq. apply Z.mod_pos_bound. lia.
Qed.

Lemma testbit_double_case (b : bool) a j :
  0 ≤ j → Z.testbit ((if b then Z.succ_double else Z.double) a) j =
          if bool_decide (j = 0) then b else Z.testbit a (Z.pred j).
Proof.
  intros Hj. case_bool_decide as H0.
  - subst. destruct b; rewrite ?Z.succ_double_spec, ?Z.double_spec;
      [apply Z.testbit_odd_0|apply Z.testbit_even_0].
  - rewrite <- (Z.succ_pred j) at 1.
    destruct b; rewrite ?Z.succ_double_spec, ?Z.double_spec;
      [apply Z.testbit_odd_succ|apply Z.testbit_even_succ]; lia.
Qed.

Lemma tt_from_at_testbit n j0 p j :
  0 ≤ j → Z.testbit (tt_from_at n j0 p) j = bool_decide (j < Z.of_nat n) && p (j0 + j).
Proof.
  revert j0 j. induction n as [|n IH]; intros j0 j Hj; simpl.
  - rewrite Z.bits_0. by rewrite bool_decide_eq_false_2 by lia.
  - rewrite testbit_double_case by done. case_bool_decide as H0.
    + subst. rewrite Z.add_0_r, bool_decide_eq_true_2 by lia. done.
    + rewrite IH by lia. f_equal; [apply bool_decide_ext; lia|f_equal; lia].
Qed.

Lemma tt_from_testbit n p j :
  0 ≤ j → Z.testbit (tt_from n p) j = bool_decide (j < Z.of_nat n) && p j.
Proof. intros Hj. unfold tt_from. by rewrite tt_from_at_testbit. Qed.

Lemma tt_from_nonneg n p : 0 ≤ tt_from n p.
Proof.
  unfold tt_from. assert (H : ∀ j0, 0 ≤ tt_from_at n j0 p); [|apply H].
  induction n as [|n IH]; intros j0; simpl; [lia|].
  specialize (IH (Z.succ j0)). destruct (p j0); rewrite ?Z.succ_double_spec, ?Z.double_spec; lia.
Qed.

Lemma tt_from_wf k p : tt_wf k (tt_from (2 ^ k) p).
Proof.
  split; [apply tt_from_nonneg|]. apply range_bits; [lia|apply tt_from_nonneg|].
  intros n Hn. rewrite tt_from_testbit by lia. by rewrite bool_decide_eq_false_2 by lia.
Qed.

Lemma tt_wf_bits k t :
  tt_wf k t ↔ 0 ≤ t ∧ ∀ n, Z.of_nat (2 ^ k) ≤ n → Z.testbit t n = false.
Proof.
  unfold tt_wf. split.
  - intros [H0 H1]. split; [done|]. by apply range_bits; [lia| |].
  - intros [H0 H1]. split; [done|]. by apply range_bits; [lia| |].
Qed.
End Bits.

Section Generators.
Local Open Scope Z_scope.

Lemma rows_pow k : Z.of_nat (2 ^ k) = 2 ^ Z.of_nat k.
Proof. rewrite Nat2Z.inj_pow. done. Qed.

Lemma flip_row_testbit i j n :
  0 ≤ n → Z.testbit (flip_row i j) n = xorb (Z.testbit j n) (Z.of_nat i =? n).
Proof. intros Hn. unfold flip_row. rewrite Z.lxor_spec, Z.pow2_bits_eqb by lia. done. Qed.

Lemma flip_row_invol i j : flip_row i (flip_row i j) = j.
Proof. unfold flip_row. by rewrite Z.lxor_assoc, Z.lxor_nilpotent, Z.lxor_0_r. Qed.

Lemma flip_row_comm a b j : flip_row a (flip_row b j) = flip_row b (flip_row a j).
Proof. unfold flip_row. by rewrite !Z.lxor_assoc, (Z.lxor_comm (2 ^ Z.of_nat b)). Qed.

(** A row map that keeps the rows of a [k]-input table and is its own
    inverse on them. *)
Definition row_invol (k : nat) (σ : Z → Z) : Prop :=
  ∀ j, 0 ≤ j < Z.of_nat (2 ^ k) → (0 ≤ σ j < Z.of_nat (2 ^ k)) ∧ σ (σ j) = j.

Lemma flip_row_range k i j :
  (i < k)%nat → 0 ≤ j < Z.of_nat (2 ^ k) → 0 ≤ flip_row i j < Z.of_nat (2 ^ k).
Proof.
  intros Hi Hj. rewrite rows_pow in *.
  assert (Hnn : 0 ≤ flip_row i j).
  { unfold flip_row. apply Z.lxor_nonneg. split; intros; [apply Z.pow_nonneg|]; lia. }
  split; [done|]. apply range_bits; [lia|done|]. intros n Hn.
  rewrite flip_row_testbit by lia.
  rewrite (proj1 (range_bits (Z.of_nat k) j ltac:(lia) ltac:(lia)) ltac:(lia) n ltac:(lia)).
  destruct (Z.eqb_spec (Z.of_nat i) n); [lia|done].
Qed.

Lemma flip_row_ok k i : (i < k)%nat → row_invol k (flip_row i).
Proof. intros Hi j Hj. split; [by apply flip_row_range|apply flip_row_invol]. Qed.

Lemma flip2_testbit i x :
  Z.testbit (flip_row (S i) (flip_row i x)) (Z.of_nat i) = negb (Z.testbit x (Z.of_nat i)) ∧
  Z.testbit (flip_row (S i) (flip_row i x)) (Z.of_nat (S i)) = negb (Z.testbit x (Z.of_nat (S i))).
Proof.
  rewrite !flip_row_testbit by lia. rewrite !Z.eqb_refl.
  rewrite (proj2 (Z.eqb_neq (Z.of_nat (S i)) (Z.of_nat i))) by lia.
  rewrite (proj2 (Z.eqb_neq (Z.of_nat i) (Z.of_nat (S i)))) by lia.
  by rewrite !xorb_false_r, !xorb_true_r.
Qed.

Lemma swap_row_ok k i : (S i < k)%nat → row_invol k (swap_row i).
Proof.
  intros Hi j Hj. unfold swap_row.
  destruct (Bool.eqb (Z.testbit j (Z.of_nat i)) (Z.testbit j (Z.of_nat (S i)))) eqn:Eq.
  { rewrite Eq. done. }
  destruct (flip2_testbit i j) as [H0 H1]. rewrite H0, H1.
  assert (Eq' : Bool.eqb (negb (Z.testbit j (Z.of_nat i))) (negb (Z.testbit j (Z.of_nat (S i)))) = false)
    by (by destruct (Z.testbit j _), (Z.testbit j _)).
  rewrite Eq'. split; [apply flip_row_range; [lia|apply flip_row_range; [lia|done]]|].
  by rewrite (flip_row_comm (S i) i (flip_row _ _)), !flip_row_invol.
Qed.

Lemma remap_testbit k σ t n :
  0 ≤ n → Z.testbit (remap k σ t) n = bool_decide (n < Z.of_nat (2 ^ k)) && Z.testbit t (σ n).
Proof. intros Hn. unfold remap. by rewrite tt_from_testbit. Qed.

Lemma remap_invol k σ t : row_invol k σ → tt_wf k t → remap k σ (remap k σ t) = t.
Proof.
  intros Hσ Ht. apply Z.bits_inj'. intros n Hn. rewrite remap_testbit by done.
  case_bool_decide as Hlt.
  - destruct (Hσ n (conj Hn Hlt)) as [[H0 H1] Hinv]. simpl.
    rewrite remap_testbit, bool_decide_eq_true_2, Hinv by done. done.
  - simpl. symmetry. apply tt_wf_bits in Ht as [_ Ht]. apply Ht. lia.
Qed.

Lemma tt_mask_testbit k n : 0 ≤ n → Z.testbit (tt_mask k) n = bool_decide (n < Z.of_nat (2 ^ k)).
Proof. intros Hn. unfold tt_mask. rewrite tt_from_testbit by done. apply andb_true_r. Qed.

Lemma negate_wf k t : tt_wf k t → tt_wf k (Z.lxor (tt_mask k) t).
Proof.
  intros Ht. pose proof (tt_from_wf k (λ _, true)) as Hm. fold (tt_mask k) in Hm.
  apply tt_wf_bits in Ht as [Ht0 Ht], Hm as [Hm0 Hm]. apply tt_wf_bits. split.
  - apply Z.lxor_nonneg. lia.
  - intros n Hn. rewrite Z.lxor_spec, Ht, Hm by done. done.
Qed.

Lemma npn_gens_cases k g :
  g ∈ npn_gens k →
  g = (λ t, Z.lxor (tt_mask k) t) ∨ (∃ σ, row_invol k σ ∧ g = remap k σ).
Proof.
  unfold npn_gens. rewrite elem_of_cons, elem_of_app, !list_elem_of_fmap.
  intros [->|[(i & -> & Hi)|(i & -> & Hi)]]; [by left|right..];
    apply elem_of_seq in Hi; eexists; (split; [|done]).
  - apply flip_row_ok. lia.
  - apply swap_row_ok. lia.
Qed.

(** Every generator maps tables to tables and is an involution on them. *)
Lemma npn_gen_wf k g t : g ∈ npn_gens k → tt_wf k t → tt_wf k (g t).
Proof.
  intros [->|(σ & _ & ->)]%npn_gens_cases Ht; [by apply negate_wf|apply tt_from_wf].
Qed.

Lemma npn_gen_invol k g t : g ∈ npn_gens k → tt_wf k t → g (g t) = t.
Proof.
  intros [->|(σ & Hσ & ->)]%npn_gens_cases Ht; [|by apply remap_invol].
  by rewrite <- Z.lxor_assoc, Z.lxor_nilpotent, Z.lxor_0_l.
Qed.
End Generators.

Section Orbits.
Context (k : nat).

Lemma npn_reach_wf t y : tt_wf k t → npn_reach k t y → tt_wf k y.
Proof. intros Ht. induction 1; [done|by apply npn_gen_wf]. Qed.

Lemma npn_reach_trans a b c : npn_reach k a b → npn_reach k b c → npn_reach k a c.
Proof. intros Hab. induction 1; [done|by econstructor]. Qed.

(** The generators being involutions, NPN equivalence is symmetric. *)
Lemma npn_reach_sym t y : tt_wf k t → npn_reach k t y → npn_reach k y t.
Proof.
  intros Ht. induction 1 as [|x g Hx IH Hg]; [constructor|].
  eapply npn_reach_trans; [|exact IH].
  rewrite <- (npn_gen_invol k g x) at 2 by (done || by eapply npn_reach_wf).
  econstructor; [constructor|done].
Qed.

Lemma elem_of_npn_images F y :
  y ∈ npn_images k F ↔ ∃ x g, x ∈ F ∧ g ∈ npn_gens k ∧ y = g x.
Proof.
  unfold npn_images. rewrite elem_of_set_of_list, list_elem_of_bind.
  setoid_rewrite list_elem_of_fmap. setoid_rewrite elem_of_elements. naive_solver.
Qed.

(** All [k]-input tables. *)
Definition tt_universe : gset Z := list_to_set (Z.of_nat <$> seq 0 (tt_count k)).

Lemma tt_universe_size : size tt_universe = tt_count k.
Proof.
  unfold tt_universe. rewrite size_list_to_set, length_fmap, length_seq; [done|].
  apply NoDup_fmap_2; [intros ?? ?; lia|apply NoDup_seq].
Qed.

Lemma tt_wf_universe t : tt_wf k t → t ∈ tt_universe.
Proof.
  intros [H0 H1]. unfold tt_universe. rewrite elem_of_list_to_set, list_elem_of_fmap.
  exists (Z.to_nat t). split; [lia|]. apply elem_of_seq.
  assert (Z.of_nat (tt_count k) = 2 ^ Z.of_nat (2 ^ k))%Z
    by (unfold tt_count; by rewrite Nat2Z.inj_pow). lia.
Qed.

(** The invariant of the saturation from [t]: the reached tables hold
    [t], are reached from [t] and are tables; the frontier is reached;
    the images of a reached table off the frontier are reached. *)
Definition orbit_inv (t : Z) (XF : gset Z * gset Z) : Prop :=
  t ∈ XF.1 ∧ (∀ x, x ∈ XF.1 → npn_reach k t x) ∧ (∀ x, x ∈ XF.1 → tt_wf k x) ∧
  XF.2 ⊆ XF.1 ∧ ∀ x g, x ∈ XF.1 → x ∉ XF.2 → g ∈ npn_gens k → g x ∈ XF.1.

Lemma orbit_step_inv t XF : orbit_inv t XF → orbit_inv t (orbit_step k XF).
Proof.
  destruct XF as [X F]. intros (Ht & Hr & Hw & HF & Hc). unfold orbit_inv. cbv [orbit_step fst snd].
  assert (Himg : ∀ y, y ∈ npn_images k F → npn_reach k t y ∧ tt_wf k y).
  { intros y (x & g & Hx & Hg & ->)%elem_of_npn_images.
    split; [econstructor; eauto|apply npn_gen_wf; auto]. }
  split_and!; [set_solver| | |set_solver|].
  - intros y [Hy|[Hy _]%elem_of_difference]%elem_of_union; [auto|by apply Himg].
  - intros y [Hy|[Hy _]%elem_of_difference]%elem_of_union; [auto|by apply Himg].
  - intros x g Hx HxN Hg. apply elem_of_union in Hx as [Hx|Hx]; [|done].
    destruct (decide (x ∈ F)) as [HxF|HxF].
    + destruct (decide (g x ∈ X)); [set_solver|]. apply elem_of_union_r, elem_of_difference.
      split; [|done]. apply elem_of_npn_images. eauto.
    + apply elem_of_union_l. auto.
Qed.

Lemma orbit_inv_size t XF : orbit_inv t XF → size XF.1 ≤ tt_count k.
Proof.
  intros (_ & _ & Hw & _). rewrite <- tt_universe_size. apply subseteq_size.
  intros y Hy. by apply tt_wf_universe, Hw.
Qed.

Lemma orbit_sat_done d XF : XF.2 = ∅ → orbit_sat k d XF = XF.
Proof. intros H0. destruct d; simpl; [done|]. by rewrite bool_decide_eq_true_2. Qed.

(** A round either empties the frontier or reaches a new table. *)
Lemma orbit_step_progress XF :
  (orbit_step k XF).2 = ∅ ∨ size XF.1 < size (orbit_step k XF).1.
Proof.
  destruct XF as [X F]. cbv [orbit_step fst snd].
  destruct (decide (npn_images k F ∖ X = ∅)) as [|Hne]; [by left|right].
  apply subset_size. apply set_choose_L in Hne as [y Hy]. set_solver.
Qed.

(** [orbit_sat k d] keeps the invariant, and either empties the frontier
    or reaches at least [2^d - 1] new tables. *)
Lemma orbit_sat_progress t d XF :
  orbit_inv t XF →
  orbit_inv t (orbit_sat k d XF) ∧
  ((orbit_sat k d XF).2 = ∅ ∨ size XF.1 + (2 ^ d - 1) ≤ size (orbit_sat k d XF).1).
Proof.
  revert XF. induction d as [|d IH]; intros XF Hi; simpl; [split; [done|right; lia]|].
  case_bool_decide as H0; [by split; [|left]|].
  pose proof (orbit_step_inv t XF Hi) as Hi0.
  destruct (orbit_step_progress XF) as [Hd|Hg].
  { rewrite (orbit_sat_done d (orbit_step k XF)), orbit_sat_done by done. split; [done|by left]. }
  destruct (IH _ Hi0) as [Hi1 [Hd1|Hs1]].
  { rewrite orbit_sat_done by done. split; [done|by left]. }
  destruct (IH _ Hi1) as [Hi2 [Hd2|Hs2]]; split; [done|by left|done|right].
  pose proof (Nat.pow_nonzero 2 d). lia.
Qed.

Lemma orbit_done_spec t XF :
  orbit_inv t XF → XF.2 = ∅ → ∀ y, y ∈ XF.1 ↔ npn_reach k t y.
Proof.
  intros (Ht & Hr & _ & _ & Hc) H0 y. split; [auto|]. induction 1 as [|x g Hx IHx Hg]; [done|].
  apply Hc; [done|rewrite H0; set_solver|done].
Qed.

Lemma orbit_spec t :
  tt_wf k t → ∃ X, orbit k t = Ok X ∧ ∀ y, y ∈ X ↔ npn_reach k t y.
Proof.
  intros Ht. assert (Hi : orbit_inv t ({[t]}, {[t]})).
  { split_and!; cbn [fst snd]; [set_solver| | |done|set_solver];
      intros x ->%elem_of_singleton; [constructor|done]. }
  destruct (orbit_sat_progress t (S (2 ^ k)) _ Hi) as [Hi' [Hd|Hs]]; unfold orbit.
  - rewrite bool_decide_eq_true_2 by done. eexists. split; [done|]. by apply orbit_done_spec.
  - exfalso. pose proof (orbit_inv_size t _ Hi') as Hle. cbn [fst] in Hs.
    rewrite size_singleton, Nat.pow_succ_r' in Hs. unfold tt_count in Hle. lia.
Qed.

Lemma min_of_spec X d :
  d ∈ X → min_of X d ∈ X ∧ ∀ y, y ∈ X → (min_of X d ≤ y)%Z.
Proof.
  intros Hd. unfold min_of.
  assert (Hl : ∀ l, foldr Z.min d l ∈ d :: l ∧ (foldr Z.min d l ≤ d)%Z ∧
                    ∀ y, y ∈ l → (foldr Z.min d l ≤ y)%Z).
  { induction l as [|x l (Hin & Hd' & Hle)]; simpl.
    - split; [left|split; [lia|set_solver]].
    - split; [|split; [lia|]].
      + destruct (Z.min_spec x (foldr Z.min d l)) as [[_ ->]|[_ ->]]; [by right; left|].
        apply elem_of_cons in Hin as [->|]; [left|by right; right].
      + intros y [->|Hy]%elem_of_cons; [lia|]. specialize (Hle y Hy). lia. }
  destruct (Hl (elements X)) as (Hin & _ & Hle). split.
  - apply elem_of_cons in Hin as [->|Hin]; [done|by apply elem_of_elements].
  - intros y Hy. apply Hle. by apply elem_of_elements.
Qed.

(** The key of a table is the least table NPN-equivalent to it. *)
Lemma npn_class_least t :
  tt_wf k t → ∃ c, npn_class k t = Ok c ∧ npn_reach k t c ∧ ∀ y, npn_reach k t y → (c ≤ y)%Z.
Proof.
  intros Ht. destruct (orbit_spec t Ht) as (X & HX & Hmem). unfold npn_class. rewrite HX.
  destruct (min_of_spec X t) as [Hin Hle]; [by apply Hmem; constructor|].
  eexists. split; [done|]. split; [by apply Hmem|]. intros y Hy. by apply Hle, Hmem.
Qed.

Lemma least_unique (P : Z → Prop) c c' :
  P c → (∀ y, P y → (c ≤ y)%Z) → P c' → (∀ y, P y → (c' ≤ y)%Z) → c = c'.
Proof. intros H1 H2 H3 H4. specialize (H2 c' H3). specialize (H4 c H1). lia. Qed.
End Orbits.

Lemma npn_reach_iff k t t' y :
  tt_wf k t → npn_reach k t t' → (npn_reach k t y ↔ npn_reach k t' y).
Proof.
  intros Ht Htt'. split; intros Hy.
  - eapply npn_reach_trans; [|exact Hy]. by apply npn_reach_sym.
  - by eapply npn_reach_trans.
Qed.

(** ** Simulated tables are tables of [k] inputs *)

Section BuildWf.
Context (k : nat).

Lemma tt_wf_bitop (op : Z → Z → Z) a b :
  (∀ x y, 0 ≤ x → 0 ≤ y → 0 ≤ op x y)%Z →
  (∀ x y n, Z.testbit x n = false → Z.testbit y n = false → Z.testbit (op x y) n = false) →
  tt_wf k a → tt_wf k b → tt_wf k (op a b).
Proof.
  intros Hnn Hbit [Ha0 Ha]%tt_wf_bits [Hb0 Hb]%tt_wf_bits. apply tt_wf_bits.
  split; [by apply Hnn|]. intros n Hn. apply Hbit; auto.
Qed.

Lemma tt_wf_land a b : tt_wf k a → tt_wf k b → tt_wf k (Z.land a b).
Proof.
  apply tt_wf_bitop; [intros; apply Z.land_nonneg; lia|].
  intros x y n Hx Hy. by rewrite Z.land_spec, Hx.
Qed.

Lemma tt_wf_lor a b : tt_wf k a → tt_wf k b → tt_wf k (Z.lor a b).
Proof.
  apply tt_wf_bitop; [intros; apply Z.lor_nonneg; lia|].
  intros x y n Hx Hy. by rewrite Z.lor_spec, Hx, Hy.
Qed.

Lemma tt_wf_lxor a b : tt_wf k a → tt_wf k b → tt_wf k (Z.lxor a b).
Proof.
  apply tt_wf_bitop; [intros; apply Z.lxor_nonneg; lia|].
  intros x y n Hx Hy. by rewrite Z.lxor_spec, Hx, Hy.
Qed.

Lemma tt_wf_zero : tt_wf k 0.
Proof. split; [lia|apply Z.pow_pos_nonneg; lia]. Qed.

Lemma tt_wf_foldl (op : Z → Z → Z) z args :
  (∀ a b, tt_wf k a → tt_wf k b → tt_wf k (op a b)) →
  tt_wf k z → Forall (tt_wf k) args → tt_wf k (foldl op z args).
Proof.
  intros Hop Hz Hargs. revert z Hz. induction Hargs as [|a args Ha _ IH]; intros z Hz; simpl; auto.
Qed.

Lemma gate_tt_wf f args t :
  Forall (tt_wf k) args → gate_tt k f args = Ok t → tt_wf k t.
Proof.
  intros Hargs Hg. pose proof (tt_from_wf k (λ _, true)) as Hm. fold (tt_mask k) in Hm.
  destruct f; simpl in Hg;
    repeat match type of Hg with
    | context [match ?l with _ => _ end] => is_var l; destruct l as [|? l]
    end; simplify_eq/=; repeat match goal with H : Forall _ (_ :: _) |- _ => inversion_clear H end;
    auto using tt_wf_zero, tt_wf_land, tt_wf_lor, tt_wf_lxor, tt_wf_foldl.
Qed.

Lemma tt_step_wf net env ids vals :
  map_Forall (λ _, tt_wf k) env →
  foldl (tt_step net k env) (Ok ∅) ids = Ok vals → map_Forall (λ _, tt_wf k) vals.
Proof.
  intros Henv. cut (∀ r, (∀ vs, r = Ok vs → map_Forall (λ _, tt_wf k) vs) →
    foldl (tt_step net k env) r ids = Ok vals → map_Forall (λ _, tt_wf k) vals).
  { intros H. apply H. intros vs [= <-]. apply map_Forall_empty. }
  induction ids as [|id ids IH]; intros r Hr Hrun; simpl in Hrun; [by apply Hr|].
  refine (IH _ _ Hrun). intros vs' Hvs'. destruct r as [vs| |]; simpl in Hvs'; try done.
  specialize (Hr vs eq_refl). unfold tt_step in Hvs'. simpl in Hvs'.
  destruct (env !! id) as [t|] eqn:Ht; inv_ok; apply map_Forall_insert_2; eauto.
  match goal with
  | Hg : gate_tt _ _ _ = Ok _, Hm : mapM _ _ = Ok _ |- _ =>
      eapply gate_tt_wf; [|exact Hg]; apply mapM_Ok in Hm
  end.
  eapply Forall2_Forall_r; [done|]. apply Forall_forall. intros u _ a Hu%of_option_Ok. by apply (Hr u).
Qed.
End BuildWf.

Lemma tt_wf_mono k k' t : k ≤ k' → tt_wf k t → tt_wf k' t.
Proof.
  intros Hk [H0 H1]. split; [done|]. eapply Z.lt_le_trans; [exact H1|].
  apply Z.pow_le_mono_r; [lia|]. apply inj_le, Nat.pow_le_mono_r; lia.
Qed.

(** A table that [build] returns is a table of its [k ≤ 6] inputs. *)
Lemma build_wf bg t :
  build bg = Ok t → length (inputBindings bg) ≤ 6 ∧ tt_wf (length (inputBindings bg)) t.
Proof.
  unfold build. case_bool_decide as H6; [done|]. intros Hb. split; [lia|].
  destruct (foldl _ _ _) as [vals| |] eqn:Hf; simpl in Hb; try done.
  apply tt_step_wf in Hf.
  - destruct (filter _ _) as [|o [|]]; try done. apply of_option_Ok in Hb. by apply (Hf o).
  - intros u v Hu. apply elem_of_list_to_map_2, elem_of_zip_r, list_elem_of_fmap in Hu as (i & -> & _).
    apply tt_from_wf.
Qed.

(** Two least elements of orbits are equal exactly when the orbits are
    the same. *)
Lemma least_keys k t t' c c' :
  tt_wf k t → tt_wf k t' → npn_reach k t c → (∀ y, npn_reach k t y → (c ≤ y)%Z) →
  npn_reach k t' c' → (∀ y, npn_reach k t' y → (c' ≤ y)%Z) →
  c = c' ↔ npn_reach k t t'.
Proof.
  intros Ht Ht' Hrc Hlc Hrc' Hlc'. split.
  - intros <-. eapply npn_reach_trans; [exact Hrc|]. by apply npn_reach_sym.
  - intros Htt'. apply (least_unique (npn_reach k t)); [done|done| |].
    + by apply (npn_reach_iff k t t').
    + intros y Hy. apply Hlc'. by apply (npn_reach_iff k t t').
Qed.

(** ** The contract of the canonization *)

(** The spec's contract of the NPN key: two [k]-input tables get
    equal keys exactly when they are NPN-equivalent (one is obtained from
    the other by negating inputs, permuting inputs and negating the
    output). *)
Lemma npn_class_equiv k t t' :
  tt_wf k t → tt_wf k t' →
  ∃ c c', npn_class k t = Ok c ∧ npn_class k t' = Ok c' ∧ (c = c' ↔ npn_reach k t t').
Proof.
  intros Ht Ht'.
  destruct (npn_class_least k t Ht) as (c & Hc & Hrc & Hlc).
  destruct (npn_class_least k t' Ht') as (c' & Hc' & Hrc' & Hlc').
  exists c, c'. split; [done|]. split; [done|]. by apply least_keys.
Qed.

(** Canonizing a canonical table returns it unchanged. *)
Lemma npn_class_idempotent k t :
  tt_wf k t → ∃ c, npn_class k t = Ok c ∧ npn_class k c = Ok c.
Proof.
  intros Ht. destruct (npn_class_least k t Ht) as (c & Hc & Hrc & Hlc).
  assert (Hwc : tt_wf k c) by (by eapply npn_reach_wf).
  destruct (npn_class_least k c Hwc) as (c2 & Hc2 & Hrc2 & Hlc2).
  exists c. split; [done|]. rewrite Hc2. f_equal.
  apply (least_unique (npn_reach k c)); [done|done|constructor|].
  intros y Hy. apply Hlc. by eapply npn_reach_trans.
Qed.

(** The constant functions share the key [0], whatever the number
    of inputs: the all-zero table is least, and the all-one table is its
    output negation. *)
Lemma npn_class_constants k :
  npn_class k 0 = Ok 0%Z ∧ npn_class k (tt_mask k) = Ok 0%Z.
Proof.
  assert (H0 : tt_wf k 0) by (split; [lia|apply Z.pow_pos_nonneg; lia]).
  assert (Hm : tt_wf k (tt_mask k)) by apply tt_from_wf.
  assert (Hleast : ∀ t, tt_wf k t → npn_reach k t 0 → npn_class k t = Ok 0%Z).
  { intros t Ht Ht0. destruct (npn_class_least k t Ht) as (c & -> & Hrc & Hlc). f_equal.
    pose proof (Hlc 0%Z Ht0). pose proof (proj1 (npn_reach_wf k t c Ht Hrc)). lia. }
  split; apply Hleast; try done; [constructor|].
  rewrite <- (Z.lxor_nilpotent (tt_mask k)).
  apply (nr_step k _ _ (λ t, Z.lxor (tt_mask k) t)); [constructor|left].
Qed.

(** [a AND b], [(NOT a) AND (NOT b)] and [a OR b] over two inputs. *)
Definition net_and2 : GNet := list_to_map [(1, ⟨IN; []⟩); (2, ⟨IN; []⟩); (3, ⟨AND; [1; 2]⟩)].
Definition net_andn2 : GNet :=
  list_to_map [(1, ⟨IN; []⟩); (2, ⟨IN; []⟩); (3, ⟨NOT; [1]⟩); (4, ⟨NOT; [2]⟩); (5, ⟨AND; [3; 4]⟩)].
Definition net_or2 : GNet := list_to_map [(1, ⟨IN; []⟩); (2, ⟨IN; []⟩); (3, ⟨OR; [1; 2]⟩)].

(** The spec's NPN grouping scenario: the cones [AND(i1, i2)] and
    [AND(NOT i1, NOT i2)] extracted over the cut [{i1, i2}] have the
    truth tables [8] and [1] and the same two-input key; so has
    [OR(i1, i2)].  As tables of six variables, the key the collector
    uses, the two ANDs still share the key [1]. *)
Example npn_grouping_scenario :
  (bg ← extractCone 100 100 net_and2 3 {[1; 2]} [1; 2]; build bg) = Ok 8%Z ∧
  (bg ← extractCone 100 100 net_andn2 5 {[1; 2]} [1; 2]; build bg) = Ok 1%Z ∧
  (bg ← extractCone 100 100 net_or2 3 {[1; 2]} [1; 2]; build bg) = Ok 14%Z ∧
  npn_class 2 8 = Ok 1%Z ∧ npn_class 2 1 = Ok 1%Z ∧ npn_class 2 14 = Ok 1%Z ∧
  npn_class 6 8 = Ok 1%Z ∧ npn_class 6 1 = Ok 1%Z.
Proof. repeat split; vm_compute; reflexivity. Qed.
