(* ===== verification/Npn.v ===== *)
(** * The NPN collector ([npn/npn_collector.cpp], [npn_collector.h])

    The collector enumerates the cuts of a net ([findCuts]), extracts
    the cone of every cut of exactly [cutSize] leaves whose effective cut
    is the whole cut, computes its truth table and NPN key, and records
    an [NPNStats] per gate ([gateStatsMap]) and per class
    ([npnStatistics]); [getEssentialCones] returns cones of the most
    frequent classes.  The key is computed by kitty's canonization of a
    6-variable table, reached through the interface [NPNCanonizer]; the
    theorems on the collector hold for every canonizer, and
    [NPNCanonizerLaws] states what the spec's canonization promises,
    discharged by [npn_class].  [process] is its collection
    ([process_collect]: [findCuts] and the loop over the storage) followed
    by its averaging loop ([process_averages]), whose means and
    deviations are primitive floats.  Heights are [option Z]: [None] is
    an [int] never written, and reading one ([calculateAverageAndDeviation])
    is undefined ([Undef]).  The printing is in [Reports.v]. *)

From Stdlib Require Import Floats.
From stdpp Require Import sorting.
From S2P Require Import Prelude Gnet Util Walker ConeVisitor CutStorage CutsFinder TruthTable.

(** ** The canonizer interface *)

(** [truthTableToNPN] on tables of [k] variables. *)
Class NPNCanonizer (k : nat) := npn_canon : Z → Result Z.

(** The spec's contract: defined on every table, equal keys exactly for
    NPN-equivalent tables. *)
Class NPNCanonizerLaws (k : nat) `{NPNCanonizer k} : Prop := {
  canon_defined : ∀ t, tt_wf k t → ∃ c, npn_canon t = Ok c;
  canon_keys : ∀ t t' c c', tt_wf k t → tt_wf k t' → npn_canon t = Ok c → npn_canon t' = Ok c' →
    (c = c' ↔ npn_reach k t t');
}.

(** The spec's canonization by orbit minimization. *)
#[export] Instance npn_class_canonizer k : NPNCanonizer k := npn_class k.

(** ** Records *)

(** [struct NPNStats] *)
Record NPNStats := mkStats {
  npnClass : Z;
  minHeight : option Z;
  maxHeight : option Z;
  stat_cut : Cut;
}.

(** [struct SumStruct]: the records of a class and the statistics of
    their heights. *)
Record SumStruct := mkSum {
  count : list NPNStats;
  maxHeightA : float;
  maxHeightD : float;
  minHeightA : float;
  minHeightD : float;
}.

(** [npnStatistics[key]] value-initializes a [SumStruct]: its default
    member initializers give [-1]. *)
Definition sum0 : SumStruct := mkSum [] (-1)%float (-1)%float (-1)%float (-1)%float.

(** [struct GateStats]; [gateStatsMap[gateId]] value-initializes it. *)
Record GateStats := mkGateStats {
  gs_gateId : GateId;
  numberOfCuts : nat;
  npnClassInfo : list NPNStats;
}.

Definition gate_stats0 : GateStats := mkGateStats 0 0 [].

(** The fields of [NPNCollector]. *)
Record Collector := mkCollector {
  collectHeight : bool;
  gateStatsMap : gmap GateId GateStats;
  npnStatistics : gmap Z SumStruct;
}.

(** The records of every class. *)
Definition class_records (c : Collector) : gmap Z (list NPNStats) := count <$> npnStatistics c.

(** [explicit NPNCollector(GNet *_net)]: [collectHeight = false]. *)
Definition collector0 : Collector := mkCollector false ∅ ∅.

(** [NPNCollector::addNPNStat] *)
Definition addNPNStat (gateId : GateId) (stat : NPNStats) (c : Collector) : Collector :=
  let gs := default gate_stats0 (gateStatsMap c !! gateId) in
  let gs' := mkGateStats (gs_gateId gs) (S (numberOfCuts gs)) (npnClassInfo gs ++ [stat]) in
  let data := default sum0 (npnStatistics c !! npnClass stat) in
  let data' := mkSum (count data ++ [stat]) (maxHeightA data) (maxHeightD data)
                 (minHeightA data) (minHeightD data) in
  mkCollector (collectHeight c) (<[gateId:=gs']> (gateStatsMap c))
    (<[npnClass stat := data']> (npnStatistics c)).

(** ** [calculateAverageAndDeviation] *)

(** [static_cast<double>] of an [int]: exact for the heights (far below
    [2^53]). *)
Definition int_to_double (z : Z) : float :=
  if (z <? 0)%Z then PrimFloat.opp (PrimFloat.of_uint63 (Uint63.of_Z (- z)))
  else PrimFloat.of_uint63 (Uint63.of_Z z).

(** Reading a height: [None] is an [int] never written, whose read is
    undefined. *)
Definition read_height (h : option Z) : Result float := x ← of_option h; Ok (int_to_double x).

(** The first loop: [sumMax += data.maxHeight; sumMin += data.minHeight]. *)
Definition add_heights (acc : float * float) (d : NPNStats) : Result (float * float) :=
  mx ← read_height (maxHeight d); mn ← read_height (minHeight d);
  Ok (PrimFloat.add acc.1 mx, PrimFloat.add acc.2 mn).

(** The second loop: [sq += (data.height - mean) * (data.height - mean)]. *)
Definition add_squares (meanMax meanMin : float) (acc : float * float) (d : NPNStats) :
    Result (float * float) :=
  mx ← read_height (maxHeight d); mn ← read_height (minHeight d);
  let y := PrimFloat.sub mx meanMax in let z := PrimFloat.sub mn meanMin in
  Ok (PrimFloat.add acc.1 (PrimFloat.mul y y), PrimFloat.add acc.2 (PrimFloat.mul z z)).

(** [calculateAverageAndDeviation(stats, sumStruct)]: [assert] on an
    empty list aborts; the means and standard deviations of both heights
    over [n = stats.size()] records. *)
Definition calculateAverageAndDeviation (stats : list NPNStats) (s : SumStruct) : Result SumStruct :=
  if bool_decide (stats = []) then Undef else
  let n := int_to_double (Z.of_nat (length stats)) in
  sums ← foldM add_heights (0%float, 0%float) stats;
  let meanMax := PrimFloat.div sums.1 n in
  let meanMin := PrimFloat.div sums.2 n in
  sq ← foldM (add_squares meanMax meanMin) (0%float, 0%float) stats;
  Ok (mkSum (count s) meanMax (PrimFloat.sqrt (PrimFloat.div sq.1 n))
        meanMin (PrimFloat.sqrt (PrimFloat.div sq.2 n))).

(** The body of the last loop of [process]: the class [npn] in place. *)
Definition average_entry (c : Collector) (p : Z * SumStruct) : Result Collector :=
  s' ← calculateAverageAndDeviation (count p.2) p.2;
  Ok (mkCollector (collectHeight c) (gateStatsMap c) (<[p.1 := s']> (npnStatistics c))).

(** The last loop of [process]: every class, in the iteration order of
    [npnStatistics]. *)
Definition process_averages (c : Collector) : Result Collector :=
  foldM average_entry c (map_to_list (npnStatistics c)).

(** The order of [getEssentialCones]: by decreasing count. *)
Definition by_count (a b : Z * SumStruct) : Prop := length (count b.2) ≤ length (count a.2).

#[export] Instance by_count_dec a b : Decision (by_count a b).
Proof. unfold by_count. apply _. Defined.

Section Collect.
Context `{NPNCanonizer 6} (net : GNet) (fuel base : nat).

(** [NPNCollector::truthTableToNPN] *)
Definition truthTableToNPN (table : Z) : Result Z := npn_canon table.

(** [NPNCollector::fillNPNStats]: [None] when the effective cut is
    smaller than the cut ([return false]).  The heights of the local
    [NPNStats npnStats] are only written when [collectHeight]. *)
Definition fillNPNStats (c : Collector) (cut : Cut) (gateId : GateId) : Result (option NPNStats) :=
  st ← cone_run net cut gateId fuel base;
  if bool_decide (size cut ≠ size (resultCutOldGates st)) then Ok None else
  hs ← (if collectHeight c then
          '(mx, mn) ← getHeights net fuel gateId cut; Ok (Some mx, Some mn)
        else Ok (None, None));
  binds ← mapM (λ g, of_option (newGates st !! g)) (elements (resultCutOldGates st));
  table ← build (mkBound (bnet (cnet st)) binds);
  key ← truthTableToNPN table;
  Ok (Some (mkStats key hs.2 hs.1 cut)).

(** The body of the inner loop of [process] for one cut. *)
Definition process_cut (cutSize : nat) (gateId : GateId) (c : Collector) (cut : Cut) :
    Result Collector :=
  if bool_decide (size cut ≠ cutSize) then Ok c else
  r ← fillNPNStats c cut gateId;
  match r with
  | Some stat => Ok (addNPNStat gateId stat c)
  | None => Ok c
  end.

(** The loop of [process] over the storage, in its iteration order
    [map_to_list]. *)
Definition process_storage (cutSize : nat) (storage : CutStorage) (c : Collector) : Result Collector :=
  foldM (λ c '(gateId, cs), foldM (process_cut cutSize gateId) c cs) c (map_to_list storage).

(** The first part of [NPNCollector::process(cutSize, maxCutsNumber)]:
    [findCuts] (new algorithm) for the topological order [topo], then
    the loop over the storage. *)
Definition process_collect (topo : list GateId) (cutSize maxCutsNumber : nat) (c : Collector) :
    Result Collector :=
  storage ← findCuts {| cutSize := cutSize; maxCutNum := maxCutsNumber |} net false topo;
  process_storage cutSize storage c.

(** [NPNCollector::process(cutSize, maxCutsNumber)]: the collection, then
    the averaging loop. *)
Definition process (topo : list GateId) (cutSize maxCutsNumber : nat) (c : Collector) :
    Result Collector :=
  c' ← process_collect topo cutSize maxCutsNumber c;
  process_averages c'.

(** The body of the inner loop of [getEssentialCones], on the record
    [stat] of gate [gate]: a cone is extracted for a selected class that
    has fewer than [conesNumber] cones. *)
Definition add_cone (conesNumber : Z) (gate : GateId) (rez : gmap Z (list GNet)) (stat : NPNStats) :
    Result (gmap Z (list GNet)) :=
  match rez !! npnClass stat with
  | Some cones =>
      if bool_decide (Z.of_nat (length cones) < conesNumber)%Z then
        bg ← extractCone fuel base net gate (stat_cut stat) (elements (stat_cut stat));
        Ok (<[npnClass stat := cones ++ [bg_net bg]]> rez)
      else Ok rez
  | None => Ok rez
  end.

(** [NPNCollector::getEssentialCones(topNumber, conesNumber)]:
    [std::partial_sort] of the classes by decreasing count (one
    admissible order: a stable sort of the iteration order), the first
    [topNumber] classes, then up to [conesNumber] cones per class in the
    iteration order of [gateStatsMap].  A negative [topNumber] moves
    [begin()] backwards: undefined. *)
Definition getEssentialCones (c : Collector) (topNumber conesNumber : Z) :
    Result (gmap Z (list GNet)) :=
  let top := Z.min topNumber (Z.of_nat (size (npnStatistics c))) in
  if bool_decide (top < 0)%Z then Undef else
  let popular := merge_sort by_count (map_to_list (npnStatistics c)) in
  let rez0 : gmap Z (list GNet) := list_to_map ((λ p, (p.1, [])) <$> take (Z.to_nat top) popular) in
  foldM (λ rez '(gate, gs),
      foldM (add_cone conesNumber gate) rez (npnClassInfo gs))
    rez0 (map_to_list (gateStatsMap c)).
End Collect.

(** ** The collector's bookkeeping *)

(** Every gate's cut count is the number of its records and its
    [gateId] field is the value-initialized [0]; every class holds a
    non-empty list of records of that class; the two tables count the
    same records. *)
Definition stats_ok (c : Collector) : Prop :=
  map_Forall (λ _ gs, numberOfCuts gs = length (npnClassInfo gs) ∧ gs_gateId gs = 0) (gateStatsMap c) ∧
  map_Forall (λ k l, l ≠ [] ∧ Forall (λ r, npnClass r = k) l) (class_records c) ∧
  map_sum numberOfCuts (gateStatsMap c) = map_sum length (class_records c).

Lemma class_records_add g r c :
  class_records (addNPNStat g r c) =
  <[npnClass r := default [] (class_records c !! npnClass r) ++ [r]]> (class_records c).
Proof.
  unfold class_records, addNPNStat; simpl. rewrite fmap_insert. f_equal.
  rewrite lookup_fmap. by destruct (npnStatistics c !! npnClass r).
Qed.

Lemma gateStats_add g r c :
  gateStatsMap (addNPNStat g r c) =
  <[g := mkGateStats (gs_gateId (default gate_stats0 (gateStatsMap c !! g)))
           (S (numberOfCuts (default gate_stats0 (gateStatsMap c !! g))))
           (npnClassInfo (default gate_stats0 (gateStatsMap c !! g)) ++ [r])]> (gateStatsMap c).
Proof. reflexivity. Qed.

Lemma stats_ok_init : stats_ok collector0.
Proof.
  unfold stats_ok, class_records; simpl. rewrite fmap_empty.
  split; [apply map_Forall_empty|]. split; [apply map_Forall_empty|]. by rewrite !map_sum_empty.
Qed.

Lemma addNPNStat_ok g r c : stats_ok c → stats_ok (addNPNStat g r c).
Proof.
  intros (Hg & Hk & Hsum). split; [|split]; rewrite ?class_records_add, ?gateStats_add.
  - apply map_Forall_insert_2; [|done]. simpl.
    destruct (gateStatsMap c !! g) as [gs|] eqn:E; simpl; [|done].
    destruct (Hg g gs E) as [-> ->]. rewrite length_app. simpl. lia.
  - apply map_Forall_insert_2; [|done].
    split; [by destruct (default _ _)|]. apply Forall_app. split; [|by constructor].
    destruct (class_records c !! npnClass r) as [l|] eqn:E; simpl; [|done]. by apply (Hk _ _ E).
  - pose proof (map_sum_insert numberOfCuts (gateStatsMap c) g
      (mkGateStats (gs_gateId (default gate_stats0 (gateStatsMap c !! g)))
         (S (numberOfCuts (default gate_stats0 (gateStatsMap c !! g))))
         (npnClassInfo (default gate_stats0 (gateStatsMap c !! g)) ++ [r]))) as H1.
    pose proof (map_sum_insert length (class_records c) (npnClass r)
      (default [] (class_records c !! npnClass r) ++ [r])) as H2.
    destruct (gateStatsMap c !! g), (class_records c !! npnClass r); simpl in *;
      rewrite ?length_app in H2; simpl in *; lia.
Qed.

Section CollectFacts.
Context `{NPNCanonizer 6} (net : GNet) (fuel base : nat).

Lemma process_cut_inv (P : Collector → Prop) K g c cut c' :
  (∀ c r, P c → fillNPNStats net fuel base c cut g = Ok (Some r) → P (addNPNStat g r c)) →
  P c → process_cut net fuel base K g c cut = Ok c' → P c'.
Proof.
  intros Hadd Hc. unfold process_cut. case_bool_decide; [by intros [= <-]|].
  destruct (fillNPNStats net fuel base c cut g) as [[r|]| |] eqn:E; simpl; try done;
    intros [= <-]; eauto.
Qed.

Lemma calculateAverageAndDeviation_count stats s s' :
  calculateAverageAndDeviation stats s = Ok s' → count s' = count s.
Proof. unfold calculateAverageAndDeviation. case_bool_decide; [done|]. intros Hc. by inv_ok. Qed.

(** A step of the last loop replaces one class by its statistics and
    keeps the records. *)
Lemma average_entry_step c x p x' :
  p ∈ map_to_list (npnStatistics c) → class_records x = class_records c →
  average_entry x p = Ok x' →
  gateStatsMap x' = gateStatsMap x ∧ collectHeight x' = collectHeight x ∧
  class_records x' = class_records c ∧
  ∃ s', calculateAverageAndDeviation (count p.2) p.2 = Ok s' ∧
    npnStatistics x' = <[p.1 := s']> (npnStatistics x).
Proof.
  destruct p as [k s]. intros Hin H3 Hs. unfold average_entry in Hs; simpl in Hs.
  destruct (calculateAverageAndDeviation _ _) as [s'| |] eqn:Hc; simpl in Hs; try done.
  injection Hs as <-. simpl. split_and!; [done|done| |by eauto].
  apply calculateAverageAndDeviation_count in Hc. unfold class_records in *; simpl.
  rewrite fmap_insert, H3. apply elem_of_map_to_list in Hin.
  apply insert_id. rewrite lookup_fmap, Hin. simpl. congruence.
Qed.

(** The last loop of [process] changes only the statistics of heights. *)
Lemma process_averages_keeps c c' :
  process_averages c = Ok c' →
  gateStatsMap c' = gateStatsMap c ∧ collectHeight c' = collectHeight c ∧ class_records c' = class_records c.
Proof.
  unfold process_averages. intros Hrun.
  refine (foldM_inv (λ x, gateStatsMap x = gateStatsMap c ∧ collectHeight x = collectHeight c ∧
    class_records x = class_records c) _ c _ c' _ _ Hrun); [|done].
  intros x p x' (H1 & H2 & H3) Hin Hs.
  destruct (average_entry_step c x p x' Hin H3 Hs) as (H1' & H2' & H3' & _). split_and!; congruence.
Qed.

(** An invariant kept by every recorded statistic holds after the loop
    over the storage; the hypothesis may use that the cut is a cut of
    the gate in the storage. *)
Lemma process_storage_inv (P : Collector → Prop) K storage c c' :
  (∀ g cs cut c r, storage !! g = Some cs → cut ∈ cs → size cut = K → P c →
     fillNPNStats net fuel base c cut g = Ok (Some r) → P (addNPNStat g r c)) →
  P c → process_storage net fuel base K storage c = Ok c' → P c'.
Proof.
  intros Hadd Hc. unfold process_storage.
  apply foldM_inv; [|done]. intros c2 [g cs] c3 Hc2 Hin Hrun.
  apply elem_of_map_to_list in Hin.
  refine (foldM_inv P _ c2 cs c3 _ Hc2 Hrun). intros c4 cut c5 Hc4 Hcut Hstep.
  unfold process_cut in Hstep. case_bool_decide as Hsz; [by injection Hstep as <-|].
  destruct (fillNPNStats net fuel base c4 cut g) as [[r|]| |] eqn:E; simpl in Hstep; try done;
    injection Hstep as <-; [|done].
  eapply Hadd; eauto.
Qed.

(** An invariant of the collector kept by every recorded statistic
    holds after the collection of [process]; the hypothesis may use that
    the cut is a cut of the gate in the storage of [findCuts]. *)
Lemma process_collect_inv (P : Collector → Prop) topo K M c c' :
  (∀ storage g cs cut c r,
     findCuts {| cutSize := K; maxCutNum := M |} net false topo = Ok storage →
     storage !! g = Some cs → cut ∈ cs → size cut = K → P c →
     fillNPNStats net fuel base c cut g = Ok (Some r) → P (addNPNStat g r c)) →
  P c → process_collect net fuel base topo K M c = Ok c' → P c'.
Proof.
  intros Hadd Hc. unfold process_collect.
  destruct (findCuts _ net false topo) as [storage| |] eqn:Hf; simpl; try done.
  apply (process_storage_inv P K storage c c'); [intros; eauto|done].
Qed.
End CollectFacts.

Section Records.
Context `{NPNCanonizer 6} (net : GNet) (fuel base : nat).

(** The truth table of the cone of [g] over [cut], as [fillNPNStats]
    computes it. *)
Definition cone_table (g : GateId) (cut : Cut) : Result Z :=
  st ← cone_run net cut g fuel base;
  binds ← mapM (λ u, of_option (newGates st !! u)) (elements (resultCutOldGates st));
  build (mkBound (bnet (cnet st)) binds).

(** What a record of gate [g] satisfies after [process] with cut size
    [K]: its cut has [K] leaves and is a good cut of [g], the cone
    extracted over it keeps the whole cut, its key is the canonization
    of the cone's table, and its heights were never written. *)
Definition record_ok (K : nat) (g : GateId) (r : NPNStats) : Prop :=
  size (stat_cut r) = K ∧ good_cut net g (stat_cut r) ∧
  minHeight r = None ∧ maxHeight r = None ∧
  (∃ st, cone_run net (stat_cut r) g fuel base = Ok st ∧ resultCutOldGates st = stat_cut r) ∧
  ∃ t, cone_table g (stat_cut r) = Ok t ∧ npn_canon t = Ok (npnClass r).

(** Every record of either table is a record of some gate. *)
Definition records_ok (K : nat) (c : Collector) : Prop :=
  collectHeight c = false ∧
  (∀ g gs r, gateStatsMap c !! g = Some gs → r ∈ npnClassInfo gs → record_ok K g r) ∧
  (∀ key l r, class_records c !! key = Some l → r ∈ l → ∃ g, record_ok K g r).

Lemma records_ok_init K : records_ok K collector0.
Proof.
  split; [done|]. split; intros ??? Hl; [simpl in Hl|unfold class_records in Hl; simpl in Hl];
    by rewrite ?lookup_fmap, lookup_empty in Hl.
Qed.

Lemma fillNPNStats_ok K c cut g r :
  collectHeight c = false → size cut = K → good_cut net g cut →
  fillNPNStats net fuel base c cut g = Ok (Some r) → record_ok K g r.
Proof.
  intros Hch Hsz Hgood Hf. unfold fillNPNStats in Hf.
  destruct (cone_run net cut g fuel base) as [st| |] eqn:Hst; simpl in Hf; try done.
  case_bool_decide as Hsize; [done|]. rewrite Hch in Hf. simpl in Hf.
  assert (Hrc : resultCutOldGates st = cut).
  { apply set_subseteq_size_eq; [apply (cone_run_ok _ _ _ _ _ _ Hst)|]. lia. }
  destruct (mapM _ _) as [binds| |] eqn:Hb; simpl in Hf; try done.
  destruct (build _) as [t| |] eqn:Ht; simpl in Hf; try done.
  unfold truthTableToNPN in Hf.
  destruct (npn_canon t) as [key| |] eqn:Hk; simpl in Hf; try done. injection Hf as <-.
  split_and!; simpl; try done; [by exists st|]. exists t. split; [|done].
  unfold cone_table. rewrite Hst. simpl. by rewrite Hb.
Qed.

Lemma addNPNStat_records K c g r :
  records_ok K c → record_ok K g r → records_ok K (addNPNStat g r c).
Proof.
  intros (Hch & Hrec & Hcls) Hr. split; [done|]. split.
  - intros g' gs r' Hg' Hr'. simpl in Hg'. destruct (decide (g' = g)) as [->|Hne].
    + rewrite lookup_insert_eq in Hg'. injection Hg' as <-. simpl in Hr'.
      apply elem_of_app in Hr' as [Hr'|Hr']; [|by apply list_elem_of_singleton in Hr' as ->].
      destruct (gateStatsMap c !! g) as [gs0|] eqn:E; simpl in Hr'; [by eapply Hrec|set_solver].
    + rewrite lookup_insert_ne in Hg' by done. by eapply Hrec.
  - intros key l r' Hl Hr'. rewrite class_records_add in Hl. destruct (decide (key = npnClass r)) as [->|Hne].
    + rewrite lookup_insert_eq in Hl. injection Hl as <-.
      apply elem_of_app in Hr' as [Hr'|Hr']; [|apply list_elem_of_singleton in Hr' as ->; eauto].
      destruct (class_records c !! npnClass r) as [l0|] eqn:E; simpl in Hr'; [by eapply Hcls|set_solver].
    + rewrite lookup_insert_ne in Hl by done. by eapply Hcls.
Qed.

(** The table of a cone is a table of at most six inputs. *)
Lemma cone_table_wf g cut t : cone_table g cut = Ok t → tt_wf 6 t.
Proof.
  unfold cone_table. intros Ht. inv_ok.
  match goal with Hb : build _ = Ok _ |- _ => apply build_wf in Hb as [H6 Hw] end.
  by eapply tt_wf_mono.
Qed.
End Records.

(** ** The ranking of [getEssentialCones] *)

#[export] Instance by_count_trans : Transitive by_count.
Proof. intros a b c. unfold by_count. lia. Qed.

#[export] Instance by_count_total : Total by_count.
Proof. intros a b. unfold by_count. lia. Qed.

Section Essential.
Context (net : GNet) (fuel base : nat).

(** The selected classes keep their keys and never get more than
    [conesNumber] cones. *)
Definition rez_ok (D : gset Z) (cn : Z) (rez : gmap Z (list GNet)) : Prop :=
  dom rez = D ∧ ∀ k cones, rez !! k = Some cones → (Z.of_nat (length cones) ≤ Z.max 0 cn)%Z.

Lemma essential_step D cn gate rez stat rez' :
  rez_ok D cn rez → add_cone net fuel base cn gate rez stat = Ok rez' → rez_ok D cn rez'.
Proof.
  intros [Hdom Hlen]. unfold add_cone. destruct (rez !! npnClass stat) as [cones|] eqn:E; [|by intros [= <-]].
  case_bool_decide as Hlt; [|by intros [= <-]].
  destruct (extractCone _ _ _ _ _ _) as [bg| |]; simpl; try done. intros [= <-]. split.
  - rewrite dom_insert_L, <- Hdom. apply elem_of_dom_2 in E. set_solver.
  - intros k cs Hk. destruct (decide (k = npnClass stat)) as [->|Hne].
    + rewrite lookup_insert_eq in Hk. injection Hk as <-. rewrite length_app. simpl. lia.
    + rewrite lookup_insert_ne in Hk by done. by apply (Hlen k).
Qed.

Lemma take_keys_ranked (popular : list (Z * SumStruct)) n x y :
  StronglySorted by_count popular → x ∈ take n popular → y ∈ popular → y.1 ∉ (take n popular).*1 →
  length (count y.2) ≤ length (count x.2).
Proof.
  intros Hs Hx Hy Hny. rewrite <- (take_drop n popular) in Hs, Hy.
  apply elem_of_app in Hy as [Hy|Hy].
  - exfalso. apply Hny. apply list_elem_of_fmap. eauto.
  - exact (StronglySorted_app_1_elem_of _ _ _ _ _ Hs Hx Hy).
Qed.

Lemma essential_fold_ok D cn rez0 gates rez :
  rez_ok D cn rez0 →
  foldM (λ rez '(gate, gs), foldM (add_cone net fuel base cn gate) rez (npnClassInfo gs)) rez0 gates = Ok rez →
  rez_ok D cn rez.
Proof.
  intros H0 Hrun. eapply foldM_inv; [|exact H0|exact Hrun].
  intros r [g gs] r' Hr _ Hin. simpl in Hin. eapply foldM_inv; [|exact Hr|exact Hin].
  intros r1 stat r2 Hr1 _ Hst. exact (essential_step D cn g r1 stat r2 Hr1 Hst).
Qed.

Lemma popular_facts (stats : gmap Z SumStruct) :
  let popular := merge_sort by_count (map_to_list stats) in
  StronglySorted by_count popular ∧ NoDup popular.*1 ∧ length popular = size stats ∧
  ∀ x, x ∈ popular ↔ stats !! x.1 = Some x.2.
Proof.
  intros popular. assert (Hp : popular ≡ₚ map_to_list stats) by apply merge_sort_Permutation.
  split_and!.
  - apply StronglySorted_merge_sort; apply _.
  - rewrite Hp. apply NoDup_fst_map_to_list.
  - by rewrite Hp, length_map_to_list.
  - intros [k l]. by rewrite Hp, elem_of_map_to_list.
Qed.
(** Every cone of class [k] is the cone extracted over the cut of a
    record of class [k] of some gate. *)
Definition cones_sound (c : Collector) (rez : gmap Z (list GNet)) : Prop :=
  ∀ k cones g, rez !! k = Some cones → g ∈ cones →
  ∃ gate gs stat bg, gateStatsMap c !! gate = Some gs ∧ stat ∈ npnClassInfo gs ∧ npnClass stat = k ∧
    extractCone fuel base net gate (stat_cut stat) (elements (stat_cut stat)) = Ok bg ∧ bg_net bg = g.

Lemma add_cone_sound c cn gate gs rez stat rez' :
  gateStatsMap c !! gate = Some gs → stat ∈ npnClassInfo gs →
  cones_sound c rez → add_cone net fuel base cn gate rez stat = Ok rez' → cones_sound c rez'.
Proof.
  intros Hg Hs Hrez. unfold add_cone. destruct (rez !! npnClass stat) as [cones|] eqn:E; [|by intros [= <-]].
  case_bool_decide; [|by intros [= <-]].
  destruct (extractCone _ _ _ _ _ _) as [bg| |] eqn:Hbg; simpl; try done. intros [= <-].
  intros k cs g Hk Hin. destruct (decide (k = npnClass stat)) as [->|Hne].
  - rewrite lookup_insert_eq in Hk. injection Hk as <-.
    apply elem_of_app in Hin as [Hin|Hin%list_elem_of_singleton]; [by apply (Hrez _ cones)|].
    subst g. by exists gate, gs, stat, bg.
  - rewrite lookup_insert_ne in Hk by done. by apply (Hrez k cs).
Qed.
End Essential.

(** ** The spec's canonization satisfies the contract *)

#[export] Instance npn_class_laws k : NPNCanonizerLaws k.
Proof.
  split.
  - intros t Ht. destruct (npn_class_least k t Ht) as (c & Hc & _). eauto.
  - intros t t' c c' Ht Ht' Hc Hc'.
    destruct (npn_class_least k t Ht) as (c1 & Hc1 & Hr1 & Hl1).
    destruct (npn_class_least k t' Ht') as (c2 & Hc2 & Hr2 & Hl2).
    unfold npn_canon, npn_class_canonizer in Hc, Hc'. rewrite Hc1 in Hc. rewrite Hc2 in Hc'.
    simplify_eq. by apply least_keys.
Qed.

(** The records of [process] come from the cut sets of the storage of
    [findCuts], which are good cuts. *)
Lemma process_records_step `{NPNCanonizer 6} net fuel base topo K M storage g cs cut c r :
  wf_not net →
  findCuts {| cutSize := K; maxCutNum := M |} net false topo = Ok storage →
  storage !! g = Some cs → cut ∈ cs → size cut = K → records_ok net fuel base K c →
  fillNPNStats net fuel base c cut g = Ok (Some r) → records_ok net fuel base K (addNPNStat g r c).
Proof.
  intros Hwf Hf Hg Hcut Hsz Hc Hfill. apply addNPNStat_records; [done|].
  eapply fillNPNStats_ok; [apply Hc|done| |exact Hfill].
  assert (Hst : storage_ok {| cutSize := K; maxCutNum := M |} net storage).
  { unfold findCuts, walk_topo in Hf.
    eapply (walk_nodes_inv _ (storage_ok _ net)); [|intros ?? Hl; by rewrite lookup_empty in Hl|exact Hf].
    intros n s flag s'. by apply visitor_step_ok. }
  destruct (Hst g cs Hg) as (_ & _ & _ & Hall). by apply (Hall cut Hcut).
Qed.

(** ** Completeness of [process] *)

Section Complete.
Context `{NPNCanonizer 6} (net : GNet) (fuel base : nat).

(** [r] is among the records of gate [g]. *)
Definition recorded (g : GateId) (r : NPNStats) (c : Collector) : Prop :=
  ∃ gs, gateStatsMap c !! g = Some gs ∧ r ∈ npnClassInfo gs.

Lemma fillNPNStats_height c c' cut g :
  collectHeight c = collectHeight c' → fillNPNStats net fuel base c cut g = fillNPNStats net fuel base c' cut g.
Proof. intros E. unfold fillNPNStats. by rewrite E. Qed.

Lemma addNPNStat_recorded g r g' r' c : recorded g r c → recorded g r (addNPNStat g' r' c).
Proof.
  intros (gs & Hgs & Hr). unfold recorded, addNPNStat; simpl. destruct (decide (g = g')) as [->|Hne].
  - rewrite lookup_insert_eq, Hgs. eexists. split; [done|]. simpl. set_solver.
  - rewrite lookup_insert_ne by done. eauto.
Qed.

(** A step of the inner loop keeps [collectHeight] and every record. *)
Lemma process_cut_keeps K g r g' c cut c' :
  process_cut net fuel base K g' c cut = Ok c' →
  collectHeight c' = collectHeight c ∧ (recorded g r c → recorded g r c').
Proof.
  unfold process_cut. case_bool_decide; [by intros [= <-]|].
  destruct (fillNPNStats _ _ _ _ _ _) as [[r'|]| |]; simpl; try done; intros [= <-];
    [split; [done|apply addNPNStat_recorded]|done].
Qed.

Lemma inner_keeps K g r g' c cs c' :
  foldM (process_cut net fuel base K g') c cs = Ok c' →
  collectHeight c' = collectHeight c ∧ (recorded g r c → recorded g r c').
Proof.
  intros Hrun. refine (foldM_inv (λ x, collectHeight x = collectHeight c ∧ (recorded g r c → recorded g r x))
    _ c cs c' _ _ Hrun); [|done].
  intros a cut a' [Ha HQ] _ Hs. destruct (process_cut_keeps K g r g' a cut a' Hs) as [Ha' HQ'].
  split; [congruence|auto].
Qed.
End Complete.

(** ** The statistics of heights *)

(** Records whose heights were never written. *)
Definition heights_none (l : list NPNStats) : Prop :=
  Forall (λ r, minHeight r = None ∧ maxHeight r = None) l.

(** A record whose heights were both written. *)
Definition written (r : NPNStats) : Prop := is_Some (maxHeight r) ∧ is_Some (minHeight r).

Lemma add_heights_ok acc d : (∃ a, add_heights acc d = Ok a) ↔ written d.
Proof.
  unfold add_heights, read_height, written.
  destruct (maxHeight d), (minHeight d); simpl; split; try naive_solver;
    intros [? [=]]; by intros [[? [=]] [? [=]]].
Qed.

Lemma add_squares_ok mM mm acc d : (∃ a, add_squares mM mm acc d = Ok a) ↔ written d.
Proof.
  unfold add_squares, read_height, written.
  destruct (maxHeight d), (minHeight d); simpl; split; try naive_solver;
    intros [? [=]]; by intros [[? [=]] [? [=]]].
Qed.

(** [calculateAverageAndDeviation] over records whose heights were
    never written is undefined. *)
Lemma calculateAverageAndDeviation_undef stats s :
  stats ≠ [] → heights_none stats → calculateAverageAndDeviation stats s = Undef.
Proof.
  intros Hne Hl. destruct stats as [|d l]; [done|]. apply Forall_cons in Hl as [[Hmn Hmx] _].
  unfold calculateAverageAndDeviation, add_heights, read_height. simpl. by rewrite Hmx.
Qed.

Lemma fillNPNStats_heights `{NPNCanonizer 6} net fuel base c cut g r :
  collectHeight c = false → fillNPNStats net fuel base c cut g = Ok (Some r) →
  minHeight r = None ∧ maxHeight r = None.
Proof.
  intros Hch Hf. unfold fillNPNStats in Hf.
  destruct (cone_run net cut g fuel base) as [st| |]; simpl in Hf; try done.
  case_bool_decide; [done|]. rewrite Hch in Hf. simpl in Hf. inv_ok. done.
Qed.

(** Before the last loop every class holds records whose heights were
    never written. *)
Definition heights_inv (c : Collector) : Prop :=
  collectHeight c = false ∧ map_Forall (λ _ l, l ≠ [] ∧ heights_none l) (class_records c).

Lemma heights_inv_add `{NPNCanonizer 6} net fuel base c cut g r :
  heights_inv c → fillNPNStats net fuel base c cut g = Ok (Some r) → heights_inv (addNPNStat g r c).
Proof.
  intros [Hch Hl] Hf. destruct (fillNPNStats_heights net fuel base c cut g r Hch Hf) as [Hmn Hmx].
  split; [done|]. rewrite class_records_add. apply map_Forall_insert_2; [|done].
  split; [by destruct (default _ _)|]. apply Forall_app. split; [|by constructor].
  destruct (class_records c !! npnClass r) as [l|] eqn:E; simpl; [|done]. by apply (Hl _ _ E).
Qed.

(** The averaging loop of [process] after its collection: the
    collector itself when no class was recorded, undefined otherwise. *)
Lemma process_averages_collect `{NPNCanonizer 6} net fuel base topo K M c :
  process_collect net fuel base topo K M collector0 = Ok c →
  process net fuel base topo K M collector0 = if bool_decide (npnStatistics c = ∅) then Ok c else Undef.
Proof.
  intros Hc. assert (Hinv : heights_inv c).
  { refine (process_collect_inv net fuel base heights_inv topo K M collector0 c _ _ Hc).
    - intros. by eapply heights_inv_add.
    - split; [done|]. unfold class_records; simpl. rewrite fmap_empty. apply map_Forall_empty. }
  unfold process. rewrite Hc. simpl. unfold process_averages.
  case_bool_decide as He; [by rewrite He, map_to_list_empty|].
  destruct (map_to_list (npnStatistics c)) as [|[k s] ps] eqn:E; [by apply map_to_list_empty_iff in E|].
  assert (Hk : npnStatistics c !! k = Some s) by (apply elem_of_map_to_list; rewrite E; by left).
  destruct (proj2 Hinv k (count s)) as [Hne Hl]; [unfold class_records; by rewrite lookup_fmap, Hk|].
  simpl. unfold average_entry. simpl. by rewrite calculateAverageAndDeviation_undef.
Qed.

(** ** Properties *)

(** C9. The key function of the collector keeps the spec's contract on
    six-variable tables: two tables get equal keys exactly when they are
    NPN-equivalent. *)
Theorem truthTableToNPN_keys t t' :
  tt_wf 6 t → tt_wf 6 t' →
  ∃ c c', truthTableToNPN t = Ok c ∧ truthTableToNPN t' = Ok c' ∧ (c = c' ↔ npn_reach 6 t t').
Proof. intros Ht Ht'. unfold truthTableToNPN, npn_canon, npn_class_canonizer. by apply npn_class_equiv. Qed.

(** Round trip of the key: the key of a key is the key itself, so
    keys are stable representatives. *)
Theorem truthTableToNPN_idempotent t :
  tt_wf 6 t → ∃ c, truthTableToNPN t = Ok c ∧ truthTableToNPN c = Ok c.
Proof. intros Ht. unfold truthTableToNPN, npn_canon, npn_class_canonizer. by apply npn_class_idempotent. Qed.

(** Both constant tables get the key [0]. *)
Theorem truthTableToNPN_constants :
  truthTableToNPN 0 = Ok 0%Z ∧ truthTableToNPN (tt_mask 6) = Ok 0%Z.
Proof. unfold truthTableToNPN, npn_canon, npn_class_canonizer. apply npn_class_constants. Qed.

(** C26. Liveness of the collection: every cut of exactly [cutSize]
    leaves in the storage of [findCuts] whose cone keeps the whole cut
    and gets a key is recorded for its gate by the collection of
    [process]. *)
Theorem process_complete `{NPNCanonizer 6} net fuel base topo K M c storage g cs cut r :
  findCuts {| cutSize := K; maxCutNum := M |} net false topo = Ok storage →
  storage !! g = Some cs → cut ∈ cs → size cut = K →
  fillNPNStats net fuel base collector0 cut g = Ok (Some r) →
  process_collect net fuel base topo K M collector0 = Ok c →
  ∃ gs, gateStatsMap c !! g = Some gs ∧ r ∈ npnClassInfo gs.
Proof.
  intros Hf Hg Hcut Hsz Hfill Hst. unfold process_collect in Hst. rewrite Hf in Hst. simpl in Hst.
  unfold process_storage in Hst.
  refine (foldM_eventually (λ x, collectHeight x = false) (recorded g r) _ _ _ _ (g, cs)
    _ _ _ _ _ Hst); [by apply elem_of_map_to_list| | | |done].
  - intros a [g' cs'] a' Ha _ Hs. by rewrite (proj1 (inner_keeps net fuel base K g r g' a cs' a' Hs)).
  - intros a a' Ha Hs.
    refine (foldM_eventually (λ x, collectHeight x = false) (recorded g r) _ _ _ _ cut
      _ _ _ _ Ha Hs); [done| | |].
    + intros x cut' x' Hx _ Hs'. by rewrite (proj1 (process_cut_keeps net fuel base K g r g x cut' x' Hs')).
    + intros x x' Hx Hs'. unfold process_cut in Hs'. rewrite bool_decide_eq_false_2 in Hs' by lia.
      rewrite (fillNPNStats_height net fuel base x collector0) in Hs' by done. rewrite Hfill in Hs'.
      simpl in Hs'. injection Hs' as <-. unfold recorded, addNPNStat; simpl.
      rewrite lookup_insert_eq. eexists. split; [done|]. simpl. set_solver.
    + intros x cut' x' _ HQ _ Hs'. exact (proj2 (process_cut_keeps net fuel base K g r g x cut' x' Hs') HQ).
  - intros a [g' cs'] a' _ HQ _ Hs. exact (proj2 (inner_keeps net fuel base K g r g' a cs' a' Hs) HQ).
Qed.

(** C8. The collection of [process] groups cones by NPN class: for a
    canonizer that keeps the spec's contract, two records of the
    per-class table are
    records of good cuts whose cone tables are NPN-equivalent (as tables
    of six variables) exactly when the records are under the same key. *)
Theorem process_classes_npn `{NPNCanonizerLaws 6} net fuel base topo K M c key1 key2 l1 l2 r1 r2 :
  wf_not net → process_collect net fuel base topo K M collector0 = Ok c →
  class_records c !! key1 = Some l1 → class_records c !! key2 = Some l2 → r1 ∈ l1 → r2 ∈ l2 →
  ∃ g1 g2 t1 t2, good_cut net g1 (stat_cut r1) ∧ good_cut net g2 (stat_cut r2) ∧
    cone_table net fuel base g1 (stat_cut r1) = Ok t1 ∧
    cone_table net fuel base g2 (stat_cut r2) = Ok t2 ∧
    (key1 = key2 ↔ npn_reach 6 t1 t2).
Proof.
  intros Hwf Hrun Hl1 Hl2 Hr1 Hr2.
  assert (Hrec : records_ok net fuel base K c).
  { eapply (process_collect_inv net fuel base); [|apply records_ok_init|exact Hrun].
    intros. by eapply process_records_step. }
  assert (Hs : stats_ok c).
  { eapply (process_collect_inv net fuel base); [|apply stats_ok_init|exact Hrun].
    intros. by apply addNPNStat_ok. }
  destruct Hrec as (_ & _ & Hcls). destruct Hs as (_ & Hk & _).
  destruct (Hcls _ _ _ Hl1 Hr1) as (g1 & _ & Hg1 & _ & _ & _ & t1 & Ht1 & Hc1).
  destruct (Hcls _ _ _ Hl2 Hr2) as (g2 & _ & Hg2 & _ & _ & _ & t2 & Ht2 & Hc2).
  assert (Hk1 : npnClass r1 = key1) by exact (proj1 (Forall_forall _ _) (proj2 (Hk _ _ Hl1)) r1 Hr1).
  assert (Hk2 : npnClass r2 = key2) by exact (proj1 (Forall_forall _ _) (proj2 (Hk _ _ Hl2)) r2 Hr2).
  exists g1, g2, t1, t2. split_and!; try done. subst key1 key2.
  apply canon_keys; eauto using cone_table_wf.
Qed.

(** C27. Every record the collection of [process] keeps, in either table, is a record of a
    good cut of exactly [cutSize] leaves of its gate, whose cone keeps
    the whole cut and whose key is the canonization of the cone's table;
    its heights are never written, since nothing sets [collectHeight]. *)
Theorem process_records_ok `{NPNCanonizer 6} net fuel base topo K M c :
  wf_not net → process_collect net fuel base topo K M collector0 = Ok c → records_ok net fuel base K c.
Proof.
  intros Hwf. eapply (process_collect_inv net fuel base); [|apply records_ok_init].
  intros. by eapply process_records_step.
Qed.

(** C28. The bookkeeping of the collection of [process]: every gate counts as many cuts as
    it has records and keeps the value-initialized [gateId] 0; every
    class holds a non-empty list of records of that class; both tables
    hold the same number of records. *)
Theorem process_stats_ok `{NPNCanonizer 6} net fuel base topo K M c :
  process_collect net fuel base topo K M collector0 = Ok c → stats_ok c.
Proof.
  eapply (process_collect_inv net fuel base); [|apply stats_ok_init].
  intros. by apply addNPNStat_ok.
Qed.

(** C29. [getEssentialCones] selects the [min(topNumber, #classes)] most
    frequent classes: a selected class has at least as many records as
    any class left out, and no class gets more than [conesNumber]
    cones. *)
Theorem getEssentialCones_ranked net fuel base c top cn rez :
  getEssentialCones net fuel base c top cn = Ok rez →
  size (dom rez) = Z.to_nat (Z.min top (Z.of_nat (size (npnStatistics c)))) ∧
  (∀ k cones, rez !! k = Some cones → (Z.of_nat (length cones) ≤ Z.max 0 cn)%Z) ∧
  (∀ k k' l l', k ∈ dom rez → k' ∉ dom rez →
     npnStatistics c !! k = Some l → npnStatistics c !! k' = Some l' →
     length (count l') ≤ length (count l)).
Proof.
  unfold getEssentialCones. case_bool_decide as Hneg; [done|]. intros Hrun.
  destruct (popular_facts (npnStatistics c)) as (Hs & Hnd & Hlen & Hmem).
  set (popular := merge_sort by_count (map_to_list (npnStatistics c))) in *.
  set (n := Z.to_nat (Z.min top (Z.of_nat (size (npnStatistics c))))) in *.
  apply (essential_fold_ok net fuel base (list_to_set (take n popular).*1)) in Hrun
    as [Hdom Hbound].
  2: { split.
       - rewrite dom_list_to_map_L. f_equal. generalize (take n popular). intros l. induction l as [|p l IH]; [done|]. simpl. by f_equal.
       - intros k cones Hk. apply elem_of_list_to_map_2, list_elem_of_fmap in Hk as (p & Hp & _).
         injection Hp as _ ->. simpl. lia. }
  split_and!; [|done|].
  - rewrite Hdom, size_list_to_set, length_fmap, length_take, Hlen; [lia|].
    rewrite fmap_take. rewrite <- (take_drop n (popular.*1)) in Hnd. by apply NoDup_app in Hnd as [? _].
  - intros k k' l l' Hk Hk' Hl Hl'. rewrite Hdom, elem_of_list_to_set in Hk, Hk'.
    apply list_elem_of_fmap in Hk as ([k0 l0] & -> & Hx). simpl in *.
    assert (Hx' : (k0, l0) ∈ popular).
    { rewrite <- (take_drop n popular). apply elem_of_app. by left. }
    apply Hmem in Hx'. simpl in Hx'. rewrite Hl in Hx'. simplify_eq.
    apply (take_keys_ranked popular n (k0, l0) (k', l')); [done|done| |done].
    by apply Hmem.
Qed.

(** C25. The cones [getEssentialCones] returns are genuine: every cone
    listed under a class is the cone extracted over the cut of a record
    of that class, kept for some gate. *)
Theorem getEssentialCones_sound net fuel base c top cn rez :
  getEssentialCones net fuel base c top cn = Ok rez →
  ∀ k cones g, rez !! k = Some cones → g ∈ cones →
  ∃ gate gs stat bg, gateStatsMap c !! gate = Some gs ∧ stat ∈ npnClassInfo gs ∧ npnClass stat = k ∧
    extractCone fuel base net gate (stat_cut stat) (elements (stat_cut stat)) = Ok bg ∧ bg_net bg = g.
Proof.
  unfold getEssentialCones. case_bool_decide; [done|]. intros Hrun.
  refine (foldM_inv (cones_sound net fuel base c) _ _ _ _ _ _ Hrun).
  - intros r [gate gs] r' Hr Hin Hs. apply elem_of_map_to_list in Hin. simpl in Hs.
    refine (foldM_inv _ _ _ _ _ _ Hr Hs). intros r1 stat r2 Hr1 Hst Hstep.
    exact (add_cone_sound net fuel base c cn gate gs r1 stat r2 Hin Hst Hr1 Hstep).
  - intros k cones g Hk Hin. apply elem_of_list_to_map_2, list_elem_of_fmap in Hk as (p & Hp & _).
    injection Hp as _ ->. set_solver.
Qed.

(** C32. Nothing sets [collectHeight], so the heights of every record
    stay unwritten and the averaging loop of [process] reads them: after
    its collection, [process] is undefined as soon as one class was
    recorded, and otherwise leaves the collector as collected. *)
Theorem process_heights_undef `{NPNCanonizer 6} net fuel base topo K M c :
  process_collect net fuel base topo K M collector0 = Ok c →
  process net fuel base topo K M collector0 = if bool_decide (npnStatistics c = ∅) then Ok c else Undef.
Proof. apply process_averages_collect. Qed.

(** C18. [calculateAverageAndDeviation] is defined exactly on a non-empty
    list of records whose heights were both written. *)
Theorem calculateAverageAndDeviation_defined stats s :
  (∃ s', calculateAverageAndDeviation stats s = Ok s') ↔ stats ≠ [] ∧ Forall written stats.
Proof.
  unfold calculateAverageAndDeviation. case_bool_decide as He; [split; [by intros [? ?]|tauto]|].
  pose proof (foldM_Ok_iff written add_heights (0%float, 0%float) stats add_heights_ok) as H1.
  destruct (foldM add_heights _ stats) as [sums| |]; simpl; [|naive_solver|naive_solver].
  pose proof (foldM_Ok_iff written (add_squares (PrimFloat.div sums.1 (int_to_double (Z.of_nat (length stats))))
    (PrimFloat.div sums.2 (int_to_double (Z.of_nat (length stats))))) (0%float, 0%float) stats
    (add_squares_ok _ _)) as H2.
  destruct (foldM (add_squares _ _) _ stats); simpl; naive_solver.
Qed.

(** ** Scenarios *)

(** [a AND b] and [a OR b] over the same two inputs. *)
Definition net_and_or : GNet :=
  list_to_map [(1, ⟨IN; []⟩); (2, ⟨IN; []⟩); (3, ⟨AND; [1; 2]⟩); (4, ⟨OR; [1; 2]⟩)].

Definition collector_and_or : Collector :=
  Eval vm_compute in
  match process_collect net_and_or 100 100 [1; 2; 3; 4] 2 ALL_CUTS collector0 with
  | Ok c => c | _ => collector0 end.

Definition collector_tree : Collector :=
  Eval vm_compute in
  match process_collect net_tree 100 100 [1; 2; 3; 4; 5; 6; 7] 2 ALL_CUTS collector0 with
  | Ok c => c | _ => collector0 end.

Lemma process_and_or : process_collect net_and_or 100 100 [1; 2; 3; 4] 2 ALL_CUTS collector0 = Ok collector_and_or.
Proof. vm_compute. reflexivity. Qed.

Lemma process_tree : process_collect net_tree 100 100 [1; 2; 3; 4; 5; 6; 7] 2 ALL_CUTS collector0 = Ok collector_tree.
Proof. vm_compute. reflexivity. Qed.

(** The key is the canonization of the cone's [2^k]-bit table read
    as a table of six variables ([kt._bits = table.raw()]), not its
    [k]-input NPN class: the AND and the OR of two inputs are
    NPN-equivalent as two-input functions, yet [process] files their
    cones under the two keys [1] and [7]. *)
Theorem collector_and_or_split :
  cone_table net_and_or 100 100 3 {[1; 2]} = Ok 8%Z ∧ cone_table net_and_or 100 100 4 {[1; 2]} = Ok 14%Z ∧
  npn_class 2 8 = npn_class 2 14 ∧
  ∃ c, process_collect net_and_or 100 100 [1; 2; 3; 4] 2 ALL_CUTS collector0 = Ok c ∧
    dom (npnStatistics c) = {[1%Z; 7%Z]}.
Proof.
  split; [vm_compute; reflexivity|]. split; [vm_compute; reflexivity|].
  split; [vm_compute; reflexivity|]. exists collector_and_or. split; [apply process_and_or|].
  vm_decide.
Qed.

(** ** Witnesses *)

Lemma truthTableToNPN_keys_witness : tt_wf 6 8 ∧ tt_wf 6 1 ∧ npn_reach 6 8 1.
Proof.
  assert (H8 : tt_wf 6 8) by vm_decide. assert (H1 : tt_wf 6 1) by vm_decide.
  split; [done|]. split; [done|].
  destruct (truthTableToNPN_keys 8 1 H8 H1) as (c & c' & Hc & Hc' & Heq).
  apply Heq. vm_compute in Hc, Hc'. congruence.
Defined.

Lemma truthTableToNPN_idempotent_witness :
  tt_wf 6 8 ∧ truthTableToNPN 8 = Ok 1%Z ∧ truthTableToNPN 1 = Ok 1%Z.
Proof.
  assert (H8 : tt_wf 6 8) by vm_decide. split; [done|].
  destruct (truthTableToNPN_idempotent 8 H8) as (c & Hc & Hcc).
  assert (Hv : truthTableToNPN 8 = Ok 1%Z) by (vm_compute; reflexivity).
  rewrite Hv in Hc. injection Hc as <-. exact (conj Hv Hcc).
Defined.

Lemma process_classes_npn_witness :
  ∃ l1 l2 r1 r2, class_records collector_and_or !! 1%Z = Some l1 ∧
    class_records collector_and_or !! 7%Z = Some l2 ∧ r1 ∈ l1 ∧ r2 ∈ l2 ∧
    ∃ g1 g2 t1 t2, good_cut net_and_or g1 (stat_cut r1) ∧ good_cut net_and_or g2 (stat_cut r2) ∧
      cone_table net_and_or 100 100 g1 (stat_cut r1) = Ok t1 ∧
      cone_table net_and_or 100 100 g2 (stat_cut r2) = Ok t2 ∧ (1%Z = 7%Z ↔ npn_reach 6 t1 t2).
Proof.
  assert (Hwf : wf_not net_and_or) by vm_decide.
  do 4 eexists. split; [vm_compute; reflexivity|]. split; [vm_compute; reflexivity|].
  split; [by left|]. split; [by left|].
  eapply (process_classes_npn net_and_or 100 100 [1; 2; 3; 4] 2 ALL_CUTS collector_and_or);
    [exact Hwf|exact process_and_or|vm_compute; reflexivity|vm_compute; reflexivity|by left|by left].
Defined.

Lemma process_records_ok_witness :
  wf_not net_tree ∧ records_ok net_tree 100 100 2 collector_tree.
Proof.
  assert (Hwf : wf_not net_tree) by vm_decide. split; [exact Hwf|].
  exact (process_records_ok net_tree 100 100 [1; 2; 3; 4; 5; 6; 7] 2 ALL_CUTS collector_tree Hwf process_tree).
Defined.

Lemma process_stats_ok_witness : stats_ok collector_tree.
Proof. exact (process_stats_ok net_tree 100 100 [1; 2; 3; 4; 5; 6; 7] 2 ALL_CUTS collector_tree process_tree). Defined.

Definition cones_tree : gmap Z (list GNet) :=
  Eval vm_compute in
  match getEssentialCones net_tree 100 100 collector_tree 1 2 with Ok r => r | _ => ∅ end.

Lemma getEssentialCones_ranked_witness :
  getEssentialCones net_tree 100 100 collector_tree 1 2 = Ok cones_tree ∧
  size (dom cones_tree) = 1.
Proof.
  assert (Hrun : getEssentialCones net_tree 100 100 collector_tree 1 2 = Ok cones_tree)
    by (vm_compute; reflexivity).
  split; [exact Hrun|].
  destruct (getEssentialCones_ranked net_tree 100 100 collector_tree 1 2 cones_tree Hrun) as [Hsz _].
  rewrite Hsz. vm_compute. reflexivity.
Defined.

Definition storage_tree : CutStorage :=
  Eval vm_compute in
  match findCuts {| cutSize := 2; maxCutNum := ALL_CUTS |} net_tree false [1; 2; 3; 4; 5; 6; 7] with
  | Ok s => s | _ => ∅ end.

Definition cuts_tree_7 : Cuts := Eval vm_compute in default [] (storage_tree !! 7).

Definition record_tree_7 : NPNStats :=
  Eval vm_compute in
  match fillNPNStats net_tree 100 100 collector0 {[5; 6]} 7 with
  | Ok (Some r) => r | _ => mkStats 0 None None ∅ end.

Lemma process_complete_witness :
  storage_tree !! 7 = Some cuts_tree_7 ∧ {[5; 6]} ∈ cuts_tree_7 ∧
  fillNPNStats net_tree 100 100 collector0 {[5; 6]} 7 = Ok (Some record_tree_7) ∧
  ∃ gs, gateStatsMap collector_tree !! 7 = Some gs ∧ record_tree_7 ∈ npnClassInfo gs.
Proof.
  assert (Hf : findCuts {| cutSize := 2; maxCutNum := ALL_CUTS |} net_tree false [1; 2; 3; 4; 5; 6; 7]
    = Ok storage_tree) by (vm_compute; reflexivity).
  assert (Hg : storage_tree !! 7 = Some cuts_tree_7) by (vm_compute; reflexivity).
  assert (Hc : {[5; 6]} ∈ cuts_tree_7) by vm_decide.
  assert (Hr : fillNPNStats net_tree 100 100 collector0 {[5; 6]} 7 = Ok (Some record_tree_7))
    by (vm_compute; reflexivity).
  split; [exact Hg|]. split; [exact Hc|]. split; [exact Hr|].
  exact (process_complete net_tree 100 100 [1; 2; 3; 4; 5; 6; 7] 2 ALL_CUTS collector_tree storage_tree 7
    cuts_tree_7 {[5; 6]} record_tree_7 Hf Hg Hc ltac:(vm_compute; reflexivity) Hr process_tree).
Defined.

Lemma process_heights_undef_witness :
  process_collect net_tree 100 100 [1; 2; 3; 4; 5; 6; 7] 2 ALL_CUTS collector0 = Ok collector_tree ∧
  process net_tree 100 100 [1; 2; 3; 4; 5; 6; 7] 2 ALL_CUTS collector0 = Undef.
Proof.
  split; [exact process_tree|].
  rewrite (process_heights_undef net_tree 100 100 [1; 2; 3; 4; 5; 6; 7] 2 ALL_CUTS collector_tree process_tree).
  vm_compute. reflexivity.
Defined.

(** Two written records: heights [(3, 1)] and [(1, 1)]. *)
Definition stats_written : list NPNStats := [mkStats 1 (Some 1%Z) (Some 3%Z) ∅; mkStats 1 (Some 1%Z) (Some 1%Z) ∅].

Lemma calculateAverageAndDeviation_defined_witness :
  calculateAverageAndDeviation stats_written sum0 =
    Ok (mkSum [] 2%float 1%float 1%float 0%float) ∧
  calculateAverageAndDeviation (record_tree_7 :: stats_written) sum0 = Undef.
Proof.
  split; [vm_compute; reflexivity|].
  destruct (calculateAverageAndDeviation (record_tree_7 :: stats_written) sum0) as [s'| |] eqn:E;
    [|done|by vm_compute in E].
  destruct (proj1 (calculateAverageAndDeviation_defined _ sum0) (ex_intro _ s' E)) as [_ Hw].
  apply Forall_cons in Hw as [[Hmx _] _]. vm_compute in Hmx. by destruct Hmx.
Defined.

Definition cones_tree_1 : list GNet := Eval vm_compute in default [] (cones_tree !! 1%Z).

Lemma getEssentialCones_sound_witness :
  getEssentialCones net_tree 100 100 collector_tree 1 2 = Ok cones_tree ∧
  cones_tree !! 1%Z = Some cones_tree_1 ∧ default ∅ (head cones_tree_1) ∈ cones_tree_1 ∧
  ∃ gate gs stat bg, gateStatsMap collector_tree !! gate = Some gs ∧ stat ∈ npnClassInfo gs ∧
    npnClass stat = 1%Z ∧ extractCone 100 100 net_tree gate (stat_cut stat) (elements (stat_cut stat)) = Ok bg ∧
    bg_net bg = default ∅ (head cones_tree_1).
Proof.
  assert (Hrun : getEssentialCones net_tree 100 100 collector_tree 1 2 = Ok cones_tree)
    by (vm_compute; reflexivity).
  assert (Hk : cones_tree !! 1%Z = Some cones_tree_1) by (vm_compute; reflexivity).
  assert (Hg : default ∅ (head cones_tree_1) ∈ cones_tree_1) by (vm_compute; left).
  split_and!; [exact Hrun|exact Hk|exact Hg|].
  exact (getEssentialCones_sound net_tree 100 100 collector_tree 1 2 cones_tree Hrun 1 _ _ Hk Hg).
Defined.
