(* ===== verification/Params.v ===== *)
(** * The plain parameters collector ([plain_parameters_collector.cpp])

    [PlainParametersCollector::collect] fills a [PlainParameters] record
    by six passes over the net: the counts of inputs, outputs, gates, AND
    and NOT gates, and the longest path computed by [findLongestPath].
    The passes iterate [net->gates()], whose order is a parameter
    [order].  [findLongestPath] relaxes every input edge once, in that
    order; the main theorem shows it returns the length of the longest
    path when [order] is topological, another that whatever the order
    it returns the length of some path (so never more), and a scenario
    shows that it underestimates it otherwise.  [nSourceLinks] and [nTargetLinks] are
    methods of [GNet] (not under [src/]), modelled from the spec as the
    numbers of sources and of [OUT] gates. *)

From S2P Require Import Prelude Gnet.

(** ** The record and the passes *)

(** [struct PlainParameters] *)
Record PlainParameters := mkParams {
  numInputs : Z;
  numOutputs : Z;
  numGates : Z;
  numAnds : Z;
  numInvertedEdges : Z;
  longestPath : Z;
}.

Section Passes.
Context (net : GNet) (order : list GateId).

(** [GNet::nSourceLinks] and [GNet::nTargetLinks] *)
Definition nSourceLinks : Z := Z.of_nat (size (filter (λ p, isSource p.2 = true) net)).
Definition nTargetLinks : Z := Z.of_nat (size (filter (λ p, func p.2 = OUT) net)).

(** The number of gates of [gates()] with function [f]. *)
Definition count_func (f : GateSymbol) : Z :=
  foldl (λ n g, if bool_decide (func_of net g = Some f) then (n + 1)%Z else n) 0%Z order.

Definition collectInputs (p : PlainParameters) : PlainParameters :=
  mkParams nSourceLinks (numOutputs p) (numGates p) (numAnds p) (numInvertedEdges p) (longestPath p).

Definition collectOutputs (p : PlainParameters) : PlainParameters :=
  mkParams (numInputs p) nTargetLinks (numGates p) (numAnds p) (numInvertedEdges p) (longestPath p).

Definition collectGates (p : PlainParameters) : PlainParameters :=
  mkParams (numInputs p) (numOutputs p) (Z.of_nat (size net)) (numAnds p) (numInvertedEdges p)
    (longestPath p).

Definition collectAndGates (p : PlainParameters) : PlainParameters :=
  mkParams (numInputs p) (numOutputs p) (numGates p) (count_func AND) (numInvertedEdges p)
    (longestPath p).

Definition collectInvertedEdges (p : PlainParameters) : PlainParameters :=
  mkParams (numInputs p) (numOutputs p) (numGates p) (numAnds p) (count_func NOT) (longestPath p).

(** [distances[k]] of an [unordered_map<Gate::Id, int>]: a missing key
    is inserted with [0]. *)
Definition dist_index (d : gmap GateId Z) (k : GateId) : Z * gmap GateId Z :=
  match d !! k with Some x => (x, d) | None => (0%Z, <[k:=0%Z]> d) end.

(** [updateDistance(from, to)]:
    [distances[to] = std::max(distances[to], distances[from] + 1)]. *)
Definition updateDistance (d : gmap GateId Z) (from to : GateId) : gmap GateId Z :=
  let '(dt, d1) := dist_index d to in
  let '(df, d2) := dist_index d1 from in
  <[to := Z.max dt (df + 1)]> d2.

(** The relaxation of the input edges of [gate]. *)
Definition relax_gate (d : gmap GateId Z) (g : GateId) : gmap GateId Z :=
  foldl (λ d u, updateDistance d u g) d (inputs_of net g).

Definition distances : gmap GateId Z :=
  foldl relax_gate (foldl (λ d g, <[g:=0%Z]> d) ∅ order) order.

(** [PlainParametersCollector::findLongestPath] *)
Definition findLongestPath (p : PlainParameters) : PlainParameters :=
  let lp := foldl (λ m kv, Z.max m kv.2) 0%Z (map_to_list distances) in
  mkParams (numInputs p) (numOutputs p) (numGates p) (numAnds p) (numInvertedEdges p) lp.

(** [PlainParametersCollector::collect], from the indeterminate record
    [p] of the constructor. *)
Definition collect (p : PlainParameters) : PlainParameters :=
  findLongestPath (collectInvertedEdges (collectAndGates (collectGates
    (collectOutputs (collectInputs p))))).
End Passes.

(** ** Paths *)

(** A path of [n] input edges ending at [v]. *)
Inductive path_len (net : GNet) : GateId → nat → Prop :=
| pl_here v : path_len net v 0
| pl_edge u v n : path_len net u n → u ∈ inputs_of net v → path_len net v (S n).

(** [k] is the length of the longest path to [v]. *)
Definition longest_to (net : GNet) (v : GateId) (k : nat) : Prop :=
  path_len net v k ∧ ∀ n, path_len net v n → n ≤ k.

(** [order] lists every gate of a closed net once, after all its
    inputs. *)
Definition topological (net : GNet) (order : list GateId) : Prop :=
  closed_net net ∧ NoDup order ∧ (∀ v, v ∈ order ↔ v ∈ dom net) ∧
  ∀ i j u v, order !! i = Some u → order !! j = Some v → u ∈ inputs_of net v → i < j.

(** ** The longest path *)

Section Longest.
Context (net : GNet).

Lemma closed_input u v : closed_net net → u ∈ inputs_of net v → u ∈ dom net.
Proof.
  intros Hc Hu. unfold inputs_of in Hu. destruct (net !! v) as [g|] eqn:E; simpl in Hu; [|set_solver].
  pose proof (Hc v g E) as Hall. rewrite Forall_forall in Hall. apply elem_of_dom. by apply Hall.
Qed.

Lemma init_lookup (l : list GateId) (d : gmap GateId Z) g :
  foldl (λ d g, <[g:=0%Z]> d) d l !! g = if decide (g ∈ l) then Some 0%Z else d !! g.
Proof.
  revert d. induction l as [|x l IH]; intros d; simpl; [by destruct (decide (g ∈ [])); set_solver|].
  rewrite IH. destruct (decide (g ∈ l)), (decide (g ∈ x :: l)); try set_solver.
  - assert (g = x) as -> by set_solver. by rewrite lookup_insert_eq.
  - rewrite lookup_insert_ne; set_solver.
Qed.

(** The inputs of [g] already hold their longest paths. *)
Definition inputs_done (d : gmap GateId Z) (g : GateId) (ins : list GateId) : Prop :=
  ∀ u, u ∈ ins → u ≠ g ∧ ∃ k, d !! u = Some (Z.of_nat k) ∧ longest_to net u k.

(** Relaxing the edges into [g] raises [distances[g]] to one more than
    the longest path of an input. *)
Lemma relax_spec d g ins m0 :
  inputs_done d g ins → d !! g = Some (Z.of_nat m0) →
  ∃ m, foldl (λ d u, updateDistance d u g) d ins = <[g:=Z.of_nat m]> d ∧ m0 ≤ m ∧
    (∀ u k, u ∈ ins → d !! u = Some (Z.of_nat k) → S k ≤ m) ∧
    (m = m0 ∨ ∃ u k, u ∈ ins ∧ d !! u = Some (Z.of_nat k) ∧ longest_to net u k ∧ m = S k).
Proof.
  revert d m0. induction ins as [|u ins IH]; intros d m0 Hdone Hg; simpl.
  { exists m0. rewrite insert_id by done. split_and!; [done|lia|set_solver|by left]. }
  destruct (Hdone u (list_elem_of_here _ _)) as [Hne (k & Hu & Hk)].
  assert (Hupd : updateDistance d u g = <[g:=Z.of_nat (Nat.max m0 (S k))]> d).
  { unfold updateDistance, dist_index. rewrite Hg, Hu. f_equal. lia. }
  rewrite Hupd.
  destruct (IH (<[g:=Z.of_nat (Nat.max m0 (S k))]> d) (Nat.max m0 (S k))) as (m & Hm & Hle & Hub & Hwit).
  - intros v Hv. destruct (Hdone v (list_elem_of_further _ _ _ Hv)) as [Hvg Hv'].
    split; [done|]. by rewrite lookup_insert_ne by done.
  - by rewrite lookup_insert_eq.
  - exists m. rewrite Hm, insert_insert_eq. split_and!; [done|lia| |].
    + intros v kv [->|Hv]%elem_of_cons Hkv.
      * rewrite Hu in Hkv. assert (kv = k) by (injection Hkv; lia). lia.
      * destruct (Hdone v (list_elem_of_further _ _ _ Hv)) as [Hvg _].
        apply (Hub v kv Hv). by rewrite lookup_insert_ne by done.
    + destruct Hwit as [->|(v & kv & Hv & Hkv & Hl & ->)].
      * destruct (Nat.max_spec m0 (S k)) as [[_ ->]|[_ ->]]; [right; exists u, k; set_solver|by left].
      * right. destruct (Hdone v (list_elem_of_further _ _ _ Hv)) as [Hvg _].
        rewrite lookup_insert_ne in Hkv by done. exists v, kv. set_solver.
Qed.

(** The longest path to a gate is one more than the longest path to one
    of its inputs, or [0] without inputs. *)
Lemma longest_step g m :
  (∀ u, u ∈ inputs_of net g → ∃ k, longest_to net u k ∧ S k ≤ m) →
  (m = 0 ∨ ∃ u k, u ∈ inputs_of net g ∧ longest_to net u k ∧ m = S k) →
  longest_to net g m.
Proof.
  intros Hub Hwit. split.
  - destruct Hwit as [->|(u & k & Hu & [Hp _] & ->)]; [constructor|by econstructor].
  - intros n Hn. inversion Hn as [|u ? n' Hp Hu]; subst; [lia|].
    destruct (Hub u Hu) as (k & [_ Hk] & Hle). specialize (Hk n' Hp). lia.
Qed.

Lemma inputs_of_dom u v : u ∈ inputs_of net v → v ∈ dom net.
Proof.
  unfold inputs_of. destruct (net !! v) eqn:E; simpl; [|set_solver]. intros _. by apply elem_of_dom_2 in E.
Qed.

Lemma path_dom v n : path_len net v (S n) → v ∈ dom net.
Proof. inversion 1. by eapply inputs_of_dom. Qed.

Section Prefix.
Context (order : list GateId) (Htop : topological net order).

(** Over a topological order, the gates relaxed so far hold their
    longest paths and the others still hold [0]. *)
Lemma dist_prefix P rest (d : gmap GateId Z) :
  order = P ++ rest →
  (∀ g, g ∈ P → ∃ k, d !! g = Some (Z.of_nat k) ∧ longest_to net g k) →
  (∀ g, g ∉ P → d !! g = if decide (g ∈ order) then Some 0%Z else None) →
  (∀ g, g ∈ order → ∃ k, foldl (relax_gate net) d rest !! g = Some (Z.of_nat k) ∧ longest_to net g k) ∧
  (∀ g, g ∉ order → foldl (relax_gate net) d rest !! g = None).
Proof.
  destruct Htop as (Hcl & Hnd & Hdom & Hord).
  revert P d. induction rest as [|g rest IH]; intros P d Heq H1 H2; simpl.
  { rewrite app_nil_r in Heq. subst. split; [done|]. intros g Hg. rewrite H2 by done.
    by rewrite decide_False. }
  assert (HgP : g ∉ P).
  { rewrite Heq in Hnd. apply NoDup_app in Hnd as (_ & Hdis & _). intros HgP.
    apply (Hdis g HgP). left. }
  assert (Hgo : g ∈ order) by (rewrite Heq; set_solver).
  assert (Hd0 : d !! g = Some (Z.of_nat 0)) by (rewrite H2, decide_True by done; done).
  assert (Hdone : inputs_done d g (inputs_of net g)).
  { intros u Hu. assert (HuP : u ∈ P).
    { pose proof (closed_input u g Hcl Hu) as Hud. apply Hdom in Hud.
      apply list_elem_of_lookup_1 in Hud as [i Hi].
      assert (Hj : order !! length P = Some g) by (rewrite Heq; by apply list_lookup_middle).
      specialize (Hord i (length P) u g Hi Hj Hu).
      rewrite Heq, lookup_app_l in Hi by done. by eapply list_elem_of_lookup_2. }
    split; [set_solver|]. by apply H1. }
  destruct (relax_spec d g _ 0 Hdone Hd0) as (m & Hm & _ & Hub & Hwit).
  assert (Hlm : longest_to net g m).
  { apply longest_step.
    - intros u Hu. destruct (Hdone u Hu) as [_ (k & Hk & Hl)]. exists k. split; [done|]. eauto.
    - destruct Hwit as [->|(u & k & Hu & _ & Hl & ->)]; [by left|right; eauto]. }
  apply (IH (P ++ [g])); [by rewrite <- app_assoc|..]; unfold relax_gate; rewrite Hm.
  - intros x [Hx|Hx]%elem_of_app.
    + rewrite lookup_insert_ne by set_solver. by apply H1.
    + apply list_elem_of_singleton in Hx as ->. rewrite lookup_insert_eq. eauto.
  - intros x Hx. rewrite lookup_insert_ne by set_solver. apply H2. set_solver.
Qed.
End Prefix.

Lemma foldl_max_spec (l : list (GateId * Z)) z :
  let r := foldl (λ m kv, Z.max m kv.2) z l in
  (z ≤ r)%Z ∧ (∀ kv, kv ∈ l → (kv.2 ≤ r)%Z) ∧ (r = z ∨ ∃ kv, kv ∈ l ∧ r = kv.2).
Proof.
  revert z. induction l as [|kv l IH]; intros z; simpl; [split_and!; [lia|set_solver|by left]|].
  destruct (IH (Z.max z kv.2)) as (Hle & Hub & Hw). split_and!; [lia| |].
  - intros kv' [->|Hkv]%elem_of_cons; [lia|auto].
  - destruct Hw as [->|(kv' & Hkv' & ->)]; [|right; exists kv'; set_solver].
    destruct (Z.max_spec z kv.2) as [[_ ->]|[_ ->]]; [right; exists kv; set_solver|by left].
Qed.
(** Every distance stored is the length of a path to its gate. *)
Definition dist_sound (d : gmap GateId Z) : Prop :=
  map_Forall (λ v x, (0 ≤ x)%Z ∧ path_len net v (Z.to_nat x)) d.

Lemma dist_index_sound d k :
  dist_sound d → dist_sound (dist_index d k).2 ∧ (0 ≤ (dist_index d k).1)%Z ∧
    path_len net k (Z.to_nat (dist_index d k).1).
Proof.
  unfold dist_index. intros Hd. destruct (d !! k) as [x|] eqn:E; simpl; [exact (conj Hd (Hd k x E))|].
  split_and!; [|lia|constructor]. apply map_Forall_insert_2; [split; [lia|constructor]|done].
Qed.

Lemma updateDistance_sound d u g :
  u ∈ inputs_of net g → dist_sound d → dist_sound (updateDistance d u g).
Proof.
  intros Hu Hd. unfold updateDistance.
  destruct (dist_index_sound d g Hd) as (Hd1 & Ht0 & Ht). destruct (dist_index d g) as [dt d1].
  destruct (dist_index_sound d1 u Hd1) as (Hd2 & Hf0 & Hf). destruct (dist_index d1 u) as [df d2].
  simpl in *. apply map_Forall_insert_2; [|done]. split; [lia|].
  destruct (Z.max_spec dt (df + 1)) as [[_ ->]|[_ ->]]; [|done].
  replace (Z.to_nat (df + 1)) with (S (Z.to_nat df)) by lia. by econstructor.
Qed.

Lemma relax_gate_sound d g : dist_sound d → dist_sound (relax_gate net d g).
Proof.
  unfold relax_gate.
  cut (∀ ins d, (∀ u, u ∈ ins → u ∈ inputs_of net g) → dist_sound d →
         dist_sound (foldl (λ d u, updateDistance d u g) d ins)); [intros H; by apply H|].
  induction ins as [|u ins IH]; intros d0 Hsub Hd0; simpl; [done|].
  apply IH; [intros v Hv; apply Hsub; by right|]. apply updateDistance_sound; [apply Hsub; left|done].
Qed.

Lemma distances_sound order : dist_sound (distances net order).
Proof.
  unfold distances. cut (∀ l d, dist_sound d → dist_sound (foldl (relax_gate net) d l)).
  { intros H. apply H. intros v x. rewrite init_lookup, lookup_empty.
    case_decide; [intros [= <-]; split; [lia|constructor]|done]. }
  induction l as [|g l IH]; intros d Hd; simpl; [done|]. by apply IH, relax_gate_sound.
Qed.
End Longest.

(** ** Properties *)

(** C10. Over a topological order of a closed net, [findLongestPath]
    stores the length of the longest path of the net: some gate is
    reached by a path of that many edges and no path is longer. *)
Theorem findLongestPath_topological net order p :
  topological net order →
  ∃ L, longestPath (findLongestPath net order p) = Z.of_nat L ∧
    (∃ v, path_len net v L) ∧ ∀ v n, path_len net v n → n ≤ L.
Proof.
  intros Htop. pose proof Htop as (_ & _ & Hdom & _).
  destruct (dist_prefix net order Htop [] order (foldl (λ d g, <[g:=0%Z]> d) ∅ order))
    as [Hin Hout]; [done|set_solver|intros g _; by rewrite init_lookup, lookup_empty|].
  fold (distances net order) in Hin, Hout. unfold findLongestPath; simpl.
  destruct (foldl_max_spec (map_to_list (distances net order)) 0) as (H0 & Hub & Hw).
  set (lp := foldl _ 0%Z _) in *.
  exists (Z.to_nat lp). split; [lia|]. split.
  - destruct Hw as [->|([v x] & Hvx & ->)]; [by exists 0; constructor|].
    apply elem_of_map_to_list in Hvx. simpl.
    destruct (decide (v ∈ order)) as [Hv|Hv]; [|by rewrite Hout in Hvx].
    destruct (Hin v Hv) as (k & Hk & [Hp _]). rewrite Hk in Hvx. injection Hvx as <-.
    exists v. by rewrite Nat2Z.id.
  - intros v [|n] Hn; [lia|]. assert (Hv : v ∈ order) by (apply Hdom; by eapply path_dom).
    destruct (Hin v Hv) as (k & Hk & [_ Hmax]). specialize (Hmax _ Hn).
    apply elem_of_map_to_list in Hk. specialize (Hub _ Hk). simpl in Hub. lia.
Qed.

(** C19. Whatever the order of [gates()], [findLongestPath] never
    overestimates: the length it stores is non-negative and is the
    length of a path of the net. *)
Theorem findLongestPath_sound net order p :
  (0 ≤ longestPath (findLongestPath net order p))%Z ∧
  ∃ v, path_len net v (Z.to_nat (longestPath (findLongestPath net order p))).
Proof.
  unfold findLongestPath; simpl. pose proof (distances_sound net order) as Hd.
  destruct (foldl_max_spec (map_to_list (distances net order)) 0) as (H0 & _ & Hw).
  split; [done|]. destruct Hw as [->|([v x] & Hvx & ->)]; [exists 0; constructor|].
  apply elem_of_map_to_list in Hvx. exists v. exact (proj2 (Hd v x Hvx)).
Qed.

(** [OUT(NOT(i1))] *)
Definition net_chain : GNet := list_to_map [(1, ⟨IN; []⟩); (2, ⟨NOT; [1]⟩); (3, ⟨OUT; [2]⟩)].

(** The indeterminate record of the constructor, at one value. *)
Definition params0 : PlainParameters := mkParams 0 0 0 0 0 0.

(** [findLongestPath] relaxes each edge once in the order of
    [gates()], so the result depends on that order: on [OUT(NOT(i1))] it
    is [2] in the order [i1, NOT, OUT] but [1] in the reverse order,
    although a path of two edges exists. *)
Theorem findLongestPath_order_dependent p :
  longestPath (findLongestPath net_chain [1; 2; 3] p) = 2%Z ∧
  longestPath (findLongestPath net_chain [3; 2; 1] p) = 1%Z ∧ path_len net_chain 3 2.
Proof.
  split; [vm_compute; reflexivity|]. split; [vm_compute; reflexivity|].
  apply (pl_edge _ 2); [apply (pl_edge _ 1); [constructor|]|]; vm_compute; left.
Qed.

(** The whole of [collect] on the two-level AND tree: four inputs,
    no output marker, seven gates, three ANDs, no NOT and a longest path
    of two edges, whatever the record it starts from. *)
Theorem collect_tree_scenario p :
  collect net_tree [1; 2; 3; 4; 5; 6; 7] p = mkParams 4 0 7 3 0 2.
Proof. vm_compute. reflexivity. Qed.

Lemma findLongestPath_topological_witness :
  topological net_chain [1; 2; 3] ∧
  ∃ L, longestPath (findLongestPath net_chain [1; 2; 3] params0) = Z.of_nat L ∧
    (∃ v, path_len net_chain v L) ∧ ∀ v n, path_len net_chain v n → n ≤ L.
Proof.
  assert (Htop : topological net_chain [1; 2; 3]).
  { assert (Hd : dom net_chain = {[1; 2; 3]}) by vm_decide.
    split; [vm_decide|]. split; [vm_decide|]. split; [intros v; rewrite Hd; set_solver|].
    intros i j u v Hi Hj Hu.
    destruct i as [|[|[|i]]]; destruct j as [|[|[|j]]]; simpl in Hi, Hj; simplify_eq;
      vm_compute in Hu; set_solver || lia. }
  split; [exact Htop|]. exact (findLongestPath_topological net_chain [1; 2; 3] params0 Htop).
Defined.
