(* ===== verification/Dot.v ===== *)
(** * The DOT printer ([gate/printer/dot.cpp])

    [Dot::funcNames] is the table of gate function names, built by a
    lambda that resizes the vector before each insertion; [Dot::print]
    writes one line per edge of the net and one line per gate without
    links; [Dot::printColor] writes one line per gate, with a label and
    a red fill for the gates of a match map, and one line per edge.  A
    stream is modelled by the list of its lines (every write ends with
    [std::endl]); the variants that open a file write into [FS], the
    files written by path and the lines written to [std::cerr], whether
    a path opens being an oracle [can_open].  The numeric
    values of [GateSymbol] ([gate/model/gsymbol.h], not under [src/])
    follow the order of the enumeration.  The theorems: [print] writes
    every edge and every gate without links, and [printColor] is defined
    on the gates of the net with one line per gate and one per link. *)

From stdpp Require Import strings pretty.
From S2P Require Import Prelude Gnet.

Local Open Scope string_scope.

(** ** Characters *)

Definition tab : string := String (Ascii.ascii_of_nat 9) EmptyString.
Definition quote : string := String (Ascii.ascii_of_nat 34) EmptyString.

(** ** The table of names *)

(** The value of a [GateSymbol] enumerator. *)
Definition gs_index (gs : GateSymbol) : nat :=
  match gs with
  | IN => 0 | OUT => 1 | ZERO => 2 | ONE => 3 | NOP => 4 | NOT => 5 | AND => 6 | OR => 7
  | XOR => 8 | NAND => 9 | NOR => 10 | XNOR => 11 | MAJ => 12 | LATCH => 13 | DFF => 14
  | DFFrs => 15 | XXX => 16
  end.

(** The [insert] lambda: [if (names.size() <= gs) { names.resize(gs + 1);
    names[gs] = name; }]. *)
Definition insert_name (names : list string) (gs : GateSymbol) (name : string) : list string :=
  if bool_decide (length names ≤ gs_index gs)%nat
  then <[gs_index gs := name]> (resize (S (gs_index gs)) EmptyString names)
  else names.

(** The insertions of the initializer, in their order. *)
Definition name_inserts : list (GateSymbol * string) :=
  [(IN, "IN"); (OUT, "OUT"); (ZERO, "ZERO"); (ONE, "ONE"); (NOP, "NOP"); (NOT, "NOT");
   (AND, "AND"); (OR, "OR"); (XOR, "XOR"); (NAND, "NAND"); (NOR, "NOR"); (XNOR, "XNOR");
   (MAJ, "MAJ"); (LATCH, "LATCH"); (DFF, "DFF"); (DFFrs, "DFFrs"); (XXX, "XXX")].

(** [Dot::funcNames] *)
Definition funcNames : list string :=
  foldl (λ names p, insert_name names p.1 p.2) [] name_inserts.

(** The name of each symbol, as the spec spells it. *)
Definition gs_name (gs : GateSymbol) : string :=
  match gs with
  | IN => "IN" | OUT => "OUT" | ZERO => "ZERO" | ONE => "ONE" | NOP => "NOP" | NOT => "NOT"
  | AND => "AND" | OR => "OR" | XOR => "XOR" | NAND => "NAND" | NOR => "NOR" | XNOR => "XNOR"
  | MAJ => "MAJ" | LATCH => "LATCH" | DFF => "DFF" | DFFrs => "DFFrs" | XXX => "XXX"
  end.

(** ** Printing *)

Section Print.
Context (net : GNet).

(** [Dot::print(stream, gate)]: the name when the table has one, then
    the id. *)
Definition print_gate (v : GateId) (g : Gate) : string :=
  (if bool_decide (gs_index (func g) < length funcNames)%nat
   then default EmptyString (funcNames !! gs_index (func g)) else EmptyString) +:+ pretty v.

(** The lines of one gate of [Dot::print(stream)]. *)
Definition print_lines (v : GateId) : Result (list string) :=
  g ← gate_get net v;
  let node := if bool_decide (links net v = []) then [tab +:+ print_gate v g +:+ ";"] else [] in
  edges ← mapM (λ w, gw ← gate_get net w;
                     Ok (tab +:+ print_gate v g +:+ " -> " +:+ print_gate w gw +:+ ";"))
            (links net v);
  Ok (node ++ edges)%list.

(** [Dot::print(stream)] over [gates()] in the order [order]. *)
Definition print (order : list GateId) : Result (list string) :=
  ls ← mapM print_lines order;
  Ok (["digraph substNet {"] ++ mjoin ls ++ ["}"])%list.

(** [Dot::print(stream, gate, coneGates)]: the name and id, then a label
    and a red fill for a gate of the match; the unchecked
    [funcNames[gate->func()]] is undefined out of the table. *)
Definition print_gate_color (coneGates : gmap GateId GateId) (v : GateId) (g : Gate) : Result string :=
  match coneGates !! v with
  | Some m =>
      name ← of_option (funcNames !! gs_index (func g));
      Ok (print_gate v g +:+ " [label=" +:+ quote +:+ pretty v +:+ "(" +:+ pretty m +:+ ", " +:+ name
          +:+ ")" +:+ quote +:+ ", color=red, style=filled]")
  | None => Ok (print_gate v g)
  end.

(** The lines of one gate of [Dot::printColor]. *)
Definition print_color_lines (coneGates : gmap GateId GateId) (v : GateId) : Result (list string) :=
  g ← gate_get net v;
  node ← print_gate_color coneGates v g;
  edges ← mapM (λ w, gw ← gate_get net w;
                     Ok (tab +:+ print_gate v g +:+ " -> " +:+ print_gate w gw +:+ ";"))
            (links net v);
  Ok ([tab +:+ node +:+ ";"] ++ edges)%list.

(** [Dot::printColor(filename, coneGates)] once the file is open. *)
Definition printColor (order : list GateId) (coneGates : gmap GateId GateId) : Result (list string) :=
  ls ← mapM (print_color_lines coneGates) order;
  Ok (["digraph substNet {"] ++ mjoin ls ++ ["}"])%list.
End Print.

(** ** Files *)

(** The files the printer writes, by path, and the lines written to
    [std::cerr].  Whether a path can be opened for writing is an oracle
    [can_open]. *)
Record FS := mkFS { fs_files : gmap string (list string); fs_cerr : list string }.

Definition fs0 : FS := mkFS ∅ [].

(** The report of a file that cannot be created. *)
Definition open_failed (filename : string) : string := "Failed to create file : " +:+ filename.

Section Files.
Context (net : GNet) (can_open : string → bool).

(** [Dot::print(const std::string &filename)]: an [ofstream] that opens
    replaces the file's contents. *)
Definition print_file (order : list GateId) (filename : string) (fs : FS) : Result FS :=
  if can_open filename then
    ls ← print net order; Ok (mkFS (<[filename := ls]> (fs_files fs)) (fs_cerr fs))
  else Ok (mkFS (fs_files fs) (fs_cerr fs ++ [open_failed filename])).

(** [Dot::printColor(const std::string &filename, coneGates)]. *)
Definition printColor_file (order : list GateId) (filename : string) (coneGates : gmap GateId GateId)
    (fs : FS) : Result FS :=
  if can_open filename then
    ls ← printColor net order coneGates; Ok (mkFS (<[filename := ls]> (fs_files fs)) (fs_cerr fs))
  else Ok (mkFS (fs_files fs) (fs_cerr fs ++ [open_failed filename])).
End Files.

(** ** Properties *)

(** The initializer of [funcNames] stores every name at the value
    of its symbol: the resize-then-assign lambda works because the
    symbols are inserted in increasing order. *)
Theorem funcNames_names :
  length funcNames = 17 ∧ ∀ gs, funcNames !! gs_index gs = Some (gs_name gs).
Proof. split; [reflexivity|intros []; reflexivity]. Qed.

Lemma print_gate_name v g : print_gate v g = gs_name (func g) +:+ pretty v.
Proof. unfold print_gate. by destruct g as [[] ins]. Qed.

Lemma print_lines_ok net v lv :
  print_lines net v = Ok lv →
  ∃ gv, net !! v = Some gv ∧
    (∀ w, w ∈ links net v → ∃ gw, net !! w = Some gw ∧
       tab +:+ (gs_name (func gv) +:+ pretty v) +:+ " -> " +:+ (gs_name (func gw) +:+ pretty w) +:+ ";" ∈ lv) ∧
    (links net v = [] → tab +:+ (gs_name (func gv) +:+ pretty v) +:+ ";" ∈ lv).
Proof.
  unfold print_lines. intros H. inv_ok. unfold gate_get in *. inv_ok.
  match goal with Hm : mapM _ _ = Ok _ |- _ => pose proof (mapM_Ok _ _ _ Hm) as Hlines end.
  eexists. split; [done|]. split.
  - intros w Hw. destruct (Forall2_elem_l _ _ _ w Hlines Hw) as (line & Hline & Hl).
    inv_ok. eexists. split; [done|]. apply elem_of_app. right. by rewrite !print_gate_name in Hline.
  - intros Hnil. apply elem_of_app. left. rewrite bool_decide_eq_true_2 by done.
    rewrite print_gate_name. by left.
Qed.

(** C33. [Dot::print] draws every edge of every gate it is given, from
    the gate to the gate reading it, and every gate without links as a
    lone node, each labelled by its function name and id. *)
Theorem print_complete net order ls v gv :
  print net order = Ok ls → v ∈ order → net !! v = Some gv →
  (∀ w gw, w ∈ links net v → net !! w = Some gw →
     tab +:+ (gs_name (func gv) +:+ pretty v) +:+ " -> " +:+ (gs_name (func gw) +:+ pretty w) +:+ ";"
       ∈ ls) ∧
  (links net v = [] → tab +:+ (gs_name (func gv) +:+ pretty v) +:+ ";" ∈ ls).
Proof.
  unfold print. intros Hp Hv Hgv. inv_ok.
  match goal with Hm : mapM _ _ = Ok _ |- _ => pose proof (mapM_Ok _ _ _ Hm) as Hls end.
  destruct (Forall2_elem_l _ _ _ v Hls Hv) as (lv & Hlv & Hp).
  destruct (print_lines_ok net v lv Hp) as (gv' & Hgv' & Hedge & Hnode).
  rewrite Hgv in Hgv'. injection Hgv' as <-.
  split; [intros w gw Hw Hgw|intros Hnil];
    apply elem_of_cons; right; apply elem_of_app; left; apply list_elem_of_join; exists lv;
    (split; [|done]).
  - destruct (Hedge w Hw) as (gw' & Hgw' & Hl). rewrite Hgw in Hgw'. by injection Hgw' as <-.
  - by apply Hnode.
Qed.

Lemma print_gate_color_ok cg v g : ∃ node, print_gate_color cg v g = Ok node.
Proof.
  unfold print_gate_color. destruct (cg !! v); [|by eexists].
  rewrite (proj2 funcNames_names). simpl. by eexists.
Qed.

Lemma print_color_lines_ok net cg v :
  is_Some (net !! v) → ∃ lv, print_color_lines net cg v = Ok lv ∧ length lv = S (length (links net v)).
Proof.
  intros [g Hg]. unfold print_color_lines.
  assert (Hget : gate_get net v = Ok g) by (unfold gate_get; by rewrite Hg). rewrite Hget. cbn [mbind result_bind].
  destruct (print_gate_color_ok cg v g) as [node ->]. cbn [mbind result_bind].
  destruct (mapM_total (λ w, gw ← gate_get net w; Ok (tab +:+ print_gate v g +:+ " -> " +:+ print_gate w gw +:+ ";"))
    (links net v)) as (edges & -> & Hedges).
  { intros w Hw. apply elem_of_links in Hw as [[gw Hgw] _]. unfold gate_get. rewrite Hgw. simpl. by eexists. }
  eexists. split; [done|]. simpl. by rewrite (Forall2_length _ _ _ Hedges).
Qed.

(** C30. [Dot::printColor] over gates of the net is defined (the
    unchecked [funcNames[gate->func()]] of a matched gate always hits the
    table, and every link leads to a gate) and writes, between its two
    framing lines, one node line per gate and one line per link. *)
Theorem printColor_lines net order cg :
  (∀ v, v ∈ order → is_Some (net !! v)) →
  ∃ ls, printColor net order cg = Ok ls ∧ length ls = 2 + sum_list ((λ v, S (length (links net v))) <$> order).
Proof.
  intros Hin. unfold printColor.
  destruct (mapM_total (print_color_lines net cg) order) as (lss & -> & Hlss).
  { intros v Hv. destruct (print_color_lines_ok net cg v (Hin v Hv)) as (lv & Hlv & _). eauto. }
  eexists. split; [done|]. rewrite !length_app. simpl.
  enough (length (mjoin lss) = sum_list ((λ v, S (length (links net v))) <$> order)) by lia.
  induction Hlss as [|v lv order lss Hlv _ IH]; [done|]. simpl. rewrite length_app, IH by (intros; apply Hin; by right).
  destruct (print_color_lines_ok net cg v) as (lv' & Hlv' & Hlen); [apply Hin; by left|].
  rewrite Hlv in Hlv'. injection Hlv' as <-. by rewrite Hlen.
Qed.

(** ** Scenarios *)

(** [a AND b] *)
Definition net_and : GNet := list_to_map [(1, ⟨IN; []⟩); (2, ⟨IN; []⟩); (3, ⟨AND; [1; 2]⟩)].

(** The whole output of [Dot::print] for [a AND b]: the two edges and
    the output gate, which has no links. *)
Example print_and_scenario :
  print net_and [1; 2; 3] =
  Ok ["digraph substNet {"; tab +:+ "IN1 -> AND3;"; tab +:+ "IN2 -> AND3;"; tab +:+ "AND3;"; "}"].
Proof. vm_compute. reflexivity. Qed.

Lemma print_complete_witness :
  print net_and [1; 2; 3] =
    Ok ["digraph substNet {"; tab +:+ "IN1 -> AND3;"; tab +:+ "IN2 -> AND3;"; tab +:+ "AND3;"; "}"] ∧
  (tab +:+ "IN1 -> AND3;") ∈
    ["digraph substNet {"; tab +:+ "IN1 -> AND3;"; tab +:+ "IN2 -> AND3;"; tab +:+ "AND3;"; "}"].
Proof.
  assert (Hp : print net_and [1; 2; 3] =
    Ok ["digraph substNet {"; tab +:+ "IN1 -> AND3;"; tab +:+ "IN2 -> AND3;"; tab +:+ "AND3;"; "}"])
    by (vm_compute; reflexivity).
  split; [exact Hp|].
  exact (proj1 (print_complete net_and [1; 2; 3] _ 1 ⟨IN; []⟩ Hp ltac:(by left) ltac:(reflexivity))
    3 ⟨AND; [1; 2]⟩ ltac:(vm_compute; by left) ltac:(reflexivity)).
Defined.

Lemma printColor_lines_witness :
  (∀ v, v ∈ [1; 2; 3] → is_Some (net_and !! v)) ∧
  ∃ ls, printColor net_and [1; 2; 3] {[3 := 7]} = Ok ls ∧ length ls = 7.
Proof.
  assert (Hin : ∀ v, v ∈ [1; 2; 3] → is_Some (net_and !! v)).
  { apply Forall_forall. do 3 (constructor; [vm_compute; by eexists|]). constructor. }
  split; [exact Hin|].
  destruct (printColor_lines net_and [1; 2; 3] {[3 := 7]} Hin) as (ls & Hls & Hlen).
  exists ls. split; [exact Hls|]. rewrite Hlen. vm_compute. reflexivity.
Defined.
