(* ===== verification/Scenario.v ===== *)
(** * The synthesis scenario optimizer ([synthesis_scenario_optimizer.cpp])

    [SynthesisScenarioOptimizer] keeps a net, its [PlainParameters] and
    a map from scenario names to synthesis steps.  [readSynthesisScenarios]
    reads lines [name:steps] with [std::getline]; [collectParameters]
    runs the parameters collector; [evaluateAndSelectBestScenarios] asks
    the Python predictor for the quality of every scenario, sorts them by
    decreasing quality with [std::sort] and writes the [k] best as lines
    [name: steps].

    A stream is the string of its remaining characters; a file that
    cannot be opened reads as [None] (an [ifstream] that is not open
    fails its first [getline]); whether the output file opens is an
    oracle [can_open], and the writes to one that does not are lost.
    The Python module is an oracle
    [predictor] returning a [PyOutcome]: the interpreter calls are FFI.
    [std::sort] is an interface, the class [StdSort] with the guarantees
    of the standard ([StdSortLaws]: a sorted permutation when the
    comparator is a strict weak ordering of the elements), and a
    comparator that is not one is undefined behaviour ([Undef]).  The
    insertion sort [isort] is an instance, used by the scenarios. *)

From Stdlib Require Import Floats.
From stdpp Require Import strings sorting.
From S2P Require Import Prelude Gnet Params.

Local Open Scope string_scope.

(** ** Characters *)

Definition newline : Ascii.ascii := Ascii.ascii_of_nat 10.
Definition colon : Ascii.ascii := Ascii.ascii_of_nat 58.
Definition space : Ascii.ascii := Ascii.ascii_of_nat 32.

(** Whether a character occurs in a string. *)
Fixpoint has_char (c : Ascii.ascii) (s : string) : bool :=
  match s with
  | EmptyString => false
  | String c' s' => Ascii.eqb c' c || has_char c s'
  end.

(** ** Reading the scenarios *)

(** [std::getline(is, str, delim)] on the remaining characters [s] of a
    stream: [None] when nothing can be extracted (the stream is at its
    end), otherwise the characters before the first [delim] and what
    follows it; the delimiter is extracted and discarded. *)
Fixpoint getline (delim : Ascii.ascii) (s : string) : option (string * string) :=
  match s with
  | EmptyString => None
  | String c s' =>
      if Ascii.eqb c delim then Some (EmptyString, s')
      else match getline delim s' with
           | Some (w, r) => Some (String c w, r)
           | None => Some (String c EmptyString, EmptyString)
           end
  end.

(** The body of the loop of [readSynthesisScenarios] on one [line]:
    [std::getline(iss, name, ':') && std::getline(iss, steps)], then
    [scenarios[name] = steps]. *)
Definition read_line (scenarios : gmap string string) (line : string) : gmap string string :=
  match getline colon line with
  | Some (name, rest) =>
      match getline newline rest with
      | Some (steps, _) => <[name := steps]> scenarios
      | None => scenarios
      end
  | None => scenarios
  end.

(** [while (std::getline(infile, line))], on fuel. *)
Fixpoint read_loop (fuel : nat) (s : string) (scenarios : gmap string string) :
    Result (gmap string string) :=
  match getline newline s with
  | None => Ok scenarios
  | Some (line, rest) =>
      match fuel with
      | O => OutOfFuel
      | S fuel' => read_loop fuel' rest (read_line scenarios line)
      end
  end.

(** [SynthesisScenarioOptimizer::readSynthesisScenarios]: the file's
    contents, [None] when it cannot be opened; one unit of fuel per
    character. *)
Definition readSynthesisScenarios (file : option string) (scenarios : gmap string string) :
    Result (gmap string string) :=
  match file with
  | Some s => read_loop (String.length s) s scenarios
  | None => Ok scenarios
  end.

(** ** The optimizer's state *)

(** The fields of [SynthesisScenarioOptimizer].  [net] is set by
    [readGraphML] or [readVerilog], whose parsers are not modelled. *)
Record Optimizer := mkOptimizer {
  net : GNet;
  parameters : PlainParameters;
  scenarios : gmap string string;
}.

(** [SynthesisScenarioOptimizer::collectParameters]: a fresh collector
    runs [collect] over [gates()] in the order [order].  Its record
    starts indeterminate; [collect] writes every field, so the record
    passed in does not matter (the optimizer's own is used). *)
Definition collectParameters (order : list GateId) (st : Optimizer) : Optimizer :=
  mkOptimizer (net st) (collect (net st) order (parameters st)) (scenarios st).

(** [readSynthesisScenarios] as an operation on the optimizer. *)
Definition read_scenarios (file : option string) (st : Optimizer) : Result Optimizer :=
  sc ← readSynthesisScenarios file (scenarios st);
  Ok (mkOptimizer (net st) (parameters st) sc).

(** ** [std::sort] *)

(** The comparator is a strict weak ordering of the elements of [l]:
    irreflexive, asymmetric and negatively transitive. *)
Definition swo_b {A} (lt : A → A → bool) (l : list A) : bool :=
  forallb (λ a, forallb (λ b, forallb (λ c,
    negb (lt a a) && (negb (lt a b) || negb (lt b a)) && (negb (lt a c) || lt a b || lt b c))
    l) l) l.

(** The sorting routine of the standard library. *)
Class StdSort := std_sort : ∀ {A}, (A → A → bool) → list A → list A.

(** What the standard guarantees of [std::sort(first, last, comp)] when
    [comp] is a strict weak ordering: a permutation in which no element
    is [comp]-less than one before it. *)
Class StdSortLaws `{StdSort} := {
  std_sort_perm {A} (lt : A → A → bool) l : swo_b lt l = true → std_sort lt l ≡ₚ l;
  std_sort_sorted {A} (lt : A → A → bool) l : swo_b lt l = true →
    StronglySorted (λ a b, lt b a = false) (std_sort lt l)
}.

(** An insertion sort, an implementation of [std::sort]. *)
Fixpoint isort_insert {A} (lt : A → A → bool) (x : A) (l : list A) : list A :=
  match l with
  | [] => [x]
  | y :: l' => if lt x y then x :: l else y :: isort_insert lt x l'
  end.

Fixpoint isort {A} (lt : A → A → bool) (l : list A) : list A :=
  match l with
  | [] => []
  | x :: l' => isort_insert lt x (isort lt l')
  end.

#[export] Instance isort_std_sort : StdSort := @isort.

(** ** Evaluation and selection *)

(** What the embedded interpreter yields for [predict_quality]. *)
Inductive PyOutcome :=
| ModuleMissing        (** [PyImport_Import] returned [nullptr] *)
| FunctionMissing      (** no callable [predict_quality] *)
| CallFailed           (** [PyObject_CallObject] returned [nullptr] *)
| Returned (v : float) (** [PyFloat_AsDouble] of the result *).

Section Select.
Context `{StdSort}.
(** The Python function [synthesis_predictor.predict_quality], on the
    tuple [(numInputs, numOutputs, numAnds, numInvertedEdges,
    longestPath)] and the scenario's steps. *)
Context (predictor : Z * Z * Z * Z * Z → string → PyOutcome).

(** [SynthesisScenarioOptimizer::predictScenarioQuality]: [-1.0] on every
    failure of the interpreter. *)
Definition predictScenarioQuality (p : PlainParameters) (scenario : string) : float :=
  match predictor (numInputs p, numOutputs p, numAnds p, numInvertedEdges p, longestPath p) scenario with
  | Returned v => v
  | _ => (-1)%float
  end.

(** [SynthesisScenarioOptimizer::evaluateScenarios], over the map in its
    iteration order. *)
Definition evaluateScenarios (st : Optimizer) : list (string * float) :=
  (λ '(name, steps), (name, predictScenarioQuality (parameters st) steps)) <$> map_to_list (scenarios st).

(** The comparator [a.second > b.second]. *)
Definition better (a b : string * float) : bool := PrimFloat.ltb b.2 a.2.

(** The results after [std::sort]. *)
Definition ranked (st : Optimizer) : list (string * float) := std_sort better (evaluateScenarios st).

(** The bound [std::min(k, static_cast<int>(results.size()))] of the
    writing loop, as a count (a negative bound writes nothing). *)
Definition bound (k : Z) (st : Optimizer) : nat :=
  Z.to_nat (Z.min k (Z.of_nat (length (evaluateScenarios st)))).

(** The scenarios written out. *)
Definition selected (k : Z) (st : Optimizer) : list (string * float) := take (bound k st) (ranked st).

(** [scenarios[name]]: [operator[]] inserts an empty entry for a missing
    name. *)
Definition scenario_index (sc : gmap string string) (name : string) : string * gmap string string :=
  match sc !! name with
  | Some s => (s, sc)
  | None => (EmptyString, <[name := EmptyString]> sc)
  end.

(** The writing loop: one line [name: steps] per result. *)
Fixpoint write_best (sc : gmap string string) (best : list (string * float)) : string * gmap string string :=
  match best with
  | [] => (EmptyString, sc)
  | (name, _) :: best' =>
      let '(steps, sc1) := scenario_index sc name in
      let '(out, sc2) := write_best sc1 best' in
      (name +:+ ": " +:+ steps +:+ String newline EmptyString +:+ out, sc2)
  end.

(** [SynthesisScenarioOptimizer::evaluateAndSelectBestScenarios(k,
    outputFile)]: the contents of the output file ([None] when
    [std::ofstream outfile(outputFile)] fails to open, [can_open] being
    the oracle of the file system: the writes to the failed stream are
    lost, but [scenarios[...]] is still evaluated) and the new state;
    [Undef] when the comparator is not a strict weak ordering of the
    results. *)
Definition evaluateAndSelectBestScenarios (can_open : string → bool) (k : Z) (outputFile : string)
    (st : Optimizer) : Result (option string * Optimizer) :=
  if swo_b better (evaluateScenarios st) then
    let '(out, sc) := write_best (scenarios st) (selected k st) in
    Ok (if can_open outputFile then Some out else None, mkOptimizer (net st) (parameters st) sc)
  else Undef.
End Select.

(** ** Reading: [getline] *)

(** A scenario map as [readSynthesisScenarios] builds it: names without
    [':'] or newline, non-empty steps without newline. *)
Definition scenarios_ok (sc : gmap string string) : Prop :=
  map_Forall (λ name steps, has_char colon name = false ∧ has_char newline name = false ∧
                            has_char newline steps = false ∧ steps ≠ EmptyString) sc.

Lemma has_char_cons c c' s : has_char c (String c' s) = false ↔ c' ≠ c ∧ has_char c s = false.
Proof. simpl. rewrite orb_false_iff, Ascii.eqb_neq. done. Qed.

Lemma has_char_app c s1 s2 : has_char c (s1 +:+ s2) = has_char c s1 || has_char c s2.
Proof. induction s1 as [|c' s1 IH]; simpl; [done|]. by rewrite IH, orb_assoc. Qed.

Lemma getline_shorter d s w r : getline d s = Some (w, r) → (String.length r < String.length s)%nat.
Proof.
  revert w r. induction s as [|c s IH]; intros w r; simpl; [done|].
  destruct (Ascii.eqb c d); [intros [= <- <-]; lia|].
  destruct (getline d s) as [[w' r']|] eqn:E; intros [= <- <-]; [specialize (IH _ _ eq_refl)|]; simpl; lia.
Qed.

(** The line extracted has no delimiter, and what is extracted keeps the
    characters the stream lacks. *)
Lemma getline_free d c s w r :
  getline d s = Some (w, r) →
  has_char d w = false ∧ (has_char c s = false → has_char c w = false ∧ has_char c r = false).
Proof.
  revert w r. induction s as [|c' s IH]; intros w r; simpl; [done|].
  destruct (Ascii.eqb c' d) eqn:Ed.
  - intros [= <- <-]. split; [done|]. intros Hc. apply orb_false_iff in Hc. split; [done|]. apply Hc.
  - destruct (getline d s) as [[w' r']|] eqn:E; intros [= <- <-]; simpl.
    + destruct (IH _ _ eq_refl) as [Hw IH']. rewrite Ed, Hw. split; [done|].
      intros Hc. apply orb_false_iff in Hc as [Hc1 Hc2]. destruct (IH' Hc2) as [H1 H2]. by rewrite Hc1, H1.
    + rewrite Ed. split; [done|]. intros Hc. apply orb_false_iff in Hc as [Hc1 _]. by rewrite Hc1.
Qed.

Lemma getline_nodelim d s : has_char d s = false → s ≠ EmptyString → getline d s = Some (s, EmptyString).
Proof.
  induction s as [|c s IH]; simpl; [done|]. rewrite orb_false_iff. intros [-> Hs] _.
  destruct s as [|c' s']; [done|]. by rewrite IH.
Qed.

Lemma getline_app_delim d w r : has_char d w = false → getline d (w +:+ String d r) = Some (w, r).
Proof.
  induction w as [|c w IH]; simpl.
  - by rewrite Ascii.eqb_refl.
  - rewrite orb_false_iff. intros [-> Hw]. by rewrite IH.
Qed.

Lemma getline_app_free d w r w' r' :
  has_char d w = false → getline d r = Some (w', r') → getline d (w +:+ r) = Some (w +:+ w', r').
Proof.
  induction w as [|c w IH]; simpl; [done|].
  rewrite orb_false_iff. intros [-> Hw] Hr. by rewrite IH.
Qed.

(** One line of a file: a newline-free [line] gives what [scenarios_ok]
    allows. *)
Lemma read_line_ok sc line :
  has_char newline line = false → scenarios_ok sc → scenarios_ok (read_line sc line).
Proof.
  intros Hl Hsc. unfold read_line.
  destruct (getline colon line) as [[name rest]|] eqn:E1; [|done].
  destruct (getline_free _ newline _ _ _ E1) as [Hn Hfree]. destruct (Hfree Hl) as [Hn' Hr].
  destruct (getline newline rest) as [[steps r]|] eqn:E2; [|done].
  assert (rest ≠ EmptyString) by (intros ->; done).
  rewrite getline_nodelim in E2 by done. injection E2 as <- <-.
  by apply map_Forall_insert_2.
Qed.

Lemma read_loop_ok fuel s sc :
  (String.length s ≤ fuel)%nat → scenarios_ok sc →
  ∃ sc', read_loop fuel s sc = Ok sc' ∧ scenarios_ok sc'.
Proof.
  revert s sc. induction fuel as [|fuel IH]; intros s sc Hlen Hsc; simpl;
    destruct (getline newline s) as [[line rest]|] eqn:E; eauto.
  - pose proof (getline_shorter _ _ _ _ E). lia.
  - pose proof (getline_shorter _ _ _ _ E). apply IH; [lia|].
    apply read_line_ok; [exact (proj1 (getline_free _ newline _ _ _ E))|done].
Qed.

Lemma space_newline : space ≠ newline.
Proof. by vm_compute. Qed.

Lemma colon_newline : colon ≠ newline.
Proof. by vm_compute. Qed.

(** A line [name:steps] with a name free of [':'] and non-empty steps
    stores the steps under the name. *)
Lemma read_line_entry m name steps :
  has_char colon name = false → has_char newline steps = false → steps ≠ EmptyString →
  read_line m (name +:+ String colon steps) = <[name := steps]> m.
Proof.
  intros Hc Hs Hne. unfold read_line. rewrite getline_app_delim by done.
  by rewrite getline_nodelim.
Qed.

(** A line [name: steps] as the writer prints it is read as the name
    and the steps with the space in front. *)
Lemma read_line_written m name s :
  has_char colon name = false → has_char newline s = false →
  read_line m (name +:+ String colon (String space s)) = <[name := String space s]> m.
Proof.
  intros Hc Hs. apply read_line_entry; [done| |done].
  apply has_char_cons. split; [apply space_newline|done].
Qed.

(** The contents of a file whose lines are [lines], each ended by a
    newline. *)
Definition file_of (lines : list string) : string := foldr (λ l acc, l +:+ String newline acc) EmptyString lines.

Lemma string_length_app s1 s2 : String.length (s1 +:+ s2) = (String.length s1 + String.length s2)%nat.
Proof. induction s1 as [|c s1 IH]; simpl; [done|by rewrite IH]. Qed.

Lemma file_of_length lines : (length lines ≤ String.length (file_of lines))%nat.
Proof. induction lines as [|l lines IH]; simpl; [lia|]. rewrite string_length_app. simpl. lia. Qed.

Lemma read_loop_lines fuel lines sc :
  Forall (λ l, has_char newline l = false) lines → (length lines ≤ fuel)%nat →
  read_loop fuel (file_of lines) sc = Ok (foldl read_line sc lines).
Proof.
  revert fuel sc. induction lines as [|l lines IH]; intros fuel sc Hl Hlen; [by destruct fuel|].
  apply Forall_cons in Hl as [Hl1 Hl]. simpl in Hlen. destruct fuel as [|fuel]; [lia|].
  cbn [read_loop file_of foldr]. rewrite getline_app_delim by done. apply IH; [done|lia].
Qed.

(** ** [std::sort]: the insertion sort keeps the laws *)

(** [swo_b] as a proposition. *)
Definition swo_on {A} (lt : A → A → bool) (l : list A) : Prop :=
  ∀ a b c, a ∈ l → b ∈ l → c ∈ l →
    lt a a = false ∧ (lt a b = true → lt b a = false) ∧ (lt a c = true → lt a b = true ∨ lt b c = true).

Lemma swo_b_spec {A} (lt : A → A → bool) l : swo_b lt l = true → swo_on lt l.
Proof.
  intros Hs a b c Ha Hb Hc. apply list_elem_of_In in Ha, Hb, Hc.
  pose proof (proj1 (forallb_forall _ _) Hs a Ha) as Ha'.
  pose proof (proj1 (forallb_forall _ _) Ha' b Hb) as Hb'.
  pose proof (proj1 (forallb_forall _ _) Hb' c Hc) as Hc'.
  destruct (lt a a), (lt a b), (lt b a), (lt a c), (lt b c); simpl in Hc'; try discriminate;
    split_and!; intros; first [done | by left | by right].
Qed.

Lemma swo_on_sub {A} (lt : A → A → bool) l l' : (∀ x, x ∈ l → x ∈ l') → swo_on lt l' → swo_on lt l.
Proof. intros Hsub Hs a b c Ha Hb Hc. apply Hs; auto. Qed.

Lemma isort_insert_perm {A} (lt : A → A → bool) x l : isort_insert lt x l ≡ₚ x :: l.
Proof.
  induction l as [|y l IH]; simpl; [done|]. destruct (lt x y); [done|].
  rewrite IH. apply Permutation_swap.
Qed.

Lemma isort_perm {A} (lt : A → A → bool) l : isort lt l ≡ₚ l.
Proof. induction l as [|x l IH]; simpl; [done|]. by rewrite isort_insert_perm, IH. Qed.

Lemma isort_insert_sorted {A} (lt : A → A → bool) x l :
  swo_on lt (x :: l) → StronglySorted (λ a b, lt b a = false) l →
  StronglySorted (λ a b, lt b a = false) (isort_insert lt x l).
Proof.
  induction l as [|y l IH]; intros Hswo Hs; simpl.
  - repeat constructor.
  - apply StronglySorted_inv in Hs as [Hs Hy]. rewrite Forall_forall in Hy.
    destruct (lt x y) eqn:Hxy.
    + constructor; [by constructor; [|apply Forall_forall]|]. apply Forall_forall.
      intros z [->|Hz]%elem_of_cons.
      * exact (proj1 (proj2 (Hswo x y x ltac:(set_solver) ltac:(set_solver) ltac:(set_solver))) Hxy).
      * destruct (lt z x) eqn:Hzx; [|done].
        destruct (proj2 (proj2 (Hswo z y x ltac:(set_solver) ltac:(set_solver) ltac:(set_solver))) Hzx)
          as [Hzy|Hyx].
        -- by rewrite (Hy z Hz) in Hzy.
        -- by rewrite (proj1 (proj2 (Hswo x y x ltac:(set_solver) ltac:(set_solver) ltac:(set_solver))) Hxy) in Hyx.
    + constructor.
      * apply IH; [|done]. apply (swo_on_sub _ _ (x :: y :: l)); [set_solver|done].
      * apply Forall_forall. intros z Hz. rewrite isort_insert_perm in Hz.
        apply elem_of_cons in Hz as [->|Hz]; [done|by apply Hy].
Qed.

Lemma isort_sorted {A} (lt : A → A → bool) l :
  swo_on lt l → StronglySorted (λ a b, lt b a = false) (isort lt l).
Proof.
  induction l as [|x l IH]; intros Hswo; simpl; [constructor|].
  apply isort_insert_sorted.
  - apply (swo_on_sub _ _ (x :: l)); [|done]. intros z. by rewrite isort_perm.
  - apply IH. apply (swo_on_sub _ _ (x :: l)); [set_solver|done].
Qed.

#[export] Instance isort_laws : StdSortLaws.
Proof. split; intros A lt l Hs; [apply isort_perm|apply isort_sorted, swo_b_spec, Hs]. Qed.

(** ** Evaluation and selection *)

Lemma StronglySorted_take_drop {A} (R : A → A → Prop) l n a b :
  StronglySorted R l → a ∈ take n l → b ∈ drop n l → R a b.
Proof.
  revert n. induction l as [|x l IH]; intros n Hs Ha Hb.
  - destruct n; simpl in Ha; by apply elem_of_nil in Ha.
  - destruct n as [|n]; simpl in Ha, Hb; [by apply elem_of_nil in Ha|].
    apply StronglySorted_inv in Hs as [Hs Hx]. apply elem_of_cons in Ha as [->|Ha].
    + rewrite Forall_forall in Hx. apply Hx. rewrite <-(take_drop n l). apply elem_of_app. by right.
    + eapply IH; eauto.
Qed.

Lemma elem_of_evaluateScenarios pr st a :
  a ∈ evaluateScenarios pr st →
  ∃ steps, scenarios st !! a.1 = Some steps ∧ a.2 = predictScenarioQuality pr (parameters st) steps.
Proof.
  unfold evaluateScenarios. intros ([name steps] & -> & Hin)%list_elem_of_fmap.
  apply elem_of_map_to_list in Hin. eauto.
Qed.

Lemma evaluateScenarios_elem pr st name steps :
  scenarios st !! name = Some steps →
  (name, predictScenarioQuality pr (parameters st) steps) ∈ evaluateScenarios pr st.
Proof.
  intros Hs. unfold evaluateScenarios. apply list_elem_of_fmap.
  exists (name, steps). split; [done|]. by apply elem_of_map_to_list.
Qed.

Section Laws.
Context `{StdSortLaws}.

Lemma selected_elem pr k st a :
  swo_b better (evaluateScenarios pr st) = true →
  a ∈ selected pr k st → a ∈ evaluateScenarios pr st.
Proof.
  intros Hswo Ha. unfold selected, ranked in Ha.
  rewrite <-(std_sort_perm better _ Hswo). rewrite <-(take_drop (bound pr k st) (std_sort better _)).
  apply elem_of_app. by left.
Qed.

Lemma write_best_keys sc best :
  (∀ a, a ∈ best → is_Some (sc !! a.1)) → (write_best sc best).2 = sc.
Proof.
  induction best as [|[name q] best IH]; intros Hk; simpl; [done|].
  destruct (Hk (name, q) ltac:(set_solver)) as [s Hs]. unfold scenario_index. simpl in Hs. rewrite Hs.
  specialize (IH (λ a Ha, Hk a ltac:(set_solver))). by destruct (write_best sc best); simpl in *.
Qed.

(** Reading back what the writing loop prints gives every written name
    with its steps behind the space that follows [':']. *)
Lemma read_written fuel m sc best :
  (∀ a, a ∈ best → is_Some (sc !! a.1)) → scenarios_ok sc →
  (String.length (write_best sc best).1 ≤ fuel)%nat →
  read_loop fuel (write_best sc best).1 m =
    Ok (foldl (λ m a, <[a.1 := String space (default EmptyString (sc !! a.1))]> m) m best).
Proof.
  revert fuel m. induction best as [|[name q] best IH]; intros fuel m Hk Hsc Hlen; [by destruct fuel|].
  destruct (Hk (name, q) ltac:(set_solver)) as [s Hs]. simpl in Hs.
  destruct (Hsc _ _ Hs) as (Hc & Hn & Hs1 & _).
  simpl in *. unfold scenario_index in *. rewrite Hs in *.
  destruct (write_best sc best) as [out sc2] eqn:Ew. simpl in *. try rewrite Ew in IH. simpl in IH.
  assert (Hg : getline newline (name +:+ ": " +:+ s +:+ String newline EmptyString +:+ out) =
                 Some (name +:+ String colon (String space s), out)).
  { apply getline_app_free; [done|].
    refine (getline_app_delim newline (String colon (String space s)) out _).
    apply has_char_cons. split; [apply colon_newline|]. apply has_char_cons. by split; [apply space_newline|]. }
  pose proof (getline_shorter _ _ _ _ Hg) as Hshort.
  destruct fuel as [|fuel]; [lia|]. cbn [read_loop]. rewrite Hg, read_line_written by done.
  apply IH; [intros a Ha; apply Hk; set_solver|done|lia].
Qed.

Lemma foldl_insert_lookup {B} (f : string → string) (m : gmap string string) (l : list (string * B)) name :
  foldl (λ m a, <[a.1 := f a.1]> m) m l !! name =
    if bool_decide (name ∈ l.*1) then Some (f name) else m !! name.
Proof.
  revert m. induction l as [|[n b] l IH]; intros m; simpl; [done|]. rewrite IH.
  destruct (decide (n = name)) as [->|Hne]; [rewrite lookup_insert_eq|rewrite lookup_insert_ne by done];
    repeat case_bool_decide; set_solver.
Qed.
End Laws.

(** A NaN is unordered: [<] is false on both sides. *)
Lemma is_nan_ltb q x : is_nan q = true → PrimFloat.ltb q x = false ∧ PrimFloat.ltb x q = false.
Proof.
  unfold is_nan. rewrite FloatAxioms.eqb_spec, !FloatAxioms.ltb_spec.
  destruct (Prim2SF q) as [s|s| |s m e]; simpl.
  - discriminate.
  - destruct s; discriminate.
  - intros _. split; [done|]. by destruct (Prim2SF x).
  - destruct s; unfold SFeqb, SFcompare; rewrite Z.compare_refl, Pos.compare_cont_refl; simpl; discriminate.
Qed.

#[export] Instance scenarios_ok_dec sc : Decision (scenarios_ok sc).
Proof. unfold scenarios_ok. apply _. Defined.

(** ** Properties *)

(** C34. [readSynthesisScenarios] terminates without exhausting its fuel,
    one unit per character of the file, and keeps the shape of the
    map: every name is free of [':'] and newlines, every steps string is
    non-empty and free of newlines. *)
Theorem readSynthesisScenarios_ok file sc :
  scenarios_ok sc → ∃ sc', readSynthesisScenarios file sc = Ok sc' ∧ scenarios_ok sc'.
Proof. intros Hsc. destruct file as [s|]; simpl; [apply read_loop_ok; [lia|done]|eauto]. Qed.

(** C31. [readSynthesisScenarios] reads a file line by line: on a
    file of newline-terminated lines it applies the body of its loop to
    every line in order (one unit of fuel per character suffices), and
    that body stores a line [name:steps] whose name has no [':'] and
    whose steps are non-empty under that name, replacing an earlier
    entry. *)
Theorem readSynthesisScenarios_lines lines sc :
  Forall (λ l, has_char newline l = false) lines →
  readSynthesisScenarios (Some (file_of lines)) sc = Ok (foldl read_line sc lines) ∧
  ∀ m name steps, has_char colon name = false → has_char newline steps = false → steps ≠ EmptyString →
    read_line m (name +:+ String colon steps) = <[name := steps]> m.
Proof.
  intros Hl. split; [|apply read_line_entry]. apply read_loop_lines; [done|apply file_of_length].
Qed.

Section Properties.
Context `{StdSortLaws}.

(** C35. [evaluateAndSelectBestScenarios] writes [min(k, #scenarios)]
    scenarios (none for a negative [k]), each with the quality the
    predictor gives its steps, and no scenario left out has a strictly
    higher quality than one written, whatever [std::sort] does with
    ties. *)
Theorem select_best pr can_open k file st out st' :
  evaluateAndSelectBestScenarios pr can_open k file st = Ok (out, st') →
  length (selected pr k st) = Z.to_nat (Z.min k (Z.of_nat (map_size (scenarios st)))) ∧
  (∀ a, a ∈ selected pr k st →
     ∃ steps, scenarios st !! a.1 = Some steps ∧ a.2 = predictScenarioQuality pr (parameters st) steps) ∧
  ∃ rest, selected pr k st ++ rest ≡ₚ evaluateScenarios pr st ∧
    ∀ a b, a ∈ selected pr k st → b ∈ rest → PrimFloat.ltb a.2 b.2 = false.
Proof.
  unfold evaluateAndSelectBestScenarios. destruct (swo_b better _) eqn:Hswo; [intros _|done].
  assert (Hlen : length (evaluateScenarios pr st) = map_size (scenarios st))
    by (unfold evaluateScenarios; by rewrite length_fmap, length_map_to_list).
  split_and!.
  - unfold selected, bound, ranked. rewrite length_take, (Permutation_length (std_sort_perm better _ Hswo)), Hlen. lia.
  - intros a Ha. apply elem_of_evaluateScenarios. by eapply selected_elem.
  - exists (drop (bound pr k st) (ranked pr st)). split.
    + unfold selected. rewrite take_drop. apply std_sort_perm, Hswo.
    + intros a b Ha Hb. exact (StronglySorted_take_drop _ _ _ a b (std_sort_sorted better _ Hswo) Ha Hb).
Qed.

(** C36. Round trip of the scenario file: the file written by
    [evaluateAndSelectBestScenarios], read back by
    [readSynthesisScenarios], gives exactly the written names, but each
    with its steps behind a space: the writer prints [name: steps] and
    the reader splits at [':'] only.  The optimizer's state is
    unchanged. *)
Theorem written_read_back pr can_open k file st out st' :
  scenarios_ok (scenarios st) →
  evaluateAndSelectBestScenarios pr can_open k file st = Ok (Some out, st') →
  st' = st ∧
  ∃ back, readSynthesisScenarios (Some out) ∅ = Ok back ∧
    ∀ name steps, back !! name = Some steps ↔
      name ∈ (selected pr k st).*1 ∧ ∃ s, scenarios st !! name = Some s ∧ steps = String space s.
Proof.
  intros Hok. unfold evaluateAndSelectBestScenarios. destruct (swo_b better _) eqn:Hswo; [|done].
  assert (Hk : ∀ a, a ∈ selected pr k st → is_Some (scenarios st !! a.1)).
  { intros a Ha. destruct (elem_of_evaluateScenarios pr st a (selected_elem pr k st a Hswo Ha)) as (s & Hs & _).
    by eexists. }
  pose proof (write_best_keys _ _ Hk) as Hsc.
  pose proof (read_written (String.length (write_best (scenarios st) (selected pr k st)).1) ∅ _ _ Hk Hok
    ltac:(lia)) as Hread.
  destruct (write_best (scenarios st) (selected pr k st)) as [out0 sc0]. simpl in Hsc, Hread. subst sc0.
  destruct (can_open file); [|done]. intros [= <- <-]. split; [by destruct st|].
  eexists. split; [exact Hread|]. intros name steps. rewrite (foldl_insert_lookup (λ n, String space (default EmptyString (scenarios st !! n)))), lookup_empty.
  case_bool_decide as Hin.
  - destruct (proj1 (list_elem_of_fmap _ _ _) Hin) as (a & -> & Ha). destruct (Hk a Ha) as [s Hs].
    rewrite Hs. simpl. split; [intros [= <-]; eauto|intros (_ & s' & Hs' & ->); congruence].
  - split; [done|]. intros [? _]. contradiction.
Qed.
End Properties.

(** C37. A NaN quality is undefined behaviour: with a NaN and two
    ordered qualities among the results, the comparator [a.second >
    b.second] is not a strict weak ordering, whatever [k] is. *)
Theorem select_nan_undef `{StdSort} pr can_open k file st n0 s0 n1 s1 n2 s2 :
  scenarios st !! n0 = Some s0 → scenarios st !! n1 = Some s1 → scenarios st !! n2 = Some s2 →
  is_nan (predictScenarioQuality pr (parameters st) s0) = true →
  PrimFloat.ltb (predictScenarioQuality pr (parameters st) s1) (predictScenarioQuality pr (parameters st) s2) = true →
  evaluateAndSelectBestScenarios pr can_open k file st = Undef.
Proof.
  intros H0 H1 H2 Hnan Hlt. unfold evaluateAndSelectBestScenarios.
  destruct (swo_b better _) eqn:Hswo; [exfalso|done].
  destruct (proj2 (proj2 (swo_b_spec _ _ Hswo _ _ _ (evaluateScenarios_elem pr st _ _ H2)
    (evaluateScenarios_elem pr st _ _ H0) (evaluateScenarios_elem pr st _ _ H1))) Hlt) as [Hb|Hb];
    unfold better in Hb; simpl in Hb.
  - by rewrite (proj1 (is_nan_ltb _ _ Hnan)) in Hb.
  - by rewrite (proj2 (is_nan_ltb _ _ Hnan)) in Hb.
Qed.

(** ** Scenarios *)

(** A scenario file with two scenarios, a line without [':'] and a line
    with no steps. *)
Definition scenario_file : string :=
  "balance:b; rw" +:+ String newline ("resyn:rw; rf; b" +:+ String newline
  ("bad line" +:+ String newline ("empty:" +:+ String newline EmptyString))).

Definition opt0 : Optimizer := mkOptimizer ∅ params0 ∅.

Definition opt1 : Optimizer :=
  mkOptimizer ∅ params0 (<["balance" := "b; rw"]> (<["resyn" := "rw; rf; b"]> ∅)).

(** Reading the file keeps the two well-formed lines and skips the
    others. *)
Example read_scenarios_example : read_scenarios (Some scenario_file) opt0 = Ok opt1.
Proof. vm_compute. reflexivity. Qed.

(** A predictor that prefers [balance]. *)
Definition predictor_q (p : Z * Z * Z * Z * Z) (steps : string) : PyOutcome :=
  Returned (if String.eqb steps "b; rw" then 3%float else 2%float).

(** A predictor that fails on one scenario and returns NaN on another. *)
Definition predictor_nan (p : Z * Z * Z * Z * Z) (steps : string) : PyOutcome :=
  if String.eqb steps "x" then Returned nan
  else if String.eqb steps "y" then CallFailed else Returned 2%float.

Definition opt_nan : Optimizer :=
  mkOptimizer ∅ params0 (<["a" := "x"]> (<["b" := "y"]> (<["c" := "z"]> ∅))).

(** A file system on which every path opens. *)
Definition opens (path : string) : bool := true.

(** The file written for [k = 1]. *)
Definition written1 : string :=
  Eval vm_compute in
    match evaluateAndSelectBestScenarios predictor_q opens 1 "best.txt" opt1 with
    | Ok (Some o, _) => o | _ => EmptyString end.

(** When the output file cannot be opened nothing is written, and the
    state is as after a successful write. *)
Example select_unopened :
  evaluateAndSelectBestScenarios predictor_q (λ _, false) 1 "best.txt" opt1 = Ok (None, opt1).
Proof. vm_compute. reflexivity. Qed.

Lemma readSynthesisScenarios_ok_witness :
  scenarios_ok (scenarios opt1) ∧
  ∃ sc', readSynthesisScenarios (Some written1) (scenarios opt1) = Ok sc' ∧ scenarios_ok sc'.
Proof.
  assert (Hok : scenarios_ok (scenarios opt1)) by vm_decide.
  exact (conj Hok (readSynthesisScenarios_ok (Some written1) _ Hok)).
Defined.

Lemma select_best_witness :
  evaluateAndSelectBestScenarios predictor_q opens 1 "best.txt" opt1 = Ok (Some written1, opt1) ∧
  length (selected predictor_q 1 opt1) = Z.to_nat (Z.min 1 (Z.of_nat (map_size (scenarios opt1)))).
Proof.
  assert (He : evaluateAndSelectBestScenarios predictor_q opens 1 "best.txt" opt1 = Ok (Some written1, opt1))
    by (vm_compute; reflexivity).
  exact (conj He (proj1 (select_best predictor_q opens 1 "best.txt" opt1 (Some written1) opt1 He))).
Defined.

Lemma written_read_back_witness :
  scenarios_ok (scenarios opt1) ∧
  evaluateAndSelectBestScenarios predictor_q opens 1 "best.txt" opt1 = Ok (Some written1, opt1) ∧
  ∃ back, readSynthesisScenarios (Some written1) ∅ = Ok back ∧
    back !! "balance" = Some (String space "b; rw").
Proof.
  assert (Hok : scenarios_ok (scenarios opt1)) by vm_decide.
  assert (He : evaluateAndSelectBestScenarios predictor_q opens 1 "best.txt" opt1 = Ok (Some written1, opt1))
    by (vm_compute; reflexivity).
  destruct (written_read_back predictor_q opens 1 "best.txt" opt1 written1 opt1 Hok He) as (_ & back & Hr & Hiff).
  split; [exact Hok|]. split; [exact He|]. exists back. split; [exact Hr|].
  apply Hiff. split; [vm_decide|]. exists "b; rw". split; reflexivity.
Defined.

Lemma select_nan_undef_witness : evaluateAndSelectBestScenarios predictor_nan opens 1 "best.txt" opt_nan = Undef.
Proof.
  exact (select_nan_undef predictor_nan opens 1 "best.txt" opt_nan "a" "x" "b" "y" "c" "z"
    ltac:(vm_compute; reflexivity) ltac:(vm_compute; reflexivity) ltac:(vm_compute; reflexivity)
    ltac:(vm_compute; reflexivity) ltac:(vm_compute; reflexivity)).
Defined.

Lemma readSynthesisScenarios_lines_witness :
  Forall (λ l, has_char newline l = false) ["balance:b; rw"; "bad line"; "empty:"] ∧
  readSynthesisScenarios (Some (file_of ["balance:b; rw"; "bad line"; "empty:"])) ∅ =
    Ok (<["balance" := "b; rw"]> ∅).
Proof.
  assert (Hl : Forall (λ l, has_char newline l = false) ["balance:b; rw"; "bad line"; "empty:"])
    by (repeat constructor).
  split; [exact Hl|]. rewrite (proj1 (readSynthesisScenarios_lines _ ∅ Hl)). vm_compute. reflexivity.
Defined.
