(* ===== verification/Tracker.v ===== *)
(** * The tracker visitor ([tracker_visitor.h], [tracker_visitor.cpp])

    [TrackerVisitor] wraps a [CutVisitor]: [onNodeBegin] and [onCut]
    delegate, and [onNodeEnd] first prints the whole net to the file
    [subCatalog/onNodeEnd<counter>_<gateId>.dot] with [Dot::print],
    increments its [int counter], then delegates.  The constructor reads
    [UTOPIA_HOME]; [std::string(getenv(...))] is undefined when the
    variable is unset.

    The state of the wrapper is the wrapped visitor's state, the
    counter and the files written ([FS] of [Dot.v]).  The main theorems
    are a simulation: every walk with the tracker computes, on the
    wrapped state, what the walk with the wrapped visitor computes, and
    conversely as long as the counter has room; and an invariant: every
    file it writes is a snapshot of the net named by a counter value of
    the run. *)

From stdpp Require Import strings pretty.
From S2P Require Import Prelude Gnet Util CutStorage Walker Dot.

Local Open Scope string_scope.

(** ** Paths *)

Definition slash : Ascii.ascii := Ascii.ascii_of_nat 47.

(** A POSIX path is absolute when it starts with ['/']. *)
Definition is_absolute (q : string) : bool :=
  match q with String c _ => Ascii.eqb c slash | EmptyString => false end.

(** Whether the path ends with a separator (so has no filename). *)
Fixpoint ends_with_slash (p : string) : bool :=
  match p with
  | EmptyString => false
  | String c EmptyString => Ascii.eqb c slash
  | String _ p' => ends_with_slash p'
  end.

(** [p / q] of [std::filesystem::path] on POSIX: an absolute [q]
    replaces [p]; otherwise a separator is added when [p] has a
    filename (it is non-empty and does not end with ['/']). *)
Definition path_join (p q : string) : string :=
  if is_absolute q then q
  else if bool_decide (p = EmptyString) || ends_with_slash p then p +:+ q
  else p +:+ String slash q.

(** ** The wrapper *)

(** The fields of [TrackerVisitor] that change: the wrapped visitor's
    state, [int counter = 0] and the files written through [dot]. *)
Record Tracker (St : Type) := mkTracker {
  inner : St;
  counter : Z;
  fs : FS;
}.
Arguments mkTracker {St} _ _ _.
Arguments inner {St} _.
Arguments counter {St} _.
Arguments fs {St} _.

(** [TrackerVisitor::TrackerVisitor]: [homePath / subCatalog], with the
    value of [UTOPIA_HOME] ([None] when unset), and the initial state
    over the wrapped visitor's state [s]. *)
Definition TrackerVisitor_new {St} (home : option string) (subCatalog : string) (s : St) :
    Result (string * Tracker St) :=
  h ← of_option home; Ok (path_join h subCatalog, mkTracker s 0 fs0).

(** The file name of [onNodeEnd]. *)
Definition dot_name (counter : Z) (gateId : GateId) : string :=
  "onNodeEnd" +:+ pretty counter +:+ "_" +:+ pretty gateId +:+ ".dot".

Section Tracker.
Context {St : Type} (net : GNet) (order : list GateId) (can_open : string → bool).
Context (subCatalog : string) (visitor : CutVisitor St).

(** [TrackerVisitor::onNodeBegin] *)
Definition tracker_onNodeBegin (gateId : GateId) (t : Tracker St) : Result (VisitorFlags * Tracker St) :=
  '(flag, s') ← onNodeBegin (cv_visitor visitor) gateId (inner t);
  Ok (flag, mkTracker s' (counter t) (fs t)).

(** [TrackerVisitor::onNodeEnd]: print, [++counter] (undefined at
    [INT_MAX]), delegate. *)
Definition tracker_onNodeEnd (gateId : GateId) (t : Tracker St) : Result (VisitorFlags * Tracker St) :=
  fs' ← print_file net can_open order (path_join subCatalog (dot_name (counter t) gateId)) (fs t);
  if bool_decide (counter t = INT_MAX) then Undef else
  '(flag, s') ← onNodeEnd (cv_visitor visitor) gateId (inner t);
  Ok (flag, mkTracker s' (counter t + 1) fs').

(** [TrackerVisitor::onCut] *)
Definition tracker_onCut (node : GateId) (cut : Cut) (t : Tracker St) : Result (VisitorFlags * Tracker St) :=
  '(flag, s') ← onCut visitor node cut (inner t);
  Ok (flag, mkTracker s' (counter t) (fs t)).

Definition tracker : CutVisitor (Tracker St) :=
  {| cv_visitor := {| onNodeBegin := tracker_onNodeBegin; onNodeEnd := tracker_onNodeEnd |};
     onCut := tracker_onCut |}.
End Tracker.

(** ** Simulation of walks *)

Section WalkSim.
Context {A B : Type} (π : B → A).
Context (callA : GateId → A → Result (VisitorFlags * A)) (callB : GateId → B → Result (VisitorFlags * B)).

(** Forward: every call of [callB] is a call of [callA] on the
    projected state. *)
Section Forward.
Hypothesis Hfwd : ∀ n b f b', callB n b = Ok (f, b') → callA n (π b) = Ok (f, π b').

Lemma walk_nodes_fwd nodes b b' :
  walk_nodes callB nodes b = Ok b' → walk_nodes callA nodes (π b) = Ok (π b').
Proof.
  revert b. induction nodes as [|n nodes IH]; intros b H; simpl in *; [by injection H as <-|].
  destruct (callB n b) as [[f b1]| |] eqn:E; simpl in H; try done.
  rewrite (Hfwd _ _ _ _ E). simpl. destruct f; [eauto|eauto|by injection H as <-|eauto].
Qed.

Lemma walk_cone_fwd net forward fuel q acc b b' :
  walk_cone net callB forward fuel q acc b = Ok b' → walk_cone net callA forward fuel q acc (π b) = Ok (π b').
Proof.
  revert q acc b. induction fuel as [|fuel IH]; intros q acc b H; [done|].
  destruct q as [|cur rest]; cbn [walk_cone] in *; [by injection H as <-|].
  case_bool_decide; [|eauto].
  destruct (checkVisited net acc cur forward) as [[]| |]; cbn [mbind result_bind] in *; try done.
  2: { destruct (getNext net cur (negb forward)); cbn [mbind result_bind] in *; try done; eauto. }
  destruct (getNext net cur forward); cbn [mbind result_bind] in *; try done.
  destruct (callB cur b) as [[f b1]| |] eqn:E; cbn [mbind result_bind] in H; try done.
  rewrite (Hfwd _ _ _ _ E). cbn [mbind result_bind]. destruct f; eauto. by injection H as <-.
Qed.
End Forward.

(** Backward, with a budget: a call of [callA] on the projection is a
    call of [callB] while the measure [c] is below [M], and the call
    raises [c] by at most one. *)
Section Backward.
Context (c : B → Z) (M : Z).
Hypothesis Hbwd : ∀ n b f a', callA n (π b) = Ok (f, a') → (c b < M)%Z →
  ∃ b', callB n b = Ok (f, b') ∧ π b' = a' ∧ (c b ≤ c b' ≤ c b + 1)%Z.

Lemma walk_nodes_bwd nodes b a' :
  walk_nodes callA nodes (π b) = Ok a' → (c b + Z.of_nat (length nodes) ≤ M)%Z →
  ∃ b', walk_nodes callB nodes b = Ok b' ∧ π b' = a'.
Proof.
  revert b. induction nodes as [|n nodes IH]; intros b H Hc; simpl in *; [injection H as <-; eauto|].
  destruct (callA n (π b)) as [[f a1]| |] eqn:E; simpl in H; try done.
  destruct (Hbwd _ _ _ _ E ltac:(lia)) as (b1 & Hb1 & <- & Hc1). rewrite Hb1. simpl.
  destruct f; try (apply IH; [done|lia]). injection H as <-. eauto.
Qed.
End Backward.
End WalkSim.

(** ** The tracker's calls *)

Section TrackerCalls.
Context {St : Type} (net : GNet) (order : list GateId) (can_open : string → bool).
Context (subCatalog : string) (visitor : CutVisitor St).
Local Abbreviation T := (tracker net order can_open subCatalog visitor).

Lemma tracker_onCuts_fwd node cs t res t' :
  onCuts T node cs t = Ok (res, t') →
  onCuts visitor node cs (inner t) = Ok (res, inner t') ∧ counter t' = counter t ∧ fs t' = fs t.
Proof.
  revert t. induction cs as [|cut cs IH]; intros t H; simpl in *; [by injection H as <- <-|].
  unfold tracker_onCut in H.
  destruct (onCut visitor node cut (inner t)) as [[f s1]| |]; simpl in *; try done.
  destruct f; try (by injection H as <- <-); by apply IH in H.
Qed.

Lemma tracker_onCuts_bwd node cs t res s' :
  onCuts visitor node cs (inner t) = Ok (res, s') →
  ∃ t', onCuts T node cs t = Ok (res, t') ∧ inner t' = s' ∧ counter t' = counter t ∧ fs t' = fs t.
Proof.
  revert t. induction cs as [|cut cs IH]; intros t H; simpl in *; [injection H as <- <-; eauto|].
  unfold tracker_onCut.
  destruct (onCut visitor node cut (inner t)) as [[f s1]| |]; simpl in *; try done.
  destruct f; try (injection H as <- <-; by eexists); by apply (IH (mkTracker s1 (counter t) (fs t))).
Qed.

Lemma tracker_onNodeEnd_fwd n t f t' :
  tracker_onNodeEnd net order can_open subCatalog visitor n t = Ok (f, t') →
  onNodeEnd (cv_visitor visitor) n (inner t) = Ok (f, inner t').
Proof.
  unfold tracker_onNodeEnd. intros H. apply bind_Ok in H as (fs' & _ & H). case_bool_decide; [done|].
  apply bind_Ok in H as ([f' s1] & He & H). injection H as <- <-. exact He.
Qed.

(** [onNodeEnd] of the tracker is defined when the wrapped one is, the
    net prints and the counter is below [INT_MAX]. *)
Lemma tracker_onNodeEnd_bwd n t f s' :
  ok? print net order → (counter t < INT_MAX)%Z →
  onNodeEnd (cv_visitor visitor) n (inner t) = Ok (f, s') →
  ∃ t', tracker_onNodeEnd net order can_open subCatalog visitor n t = Ok (f, t') ∧
    inner t' = s' ∧ counter t' = (counter t + 1)%Z.
Proof.
  intros [ls Hp] Hc H. unfold tracker_onNodeEnd, print_file.
  destruct (can_open _); [rewrite Hp|]; simpl; rewrite bool_decide_eq_false_2 by lia; rewrite H; by eexists.
Qed.

(** The walker's call ([CutWalker::callVisitor], and the plain
    [Walker::callVisitor] when there is no storage) on the tracker is
    the call on the wrapped visitor. *)
Lemma tracker_call_fwd storage n t f t' :
  cutCallVisitor T storage n t = Ok (f, t') → cutCallVisitor visitor storage n (inner t) = Ok (f, inner t').
Proof.
  unfold cutCallVisitor. cbn [cv_visitor onNodeBegin onNodeEnd tracker]. unfold tracker_onNodeBegin.
  destruct (onNodeBegin (cv_visitor visitor) n (inner t)) as [[f1 s1]| |]; simpl; try done.
  case_bool_decide; [by intros [= <- <-]|].
  destruct storage as [st|]; [|apply tracker_onNodeEnd_fwd].
  destruct (onCuts T n (cuts_of st n) _) as [[res t2]| |] eqn:Ec; simpl; try done.
  destruct (tracker_onCuts_fwd _ _ _ _ _ Ec) as (Hc & _ & _). simpl in Hc. rewrite Hc. simpl.
  destruct res; [by intros [= <- <-]|apply tracker_onNodeEnd_fwd].
Qed.

Lemma tracker_call_bwd storage n t f s' :
  ok? print net order → (counter t < INT_MAX)%Z →
  cutCallVisitor visitor storage n (inner t) = Ok (f, s') →
  ∃ t', cutCallVisitor T storage n t = Ok (f, t') ∧ inner t' = s' ∧
    (counter t ≤ counter t' ≤ counter t + 1)%Z.
Proof.
  intros Hp Hc. unfold cutCallVisitor. cbn [cv_visitor onNodeBegin onNodeEnd tracker]. unfold tracker_onNodeBegin.
  destruct (onNodeBegin (cv_visitor visitor) n (inner t)) as [[f1 s1]| |]; simpl; try done.
  case_bool_decide.
  - intros [= <- <-]. eexists. split_and!; [done|done|simpl; lia..].
  - destruct storage as [st|].
    + destruct (onCuts visitor n (cuts_of st n) s1) as [[res s2]| |] eqn:Ec; simpl; try done.
      destruct (tracker_onCuts_bwd n (cuts_of st n) (mkTracker s1 (counter t) (fs t)) res s2 Ec)
        as (t2 & -> & <- & Hc2 & _). simpl in Hc2. simpl. destruct res.
      * intros [= <- <-]. eexists. split_and!; [done|done|simpl; lia..].
      * intros He. destruct (tracker_onNodeEnd_bwd n t2 f _ Hp ltac:(lia) He) as (t' & -> & <- & Hc').
        eexists. split_and!; [done|done|simpl; lia..].
    + intros He. destruct (tracker_onNodeEnd_bwd n (mkTracker s1 (counter t) (fs t)) f _ Hp Hc He)
        as (t' & -> & <- & Hc'). simpl in Hc'. eexists. split_and!; [done|done|simpl; lia..].
Qed.
End TrackerCalls.

(** ** What the tracker writes *)

Section Snapshots.
Context {St : Type} (net : GNet) (order : list GateId) (can_open : string → bool).
Context (subCatalog : string) (visitor : CutVisitor St).
Local Abbreviation T := (tracker net order can_open subCatalog visitor).

(** The name of the file of [onNodeEnd] at counter [i] for gate [g]. *)
Definition snapshot_path (i : Z) (g : GateId) : string := path_join subCatalog (dot_name i g).

(** Between [t0] and [t] the counter grew, every file written since is
    the printout [ls] of the net under the name of a counter value of
    the run, and every line added to [std::cerr] reports such a name. *)
Definition snapshot_ok (t0 t : Tracker St) (ls : list string) : Prop :=
  (counter t0 ≤ counter t)%Z ∧
  (∀ f l, fs_files (fs t) !! f = Some l →
     fs_files (fs t0) !! f = Some l ∨
     (l = ls ∧ ∃ i g, (counter t0 ≤ i < counter t)%Z ∧ f = snapshot_path i g)) ∧
  ∃ errs, fs_cerr (fs t) = (fs_cerr (fs t0) ++ errs)%list ∧
    ∀ e, e ∈ errs → ∃ i g, (counter t0 ≤ i < counter t)%Z ∧ e = open_failed (snapshot_path i g).

Lemma snapshot_ok_refl t ls : snapshot_ok t t ls.
Proof. split_and!; [lia|by left|exists []; split; [by rewrite app_nil_r|set_solver]]. Qed.

Lemma print_file_effect file fs0' fs' ls :
  print net order = Ok ls → print_file net can_open order file fs0' = Ok fs' →
  fs' = mkFS (<[file := ls]> (fs_files fs0')) (fs_cerr fs0') ∨
  fs' = mkFS (fs_files fs0') (fs_cerr fs0' ++ [open_failed file])%list.
Proof.
  intros Hp. unfold print_file. destruct (can_open file); [rewrite Hp|]; intros [= <-]; auto.
Qed.

Lemma tracker_onNodeEnd_effect n t f t' :
  tracker_onNodeEnd net order can_open subCatalog visitor n t = Ok (f, t') →
  counter t' = (counter t + 1)%Z ∧
  print_file net can_open order (snapshot_path (counter t) n) (fs t) = Ok (fs t').
Proof.
  unfold tracker_onNodeEnd. intros H. apply bind_Ok in H as (fs' & Hf & H). case_bool_decide; [done|].
  apply bind_Ok in H as ([f' s1] & _ & H). by injection H as <- <-.
Qed.

(** A walker call on the tracker either leaves its counter and files
    alone or ends with the tracker's [onNodeEnd] from a state with the
    same counter and files. *)
Lemma tracker_call_cases storage n t f t' :
  cutCallVisitor T storage n t = Ok (f, t') →
  (counter t' = counter t ∧ fs t' = fs t) ∨
  ∃ t2, counter t2 = counter t ∧ fs t2 = fs t ∧
    tracker_onNodeEnd net order can_open subCatalog visitor n t2 = Ok (f, t').
Proof.
  unfold cutCallVisitor. cbn [cv_visitor onNodeBegin onNodeEnd tracker]. unfold tracker_onNodeBegin.
  destruct (onNodeBegin (cv_visitor visitor) n (inner t)) as [[f1 s1]| |]; simpl; try done.
  case_bool_decide; [intros [= <- <-]; by left|].
  destruct storage as [st|]; [|intros He; right; exists (mkTracker s1 (counter t) (fs t)); by split_and!].
  destruct (onCuts T n (cuts_of st n) _) as [[res t2]| |] eqn:Ec; simpl; try done.
  destruct (tracker_onCuts_fwd _ _ _ _ _ _ _ _ _ _ Ec) as (_ & Hc & Hf). simpl in Hc, Hf.
  destruct res; [intros [= <- <-]; by left|intros He; right; exists t2; by split_and!].
Qed.

Lemma snapshot_ok_step storage t0 t n f t' ls :
  print net order = Ok ls → snapshot_ok t0 t ls →
  cutCallVisitor T storage n t = Ok (f, t') → snapshot_ok t0 t' ls.
Proof.
  unfold snapshot_ok. intros Hp (Hc & Hf & errs & He & Herr) Hcall.
  destruct (tracker_call_cases _ _ _ _ _ Hcall) as [[Hc' Hfs]|(t2 & Hc2 & Hf2 & Hend)].
  - rewrite Hc', Hfs. split_and!; eauto.
  - destruct (tracker_onNodeEnd_effect _ _ _ _ Hend) as [Hc' Hpr]. rewrite Hc2, Hf2 in Hpr.
    destruct (print_file_effect _ _ _ _ Hp Hpr) as [Hfs|Hfs]; rewrite Hc', Hfs; simpl; split_and!; try lia.
    + intros file l. destruct (decide (file = snapshot_path (counter t) n)) as [->|Hne].
      * rewrite lookup_insert_eq. intros [= <-]. right. split; [done|]. exists (counter t), n. split; [lia|done].
      * rewrite lookup_insert_ne by done. intros Hl.
        destruct (Hf _ _ Hl) as [?|(-> & i & g & Hi & ->)]; [by left|right; split; [done|]].
        exists i, g. split; [lia|done].
    + exists errs. split; [done|]. intros e He'. destruct (Herr e He') as (i & g & Hi & ->).
      exists i, g. split; [lia|done].
    + intros file l Hl. destruct (Hf _ _ Hl) as [?|(-> & i & g & Hi & ->)]; [by left|right; split; [done|]].
      exists i, g. split; [lia|done].
    + exists (errs ++ [open_failed (snapshot_path (counter t) n)])%list. split; [by rewrite He, app_assoc|].
      intros e Hin. apply elem_of_app in Hin as [Hin|Hin]; [|apply list_elem_of_singleton in Hin as ->].
      * destruct (Herr e Hin) as (i & g & Hi & ->). exists i, g. split; [lia|done].
      * exists (counter t), n. split; [lia|done].
Qed.
End Snapshots.

(** ** Properties *)

Section Properties.
Context {St : Type} (net : GNet) (order : list GateId) (can_open : string → bool).
Context (subCatalog : string) (visitor : CutVisitor St).
Local Abbreviation T := (tracker net order can_open subCatalog visitor).

(** C38. The tracker refines the visitor it wraps: a walk over an
    explicit order ([Walker::walk(bool)], the forward vector walk) with
    [CutWalker]'s call on the tracker computes, on the wrapped state,
    exactly what the walk with the wrapped visitor computes; and when
    the latter is defined, so is the former, provided the net prints
    and the [int] counter has room for one increment per node. *)
Theorem tracker_walk_sim storage nodes t :
  (∀ t', walk_nodes (cutCallVisitor T storage) nodes t = Ok t' →
     walk_nodes (cutCallVisitor visitor storage) nodes (inner t) = Ok (inner t')) ∧
  (∀ s', ok? print net order → (counter t + Z.of_nat (length nodes) ≤ INT_MAX)%Z →
     walk_nodes (cutCallVisitor visitor storage) nodes (inner t) = Ok s' →
     ∃ t', walk_nodes (cutCallVisitor T storage) nodes t = Ok t' ∧ inner t' = s').
Proof.
  split.
  - intros t'. apply walk_nodes_fwd. intros n b f b'. apply tracker_call_fwd.
  - intros s' Hp Hc Hw. refine (walk_nodes_bwd inner _ _ counter INT_MAX _ nodes t s' Hw Hc).
    intros n b f a' Ha Hb. by apply tracker_call_bwd.
Qed.

(** C39. Everything the tracker writes during a walk is a snapshot: each
    file written is the printout of the net by [Dot::print] under the
    name [subCatalog/onNodeEnd<i>_<g>.dot] for a counter value [i] of
    the run, and each line it adds to [std::cerr] reports such a name;
    the counter never decreases. *)
Theorem tracker_snapshots storage nodes t t' ls :
  print net order = Ok ls →
  walk_nodes (cutCallVisitor T storage) nodes t = Ok t' →
  snapshot_ok subCatalog t t' ls.
Proof.
  intros Hp. apply (walk_nodes_inv _ (λ u, snapshot_ok subCatalog t u ls)); [|apply snapshot_ok_refl].
  intros n u f u' Hu Hc. by eapply snapshot_ok_step.
Qed.
End Properties.

(** ** Scenarios *)

(** A visitor that records the nodes it ends. *)
Definition recorder : CutVisitor (list GateId) :=
  {| cv_visitor := {| onNodeBegin := λ _ s, Ok (CONTINUE, s);
                      onNodeEnd := λ n s, Ok (CONTINUE, (s ++ [n])%list) |};
     onCut := λ _ _ s, Ok (CONTINUE, s) |}.

Definition tracker_and : CutVisitor (Tracker (list GateId)) :=
  tracker net_and [1; 2; 3] (λ _, true) "logs" recorder.

Definition tracker0 : Tracker (list GateId) := mkTracker [] 0 fs0.

(** The printout of [a AND b]. *)
Definition and_lines : list string :=
  ["digraph substNet {"; tab +:+ "IN1 -> AND3;"; tab +:+ "IN2 -> AND3;"; tab +:+ "AND3;"; "}"].

(** Walking [a AND b] with the tracker writes one snapshot per node,
    named by the counter and the node. *)
Example tracker_and_scenario :
  walk_nodes (cutCallVisitor tracker_and None) [1; 2; 3] tracker0 =
    Ok (mkTracker [1; 2; 3] 3 (mkFS {[ "logs/onNodeEnd0_1.dot" := and_lines;
                                       "logs/onNodeEnd1_2.dot" := and_lines;
                                       "logs/onNodeEnd2_3.dot" := and_lines ]} [])).
Proof. vm_compute. reflexivity. Qed.

Lemma tracker_walk_sim_witness :
  ∃ t', walk_nodes (cutCallVisitor tracker_and None) [1; 2; 3] tracker0 = Ok t' ∧ inner t' = [1; 2; 3].
Proof.
  exact (proj2 (tracker_walk_sim net_and [1; 2; 3] (λ _, true) "logs" recorder None [1; 2; 3] tracker0)
    [1; 2; 3] (ex_intro (λ ls, print net_and [1; 2; 3] = Ok ls) and_lines ltac:(vm_compute; reflexivity))
    ltac:(unfold INT_MAX; simpl; lia)
    ltac:(vm_compute; reflexivity)).
Defined.

Lemma tracker_snapshots_witness :
  snapshot_ok "logs" tracker0
    (mkTracker [1; 2; 3] 3 (mkFS {[ "logs/onNodeEnd0_1.dot" := and_lines;
                                    "logs/onNodeEnd1_2.dot" := and_lines;
                                    "logs/onNodeEnd2_3.dot" := and_lines ]} [])) and_lines.
Proof.
  exact (tracker_snapshots net_and [1; 2; 3] (λ _, true) "logs" recorder None [1; 2; 3] tracker0 _ and_lines
    ltac:(vm_compute; reflexivity) ltac:(vm_compute; reflexivity)).
Defined.
