(* ===== verification/Reports.v ===== *)
(** * Text reports of the collectors

    [NPNCollector::printGateStatistics] and
    [NPNCollector::printHistogramData] ([npn/npn_collector.cpp]) and
    [PlainParametersCollector::printParameters]
    ([plain_parameters_collector.cpp]).  A stream is the string written
    to it.  Writing an [int] that was never assigned reads an
    indeterminate value, which is undefined ([Undef]); the [double]s of
    a [SumStruct] are always assigned.  The text of
    a [double] ([std::ostream]'s formatting) is a parameter
    [show_double]; the text of a [GateSymbol] is its name ([gs_name]),
    since [operator<<] for it is in [gate/model/gsymbol.h], not under
    [src/]. *)

From Stdlib Require Import Floats.
From stdpp Require Import strings pretty.
From S2P Require Import Prelude Gnet CutStorage CutsFinder TruthTable Npn Params Dot.

Local Open Scope string_scope.

(** ["\n"] *)
Definition eol : string := String (Ascii.ascii_of_nat 10) EmptyString.

(** ** [NPNCollector::printGateStatistics] *)

Section Npn.
Context (net : GNet).

(** One [NPNStats] line; its heights are read. *)
Definition print_npn_stat (r : NPNStats) : Result string :=
  mx ← of_option (maxHeight r);
  mn ← of_option (minHeight r);
  Ok (tab +:+ "NPN Class: " +:+ pretty (npnClass r) +:+ ", Max height: " +:+ pretty mx
      +:+ ", Min height: " +:+ pretty mn +:+ eol).

(** The block of one gate: [Gate::get(gateId)->func()], the id, the cut
    count, the records and an empty line. *)
Definition print_gate_stats (p : GateId * GateStats) : Result string :=
  g ← gate_get net p.1;
  lines ← mapM print_npn_stat (npnClassInfo p.2);
  Ok ("Gate : " +:+ gs_name (func g) +:+ pretty p.1 +:+ eol +:+
      tab +:+ "Number of Cuts: " +:+ pretty (numberOfCuts p.2) +:+ eol +:+
      String.concat EmptyString lines +:+ eol).

(** [NPNCollector::printGateStatistics], over [gateStatsMap] in its
    iteration order. *)
Definition printGateStatistics (c : Collector) : Result string :=
  blocks ← mapM print_gate_stats (map_to_list (gateStatsMap c));
  Ok (String.concat EmptyString blocks).
End Npn.

(** ** [NPNCollector::printHistogramData] *)

Section Histogram.
(** The text of a [double] written to a stream. *)
Context (show_double : float → string).

Definition histogram_header : string :=
  "NPN Class;Count;MaxHeightA;MaxHeightD;MinHeightA;MinHeightD" +:+ eol.

(** One line of a class; its doubles are the [-1] of the default member
    initializers or the results of [calculateAverageAndDeviation], so
    they are always written. *)
Definition print_histogram_line (p : Z * SumStruct) : string :=
  pretty p.1 +:+ ";" +:+ pretty (length (count p.2)) +:+ ";" +:+ show_double (maxHeightA p.2) +:+ ";" +:+
  show_double (maxHeightD p.2) +:+ ";" +:+ show_double (minHeightA p.2) +:+ ";" +:+
  show_double (minHeightD p.2) +:+ eol.

(** [NPNCollector::printHistogramData], over [npnStatistics] in its
    iteration order. *)
Definition printHistogramData (c : Collector) : string :=
  histogram_header +:+ String.concat EmptyString (print_histogram_line <$> map_to_list (npnStatistics c)).
End Histogram.

(** ** [PlainParametersCollector::printParameters] *)

Definition printParameters (p : PlainParameters) : string :=
  "Number of Inputs: " +:+ pretty (numInputs p) +:+ eol +:+
  "Number of Outputs: " +:+ pretty (numOutputs p) +:+ eol +:+
  "Number of Gates: " +:+ pretty (numGates p) +:+ eol +:+
  "Number of And Gates: " +:+ pretty (numAnds p) +:+ eol +:+
  "Number of Inverted Edges: " +:+ pretty (numInvertedEdges p) +:+ eol +:+
  "Longest Path: " +:+ pretty (longestPath p) +:+ eol.

(** ** Lemmas *)

(** The records of [gateStatsMap] have indeterminate heights while
    [collectHeight] is unset. *)
Definition gate_heights_inv (c : Collector) : Prop :=
  collectHeight c = false ∧ map_Forall (λ _ gs, heights_none (npnClassInfo gs)) (gateStatsMap c).

Lemma process_gate_heights `{NPNCanonizer 6} net fuel base topo K M c :
  process_collect net fuel base topo K M collector0 = Ok c → gate_heights_inv c.
Proof.
  apply (process_collect_inv net fuel base).
  - intros storage g cs cut c1 r _ _ _ _ [Hh Hm] Hf.
    destruct (fillNPNStats_heights net fuel base c1 cut g r Hh Hf) as [Hmn Hmx].
    split; [exact Hh|]. rewrite gateStats_add. apply map_Forall_insert_2; [|done]. simpl.
    apply Forall_app. split; [|by repeat constructor].
    destruct (gateStatsMap c1 !! g) as [gs|] eqn:E; simpl; [exact (Hm _ _ E)|constructor].
  - split; [done|apply map_Forall_empty].
Qed.

Lemma print_npn_stat_fuel r : print_npn_stat r ≠ OutOfFuel.
Proof. unfold print_npn_stat. by destruct (maxHeight r), (minHeight r). Qed.

Lemma print_gate_stats_fuel net p : print_gate_stats net p ≠ OutOfFuel.
Proof.
  unfold print_gate_stats, gate_get. destruct (net !! p.1); simpl; [|done].
  pose proof (mapM_fuel _ (npnClassInfo p.2) print_npn_stat_fuel).
  by destruct (mapM print_npn_stat _).
Qed.

(** A gate with a record whose heights were never written makes its
    block undefined. *)
Lemma print_gate_stats_undef net p :
  npnClassInfo p.2 ≠ [] → heights_none (npnClassInfo p.2) → print_gate_stats net p = Undef.
Proof.
  intros Hne Hh. destruct (npnClassInfo p.2) as [|r rs] eqn:E; [done|].
  apply Forall_cons in Hh as [[_ Hmx] _].
  unfold print_gate_stats, gate_get. destruct (net !! p.1); simpl; [|done].
  rewrite E, (mapM_Undef _ (r :: rs) r print_npn_stat_fuel); [done|by left|].
  unfold print_npn_stat. by rewrite Hmx.
Qed.

(** ** Properties *)

(** C40. Nothing sets [collectHeight], so after the collection of
    [process] the gate report reads unwritten heights:
    [printGateStatistics] is undefined as soon as one gate has a record;
    and when [process] does finish, no class was recorded and the
    histogram is its header alone, whatever the formatting of doubles. *)
Theorem process_reports_undef `{NPNCanonizer 6} net fuel base topo K M c show_double :
  process_collect net fuel base topo K M collector0 = Ok c →
  ((∃ g gs, gateStatsMap c !! g = Some gs ∧ npnClassInfo gs ≠ []) → printGateStatistics net c = Undef) ∧
  (∀ c', process net fuel base topo K M collector0 = Ok c' → printHistogramData show_double c' = histogram_header).
Proof.
  intros Hrun. split.
  - intros (g & gs & Hg & Hne). destruct (process_gate_heights net fuel base topo K M c Hrun) as [_ Hm].
    unfold printGateStatistics.
    rewrite (mapM_Undef _ _ (g, gs) (print_gate_stats_fuel net)); [done|by apply elem_of_map_to_list|].
    apply print_gate_stats_undef; [done|exact (Hm _ _ Hg)].
  - intros c'. rewrite (process_averages_collect net fuel base topo K M c Hrun).
    case_bool_decide as He; [intros [= <-]|done].
    unfold printHistogramData. rewrite He, map_to_list_empty. reflexivity.
Qed.

(** ** Scenarios *)

(** The parameters report of the two-level AND tree. *)
Example printParameters_tree :
  printParameters (collect net_tree [1; 2; 3; 4; 5; 6; 7] params0) =
    "Number of Inputs: 4" +:+ eol +:+ "Number of Outputs: 0" +:+ eol +:+ "Number of Gates: 7" +:+ eol +:+
    "Number of And Gates: 3" +:+ eol +:+ "Number of Inverted Edges: 0" +:+ eol +:+ "Longest Path: 2" +:+ eol.
Proof. vm_compute. reflexivity. Qed.

Lemma process_reports_undef_witness :
  process_collect net_tree 100 100 [1; 2; 3; 4; 5; 6; 7] 2 ALL_CUTS collector0 = Ok collector_tree ∧
  printGateStatistics net_tree collector_tree = Undef.
Proof.
  pose proof (process_reports_undef net_tree 100 100 [1; 2; 3; 4; 5; 6; 7] 2 ALL_CUTS collector_tree
    (λ _, EmptyString) process_tree) as [Hg _].
  split; [exact process_tree|].
  apply Hg. exists 5, (default gate_stats0 (gateStatsMap collector_tree !! 5)).
  split; [vm_compute; reflexivity|vm_compute; discriminate].
Defined.

(** The histogram of the two-level AND tree after its collection. *)
Example printHistogramData_tree :
  printHistogramData (λ _, "-1") collector_tree =
    histogram_header +:+ "1;3;-1;-1;-1;-1" +:+ eol.
Proof. vm_compute. reflexivity. Qed.
